(** * TinyFlow torch session: executor lifecycle and caching

    A shallow embedding of [src/torch_session.cc]: the shared variable
    states ([VarState]), the executor ([TorchExecutor]) with its three
    setup phases, and the session ([TorchSession]) with its one-entry
    executor cache.

    Conventions of the embedding.
    - Lua references ([LuaRef]) are handles into a store of backend
      objects; [None] is the nil reference.  Tensor objects and storage
      buffers live in two tables of the [World]; nothing is ever freed.
    - [std::shared_ptr<VarState>] and [VarState*] are addresses into the
      table [vstore] of the [World]; the session map [states_] sends a
      variable name to such an address.
    - A failed [CHECK], a [LOG(FATAL)] and a C++ exception end the call:
      every operation returns a [Result]; the state after a failed call
      is not modelled.
    - The [World] carries a [trace] of the calls made to the external
      passes and of the phases entered.  It is ghost state used to
      observe which phases ran. *)

From Stdlib Require Import ZArith NArith String List Lia.
From stdpp Require Import base option list gmap strings.

Open Scope Z_scope.
Open Scope nat_scope.

(** ** Results and errors *)

Inductive Error : Type :=
| CheckFailed (cond msg : string)  (* dmlc CHECK(cond) << msg *)
| LogFatal (msg : string)          (* LOG(FATAL) << msg *)
| OutOfRange                       (* std::out_of_range thrown by at() *)
| Undef                            (* operator[] outside a vector, null or dangling pointer *)
| LuaError                         (* error raised inside the Lua backend *)
| PassError.                       (* error raised inside nnvm: a pass, or GetAttr of a missing attribute *)

Inductive Result (A : Type) : Type :=
| Ok (a : A)
| Err (e : Error).
Arguments Ok {A} a.
Arguments Err {A} e.

#[global] Instance Error_eq_dec : EqDecision Error.
Proof. solve_decision. Defined.

(** ** Shapes, blobs and backend objects *)

(** Modelled from the spec: [nnvm::TShape] (declared outside src/) is the
    list of dimensions; [Size()] is their product in [size_t]. *)
Definition TShape : Type := list N.

Definition size_t_wrap (n : N) : N := (n mod 2 ^ 64)%N.

Definition shape_size (s : TShape) : N :=
  fold_left (fun acc d => size_t_wrap (acc * d)) s 1%N.

(** Modelled from the spec: [TBlob] (declared in tinyflow/base.h, outside
    src/) describes a tensor: data pointer, shape, device and element type. *)
Record TBlob : Type := mkTBlob {
  data : option nat;
  shape : TShape;
  dev_mask : Z;
  dtype : Z
}.

#[global] Instance TBlob_eq_dec : EqDecision TBlob.
Proof. solve_decision. Defined.

(** A Lua reference; [None] is nil. *)
Definition LuaRef : Type := option nat.

Definition is_nil (r : LuaRef) : bool :=
  match r with None => true | Some _ => false end.

(** A backend tensor object: the storage it is bound to, and its descriptor. *)
Record Tensor : Type := mkTensor {
  t_storage : option nat;
  t_shape : TShape;
  t_dev : Z;
  t_dtype : Z
}.

(** A backend storage buffer of [s_size] elements. *)
Record Storage : Type := mkStorage {
  s_size : N;
  s_dev : Z;
  s_dtype : Z
}.

(** ** Variable states *)

Record VarState : Type := mkVarState {
  tensor : LuaRef;
  blob : TBlob
}.

Definition initialized (v : VarState) : bool := negb (is_nil (tensor v)).

(** ** The world: backend heap, variable states, trace *)

Inductive Event : Type :=
| EvInit                       (* TorchExecutor::Init entered *)
| EvInferPasses                (* ApplyPasses {InferShape, InferType} *)
| EvPlanMemory                 (* ApplyPass PlanMemory *)
| EvSetupStorage               (* SetupStorage entered *)
| EvSetupOpExecs               (* SetupOpExecs entered *)
| EvClosure (nid : nat)        (* op_execs_[nid]() *)
| EvCopy (src dst : nat).      (* CopyFromTo between two tensors *)

#[global] Instance Event_eq_dec : EqDecision Event.
Proof. solve_decision. Defined.

Record World : Type := mkWorld {
  tensors : list Tensor;
  storages : list Storage;
  vstore : list VarState;
  trace : list Event
}.

(** Computations over the world that may fail. *)
Definition M (A : Type) : Type := World -> Result (A * World).

Definition ret {A} (a : A) : M A := fun w => Ok (a, w).

Definition fail {A} (e : Error) : M A := fun _ => Err e.

Definition bind {A B} (c : M A) (k : A -> M B) : M B :=
  fun w => match c w with
           | Ok (a, w') => k a w'
           | Err e => Err e
           end.

Notation "'let*' x ':=' c 'in' k" := (bind c (fun x => k))
  (at level 10, x pattern, c at level 100, k at level 200).

Definition check (b : bool) (cond msg : string) : M unit :=
  if b then ret tt else fail (CheckFailed cond msg).

Definition log (e : Event) : M unit :=
  fun w => Ok (tt, mkWorld (tensors w) (storages w) (vstore w) (e :: trace w)).

(** [for (x : xs) body], threading an accumulator. *)
Fixpoint foldM {A S} (body : A -> S -> M S) (xs : list A) (s : S) : M S :=
  match xs with
  | [] => ret s
  | x :: xs' => let* s' := body x s in foldM body xs' s'
  end.

(** [v.at(i)]: throws [std::out_of_range] outside the vector. *)
Definition at_ {A} (v : list A) (i : nat) : M A :=
  match v !! i with
  | Some x => ret x
  | None => fail OutOfRange
  end.

(** [v[i]]: undefined outside the vector. *)
Definition idx_ {A} (v : list A) (i : nat) : M A :=
  match v !! i with
  | Some x => ret x
  | None => fail Undef
  end.

(** [v[i] = x] *)
Definition set_ {A} (v : list A) (i : nat) (x : A) : M (list A) :=
  if decide (i < length v) then ret (<[i := x]> v) else fail Undef.

(** ** The torch backend ([TorchState], declared in torch_util.h) *)

(** Modelled from the spec: [TorchState::NewTensorEmpty] constructs an
    empty tensor handle on a given device and type. *)
Definition NewTensorEmpty (dev dty : Z) : M nat :=
  fun w => Ok (length (tensors w),
               mkWorld (tensors w ++ [mkTensor None [] dev dty])
                       (storages w) (vstore w) (trace w)).

(** Modelled from the spec: [TorchState::NewStorage] allocates a storage
    buffer of [n] elements on a given device and type. *)
Definition NewStorage (n : N) (dev dty : Z) : M nat :=
  fun w => Ok (length (storages w),
               mkWorld (tensors w) (storages w ++ [mkStorage n dev dty])
                       (vstore w) (trace w)).

(** Modelled from the spec: [TorchState::ResetStorage] binds a tensor
    handle to a storage buffer with a given shape. *)
Definition ResetStorage (t : LuaRef) (s : nat) (shp : TShape) : M unit :=
  fun w =>
    match t with
    | None => Err LuaError
    | Some h =>
      match tensors w !! h, storages w !! s with
      | Some _, Some so =>
        Ok (tt, mkWorld (<[h := mkTensor (Some s) shp (s_dev so) (s_dtype so)]> (tensors w))
                        (storages w) (vstore w) (trace w))
      | _, _ => Err Undef
      end
    end.

(** Modelled from the spec: [TorchState::GetTBlob] reads back the shape,
    device and type descriptor of a tensor handle. *)
Definition GetTBlob (t : LuaRef) : M TBlob :=
  fun w =>
    match t with
    | None => Err LuaError
    | Some h =>
      match tensors w !! h with
      | Some o => Ok (mkTBlob (t_storage o) (t_shape o) (t_dev o) (t_dtype o), w)
      | None => Err Undef
      end
    end.

(** Modelled from the spec: [TorchState::NewTensorShared] wraps an
    external blob in a tensor handle without copying. *)
Definition NewTensorShared (b : TBlob) : M nat :=
  fun w => Ok (length (tensors w),
               mkWorld (tensors w ++ [mkTensor (data b) (shape b) (dev_mask b) (dtype b)])
                       (storages w) (vstore w) (trace w)).

(** Modelled from the spec: [TorchState::CopyFromTo] copies values
    between two tensor handles; the values themselves are not modelled. *)
Definition CopyFromTo (src dst : LuaRef) : M unit :=
  match src, dst with
  | Some a, Some b => log (EvCopy a b)
  | _, _ => fail LuaError
  end.

(** ** VarState::ResetSpace *)

Definition ResetSpace (v : VarState) (shp : TShape) (dev dty : Z) : M VarState :=
  if is_nil (tensor v)
     || negb (bool_decide (shp = shape (blob v)))
     || negb (bool_decide (dev = dev_mask (blob v)))
     || negb (bool_decide (dty = dtype (blob v)))
  then
    let* t := (match tensor v with
               | None => let* h := NewTensorEmpty dev dty in ret (Some h)
               | Some h => ret (Some h)
               end) in
    let* s := NewStorage (shape_size shp) dev dty in
    let* _ := ResetStorage t s shp in
    let* b := GetTBlob t in
    ret (mkVarState t b)
  else ret v.

(** [state->ResetSpace(...)] through a pointer into [vstore]. *)
Definition ResetSpace_at (a : nat) (shp : TShape) (dev dty : Z) : M unit :=
  fun w =>
    match vstore w !! a with
    | None => Err Undef
    | Some v =>
      match ResetSpace v shp dev dty w with
      | Ok (v', w') =>
        Ok (tt, mkWorld (tensors w') (storages w') (<[a := v']> (vstore w')) (trace w'))
      | Err e => Err e
      end
    end.

(** ** Graphs *)

(** Operators are registered by name; [Op::Get(name)] returns the one
    operator of that name, so operator identity is equality of names. *)
Definition Op : Type := string.
Definition assign_op : Op := "assign"%string.
Definition placeholder_op : Op := "placeholder"%string.

(** Modelled from the spec: [nnvm::IndexedGraph] (declared outside src/),
    the topological index of a graph: per node its operator ([None] for a
    variable node), name, inputs and number of outputs; the ordered graph
    outputs; the linear entry id of a (node, output-slot) pair. *)
Record NodeEntry : Type := mkNodeEntry {
  node_id : nat;
  index : nat;
  version : nat
}.

Record INode : Type := mkINode {
  op : option Op;
  name : string;
  inputs : list NodeEntry;
  num_outputs : nat
}.

Record IndexedGraph : Type := mkIndexedGraph {
  idx_nodes : list INode;
  idx_outputs : list NodeEntry
}.

(** Modelled from the spec: [nnvm::Node::is_variable()] (declared
    outside src/): a variable node is a node without operator. *)
Definition is_variable (n : INode) : bool :=
  match op n with None => true | Some _ => false end.

(** Modelled from the spec: [IndexedGraph::num_nodes()], the node count. *)
Definition num_nodes (idx : IndexedGraph) : nat := length (idx_nodes idx).

(** Modelled from the spec: [nnvm::Node::num_outputs()] (declared outside
    src/); a variable node has one output. *)
Definition node_num_outputs (n : INode) : nat :=
  if is_variable n then 1 else num_outputs n.

(** Modelled from the spec: [IndexedGraph::entry_id(nid, i)], the linear
    slot index of output [i] of node [nid]: the outputs of the nodes are
    numbered in node order. *)
Definition entry_id (idx : IndexedGraph) (nid i : nat) : nat :=
  list_sum (map node_num_outputs (take nid (idx_nodes idx))) + i.

(** Modelled from the spec: [IndexedGraph::num_node_entries()]. *)
Definition num_node_entries (idx : IndexedGraph) : nat :=
  list_sum (map node_num_outputs (idx_nodes idx)).

Definition is_variable_at (idx : IndexedGraph) (nid : nat) : bool :=
  match idx_nodes idx !! nid with
  | Some n => is_variable n
  | None => false
  end.

(** Modelled from the spec: [IndexedGraph::input_nodes()], the ordered
    list of the input (variable) nodes. *)
Definition input_nodes (idx : IndexedGraph) : list nat :=
  List.filter (is_variable_at idx) (seq 0 (num_nodes idx)).

(** Modelled from the spec: [nnvm::NodeEntry] (declared outside src/), an
    output of a symbol: the node (by identity), the output index of that
    node and the version of the node. *)
Record SymEntry : Type := mkSymEntry {
  node : nat;
  sym_index : nat;
  sym_version : nat
}.

#[global] Instance SymEntry_eq_dec : EqDecision SymEntry.
Proof. solve_decision. Defined.

(** Modelled from the spec: [nnvm::Symbol] (declared outside src/): its
    output list, and the indexed graph that [Graph::indexed_graph()]
    builds for a graph with these outputs. *)
Record Symbol : Type := mkSymbol {
  outputs : list SymEntry;
  indexed_graph : IndexedGraph
}.

(** ** The environment: constants, passes and registry outside src/ *)

Record InferOut : Type := mkInferOut {
  inf_shape : list TShape;
  inf_dtype : list Z;
  shape_num_unknown_nodes : nat;
  dtype_num_unknown_nodes : nat
}.

Record Closure : Type := mkClosure {
  c_code : string;
  c_ins : list LuaRef;
  c_outs : list LuaRef
}.

Record Env : Type := mkEnv {
  (* device mask of the CPU, tinyflow/base.h *)
  kCPU : Z;
  (* a default-constructed TBlob *)
  default_blob : TBlob;
  (* the default dtype argument of the TorchState constructors, torch_util.h *)
  default_dtype : Z;
  (* ApplyPasses {InferShape, InferType} on the seeded shape and dtype
     vectors; [None] when a pass raises *)
  infer_passes : IndexedGraph -> list TShape -> list Z -> option InferOut;
  (* ApplyPass PlanMemory: the storage_id vector; [None] when it raises *)
  plan_memory : IndexedGraph -> list TShape -> list Z -> option (list Z);
  (* the FLuaComputeCode attribute of an operator, when registered *)
  lua_compute_code : Op -> option string;
  (* LuaState::Eval of a chunk: [None] when it succeeds, the text of the
     error it raises otherwise *)
  lua_eval : string -> option string;
  (* whether invoking a compiled closure succeeds *)
  closure_run : Closure -> bool
}.

(** ** The executor *)

(** The members of [TorchExecutor].  [graph_] is the indexed graph of the
    member of that name, [graph_storage_id] its attribute "storage_id";
    [node_shape_] and [node_dtype_] hold the vectors that the two
    pointers of these names point to, [None] for [nullptr]; an entry of
    [node_states_] is the address of a variable state, [None] for
    [nullptr]. *)
Record TorchExecutor : Type := mkExec {
  symbol_ : Symbol;
  graph_ : IndexedGraph;
  graph_storage_id : option (list Z);
  node_shape_ : option (list TShape);
  node_dtype_ : option (list Z);
  dev_mask_ : Z;
  placeholder_nids_ : list nat;
  assign_var_nids_ : list nat;
  read_var_nids_ : list nat;
  node_states_ : list (option nat);
  data_entry_ : list LuaRef;
  data_entry_is_var_ : list bool;
  storage_pool_ : list nat;
  op_execs_ : list (option Closure);
  outputs_ : list LuaRef;
  output_blobs_ : list TBlob
}.

(** The executor with some of its members written. *)
Definition with_infer (ex : TorchExecutor) (sh : list TShape) (dt : list Z) : TorchExecutor :=
  mkExec (symbol_ ex) (graph_ ex) (graph_storage_id ex) (Some sh) (Some dt)
         (dev_mask_ ex) (placeholder_nids_ ex) (assign_var_nids_ ex) (read_var_nids_ ex)
         (node_states_ ex)
         (data_entry_ ex) (data_entry_is_var_ ex) (storage_pool_ ex) (op_execs_ ex)
         (outputs_ ex) (output_blobs_ ex).

Definition with_storage_id (ex : TorchExecutor) (sid : list Z) : TorchExecutor :=
  mkExec (symbol_ ex) (graph_ ex) (Some sid) (node_shape_ ex) (node_dtype_ ex)
         (dev_mask_ ex) (placeholder_nids_ ex) (assign_var_nids_ ex) (read_var_nids_ ex)
         (node_states_ ex)
         (data_entry_ ex) (data_entry_is_var_ ex) (storage_pool_ ex) (op_execs_ ex)
         (outputs_ ex) (output_blobs_ ex).

Definition with_data_entry (ex : TorchExecutor) (de : list LuaRef) (iv : list bool)
  : TorchExecutor :=
  mkExec (symbol_ ex) (graph_ ex) (graph_storage_id ex) (node_shape_ ex) (node_dtype_ ex)
         (dev_mask_ ex) (placeholder_nids_ ex) (assign_var_nids_ ex) (read_var_nids_ ex)
         (node_states_ ex)
         de iv (storage_pool_ ex) (op_execs_ ex)
         (outputs_ ex) (output_blobs_ ex).

Definition with_storage_pool (ex : TorchExecutor) (sp : list nat) : TorchExecutor :=
  mkExec (symbol_ ex) (graph_ ex) (graph_storage_id ex) (node_shape_ ex) (node_dtype_ ex)
         (dev_mask_ ex) (placeholder_nids_ ex) (assign_var_nids_ ex) (read_var_nids_ ex)
         (node_states_ ex)
         (data_entry_ ex) (data_entry_is_var_ ex) sp (op_execs_ ex)
         (outputs_ ex) (output_blobs_ ex).

Definition with_op_execs (ex : TorchExecutor) (oe : list (option Closure)) : TorchExecutor :=
  mkExec (symbol_ ex) (graph_ ex) (graph_storage_id ex) (node_shape_ ex) (node_dtype_ ex)
         (dev_mask_ ex) (placeholder_nids_ ex) (assign_var_nids_ ex) (read_var_nids_ ex)
         (node_states_ ex)
         (data_entry_ ex) (data_entry_is_var_ ex) (storage_pool_ ex) oe
         (outputs_ ex) (output_blobs_ ex).

Definition with_outputs (ex : TorchExecutor) (o : list LuaRef) : TorchExecutor :=
  mkExec (symbol_ ex) (graph_ ex) (graph_storage_id ex) (node_shape_ ex) (node_dtype_ ex)
         (dev_mask_ ex) (placeholder_nids_ ex) (assign_var_nids_ ex) (read_var_nids_ ex)
         (node_states_ ex)
         (data_entry_ ex) (data_entry_is_var_ ex) (storage_pool_ ex) (op_execs_ ex)
         o (output_blobs_ ex).

Definition with_output_blobs (ex : TorchExecutor) (ob : list TBlob) : TorchExecutor :=
  mkExec (symbol_ ex) (graph_ ex) (graph_storage_id ex) (node_shape_ ex) (node_dtype_ ex)
         (dev_mask_ ex) (placeholder_nids_ ex) (assign_var_nids_ ex) (read_var_nids_ ex)
         (node_states_ ex)
         (data_entry_ ex) (data_entry_is_var_ ex) (storage_pool_ ex) (op_execs_ ex)
         (outputs_ ex) ob.

(** The shared variable map: name to the address of its [VarState]. *)
Abbreviation VarStateMap := (gmap string nat).

(** [v.resize(n, d)] *)
Definition resize {A} (v : list A) (n : nat) (d : A) : list A :=
  take n v ++ replicate (n - length v) d.

(** Wrap-around of a C [int]. *)
Definition int_wrap (z : Z) : Z := ((z + 2 ^ 31) mod 2 ^ 32 - 2 ^ 31)%Z.

(** [++count[i]] on a vector of [int] *)
Definition incr (v : list Z) (i : nat) : M (list Z) :=
  let* c := idx_ v i in set_ v i (int_wrap (c + 1)).

Section Executor.

Context (E : Env).

(** A default-constructed executor. *)
Definition new_executor : TorchExecutor :=
  mkExec (mkSymbol [] (mkIndexedGraph [] [])) (mkIndexedGraph [] []) None None None
         (kCPU E) [] [] [] [] [] [] [] [] [] [].

(** ** TorchExecutor::Init *)

(** The locals and members that the scan of [Init] updates. *)
Record InitScan : Type := mkInitScan {
  sc_states : VarStateMap;
  sc_read_count : list Z;
  sc_assign_count : list Z;
  sc_placeholder : list nat;
  sc_assign_var : list nat;
  sc_read_var : list nat;
  sc_node_states : list (option nat)
}.

(** The address of the state named [key], created first when the map
    has none: [states->count(key) == 0], [make_shared<VarState>()],
    [states->at(key).get()]. *)
Definition state_of (key : string) (states : VarStateMap) : M (VarStateMap * nat) :=
  match states !! key with
  | Some a => ret (states, a)
  | None =>
    fun w => Ok ((<[key := length (vstore w)]> states, length (vstore w)),
                 mkWorld (tensors w) (storages w)
                         (vstore w ++ [mkVarState None (default_blob E)]) (trace w))
  end.

(** The body of the loop of [Init] at node [nid]. *)
Definition Init_visit (idx : IndexedGraph) (nid : nat) (s : InitScan) : M InitScan :=
  let* inode := idx_ (idx_nodes idx) nid in
  if is_variable inode then
    let* (states, a) := state_of (name inode) (sc_states s) in
    let* ns := set_ (sc_node_states s) nid (Some a) in
    let* rc := idx_ (sc_read_count s) nid in
    let* ac := idx_ (sc_assign_count s) nid in
    ret (mkInitScan states (sc_read_count s) (sc_assign_count s) (sc_placeholder s)
           (if bool_decide (ac = 0%Z) then sc_assign_var s else sc_assign_var s ++ [nid])
           (if bool_decide (rc = 0%Z) then sc_read_var s else sc_read_var s ++ [nid])
           ns)
  else if bool_decide (op inode = Some placeholder_op) then
    ret (mkInitScan (sc_states s) (sc_read_count s) (sc_assign_count s)
           (sc_placeholder s ++ [nid]) (sc_assign_var s) (sc_read_var s) (sc_node_states s))
  else if bool_decide (op inode = Some assign_op) then
    let* _ := check (bool_decide (length (inputs inode) = 2)) "inode.inputs.size() == 2" "" in
    let* e := idx_ (inputs inode) 0 in
    let* rc := incr (sc_read_count s) (node_id e) in
    let* ac := incr (sc_assign_count s) (node_id e) in
    ret (mkInitScan (sc_states s) rc ac
           (sc_placeholder s) (sc_assign_var s) (sc_read_var s) (sc_node_states s))
  else
    let* rc := foldM (fun e rc => incr rc (node_id e)) (inputs inode) (sc_read_count s) in
    ret (mkInitScan (sc_states s) rc (sc_assign_count s)
           (sc_placeholder s) (sc_assign_var s) (sc_read_var s) (sc_node_states s)).

(** [Init] as [TorchSession::Run] calls it, on the executor that it has
    just made: [graph_.indexed_graph()] then builds the index of the
    outputs just assigned, which is [indexed_graph symbol].  On an
    executor whose graph has an index already, the code would go on with
    that index; the program makes no such call, and the embedding does
    not describe it. *)
Definition Init (ex : TorchExecutor) (symbol : Symbol) (states : VarStateMap)
  : M (TorchExecutor * VarStateMap) :=
  let* _ := log EvInit in
  let idx := indexed_graph symbol in
  let n := num_nodes idx in
  let s0 := mkInitScan states (replicate n 0%Z) (replicate n 0%Z)
              (placeholder_nids_ ex) (assign_var_nids_ ex) (read_var_nids_ ex)
              (resize (node_states_ ex) n None) in
  let* s := foldM (Init_visit idx) (rev (seq 0 n)) s0 in
  ret (mkExec symbol idx (graph_storage_id ex) (node_shape_ ex) (node_dtype_ ex)
         (dev_mask_ ex) (sc_placeholder s) (sc_assign_var s) (sc_read_var s)
         (sc_node_states s)
         (data_entry_ ex) (data_entry_is_var_ ex) (storage_pool_ ex) (op_execs_ ex)
         (outputs_ ex) (output_blobs_ ex),
       sc_states s).

(** ** TorchExecutor::SetupShapeDType *)

(** [*state] for a [VarState*] *)
Definition load (a : nat) : M VarState :=
  fun w => match vstore w !! a with
           | Some v => Ok (v, w)
           | None => Err Undef
           end.

(** [inputs.at(key)] *)
Definition map_at (inputs : gmap string TBlob) (key : string) : M TBlob :=
  match inputs !! key with
  | Some b => ret b
  | None => fail OutOfRange
  end.

Definition msg_uninit : string := "Attempt to execute a graph un-initialized Variable".
Definition msg_feed : string := "Not enought placeholder argument to feed_dict".
Definition msg_shape : string := "Shape information in the graph is in-complete".
Definition msg_type : string := "Type information in the graph is in-complete".

(** The loop over [read_var_nids_] that checks the variable states; the
    result is [need_redo_infer], [true] standing for the [break]. *)
Fixpoint check_read_vars (ex : TorchExecutor) (ns : list TShape) (nd : list Z)
    (nids : list nat) : M bool :=
  match nids with
  | [] => ret false
  | nid :: rest =>
    let* state := idx_ (node_states_ ex) nid in
    match state with
    | None => fail (CheckFailed "state != nullptr" "")
    | Some a =>
      let* v := load a in
      let* _ := check (initialized v) "state->initialized()" msg_uninit in
      let* s := at_ ns nid in
      if negb (bool_decide (s = shape (blob v))) then ret true else
      let* d := at_ nd nid in
      if negb (bool_decide (d = dtype (blob v))) then ret true else
      check_read_vars ex ns nd rest
    end
  end.

(** The loop over [placeholder_nids_] that checks the placeholder shapes. *)
Fixpoint check_placeholders (ex : TorchExecutor) (inputs : gmap string TBlob)
    (ns : list TShape) (nd : list Z) (nids : list nat) : M bool :=
  match nids with
  | [] => ret false
  | nid :: rest =>
    let* inode := idx_ (idx_nodes (graph_ ex)) nid in
    let key := name inode in
    let* _ := check (bool_decide (is_Some (inputs !! key))) "inputs.count(key)" msg_feed in
    let* value := map_at inputs key in
    let* s := at_ ns (entry_id (graph_ ex) nid 0) in
    if negb (bool_decide (s = shape value)) then ret true else
    let* d := at_ nd (entry_id (graph_ ex) nid 0) in
    if negb (bool_decide (d = dtype value)) then ret true else
    check_placeholders ex inputs ns nd rest
  end.

(** The value of [need_redo_infer] when the two checks are done. *)
Definition need_redo_infer (ex : TorchExecutor) (inputs : gmap string TBlob) : M bool :=
  match node_shape_ ex with
  | None => ret true
  | Some ns =>
    match node_dtype_ ex with
    | None => fail (CheckFailed "node_dtype_ != nullptr" "")
    | Some nd =>
      let* r := check_read_vars ex ns nd (read_var_nids_ ex) in
      if r then ret true
      else check_placeholders ex inputs ns nd (placeholder_nids_ ex)
    end
  end.

(** Seeding of [new_shape] and [new_dtype] from the read variables. *)
Definition seed_var (ex : TorchExecutor) (nid : nat) (sd : list TShape * list Z)
  : M (list TShape * list Z) :=
  let* state := idx_ (node_states_ ex) nid in
  match state with
  | None => fail Undef
  | Some a =>
    let* v := load a in
    let* sh := set_ (fst sd) (entry_id (graph_ ex) nid 0) (shape (blob v)) in
    let* dt := set_ (snd sd) (entry_id (graph_ ex) nid 0) (dtype (blob v)) in
    ret (sh, dt)
  end.

(** Seeding of [new_shape] and [new_dtype] from the placeholders. *)
Definition seed_placeholder (ex : TorchExecutor) (inputs : gmap string TBlob)
    (nid : nat) (sd : list TShape * list Z) : M (list TShape * list Z) :=
  let* inode := idx_ (idx_nodes (graph_ ex)) nid in
  let* value := map_at inputs (name inode) in
  let* sh := set_ (fst sd) (entry_id (graph_ ex) nid 0) (shape value) in
  let* dt := set_ (snd sd) (entry_id (graph_ ex) nid 0) (dtype value) in
  ret (sh, dt).

(** The loop over [assign_var_nids_] that sets up the variable space. *)
Definition reset_assigned (ex : TorchExecutor) (sh : list TShape) (dt : list Z)
    (nid : nat) (_ : unit) : M unit :=
  let* state := idx_ (node_states_ ex) nid in
  match state with
  | None => fail Undef
  | Some a =>
    let* s := at_ sh (entry_id (graph_ ex) nid 0) in
    let* d := at_ dt (entry_id (graph_ ex) nid 0) in
    ResetSpace_at a s (dev_mask_ ex) d
  end.

(** The part of [SetupShapeDType] after [if (!need_redo_infer) return]. *)
Definition redo_infer (ex : TorchExecutor) (inputs : gmap string TBlob) : M TorchExecutor :=
  let idx := graph_ ex in
  let new_shape := replicate (num_node_entries idx) ([] : TShape) in
  let new_dtype := replicate (num_node_entries idx) (-1)%Z in
  let* sd := foldM (seed_var ex) (read_var_nids_ ex) (new_shape, new_dtype) in
  let* sd := foldM (seed_placeholder ex inputs) (placeholder_nids_ ex) sd in
  let* _ := log EvInferPasses in
  match infer_passes E idx (fst sd) (snd sd) with
  | None => fail PassError
  | Some out =>
    let* _ := check (bool_decide (shape_num_unknown_nodes out = 0))
                    "shape_num_unknown_nodes == 0" msg_shape in
    let* _ := check (bool_decide (dtype_num_unknown_nodes out = 0))
                    "dtype_num_unknown_nodes == 0" msg_type in
    let ex' := with_infer ex (inf_shape out) (inf_dtype out) in
    let* _ := foldM (reset_assigned ex' (inf_shape out) (inf_dtype out))
                    (assign_var_nids_ ex') tt in
    ret ex'
  end.

Definition SetupShapeDType (ex : TorchExecutor) (inputs : gmap string TBlob)
  : M (TorchExecutor * bool) :=
  let* need := need_redo_infer ex inputs in
  if negb need then ret (ex, false)
  else let* ex' := redo_infer ex inputs in ret (ex', true).

(** ** TorchExecutor::SetupStorage *)

(** [graph_.GetAttr<T>(name)] *)
Definition get_attr {A} (a : option A) : M A :=
  match a with
  | Some x => ret x
  | None => fail PassError
  end.

(** One step of the loop that computes [pool_entry_size]. *)
Definition pool_size_step (iv : list bool) (vstorage : list Z) (vshape : list TShape)
    (i : nat) (pes : list N) : M (list N) :=
  let* isv := idx_ iv i in
  if isv then ret pes else
  let* storage_id := idx_ vstorage i in
  let* shp := idx_ vshape i in
  let size := shape_size shp in
  let* _ := check (bool_decide (0 <= storage_id)%Z) "storage_id >= 0"
                  "Do not support runtime shape op yet" in
  let sid := Z.to_nat storage_id in
  let pes := if bool_decide (length pes <= sid) then resize pes (sid + 1) 0%N else pes in
  let* cur := idx_ pes sid in
  set_ pes sid (N.max cur size).

(** One step of the loop that allocates [storage_pool_]. *)
Definition pool_alloc_step (dev : Z) (sz : N) (pool : list nat) : M (list nat) :=
  let* s := NewStorage sz dev (default_dtype E) in ret (pool ++ [s]).

(** [storage_pool_.at(storage_id)] with [storage_id] an [int] *)
Definition at_int {A} (v : list A) (i : Z) : M A :=
  if bool_decide (0 <= i)%Z then at_ v (Z.to_nat i) else fail OutOfRange.

(** One step of the loop that assigns pooled data to the entries. *)
Definition pool_assign_step (de : list LuaRef) (iv : list bool) (vstorage : list Z)
    (vshape : list TShape) (pool : list nat) (i : nat) (_ : unit) : M unit :=
  let* isv := idx_ iv i in
  if isv then ret tt else
  let* storage_id := idx_ vstorage i in
  let* t := idx_ de i in
  let* s := at_int pool storage_id in
  let* shp := idx_ vshape i in
  ResetStorage t s shp.

(** First allocation of [data_entry_]: a fresh tensor per entry. *)
Definition entry_alloc_step (dev : Z) (i : nat) (de : list LuaRef) : M (list LuaRef) :=
  let* t := NewTensorEmpty dev (default_dtype E) in set_ de i (Some t).

(** First allocation of [data_entry_]: the entries of the input nodes
    are the tensors of the variable states. *)
Definition entry_alias_step (ex : TorchExecutor) (nid : nat) (di : list LuaRef * list bool)
  : M (list LuaRef * list bool) :=
  let* state := idx_ (node_states_ ex) nid in
  match state with
  | None => fail (CheckFailed "node_states_[nid] != nullptr" "")
  | Some a =>
    let* v := load a in
    let* de := set_ (fst di) (entry_id (graph_ ex) nid 0) (tensor v) in
    let* iv := set_ (snd di) (entry_id (graph_ ex) nid 0) true in
    ret (de, iv)
  end.

(** One step of the loop that allocates the output tensors. *)
Definition output_alloc_step (idx : IndexedGraph) (vshape : list TShape) (i : nat)
    (outs : list LuaRef) : M (list LuaRef) :=
  let* e := idx_ (idx_outputs idx) i in
  let eid := entry_id idx (node_id e) (index e) in
  let* t := NewTensorEmpty (kCPU E) (default_dtype E) in
  let* shp := idx_ vshape eid in
  let* s := NewStorage (shape_size shp) (kCPU E) (default_dtype E) in
  let* _ := ResetStorage (Some t) s shp in
  set_ outs i (Some t).

Definition SetupStorage (ex : TorchExecutor) : M TorchExecutor :=
  let idx := graph_ ex in
  let* _ := log EvSetupStorage in
  let* ex :=
    (if bool_decide (length (storage_pool_ ex) = 0) then
       let* _ := log EvPlanMemory in
       let* sh := get_attr (node_shape_ ex) in
       let* dt := get_attr (node_dtype_ ex) in
       let* sid := get_attr (plan_memory E idx sh dt) in
       ret (with_storage_id ex sid)
     else ret ex) in
  let* vstorage := get_attr (graph_storage_id ex) in
  let* vshape := get_attr (node_shape_ ex) in
  let* ex :=
    (if bool_decide (length (data_entry_ ex) = 0) then
       let n := num_node_entries idx in
       let* de := foldM (entry_alloc_step (dev_mask_ ex)) (seq 0 n)
                        (resize (data_entry_ ex) n None) in
       let* di := foldM (entry_alias_step ex) (input_nodes idx)
                        (de, resize (data_entry_is_var_ ex) n false) in
       ret (with_data_entry ex (fst di) (snd di))
     else ret ex) in
  let* pool_entry_size :=
    foldM (pool_size_step (data_entry_is_var_ ex) vstorage vshape)
          (seq 0 (length vshape)) [] in
  let* pool := foldM (pool_alloc_step (dev_mask_ ex)) pool_entry_size [] in
  let ex := with_storage_pool ex pool in
  let* _ := foldM (pool_assign_step (data_entry_ ex) (data_entry_is_var_ ex)
                                    vstorage vshape pool)
                  (seq 0 (length (data_entry_ ex))) tt in
  let n_out := length (idx_outputs idx) in
  let* outs := foldM (output_alloc_step idx vshape) (seq 0 n_out)
                     (resize (outputs_ ex) n_out None) in
  ret (with_outputs ex outs).

(** ** TorchExecutor::SetupOpExecs *)

(** The newline character of the messages. *)
Definition nl : string := String (Ascii.ascii_of_nat 10) EmptyString.

(** [for (x : xs) out.push_back(f(x))] *)
Definition mapM {A B} (f : A -> M B) (xs : list A) : M (list B) :=
  foldM (fun x acc => let* y := f x in ret (acc ++ [y])) xs [].

Definition op_exec_step (ex : TorchExecutor) (nid : nat) (oe : list (option Closure))
  : M (list (option Closure)) :=
  let idx := graph_ ex in
  let* inode := idx_ (idx_nodes idx) nid in
  match op inode with
  | None => ret oe
  | Some o =>
    let* in_array :=
      mapM (fun e => idx_ (data_entry_ ex) (entry_id idx (node_id e) (index e)))
           (inputs inode) in
    let* out_array :=
      mapM (fun i => idx_ (data_entry_ ex) (entry_id idx nid i))
           (seq 0 (node_num_outputs inode)) in
    match lua_compute_code E o with
    | Some code =>
      let lua_str := ("return " ++ code)%string in
      match lua_eval E lua_str with
      | None => set_ oe nid (Some (mkClosure lua_str in_array out_array))
      | Some what =>
        fail (LogFatal ("Error during setuo FLuaComputeCode for " ++ o ++ nl
                        ++ "lua code" ++ nl ++ "----" ++ nl ++ lua_str
                        ++ "-----" ++ nl ++ what))
      end
    | None => fail (LogFatal ("Function FLuaCompute is not registered on " ++ o))
    end
  end.

Definition SetupOpExecs (ex : TorchExecutor) : M TorchExecutor :=
  let* _ := log EvSetupOpExecs in
  let n := num_nodes (graph_ ex) in
  let* oe := foldM (op_exec_step ex) (seq 0 n) (resize (op_execs_ ex) n None) in
  ret (with_op_execs ex oe).

(** ** TorchExecutor::Setup and TorchExecutor::Run *)

(** One step of the loop that copies the inputs. *)
Definition copy_input_step (ex : TorchExecutor) (inputs : gmap string TBlob)
    (nid : nat) (_ : unit) : M unit :=
  let* inode := idx_ (idx_nodes (graph_ ex)) nid in
  let* value := map_at inputs (name inode) in
  let* src := NewTensorShared value in
  let* dst := idx_ (data_entry_ ex) (entry_id (graph_ ex) nid 0) in
  CopyFromTo (Some src) dst.

Definition Setup (ex : TorchExecutor) (inputs : gmap string TBlob) : M TorchExecutor :=
  let* r := SetupShapeDType ex inputs in
  let* ex := (if snd r then SetupStorage (fst r) else ret (fst r)) in
  let* ex := (if bool_decide (length (op_execs_ ex) = 0) then SetupOpExecs ex else ret ex) in
  let* _ := foldM (copy_input_step ex inputs) (placeholder_nids_ ex) tt in
  ret ex.

(** One step of the loop that invokes the closures. *)
Definition run_closure_step (ex : TorchExecutor) (i : nat) (_ : unit) : M unit :=
  let* c := idx_ (op_execs_ ex) i in
  match c with
  | None => ret tt
  | Some cl =>
    let* _ := log (EvClosure i) in
    if closure_run E cl then ret tt else fail LuaError
  end.

(** One step of the loop that copies the outputs. *)
Definition copy_output_step (ex : TorchExecutor) (i : nat) (blobs : list TBlob)
  : M (list TBlob) :=
  let idx := graph_ ex in
  let* e := idx_ (idx_outputs idx) i in
  let eid := entry_id idx (node_id e) (index e) in
  let* src := idx_ (data_entry_ ex) eid in
  let* dst := idx_ (outputs_ ex) i in
  let* _ := CopyFromTo src dst in
  let* b := GetTBlob dst in
  ret (blobs ++ [b]).

Definition Run (ex : TorchExecutor) (inputs : gmap string TBlob)
  : M (list TBlob * TorchExecutor) :=
  let* ex := Setup ex inputs in
  let* _ := foldM (run_closure_step ex) (seq 0 (length (op_execs_ ex))) tt in
  let* blobs := foldM (copy_output_step ex) (seq 0 (length (outputs_ ex))) [] in
  ret (blobs, with_output_blobs ex blobs).

(** ** TorchSession *)

Record ExecEntry : Type := mkExecEntry {
  exec : TorchExecutor;
  use_count : N
}.

(** The session: the shared variable states, and the cached executors
    keyed by the address of the caller's symbol. *)
Record TorchSession : Type := mkSession {
  states_ : VarStateMap;
  cached_execs_ : gmap N ExecEntry
}.

(** The loop that compares the outputs of the cached symbol with those
    of the requested one; [true] stands for [stale_exec = true; break]. *)
Fixpoint outputs_differ (s sym : list SymEntry) : bool :=
  match s, sym with
  | a :: s', b :: sym' =>
    if negb (bool_decide (node a = node b))
       || negb (bool_decide (sym_index a = sym_index b))
       || negb (bool_decide (sym_version a = sym_version b))
    then true else outputs_differ s' sym'
  | _, _ => false
  end.

Definition stale_exec (s sym : Symbol) : bool :=
  if negb (bool_decide (length (outputs s) = length (outputs sym))) then true
  else outputs_differ (outputs s) (outputs sym).

(** [entry.exec->Run(inputs)]: the executor is shared with the cache,
    which sees its new state under [sym_ptr]. *)
Definition Session_exec_run (sym_ptr : N) (entry : ExecEntry)
    (inputs : gmap string TBlob) (s : TorchSession) : M (list TBlob * TorchSession) :=
  let* r := Run (exec entry) inputs in
  ret (fst r, mkSession (states_ s)
                (<[sym_ptr := mkExecEntry (snd r) (use_count entry)]> (cached_execs_ s))).

(** The path of [TorchSession::Run] that removes all previous executors
    and builds a new one, up to [cached_execs_[sym] = e]. *)
Definition Session_rebuild (sym_ptr : N) (sym : Symbol) (s : TorchSession)
  : M (ExecEntry * TorchSession) :=
  let* r := Init new_executor sym (states_ s) in
  let e := mkExecEntry (fst r) 0%N in
  ret (e, mkSession (snd r) {[ sym_ptr := e ]}).

Definition Session_miss (sym_ptr : N) (sym : Symbol) (inputs : gmap string TBlob)
    (s : TorchSession) : M (list TBlob * TorchSession) :=
  let* r := Session_rebuild sym_ptr sym s in
  Session_exec_run sym_ptr (fst r) inputs (snd r).

Definition Session_Run (sym_ptr : N) (sym : Symbol) (inputs : gmap string TBlob)
    (s : TorchSession) : M (list TBlob * TorchSession) :=
  match cached_execs_ s !! sym_ptr with
  | Some entry =>
    if negb (stale_exec (symbol_ (exec entry)) sym) then
      let entry := mkExecEntry (exec entry) (size_t_wrap (use_count entry + 1)) in
      Session_exec_run sym_ptr entry inputs s
    else
      (* cached_execs_.erase(sym), then the cache is cleared anyway *)
      Session_miss sym_ptr sym inputs s
  | None => Session_miss sym_ptr sym inputs s
  end.

End Executor.

(** [Session::Create]: a new torch session, whatever the requested type. *)
Definition Session_Create (type : string) : TorchSession := mkSession ∅ ∅.

(** * Properties, invariants and examples *)

(** ** Reasoning about computations *)

(** [c] relates every world it starts from to the world it ends in. *)
Definition preserves (R : relation World) {A} (c : M A) : Prop :=
  forall w a w', c w = Ok (a, w') -> R w w'.

(** [c] does not change the world. *)
Definition pure_ {A} (c : M A) : Prop :=
  forall w a w', c w = Ok (a, w') -> w' = w.

(** Every error that [c] can end with satisfies [S]. *)
Definition errs_in (S : Error -> Prop) {A} (c : M A) : Prop :=
  forall w e, c w = Err e -> S e.

(** ** Relations between worlds, and between states of the executor *)

(** One call of [ResetSpace] takes the variable state [v] to [v']. *)
Definition reset_step (v v' : VarState) : Prop :=
  exists shp dev dty w w', ResetSpace v shp dev dty w = Ok (v', w').

(** Variable states are never removed and change by [ResetSpace] only;
    storage buffers are never changed; tensor handles stay valid. *)
Record evolves (w w' : World) : Prop := mkEvolves {
  ev_vstore : forall a v, vstore w !! a = Some v ->
              exists v', vstore w' !! a = Some v' /\ rtc reset_step v v';
  ev_storages : storages w `prefix_of` storages w';
  ev_tensors : length (tensors w) <= length (tensors w')
}.

(** One step of the program on the world.  It is a call of [ResetSpace]
    on a variable state of the store, made in this world; or the creation
    of a new variable state, which has no tensor; or a step of the
    backend, which leaves the store of the variable states as it is,
    keeps every storage buffer and every tensor handle, and may add
    some. *)
Inductive world_step (E : Env) (w w' : World) : Prop :=
| step_reset (a : nat) (shp : TShape) (dev dty : Z) :
    ResetSpace_at a shp dev dty w = Ok (tt, w') -> world_step E w w'
| step_new_state :
    w' = mkWorld (tensors w) (storages w)
                 (vstore w ++ [mkVarState None (default_blob E)]) (trace w) ->
    world_step E w w'
| step_backend :
    vstore w' = vstore w ->
    storages w `prefix_of` storages w' ->
    length (tensors w) <= length (tensors w') ->
    world_step E w w'.

(** The variable state [v'] is [v], or it is what a call of [ResetSpace]
    made between the worlds [w] and [w'] leaves: it has a tensor, the
    tensor of [v] when [v] had one, and its blob describes a storage
    buffer of [w'] that [w] did not have, with as many elements as the
    shape of the blob. *)
Definition reset_result (w w' : World) (v v' : VarState) : Prop :=
  v' = v
  \/ (initialized v' = true
      /\ (forall t, tensor v = Some t -> tensor v' = Some t)
      /\ exists s,
           data (blob v') = Some s /\ length (storages w) <= s
           /\ storages w' !! s
              = Some (mkStorage (shape_size (shape (blob v')))
                                (dev_mask (blob v')) (dtype (blob v')))).

(** The condition under which [ResetSpace] allocates. *)
Definition must_realloc (v : VarState) (shp : TShape) (dev dty : Z) : bool :=
  is_nil (tensor v)
  || negb (bool_decide (shp = shape (blob v)))
  || negb (bool_decide (dev = dev_mask (blob v)))
  || negb (bool_decide (dty = dtype (blob v))).

(** The events appended to the trace all satisfy [Q]. *)
Definition only_logs (Q : Event -> bool) (w w' : World) : Prop :=
  exists l, trace w' = l ++ trace w /\ forallb Q l = true.

(** The events of the run itself: closure calls and tensor copies. *)
Definition run_event (e : Event) : bool :=
  match e with EvClosure _ | EvCopy _ _ => true | _ => false end.

(** The events of shape and type inference and of storage planning. *)
Definition setup_event (e : Event) : bool :=
  match e with EvInit | EvSetupOpExecs => false | _ => true end.

(** The events of a run that redoes neither inference nor storage. *)
Definition late_event (e : Event) : bool :=
  match e with EvClosure _ | EvCopy _ _ | EvSetupOpExecs => true | _ => false end.

Definition not_init (e : Event) : bool :=
  match e with EvInit => false | _ => true end.

Definition is_event (e0 e : Event) : bool := bool_decide (e = e0).

Definition count_event (e0 : Event) (w : World) : nat :=
  length (List.filter (is_event e0) (trace w)).

Definition keeps_vstore (w w' : World) : Prop := vstore w' = vstore w.

(** The backend heap is untouched and variable states are only added. *)
Definition only_new_states (w w' : World) : Prop :=
  tensors w' = tensors w /\ storages w' = storages w
  /\ vstore w `prefix_of` vstore w'.

(** The members that [Init] alone writes are the same, and the entries,
    once allocated, and the closures, once compiled, are the same. *)
Record ex_frame (ex ex' : TorchExecutor) : Prop := mkExFrame {
  fr_symbol : symbol_ ex' = symbol_ ex;
  fr_graph : graph_ ex' = graph_ ex;
  fr_dev : dev_mask_ ex' = dev_mask_ ex;
  fr_placeholder : placeholder_nids_ ex' = placeholder_nids_ ex;
  fr_assign : assign_var_nids_ ex' = assign_var_nids_ ex;
  fr_read : read_var_nids_ ex' = read_var_nids_ ex;
  fr_states : node_states_ ex' = node_states_ ex;
  fr_entries : data_entry_ ex <> [] ->
               data_entry_ ex' = data_entry_ ex
               /\ data_entry_is_var_ ex' = data_entry_is_var_ ex;
  fr_closures : op_execs_ ex <> [] -> op_execs_ ex' = op_execs_ ex
}.

(** ** The properties *)

(** Every entry of an input node that holds a tensor holds the tensor of
    the variable state of that node. *)
Definition aliased (ex : TorchExecutor) (w : World) : Prop :=
  forall nid t,
    In nid (input_nodes (graph_ ex)) ->
    data_entry_ ex !! entry_id (graph_ ex) nid 0 = Some (Some t) ->
    exists a v, node_states_ ex !! nid = Some (Some a)
                /\ vstore w !! a = Some v /\ tensor v = Some t.

(** The entry of every input node is the reference that the variable
    state of the node holds: the tensor of the state, or nil when the
    state has no tensor. *)
Definition entries_are_handles (ex : TorchExecutor) (w : World) : Prop :=
  forall nid,
    In nid (input_nodes (graph_ ex)) ->
    exists a v, node_states_ ex !! nid = Some (Some a) /\ vstore w !! a = Some v
                /\ data_entry_ ex !! entry_id (graph_ ex) nid 0 = Some (tensor v).

(** The size of entry [i] when it is not variable-backed and its storage
    id is [sid]. *)
Definition member_size (iv : list bool) (vstorage : list Z) (vshape : list TShape)
    (sid i : nat) : option N :=
  match iv !! i, vstorage !! i, vshape !! i with
  | Some false, Some s, Some shp =>
    if bool_decide (s = Z.of_nat sid) then Some (shape_size shp) else None
  | _, _, _ => None
  end.

(** The sizes of the first [k] entries that share the pool id [sid]. *)
Definition pool_members (iv : list bool) (vstorage : list Z) (vshape : list TShape)
    (sid k : nat) : list N :=
  omap (member_size iv vstorage vshape sid) (seq 0 k).

Definition max_size (l : list N) : N := foldr N.max 0%N l.

Definition sum_size (l : list N) : N := foldr N.add 0%N l.

(** The index is topological: the inputs of a node come before it. *)
Definition topological (idx : IndexedGraph) : Prop :=
  forall m inode e,
    idx_nodes idx !! m = Some inode -> In e (inputs inode) -> node_id e < m.

(** The number of input edges of the graph. *)
Definition num_edges (idx : IndexedGraph) : nat :=
  list_sum (map (fun nd => length (inputs nd)) (idx_nodes idx)).

(** Node [m] is an assignment whose target (input slot 0) is node [nid]. *)
Definition assigns_to (idx : IndexedGraph) (m nid : nat) : Prop :=
  exists inode e,
    idx_nodes idx !! m = Some inode /\ op inode = Some assign_op
    /\ inputs inode !! 0 = Some e /\ node_id e = nid.

(** Node [m] is an operator other than a placeholder and an assignment
    that has an input from node [nid]. *)
Definition consumes (idx : IndexedGraph) (m nid : nat) : Prop :=
  exists inode o e,
    idx_nodes idx !! m = Some inode /\ op inode = Some o
    /\ o <> placeholder_op /\ o <> assign_op
    /\ In e (inputs inode) /\ node_id e = nid.

(** After the words of the spec: some node consumed [nid] as an input
    that was not through the target slot (input slot 0) of an assignment. *)
Definition consumed_off_target (idx : IndexedGraph) (nid : nat) : Prop :=
  exists m inode slot e,
    idx_nodes idx !! m = Some inode /\ inputs inode !! slot = Some e
    /\ node_id e = nid /\ ~ (op inode = Some assign_op /\ slot = 0).

(** The errors of the staleness checks and of the seeding: each is a
    constant of the source. *)
Definition scan_error (e : Error) : Prop :=
  e = CheckFailed "inputs.count(key)" msg_feed
  \/ e = OutOfRange
  \/ e = CheckFailed "state->initialized()" msg_uninit
  \/ e = CheckFailed "state != nullptr" ""
  \/ e = CheckFailed "node_dtype_ != nullptr" ""
  \/ e = Undef.

(** The text that an error carries. *)
Definition error_text (e : Error) : string :=
  match e with
  | CheckFailed c m => c +:+ " " +:+ m
  | LogFatal m => m
  | _ => ""
  end.

(** Whether the text of [e] contains [s]. *)
Definition mentions (e : Error) (s : string) : bool :=
  match String.index 0 s (error_text e) with
  | Some _ => true
  | None => false
  end.

(** The cached inference result for entry [eid]. *)
Definition cached_entry (ex : TorchExecutor) (eid : nat) : option (TShape * Z) :=
  match node_shape_ ex, node_dtype_ ex with
  | Some ns, Some nd =>
    match ns !! eid, nd !! eid with
    | Some s, Some d => Some (s, d)
    | _, _ => None
    end
  | _, _ => None
  end.

(** After the words of the spec: the live shape or dtype of the read
    variable [nid] differs from the cached inference result for that
    variable. *)
Definition var_differs (ex : TorchExecutor) (w : World) (nid : nat) : bool :=
  match node_states_ ex !! nid with
  | Some (Some a) =>
    match vstore w !! a with
    | Some v =>
      negb (bool_decide (cached_entry ex (entry_id (graph_ ex) nid 0)
                         = Some (shape (blob v), dtype (blob v))))
    | None => false
    end
  | _ => false
  end.

(** After the words of the spec: the supplied shape or dtype of the
    placeholder [nid] differs from the cached inference result for that
    placeholder. *)
Definition placeholder_differs (ex : TorchExecutor) (inputs : gmap string TBlob)
    (nid : nat) : bool :=
  match idx_nodes (graph_ ex) !! nid with
  | Some inode =>
    match inputs !! name inode with
    | Some value =>
      negb (bool_decide (cached_entry ex (entry_id (graph_ ex) nid 0)
                         = Some (shape value, dtype value)))
    | None => false
    end
  | None => false
  end.

(** After the words of the spec: re-inference is required if (a) no
    inference has ever run, or (b) some read variable differs, or (c)
    some placeholder differs. *)
Definition spec_need_redo (ex : TorchExecutor) (inputs : gmap string TBlob) (w : World)
  : bool :=
  bool_decide (node_shape_ ex = None)
  || existsb (var_differs ex w) (read_var_nids_ ex)
  || existsb (placeholder_differs ex inputs) (placeholder_nids_ ex).

(** A sequence of runs of one executor, one per input map. *)
Fixpoint Run_all (E : Env) (ex : TorchExecutor) (runs : list (gmap string TBlob))
  : M TorchExecutor :=
  match runs with
  | [] => ret ex
  | inputs :: rest => let* r := Run E ex inputs in Run_all E (snd r) rest
  end.

(** ** Invariants of the loops *)

(** The invariant of the loop that computes [pool_entry_size]. *)
Definition pool_inv (iv : list bool) (vst : list Z) (vsh : list TShape) (k : nat)
    (pes : list N) : Prop :=
  (forall sid, sid < length pes ->
     pes !! sid = Some (max_size (pool_members iv vst vsh sid k)))
  /\ (forall sid, length pes <= sid -> pool_members iv vst vsh sid k = []).

(** The number of entries of [es] that come from node [j]. *)
Definition count_id (j : nat) (es : list NodeEntry) : nat :=
  length (List.filter (fun e => bool_decide (node_id e = j)) es).

(** What the visit of node [m] adds to the read counter of node [j]. *)
Definition reads_from (idx : IndexedGraph) (m j : nat) : nat :=
  match idx_nodes idx !! m with
  | Some inode =>
    if is_variable inode then 0
    else if bool_decide (op inode = Some placeholder_op) then 0
    else if bool_decide (op inode = Some assign_op) then
      match inputs inode !! 0 with
      | Some e => if bool_decide (node_id e = j) then 1 else 0
      | None => 0
      end
    else count_id j (inputs inode)
  | None => 0
  end.

(** What the visit of node [m] adds to the assign counter of node [j]. *)
Definition assigns_from (idx : IndexedGraph) (m j : nat) : nat :=
  match idx_nodes idx !! m with
  | Some inode =>
    if is_variable inode then 0
    else if bool_decide (op inode = Some placeholder_op) then 0
    else if bool_decide (op inode = Some assign_op) then
      match inputs inode !! 0 with
      | Some e => if bool_decide (node_id e = j) then 1 else 0
      | None => 0
      end
    else 0
  | None => 0
  end.

(** The sum of [f m j] over the nodes [m] with [k <= m < n]. *)
Definition total_from (f : nat -> nat -> nat) (n k j : nat) : nat :=
  list_sum (map (fun m => f m j) (seq k (n - k))).

(** The invariant of the scan when the nodes [k], ..., [n - 1] are done. *)
Record scan_inv (idx : IndexedGraph) (n k : nat) (s : InitScan) : Prop := mkScanInv {
  si_rc_len : length (sc_read_count s) = n;
  si_ac_len : length (sc_assign_count s) = n;
  si_rc : forall j, j < n ->
          sc_read_count s !! j = Some (Z.of_nat (total_from (reads_from idx) n k j));
  si_ac : forall j, j < n ->
          sc_assign_count s !! j = Some (Z.of_nat (total_from (assigns_from idx) n k j));
  si_read : forall nid,
      In nid (sc_read_var s) <->
      k <= nid < n /\ is_variable_at idx nid = true
      /\ 0 < total_from (reads_from idx) n 0 nid;
  si_assign : forall nid,
      In nid (sc_assign_var s) <->
      k <= nid < n /\ is_variable_at idx nid = true
      /\ 0 < total_from (assigns_from idx) n 0 nid
}.

(** The state map of the scan only grows. *)
Definition states_grow (s1 s2 : InitScan) : Prop := sc_states s1 ⊆ sc_states s2.

(** The variable nodes done so far point to the states of their names. *)
Definition states_inv (idx : IndexedGraph) (k : nat) (s : InitScan) : Prop :=
  forall nid nd,
    k <= nid -> idx_nodes idx !! nid = Some nd -> is_variable nd = true ->
    exists a, sc_states s !! name nd = Some a
              /\ sc_node_states s !! nid = Some (Some a).

(** ** Further properties and invariants *)

(** Node [nid] is a placeholder. *)
Definition is_placeholder_at (idx : IndexedGraph) (nid : nat) : bool :=
  match idx_nodes idx !! nid with
  | Some n => bool_decide (op n = Some placeholder_op)
  | None => false
  end.

(** The list is strictly decreasing. *)
Definition decreasing (l : list nat) : Prop :=
  forall i j a b, i < j -> l !! i = Some a -> l !! j = Some b -> b < a.

(** Every input of every node is a node of the index. *)
Definition inputs_in_range (idx : IndexedGraph) : Prop :=
  forall nid nd e,
    idx_nodes idx !! nid = Some nd -> In e (inputs nd) -> node_id e < num_nodes idx.

(** Every assignment node has two inputs. *)
Definition assign_arity_ok (idx : IndexedGraph) : Prop :=
  forall nid nd,
    idx_nodes idx !! nid = Some nd -> op nd = Some assign_op -> length (inputs nd) = 2.

(** Every address of the state map is the address of a variable state. *)
Definition states_live (st : VarStateMap) (w : World) : Prop :=
  forall key a, st !! key = Some a -> a < length (vstore w).

(** Two names never share a variable state. *)
Definition states_inj (st : VarStateMap) : Prop :=
  forall k1 k2 a, st !! k1 = Some a -> st !! k2 = Some a -> k1 = k2.

(** Every pointer of [node_states_] points into the table of states. *)
Definition pointers_live (ns : list (option nat)) (w : World) : Prop :=
  forall nid a, ns !! nid = Some (Some a) -> a < length (vstore w).

(** Whether node [k], when it is an assignment, has two inputs. *)
Definition arity_ok_at (idx : IndexedGraph) (k : nat) : bool :=
  match idx_nodes idx !! k with
  | Some nd =>
    if bool_decide (op nd = Some assign_op) then bool_decide (length (inputs nd) = 2)
    else true
  | None => true
  end.

(** The failure of the [CHECK_EQ] on the inputs of an assignment. *)
Definition msg_arity : Error := CheckFailed "inode.inputs.size() == 2" "".

(** Every pointer to a variable state that the session holds, in its
    state map or in a cached executor, points into the table of states,
    and two names never share a state. *)
Record session_ok (s : TorchSession) (w : World) : Prop := mkSessionOk {
  so_live : states_live (states_ s) w;
  so_inj : states_inj (states_ s);
  so_exec : forall p e, cached_execs_ s !! p = Some e ->
            pointers_live (node_states_ (exec e)) w
}.

(** Whether the call [Session_Run p sym] finds a usable executor. *)
Definition cache_hit (s : TorchSession) (p : N) (sym : Symbol) : bool :=
  match cached_execs_ s !! p with
  | Some e => negb (stale_exec (symbol_ (exec e)) sym)
  | None => false
  end.

(** The tensor [h] is bound to a storage buffer that holds at least as
    many elements as the shape of the tensor has. *)
Definition fits (w : World) (h : nat) : Prop :=
  exists t s so,
    tensors w !! h = Some t /\ t_storage t = Some s /\ storages w !! s = Some so
    /\ (shape_size (t_shape t) <= s_size so)%N.

(** Entry [i] is the output of an input node. *)
Definition is_input_entry (idx : IndexedGraph) (i : nat) : Prop :=
  exists nid, In nid (input_nodes idx) /\ i = entry_id idx nid 0.

(** The first allocation of [data_entry_] by [SetupStorage]: a new
    tensor per entry, then the tensors of the variable states at the
    entries of the input nodes. *)
Definition alloc_entries (E : Env) (ex : TorchExecutor)
  : M (list LuaRef * list bool) :=
  let n := num_node_entries (graph_ ex) in
  let* de := foldM (entry_alloc_step E (dev_mask_ ex)) (seq 0 n)
                   (resize (data_entry_ ex) n None) in
  foldM (entry_alias_step ex) (input_nodes (graph_ ex))
        (de, resize (data_entry_is_var_ ex) n false).

(** The closure slot [c] of node [nid] is as [SetupOpExecs] leaves it:
    nil for a variable; for an operator, the closure made from the
    registered code of the operator, the entries of the inputs of the
    node in order, and the entries of its outputs in order. *)
Definition wired (E : Env) (ex : TorchExecutor) (nid : nat) (inode : INode)
    (c : option Closure) : Prop :=
  match op inode with
  | None => c = None
  | Some o =>
    exists code ins outs,
      lua_compute_code E o = Some code
      /\ lua_eval E ("return " ++ code)%string = None
      /\ c = Some (mkClosure ("return " ++ code)%string ins outs)
      /\ Forall2 (fun e r =>
                    data_entry_ ex !! entry_id (graph_ ex) (node_id e) (index e) = Some r)
                 (inputs inode) ins
      /\ Forall2 (fun i r => data_entry_ ex !! entry_id (graph_ ex) nid i = Some r)
                 (seq 0 (node_num_outputs inode)) outs
  end.

(** The fatal error that [SetupOpExecs] logs for the operator [o]. *)
Definition fatal_for (E : Env) (o : Op) (e : Error) : Prop :=
  (lua_compute_code E o = None
   /\ e = LogFatal ("Function FLuaCompute is not registered on " ++ o)%string)
  \/ (exists code what,
        lua_compute_code E o = Some code
        /\ lua_eval E ("return " ++ code)%string = Some what
        /\ e = LogFatal ("Error during setuo FLuaComputeCode for " ++ o ++ nl
                         ++ "lua code" ++ nl ++ "----" ++ nl ++ ("return " ++ code)
                         ++ "-----" ++ nl ++ what)%string).

(** Whether slot [i] of [op_execs_] holds a closure. *)
Definition has_closure (oe : list (option Closure)) (i : nat) : bool :=
  match oe !! i with
  | Some (Some _) => true
  | _ => false
  end.

(** The nodes that are not variables, in increasing order. *)
Definition operator_nodes (idx : IndexedGraph) : list nat :=
  List.filter (fun nid => negb (is_variable_at idx nid)) (seq 0 (num_nodes idx)).

(** [op_execs_] has one slot per node, and a closure at the nodes that
    are not variables and only there. *)
Definition closures_ok (ex : TorchExecutor) : Prop :=
  length (op_execs_ ex) = num_nodes (graph_ ex)
  /\ forall nid, nid < num_nodes (graph_ ex) ->
       has_closure (op_execs_ ex) nid = negb (is_variable_at (graph_ ex) nid).

(** The events other than the calls of the closures. *)
Definition not_closure (e : Event) : bool :=
  match e with EvClosure _ => false | _ => true end.

(** The copies between tensors. *)
Definition is_copy (e : Event) : bool :=
  match e with EvCopy _ _ => true | _ => false end.

(** The events other than the copies between tensors. *)
Definition not_copy (e : Event) : bool := negb (is_copy e).

(** The blob that describes a tensor object. *)
Definition blob_of (t : Tensor) : TBlob :=
  mkTBlob (t_storage t) (t_shape t) (t_dev t) (t_dtype t).

(** There is one output tensor per output of the graph; it lives on the
    CPU, has the default element type, and has the shape that inference
    gave to the entry of that output. *)
Definition outputs_ok (E : Env) (ex : TorchExecutor) (w : World) : Prop :=
  exists vshape,
    node_shape_ ex = Some vshape
    /\ length (outputs_ ex) = length (idx_outputs (graph_ ex))
    /\ forall i e,
         idx_outputs (graph_ ex) !! i = Some e ->
         exists h t,
           outputs_ ex !! i = Some (Some h) /\ tensors w !! h = Some t
           /\ vshape !! entry_id (graph_ ex) (node_id e) (index e) = Some (t_shape t)
           /\ t_dev t = kCPU E /\ t_dtype t = default_dtype E.

(** The copy of the value fed for the placeholder [nid] into the entry
    of that placeholder, through a tensor [src] that shares the value. *)
Definition input_copy (ex : TorchExecutor) (inputs : gmap string TBlob) (w : World)
    (nid : nat) (ev : Event) : Prop :=
  exists inode value src dst,
    idx_nodes (graph_ ex) !! nid = Some inode
    /\ inputs !! name inode = Some value
    /\ data_entry_ ex !! entry_id (graph_ ex) nid 0 = Some (Some dst)
    /\ tensors w !! src
       = Some (mkTensor (data value) (shape value) (dev_mask value) (dtype value))
    /\ ev = EvCopy src dst.

(** The copy of the entry of the graph output [i] into the output
    tensor [i], and the blob returned for it. *)
Definition output_copy (ex : TorchExecutor) (w : World) (i : nat) (ev : Event) (b : TBlob)
  : Prop :=
  exists e src dst t,
    idx_outputs (graph_ ex) !! i = Some e
    /\ data_entry_ ex !! entry_id (graph_ ex) (node_id e) (index e) = Some (Some src)
    /\ outputs_ ex !! i = Some (Some dst)
    /\ tensors w !! dst = Some t
    /\ ev = EvCopy src dst /\ b = blob_of t.

(** The variable state of the assigned node [nid] has a tensor, lives on
    the device of the executor, and has the shape and the element type
    that [sh] and [dt] give to the entry of an assigned node [nid'] of
    [nids] that points to the same state. *)
Definition assigned_ready (ex : TorchExecutor) (sh : list TShape) (dt : list Z)
    (w : World) (nids : list nat) (nid : nat) : Prop :=
  exists a v nid',
    node_states_ ex !! nid = Some (Some a) /\ vstore w !! a = Some v
    /\ initialized v = true
    /\ In nid' nids /\ node_states_ ex !! nid' = Some (Some a)
    /\ sh !! entry_id (graph_ ex) nid' 0 = Some (shape (blob v))
    /\ dt !! entry_id (graph_ ex) nid' 0 = Some (dtype (blob v))
    /\ dev_mask (blob v) = dev_mask_ ex.

(** The seeds of inference: [new_shape] and [new_dtype] when the two
    seeding loops of [SetupShapeDType] are done. *)
Definition infer_seeds (ex : TorchExecutor) (inputs : gmap string TBlob)
  : M (list TShape * list Z) :=
  let n := num_node_entries (graph_ ex) in
  let* sd := foldM (seed_var ex) (read_var_nids_ ex)
                   (replicate n ([] : TShape), replicate n (-1)%Z) in
  foldM (seed_placeholder ex inputs) (placeholder_nids_ ex) sd.

(** The entry [j] is the entry of a placeholder of [nids], and [s] and
    [d] are the shape and the element type of the value fed for it. *)
Definition seeded_by_placeholder (ex : TorchExecutor) (inputs : gmap string TBlob)
    (nids : list nat) (j : nat) (s : TShape) (d : Z) : Prop :=
  exists nid inode value,
    In nid nids /\ entry_id (graph_ ex) nid 0 = j
    /\ idx_nodes (graph_ ex) !! nid = Some inode
    /\ inputs !! name inode = Some value
    /\ s = shape value /\ d = dtype value.

(** The entry [j] is the entry of a variable of [nids], and [s] and [d]
    are the shape and the element type of the blob of its state. *)
Definition seeded_by_variable (ex : TorchExecutor) (w : World)
    (nids : list nat) (j : nat) (s : TShape) (d : Z) : Prop :=
  exists nid a v,
    In nid nids /\ entry_id (graph_ ex) nid 0 = j
    /\ node_states_ ex !! nid = Some (Some a) /\ vstore w !! a = Some v
    /\ s = shape (blob v) /\ d = dtype (blob v).

(** No node of [nids] has the entry [j]. *)
Definition no_entry_of (ex : TorchExecutor) (nids : list nat) (j : nat) : Prop :=
  forall nid, In nid nids -> entry_id (graph_ ex) nid 0 <> j.

(** What the seeds hold at the entry [j]: the value fed for a
    placeholder; or else the blob of a read variable; or else the
    unknown shape and the unknown element type. *)
Definition seed_at (ex : TorchExecutor) (inputs : gmap string TBlob) (w : World)
    (j : nat) (s : TShape) (d : Z) : Prop :=
  seeded_by_placeholder ex inputs (placeholder_nids_ ex) j s d
  \/ (no_entry_of ex (placeholder_nids_ ex) j
      /\ seeded_by_variable ex w (read_var_nids_ ex) j s d)
  \/ (no_entry_of ex (placeholder_nids_ ex) j
      /\ no_entry_of ex (read_var_nids_ ex) j
      /\ s = [] /\ d = (-1)%Z).

(** As the code has it: the live shape or element type of the read
    variable [nid] differs from what the cached vectors hold at the index
    [nid], the id of the node. *)
Definition var_differs_at_node (ex : TorchExecutor) (w : World) (nid : nat) : bool :=
  match node_states_ ex !! nid with
  | Some (Some a) =>
    match vstore w !! a with
    | Some v =>
      negb (bool_decide (cached_entry ex nid = Some (shape (blob v), dtype (blob v))))
    | None => false
    end
  | _ => false
  end.

(** ** Concrete graphs, environments and runs *)

(** A test double for the environment.

    Shape inference keeps every seeded entry and resolves the others from
    a table keyed by node name; memory planning gives the variables the
    id [-1] and reads the ids of the other entries from a second table. *)

Definition table_lookup {A} (t : list (string * list A)) (key : string) (i : nat) (d : A) : A :=
  match List.find (fun kv => bool_decide (fst kv = key)) t with
  | Some kv => nth i (snd kv) d
  | None => d
  end.

(** The (node, output-slot) pair of every entry, in entry order. *)
Definition entries_of (idx : IndexedGraph) : list (INode * nat) :=
  flat_map (fun n => map (fun i => (n, i)) (seq 0 (node_num_outputs n))) (idx_nodes idx).

Definition demo_infer (shapes : list (string * list TShape)) (idx : IndexedGraph)
    (sh : list TShape) (dt : list Z) : option InferOut :=
  let resolved :=
    map (fun '(s, (n, i)) =>
           if bool_decide (s = []) then table_lookup shapes (name n) i [] else s)
        (zip sh (entries_of idx)) in
  Some (mkInferOut resolved
          (map (fun d => if bool_decide (d = (-1)%Z) then 0%Z else d) dt)
          (length (List.filter (fun s => bool_decide (s = [])) resolved))
          0).

Definition demo_plan (sids : list (string * list Z)) (idx : IndexedGraph)
    (sh : list TShape) (dt : list Z) : option (list Z) :=
  Some (map (fun '(n, i) =>
               if is_variable n then (-1)%Z else table_lookup sids (name n) i 0%Z)
            (entries_of idx)).

Definition demo_env (shapes : list (string * list TShape)) (sids : list (string * list Z))
  : Env :=
  mkEnv 1 (mkTBlob None [] 1 0) 0
        (demo_infer shapes) (demo_plan sids)
        (fun o => Some o) (fun _ => None)
        (fun c => forallb (fun r => negb (is_nil r)) (c_ins c)).

Definition empty_world : World := mkWorld [] [] [] [].
Definition empty_session : TorchSession := mkSession ∅ ∅.

(** [y = assign(v, placeholder x)] *)
Definition graph_assign : IndexedGraph :=
  mkIndexedGraph
    [mkINode None "v" [] 1;
     mkINode (Some placeholder_op) "x" [] 1;
     mkINode (Some assign_op) "y" [mkNodeEntry 0 0 0; mkNodeEntry 1 0 0] 1]
    [mkNodeEntry 2 0 0].

Definition sym_assign : Symbol := mkSymbol [mkSymEntry 100 0 0] graph_assign.

Definition demo_shapes : list (string * list TShape) :=
  [("v", [[3; 4]]); ("y", [[3; 4]]); ("split", [[2; 3]; [2; 3]]); ("mm", [[2; 4]]);
   ("a", [[5]]); ("b", [[7]]); ("c", [[6]]); ("s", [[3; 4]])]%string%N.

Definition demo_sids : list (string * list Z) :=
  [("x", [0]); ("y", [1]); ("p", [0]); ("split", [1; 2]); ("mm", [3]);
   ("a", [0]); ("b", [1]); ("c", [0]); ("s", [1])]%string%Z.

Definition demo : Env := demo_env demo_shapes demo_sids.

Definition blob_3x4 : TBlob := mkTBlob (Some 77) [3; 4]%N 1 0.
Definition blob_4x3 : TBlob := mkTBlob (Some 78) [4; 3]%N 1 0.

Definition feed_x (b : TBlob) : gmap string TBlob := {[ "x"%string := b ]}.

(** The state reached by [n] runs of the entries of [calls] on a new session. *)
Fixpoint session_runs (E : Env) (calls : list (N * Symbol * gmap string TBlob))
    (s : TorchSession) : M TorchSession :=
  match calls with
  | [] => ret s
  | (p, sym, inputs) :: rest =>
    let* r := Session_Run E p sym inputs s in session_runs E rest (snd r)
  end.

Definition result_session {A} (r : Result (A * TorchSession * World)) : TorchSession :=
  match r with Ok (_, s, _) => s | Err _ => empty_session end.

Definition result_world {A} (r : Result (A * World)) : World :=
  match r with Ok (_, w) => w | Err _ => empty_world end.

(** The session and the world after one run of [y = assign(v, x)] with a
    3x4 input. *)
Definition assigned_once : Result (list TBlob * TorchSession * World) :=
  Session_Run demo 5 sym_assign (feed_x blob_3x4) empty_session empty_world.

Definition var_3x4 : VarState := mkVarState (Some 0) (mkTBlob (Some 0) [3; 4]%N 1 0).

(** The executor cached under [p], or a new one. *)
Definition cached_exec (s : TorchSession) (p : N) : TorchExecutor :=
  match cached_execs_ s !! p with
  | Some e => exec e
  | None => new_executor demo
  end.

(** The executor of [y = assign(v, x)] after [Init] and after the first
    shape and type inference, before any storage is set up. *)
Definition assign_inferred : Result (TorchExecutor * bool * World) :=
  match Init demo (new_executor demo) sym_assign ∅ empty_world with
  | Ok (r, w) => SetupShapeDType demo (fst r) (feed_x blob_3x4) w
  | Err e => Err e
  end.

Definition result_exec {A} (r : Result (TorchExecutor * A * World)) : TorchExecutor :=
  match r with Ok (ex, _, _) => ex | Err _ => new_executor demo end.

(** [c = relu(b)], [b = relu(a)], [a] a placeholder; the planning table
    gives [a] and [c] the pool id 0 and [b] the pool id 1. *)
Definition graph_chain : IndexedGraph :=
  mkIndexedGraph
    [mkINode (Some placeholder_op) "a" [] 1;
     mkINode (Some "relu"%string) "b" [mkNodeEntry 0 0 0] 1;
     mkINode (Some "relu"%string) "c" [mkNodeEntry 1 0 0] 1]
    [mkNodeEntry 2 0 0].

Definition sym_chain : Symbol := mkSymbol [mkSymEntry 200 0 0] graph_chain.

Definition feed_a : gmap string TBlob := {[ "a"%string := mkTBlob (Some 70) [5]%N 1 0 ]}.

Definition chain_inferred : Result (TorchExecutor * bool * World) :=
  match Init demo (new_executor demo) sym_chain ∅ empty_world with
  | Ok (r, w) => SetupShapeDType demo (fst r) feed_a w
  | Err e => Err e
  end.

Definition result_value {A} (d : A) (r : Result (A * World)) : A :=
  match r with Ok (a, _) => a | Err _ => d end.

(** [s = add(v, p)] with [v] a variable and [p] a placeholder. *)
Definition graph_add : IndexedGraph :=
  mkIndexedGraph
    [mkINode None "v" [] 1;
     mkINode (Some placeholder_op) "p" [] 1;
     mkINode (Some "add"%string) "s" [mkNodeEntry 0 0 0; mkNodeEntry 1 0 0] 1]
    [mkNodeEntry 2 0 0].

Definition sym_add : Symbol := mkSymbol [mkSymEntry 300 0 0] graph_add.

Definition feed_p (b : TBlob) : gmap string TBlob := {[ "p"%string := b ]}.

(** The test double, with closures that succeed on nil tensors too. *)
Definition demo_lenient : Env :=
  mkEnv (kCPU demo) (default_blob demo) (default_dtype demo)
        (infer_passes demo) (plan_memory demo) (lua_compute_code demo)
        (lua_eval demo) (fun _ => true).

(** One run of [s = add(v, p)] on a new session, [v] never assigned. *)
Definition added_once : Result (list TBlob * TorchSession * World) :=
  Session_Run demo_lenient 7 sym_add (feed_p blob_3x4) empty_session empty_world.

(** [mm = matmul(split(p).1, v)]: the operator [split] has two outputs,
    so the variable [v] is node 2 and entry 3. *)
Definition graph_split : IndexedGraph :=
  mkIndexedGraph
    [mkINode (Some placeholder_op) "p" [] 1;
     mkINode (Some "split"%string) "split" [mkNodeEntry 0 0 0] 2;
     mkINode None "v" [] 1;
     mkINode (Some "matmul"%string) "mm" [mkNodeEntry 1 1 0; mkNodeEntry 2 0 0] 1]
    [mkNodeEntry 3 0 0].

Definition sym_split : Symbol := mkSymbol [mkSymEntry 400 0 0] graph_split.

(** The variable [v] is assigned a 3x4 value by a first graph; then the
    graph [mm] is run once with a 4x3 input for [p]. *)
Definition split_once : Result (TorchSession * World) :=
  session_runs demo [(5%N, sym_assign, feed_x blob_3x4);
                     (6%N, sym_split, feed_p blob_4x3)]
               empty_session empty_world.

Definition split_session : TorchSession := result_value empty_session split_once.
Definition split_world : World := result_world split_once.

(** The executor of [y = assign(v, x)] after [Init]. *)
Definition assign_initial : Result (TorchExecutor * VarStateMap * World) :=
  Init demo (new_executor demo) sym_assign ∅ empty_world.

(** The symbol without outputs: its graph has no node. *)
Definition sym_empty : Symbol := mkSymbol [] (mkIndexedGraph [] []).

(** The entry cached under [p], or a new one. *)
Definition cached_entry_at (s : TorchSession) (p : N) : ExecEntry :=
  default (mkExecEntry (new_executor demo) 0) (cached_execs_ s !! p).

(** The blobs and the executor that a run returns. *)
Definition run_blobs {A} (r : Result (list TBlob * A * World)) : list TBlob :=
  match r with Ok (b, _, _) => b | Err _ => [] end.

Definition run_exec {A} (r : Result (A * TorchExecutor * World)) : TorchExecutor :=
  match r with Ok (_, ex, _) => ex | Err _ => new_executor demo end.

(** The executor of [c = relu(relu(a))] after [Init], its first run with
    a value of five elements for [a], and its second run with that value. *)
Definition chain_initial : Result (TorchExecutor * VarStateMap * World) :=
  Init demo (new_executor demo) sym_chain ∅ empty_world.

Definition chain_first : Result (list TBlob * TorchExecutor * World) :=
  Run demo (result_exec chain_initial) feed_a (result_world chain_initial).

Definition chain_second : Result (list TBlob * TorchExecutor * World) :=
  Run demo (run_exec chain_first) feed_a (result_world chain_first).

(** The executor of [c = relu(relu(a))] after the first inference and
    the first storage setup, before any closure is compiled. *)
Definition chain_stored : Result (TorchExecutor * World) :=
  SetupStorage demo (result_exec chain_inferred) (result_world chain_inferred).

(** The first run of [y = assign(v, x)] with a 3x4 value for [x]. *)
Definition assign_first : Result (list TBlob * TorchExecutor * World) :=
  Run demo (result_exec assign_initial) (feed_x blob_3x4) (result_world assign_initial).

(** The test double, with no compute code registered for [relu]. *)
Definition demo_unregistered : Env :=
  mkEnv (kCPU demo) (default_blob demo) (default_dtype demo)
        (infer_passes demo) (plan_memory demo)
        (fun o => if bool_decide (o = "relu"%string) then None else Some o)
        (lua_eval demo) (closure_run demo).

(** [zz = relu(a)]: the inference table of the test double has no shape
    for [zz]. *)
Definition graph_unknown : IndexedGraph :=
  mkIndexedGraph
    [mkINode (Some placeholder_op) "a" [] 1;
     mkINode (Some "relu"%string) "zz" [mkNodeEntry 0 0 0] 1]
    [mkNodeEntry 1 0 0].

Definition sym_unknown : Symbol := mkSymbol [mkSymEntry 500 0 0] graph_unknown.

Definition unknown_initial : Result (TorchExecutor * VarStateMap * World) :=
  Init demo (new_executor demo) sym_unknown ∅ empty_world.

(** An assignment with one input only. *)
Definition graph_bad_assign : IndexedGraph :=
  mkIndexedGraph
    [mkINode None "v" [] 1;
     mkINode (Some assign_op) "y" [mkNodeEntry 0 0 0] 1]
    [mkNodeEntry 1 0 0].

Definition sym_bad_assign : Symbol := mkSymbol [mkSymEntry 600 0 0] graph_bad_assign.

(** * Verification *)

(** ** Reasoning about computations *)

Lemma bind_Ok {A B} (c : M A) (k : A -> M B) w b w' :
  bind c k w = Ok (b, w') <-> exists a w1, c w = Ok (a, w1) /\ k a w1 = Ok (b, w').
Proof.
  unfold bind. split.
  - destruct (c w) as [[a w1]|e]; [eauto | discriminate].
  - intros (a & w1 & -> & H). exact H.
Qed.

Lemma bind_Err {A B} (c : M A) (k : A -> M B) w e :
  bind c k w = Err e <->
  c w = Err e \/ exists a w1, c w = Ok (a, w1) /\ k a w1 = Err e.
Proof.
  unfold bind. split.
  - destruct (c w) as [[a w1]|e']; [eauto | intros [= ->]; eauto].
  - intros [-> | (a & w1 & -> & H)]; [reflexivity | exact H].
Qed.

Ltac bind_inv H :=
  let a := fresh "a" in
  let w := fresh "w" in
  let Ha := fresh "H" in
  apply bind_Ok in H; destruct H as (a & w & Ha & H).

Lemma pure_ret {A} (a : A) : pure_ (ret a).
Proof. intros w b w' [= _ ->]. reflexivity. Qed.

Lemma pure_fail {A} e : pure_ (@fail A e).
Proof. intros w b w' [=]. Qed.

Lemma pure_bind {A B} (c : M A) (k : A -> M B) :
  pure_ c -> (forall a, pure_ (k a)) -> pure_ (bind c k).
Proof.
  intros Hc Hk w b w' H. bind_inv H.
  apply Hc in H0. subst. eapply Hk, H.
Qed.

Lemma pure_check b c m : pure_ (check b c m).
Proof. destruct b; [apply pure_ret | apply pure_fail]. Qed.

Lemma pure_at {A} (v : list A) i : pure_ (at_ v i).
Proof. unfold at_. destruct (v !! i); [apply pure_ret | apply pure_fail]. Qed.

Lemma pure_idx {A} (v : list A) i : pure_ (idx_ v i).
Proof. unfold idx_. destruct (v !! i); [apply pure_ret | apply pure_fail]. Qed.

Lemma pure_set {A} (v : list A) i x : pure_ (set_ v i x).
Proof. unfold set_. case_decide; [apply pure_ret | apply pure_fail]. Qed.

Lemma pure_load a : pure_ (load a).
Proof. intros w v w' H. unfold load in H. destruct (vstore w !! a); congruence. Qed.

Lemma pure_map_at inputs key : pure_ (map_at inputs key).
Proof. unfold map_at. destruct (inputs !! key); [apply pure_ret | apply pure_fail]. Qed.

Lemma pure_get_attr {A} (a : option A) : pure_ (get_attr a).
Proof. destruct a; [apply pure_ret | apply pure_fail]. Qed.

Lemma pure_at_int {A} (v : list A) i : pure_ (at_int v i).
Proof. unfold at_int. case_bool_decide; [apply pure_at | apply pure_fail]. Qed.

Lemma pure_GetTBlob t : pure_ (GetTBlob t).
Proof.
  intros w b w' H. unfold GetTBlob in H.
  destruct t; [destruct (tensors w !! n)|]; congruence.
Qed.

Lemma pure_foldM {A S} (body : A -> S -> M S) xs s :
  (forall x s, pure_ (body x s)) -> pure_ (foldM body xs s).
Proof.
  intros Hb. revert s. induction xs as [|x xs IH]; intros s; simpl.
  - apply pure_ret.
  - apply pure_bind; [apply Hb | intros; apply IH].
Qed.

Lemma pure_incr v i : pure_ (incr v i).
Proof. apply pure_bind; [apply pure_idx | intros; apply pure_set]. Qed.

Create HintDb pure discriminated.
Create HintDb pres discriminated.
#[global] Hint Resolve pure_ret pure_fail pure_check pure_at pure_idx pure_set pure_load
  pure_map_at pure_get_attr pure_at_int pure_GetTBlob pure_incr : pure.

(** Destructs the discriminee of the [match] at the head of a goal. *)
Ltac case_head :=
  match goal with
  | |- pure_ (match ?x with _ => _ end) => destruct x
  | |- preserves _ (match ?x with _ => _ end) => destruct x
  end.

Ltac pure_tac :=
  repeat first
    [ solve [eauto with pure]
    | apply pure_bind; [| intros ?]
    | apply pure_foldM; intros ? ?
    | case_head ].

Section Preserves.

Context (R : relation World) `{!PreOrder R}.

Lemma preserves_pure {A} (c : M A) : pure_ c -> preserves R c.
Proof. intros Hc w a w' H. apply Hc in H. subst. reflexivity. Qed.

Lemma preserves_bind {A B} (c : M A) (k : A -> M B) :
  preserves R c -> (forall a, preserves R (k a)) -> preserves R (bind c k).
Proof.
  intros Hc Hk w b w' H. bind_inv H.
  transitivity w0; [eapply Hc, H0 | eapply Hk, H].
Qed.

Lemma preserves_foldM {A S} (body : A -> S -> M S) xs s :
  (forall x s, preserves R (body x s)) -> preserves R (foldM body xs s).
Proof.
  intros Hb. revert s. induction xs as [|x xs IH]; intros s; simpl.
  - apply preserves_pure, pure_ret.
  - apply preserves_bind; [apply Hb | intros; apply IH].
Qed.

End Preserves.

(** ** How the world evolves *)

#[global] Instance evolves_preorder : PreOrder evolves.
Proof.
  split.
  - intros w. split; [eauto using rtc_refl | reflexivity | lia].
  - intros w1 w2 w3 [Hv1 Hs1 Ht1] [Hv2 Hs2 Ht2]. split.
    + intros a v Ha. destruct (Hv1 a v Ha) as (v' & Ha' & Hr).
      destruct (Hv2 a v' Ha') as (v'' & Ha'' & Hr').
      exists v''. split; [exact Ha'' | by etrans].
    + by etrans.
    + lia.
Qed.

#[global] Instance only_logs_preorder Q : PreOrder (only_logs Q).
Proof.
  split.
  - intros w. exists []. done.
  - intros w1 w2 w3 (l1 & H1 & Q1) (l2 & H2 & Q2).
    exists (l2 ++ l1). split.
    + by rewrite H2, H1, app_assoc.
    + rewrite forallb_app, Q1, Q2. done.
Qed.

Lemma only_logs_mono (Q Q' : Event -> bool) w w' :
  (forall e, Q e = true -> Q' e = true) -> only_logs Q w w' -> only_logs Q' w w'.
Proof.
  intros HQ (l & Hl & Hf). exists l. split; [done|].
  rewrite forallb_forall in *. auto.
Qed.

Lemma preserves_mono (Q Q' : Event -> bool) {A} (c : M A) :
  (forall e, Q e = true -> Q' e = true) ->
  preserves (only_logs Q) c -> preserves (only_logs Q') c.
Proof. intros HQ Hc w a w' H. eapply only_logs_mono; [exact HQ | eapply Hc, H]. Qed.

Lemma only_logs_count Q e0 w w' :
  Q e0 = false -> only_logs Q w w' -> count_event e0 w' = count_event e0 w.
Proof.
  intros HQ (l & Hl & Hf). unfold count_event. rewrite Hl, List.filter_app, length_app.
  replace (List.filter (is_event e0) l) with (@nil Event); [done|].
  symmetry. clear Hl. induction l as [|e l IH]; [done|].
  simpl in *. apply andb_prop in Hf as [He Hf].
  unfold is_event at 1. case_bool_decide; [congruence | auto].
Qed.

Section Frames.

Context (E : Env).

(** *** Primitive operations *)

Lemma log_evolves e : preserves evolves (log e).
Proof. intros w a w' [= _ <-]. split; simpl; [eauto using rtc_refl | done | lia]. Qed.

Lemma log_only_logs (Q : Event -> bool) e : Q e = true -> preserves (only_logs Q) (log e).
Proof. intros HQ w a w' [= _ <-]. exists [e]. simpl. by rewrite HQ. Qed.

Lemma same_trace_only_logs Q w w' : trace w' = trace w -> only_logs Q w w'.
Proof. intros H. exists []. done. Qed.

Lemma NewTensorEmpty_evolves d t : preserves evolves (NewTensorEmpty d t).
Proof.
  intros w a w' [= _ <-]. split; simpl; [eauto using rtc_refl | done |].
  rewrite length_app. lia.
Qed.

Lemma NewTensorEmpty_only_logs Q d t : preserves (only_logs Q) (NewTensorEmpty d t).
Proof. intros w a w' [= _ <-]. by apply same_trace_only_logs. Qed.

Lemma NewTensorShared_evolves b : preserves evolves (NewTensorShared b).
Proof.
  intros w a w' [= _ <-]. split; simpl; [eauto using rtc_refl | done |].
  rewrite length_app. lia.
Qed.

Lemma NewTensorShared_only_logs Q b : preserves (only_logs Q) (NewTensorShared b).
Proof. intros w a w' [= _ <-]. by apply same_trace_only_logs. Qed.

Lemma NewStorage_evolves n d t : preserves evolves (NewStorage n d t).
Proof.
  intros w a w' [= _ <-]. split; simpl; [eauto using rtc_refl | | lia].
  by apply prefix_app_r.
Qed.

Lemma NewStorage_only_logs Q n d t : preserves (only_logs Q) (NewStorage n d t).
Proof. intros w a w' [= _ <-]. by apply same_trace_only_logs. Qed.

Lemma ResetStorage_Ok t s shp w u w' :
  ResetStorage t s shp w = Ok (u, w') ->
  exists h o so, t = Some h /\ tensors w !! h = Some o /\ storages w !! s = Some so /\
    w' = mkWorld (<[h := mkTensor (Some s) shp (s_dev so) (s_dtype so)]> (tensors w))
                 (storages w) (vstore w) (trace w).
Proof.
  unfold ResetStorage. destruct t as [h|]; [|done].
  destruct (tensors w !! h) as [o|] eqn:Ho; [|done].
  destruct (storages w !! s) as [so|] eqn:Hs; [|done].
  intros [= _ <-]. eauto 10.
Qed.

Lemma ResetStorage_evolves t s shp : preserves evolves (ResetStorage t s shp).
Proof.
  intros w u w' H. apply ResetStorage_Ok in H as (h & o & so & _ & _ & _ & ->).
  split; simpl; [eauto using rtc_refl | done |]. rewrite length_insert. lia.
Qed.

Lemma ResetStorage_only_logs Q t s shp : preserves (only_logs Q) (ResetStorage t s shp).
Proof.
  intros w u w' H. apply ResetStorage_Ok in H as (h & o & so & _ & _ & _ & ->).
  by apply same_trace_only_logs.
Qed.

Lemma CopyFromTo_evolves a b : preserves evolves (CopyFromTo a b).
Proof.
  unfold CopyFromTo. destruct a, b; try (apply preserves_pure, pure_fail; apply _).
  apply log_evolves.
Qed.

Lemma CopyFromTo_only_logs Q a b :
  (forall x y, Q (EvCopy x y) = true) -> preserves (only_logs Q) (CopyFromTo a b).
Proof.
  intros HQ. unfold CopyFromTo. destruct a, b; try (apply preserves_pure, pure_fail; apply _).
  by apply log_only_logs.
Qed.

(** *** ResetSpace *)

Lemma must_realloc_false v shp dev dty :
  must_realloc v shp dev dty = false <->
  initialized v = true /\ shp = shape (blob v) /\ dev = dev_mask (blob v)
  /\ dty = dtype (blob v).
Proof.
  unfold must_realloc, initialized.
  destruct (is_nil (tensor v)); simpl; [intuition congruence|].
  repeat case_bool_decide; simpl; intuition congruence.
Qed.

Lemma ResetSpace_keep v shp dev dty w :
  must_realloc v shp dev dty = false -> ResetSpace v shp dev dty w = Ok (v, w).
Proof. unfold ResetSpace, must_realloc. intros ->. reflexivity. Qed.

(** What a call that allocates does: the handle is the old one when
    there was one, and a new tensor otherwise; a new storage buffer of
    the size of the shape is bound to it; the blob describes it. *)
Lemma ResetSpace_alloc v shp dev dty w v' w' :
  must_realloc v shp dev dty = true ->
  ResetSpace v shp dev dty w = Ok (v', w') ->
  let h := default (length (tensors w)) (tensor v) in
  let s := length (storages w) in
  v' = mkVarState (Some h) (mkTBlob (Some s) shp dev dty)
  /\ storages w' = storages w ++ [mkStorage (shape_size shp) dev dty]
  /\ tensors w' !! h = Some (mkTensor (Some s) shp dev dty)
  /\ (forall h', h' <> h -> h' < length (tensors w) -> tensors w' !! h' = tensors w !! h')
  /\ length (tensors w) <= length (tensors w')
  /\ vstore w' = vstore w
  /\ trace w' = trace w.
Proof.
  unfold ResetSpace, must_realloc. intros ->.
  destruct (tensor v) as [h|]; simpl; intros H.
  - unfold bind, ret, NewStorage in H. simpl in H.
    destruct (tensors w !! h) as [o|] eqn:Ho; [|done].
    rewrite lookup_app_r, Nat.sub_diag in H by lia. simpl in H.
    rewrite list_lookup_insert_eq in H by (by eapply lookup_lt_Some). simpl in H.
    injection H as <- <-. simpl.
    split_and!; try done.
    + apply list_lookup_insert_eq. by eapply lookup_lt_Some.
    + intros h' Hne _. by apply list_lookup_insert_ne.
    + by rewrite length_insert.
  - unfold bind, ret, NewStorage, NewTensorEmpty in H. simpl in H.
    rewrite lookup_app_r, Nat.sub_diag in H by lia. simpl in H.
    rewrite lookup_app_r, Nat.sub_diag in H by lia. simpl in H.
    rewrite list_lookup_insert_eq in H by (rewrite length_app; simpl; lia). simpl in H.
    injection H as <- <-. simpl.
    split_and!; try done.
    + apply list_lookup_insert_eq. rewrite length_app; simpl; lia.
    + intros h' Hne Hlt. rewrite list_lookup_insert_ne by done. by apply lookup_app_l.
    + rewrite length_insert, length_app. lia.
Qed.

Lemma ResetSpace_cases v shp dev dty w v' w' :
  ResetSpace v shp dev dty w = Ok (v', w') ->
  (must_realloc v shp dev dty = false /\ v' = v /\ w' = w)
  \/ (must_realloc v shp dev dty = true /\
      tensor v' = Some (default (length (tensors w)) (tensor v))).
Proof.
  intros H. destruct (must_realloc v shp dev dty) eqn:Hc.
  - right. split; [done|]. by destruct (ResetSpace_alloc _ _ _ _ _ _ _ Hc H) as (-> & _).
  - left. rewrite ResetSpace_keep in H by done. by injection H as <- <-.
Qed.

(** A handle that is set is never replaced. *)
Lemma ResetSpace_handle v shp dev dty w v' w' t :
  ResetSpace v shp dev dty w = Ok (v', w') -> tensor v = Some t -> tensor v' = Some t.
Proof.
  intros H Ht. destruct (ResetSpace_cases _ _ _ _ _ _ _ H) as [(_ & -> & _)|(_ & ->)]; [done|].
  by rewrite Ht.
Qed.

Lemma reset_steps_handle v v' t :
  rtc reset_step v v' -> tensor v = Some t -> tensor v' = Some t.
Proof.
  induction 1 as [|v1 v2 v3 (shp & dev & dty & w & w' & Hs) _ IH]; [done|].
  intros Ht. apply IH. eapply ResetSpace_handle; eauto.
Qed.

Lemma ResetSpace_evolves v shp dev dty : preserves evolves (ResetSpace v shp dev dty).
Proof.
  intros w v' w' H. destruct (must_realloc v shp dev dty) eqn:Hc.
  - destruct (ResetSpace_alloc _ _ _ _ _ _ _ Hc H) as (_ & Hs & _ & _ & Hl & Hv & _).
    split; [rewrite Hv; eauto using rtc_refl | rewrite Hs; by apply prefix_app_r | done].
  - rewrite ResetSpace_keep in H by done. injection H as <- <-. reflexivity.
Qed.

Lemma ResetSpace_only_logs Q v shp dev dty : preserves (only_logs Q) (ResetSpace v shp dev dty).
Proof.
  intros w v' w' H. destruct (must_realloc v shp dev dty) eqn:Hc.
  - destruct (ResetSpace_alloc _ _ _ _ _ _ _ Hc H) as (_ & _ & _ & _ & _ & _ & Ht).
    by apply same_trace_only_logs.
  - rewrite ResetSpace_keep in H by done. injection H as <- <-. reflexivity.
Qed.

Lemma ResetSpace_at_Ok a shp dev dty w u w' :
  ResetSpace_at a shp dev dty w = Ok (u, w') ->
  exists v v' w1, vstore w !! a = Some v /\ ResetSpace v shp dev dty w = Ok (v', w1)
    /\ w' = mkWorld (tensors w1) (storages w1) (<[a := v']> (vstore w1)) (trace w1).
Proof.
  unfold ResetSpace_at. destruct (vstore w !! a) as [v|]; [|done].
  destruct (ResetSpace v shp dev dty w) as [[v' w1]|] eqn:Hr; [|done].
  intros [= _ <-]. eauto 10.
Qed.

Lemma ResetSpace_at_evolves a shp dev dty : preserves evolves (ResetSpace_at a shp dev dty).
Proof.
  intros w u w' H. apply ResetSpace_at_Ok in H as (v & v' & w1 & Ha & Hr & ->).
  pose proof (ResetSpace_evolves _ _ _ _ _ _ _ Hr) as [Hv Hs Ht].
  split; simpl; [|done|done].
  intros b vb Hb. destruct (decide (b = a)) as [->|Hne].
  - exists v'. split.
    + apply list_lookup_insert_eq. destruct (Hv a v Ha) as (? & ? & _).
      by eapply lookup_lt_Some.
    + assert (vb = v) as -> by congruence.
      apply rtc_once. by exists shp, dev, dty, w, w1.
  - rewrite list_lookup_insert_ne by done. eauto.
Qed.

Lemma ResetSpace_at_only_logs Q a shp dev dty :
  preserves (only_logs Q) (ResetSpace_at a shp dev dty).
Proof.
  intros w u w' H. apply ResetSpace_at_Ok in H as (v & v' & w1 & Ha & Hr & ->).
  destruct (ResetSpace_only_logs Q _ _ _ _ _ _ _ Hr) as (l & Hl & Hf).
  by exists l.
Qed.

(** *** Operations that leave the world alone *)

Lemma pure_check_read_vars ex ns nd nids : pure_ (check_read_vars ex ns nd nids).
Proof. induction nids as [|nid rest IH]; simpl; pure_tac. Qed.

Lemma pure_check_placeholders ex inputs ns nd nids :
  pure_ (check_placeholders ex inputs ns nd nids).
Proof. induction nids as [|nid rest IH]; simpl; pure_tac. Qed.

Lemma pure_need_redo_infer ex inputs : pure_ (need_redo_infer ex inputs).
Proof.
  unfold need_redo_infer.
  pose proof pure_check_read_vars. pose proof pure_check_placeholders. pure_tac.
Qed.

Lemma pure_seed_var ex nid sd : pure_ (seed_var ex nid sd).
Proof. unfold seed_var. pure_tac. Qed.

Lemma pure_seed_placeholder ex inputs nid sd : pure_ (seed_placeholder ex inputs nid sd).
Proof. unfold seed_placeholder. pure_tac. Qed.

Lemma pure_pool_size_step iv vst vsh i pes : pure_ (pool_size_step iv vst vsh i pes).
Proof. unfold pool_size_step. pure_tac. Qed.

Lemma pure_mapM {A B} (f : A -> M B) xs : (forall x, pure_ (f x)) -> pure_ (mapM f xs).
Proof. intros Hf. unfold mapM. pure_tac. Qed.

Lemma pure_op_exec_step ex nid oe : pure_ (op_exec_step E ex nid oe).
Proof.
  unfold op_exec_step. cbv zeta.
  apply pure_bind; [pure_tac | intros inode]. destruct (op inode); [|pure_tac].
  apply pure_bind; [apply pure_mapM; intros; pure_tac | intros ?].
  apply pure_bind; [apply pure_mapM; intros; pure_tac | intros ?].
  pure_tac.
Qed.

#[local] Hint Resolve pure_check_read_vars pure_check_placeholders pure_need_redo_infer
  pure_seed_var pure_seed_placeholder pure_pool_size_step pure_op_exec_step : pure.

(** *** Composite operations *)

Lemma state_of_Ok key st w r w' :
  state_of E key st w = Ok (r, w') ->
  (exists a, st !! key = Some a /\ r = (st, a) /\ w' = w)
  \/ (st !! key = None /\ r = (<[key := length (vstore w)]> st, length (vstore w))
      /\ w' = mkWorld (tensors w) (storages w)
                      (vstore w ++ [mkVarState None (default_blob E)]) (trace w)).
Proof.
  unfold state_of. destruct (st !! key) as [a|]; intros [= <- <-]; eauto.
Qed.

Lemma state_of_evolves key st : preserves evolves (state_of E key st).
Proof.
  intros w r w' H. apply state_of_Ok in H as [(a & _ & _ & ->)|(_ & _ & ->)]; [reflexivity|].
  split; simpl; [|done|done].
  intros a v Ha. exists v. split; [by apply lookup_app_l_Some | apply rtc_refl].
Qed.

Lemma state_of_only_logs Q key st : preserves (only_logs Q) (state_of E key st).
Proof.
  intros w r w' H. apply state_of_Ok in H as [(a & _ & _ & ->)|(_ & _ & ->)]; [reflexivity|].
  by apply same_trace_only_logs.
Qed.

#[local] Hint Resolve log_evolves NewTensorEmpty_evolves NewTensorShared_evolves
  NewStorage_evolves ResetStorage_evolves CopyFromTo_evolves ResetSpace_at_evolves
  state_of_evolves NewTensorEmpty_only_logs NewTensorShared_only_logs
  NewStorage_only_logs ResetStorage_only_logs ResetSpace_at_only_logs
  state_of_only_logs : pres.
#[local] Hint Extern 1 (preserves (only_logs _) (log _)) =>
  apply log_only_logs; reflexivity : pres.
#[local] Hint Extern 1 (preserves (only_logs _) (CopyFromTo _ _)) =>
  apply CopyFromTo_only_logs; reflexivity : pres.

Ltac pres_tac :=
  repeat first
    [ solve [refine (preserves_pure _ _ _); pure_tac]
    | solve [eauto with pres]
    | refine (preserves_bind _ _ _ _ _); [| intros ?]
    | refine (preserves_foldM _ _ _ _ _); intros ? ?
    | case_head ].

Lemma Init_visit_evolves idx nid s : preserves evolves (Init_visit E idx nid s).
Proof. unfold Init_visit. pres_tac. Qed.

Lemma Init_visit_only_logs Q idx nid s : preserves (only_logs Q) (Init_visit E idx nid s).
Proof. unfold Init_visit. pres_tac. Qed.

#[local] Hint Resolve Init_visit_evolves Init_visit_only_logs : pres.

Lemma Init_evolves ex sym st : preserves evolves (Init E ex sym st).
Proof. unfold Init. cbv zeta. pres_tac. Qed.

Lemma reset_assigned_evolves ex sh dt nid u : preserves evolves (reset_assigned ex sh dt nid u).
Proof. unfold reset_assigned. pres_tac. Qed.

Lemma reset_assigned_only_logs Q ex sh dt nid u :
  preserves (only_logs Q) (reset_assigned ex sh dt nid u).
Proof. unfold reset_assigned. pres_tac. Qed.

#[local] Hint Resolve reset_assigned_evolves reset_assigned_only_logs : pres.

Lemma redo_infer_evolves ex inputs : preserves evolves (redo_infer E ex inputs).
Proof. unfold redo_infer. cbv zeta. pres_tac. Qed.

Lemma redo_infer_only_logs ex inputs :
  preserves (only_logs setup_event) (redo_infer E ex inputs).
Proof. unfold redo_infer. cbv zeta. pres_tac. Qed.

#[local] Hint Resolve redo_infer_evolves redo_infer_only_logs : pres.

Lemma SetupShapeDType_evolves ex inputs : preserves evolves (SetupShapeDType E ex inputs).
Proof. unfold SetupShapeDType. pres_tac. Qed.

Lemma SetupShapeDType_only_logs ex inputs :
  preserves (only_logs setup_event) (SetupShapeDType E ex inputs).
Proof. unfold SetupShapeDType. pres_tac. Qed.

#[local] Hint Resolve SetupShapeDType_evolves SetupShapeDType_only_logs : pres.

Lemma entry_alloc_step_evolves d i de : preserves evolves (entry_alloc_step E d i de).
Proof. unfold entry_alloc_step. pres_tac. Qed.

Lemma entry_alloc_step_only_logs Q d i de :
  preserves (only_logs Q) (entry_alloc_step E d i de).
Proof. unfold entry_alloc_step. pres_tac. Qed.

Lemma pure_entry_alias_step ex nid di : pure_ (entry_alias_step ex nid di).
Proof. unfold entry_alias_step. pure_tac. Qed.

Lemma pool_alloc_step_evolves d sz pool : preserves evolves (pool_alloc_step E d sz pool).
Proof. unfold pool_alloc_step. pres_tac. Qed.

Lemma pool_alloc_step_only_logs Q d sz pool :
  preserves (only_logs Q) (pool_alloc_step E d sz pool).
Proof. unfold pool_alloc_step. pres_tac. Qed.

Lemma pool_assign_step_evolves de iv vst vsh pool i u :
  preserves evolves (pool_assign_step de iv vst vsh pool i u).
Proof. unfold pool_assign_step. pres_tac. Qed.

Lemma pool_assign_step_only_logs Q de iv vst vsh pool i u :
  preserves (only_logs Q) (pool_assign_step de iv vst vsh pool i u).
Proof. unfold pool_assign_step. pres_tac. Qed.

Lemma output_alloc_step_evolves idx vsh i outs :
  preserves evolves (output_alloc_step E idx vsh i outs).
Proof. unfold output_alloc_step. cbv zeta. pres_tac. Qed.

Lemma output_alloc_step_only_logs Q idx vsh i outs :
  preserves (only_logs Q) (output_alloc_step E idx vsh i outs).
Proof. unfold output_alloc_step. cbv zeta. pres_tac. Qed.

#[local] Hint Resolve pure_entry_alias_step : pure.
#[local] Hint Resolve entry_alloc_step_evolves entry_alloc_step_only_logs
  pool_alloc_step_evolves pool_alloc_step_only_logs
  pool_assign_step_evolves pool_assign_step_only_logs
  output_alloc_step_evolves output_alloc_step_only_logs : pres.

Lemma SetupStorage_evolves ex : preserves evolves (SetupStorage E ex).
Proof. unfold SetupStorage. cbv zeta. pres_tac. Qed.

Lemma SetupStorage_only_logs ex : preserves (only_logs setup_event) (SetupStorage E ex).
Proof. unfold SetupStorage. cbv zeta. pres_tac. Qed.

Lemma SetupOpExecs_Ok ex w ex' w' :
  SetupOpExecs E ex w = Ok (ex', w') ->
  exists oe, ex' = with_op_execs ex oe
    /\ length oe = num_nodes (graph_ ex)
    /\ w' = mkWorld (tensors w) (storages w) (vstore w) (EvSetupOpExecs :: trace w).
Proof.
  unfold SetupOpExecs. cbv zeta. intros H. bind_inv H. bind_inv H.
  injection H as <- <-. injection H0 as _ <-.
  exists a0. split; [done|]. split.
  - assert (Hlen : forall xs (oe oe' : list (option Closure)) w1 w2,
      foldM (op_exec_step E ex) xs oe w1 = Ok (oe', w2) -> length oe' = length oe).
    { clear. induction xs as [|x xs IH]; intros oe oe' w1 w2 H; simpl in H.
      - by injection H as <- _.
      - bind_inv H. apply IH in H. rewrite H. clear H IH.
        unfold op_exec_step in H0. cbv zeta in H0. bind_inv H0.
        destruct (op a0); [|by injection H0 as <- _].
        bind_inv H0. bind_inv H0.
        destruct (lua_compute_code E o); [|done].
        destruct (lua_eval E _); [done|].
        unfold set_ in H0. case_decide; [|done].
        injection H0 as <- _. by rewrite length_insert. }
    apply Hlen in H1. rewrite H1. unfold resize.
    rewrite length_app, length_take, length_replicate. lia.
  - assert (Hp : pure_ (foldM (op_exec_step E ex) (seq 0 (num_nodes (graph_ ex)))
                          (resize (op_execs_ ex) (num_nodes (graph_ ex)) None))).
    { apply pure_foldM. intros. apply pure_op_exec_step. }
    apply Hp in H1. by subst.
Qed.

Lemma SetupOpExecs_evolves ex : preserves evolves (SetupOpExecs E ex).
Proof.
  intros w ex' w' H. apply SetupOpExecs_Ok in H as (oe & _ & _ & ->).
  split; simpl; [eauto using rtc_refl | done | lia].
Qed.

Lemma copy_input_step_evolves ex inputs nid u :
  preserves evolves (copy_input_step ex inputs nid u).
Proof. unfold copy_input_step. pres_tac. Qed.

Lemma copy_input_step_only_logs ex inputs nid u :
  preserves (only_logs run_event) (copy_input_step ex inputs nid u).
Proof. unfold copy_input_step. pres_tac. Qed.

Lemma run_closure_step_evolves ex i u : preserves evolves (run_closure_step E ex i u).
Proof. unfold run_closure_step. pres_tac. Qed.

Lemma run_closure_step_only_logs ex i u :
  preserves (only_logs run_event) (run_closure_step E ex i u).
Proof. unfold run_closure_step. pres_tac. Qed.

Lemma copy_output_step_evolves ex i b : preserves evolves (copy_output_step ex i b).
Proof. unfold copy_output_step. cbv zeta. pres_tac. Qed.

Lemma copy_output_step_only_logs ex i b :
  preserves (only_logs run_event) (copy_output_step ex i b).
Proof. unfold copy_output_step. cbv zeta. pres_tac. Qed.

#[local] Hint Resolve SetupStorage_evolves SetupStorage_only_logs SetupOpExecs_evolves
  copy_input_step_evolves copy_input_step_only_logs
  run_closure_step_evolves run_closure_step_only_logs
  copy_output_step_evolves copy_output_step_only_logs : pres.

Lemma Setup_evolves ex inputs : preserves evolves (Setup E ex inputs).
Proof. unfold Setup. pres_tac. Qed.

#[local] Hint Resolve Setup_evolves : pres.

Lemma Run_evolves ex inputs : preserves evolves (Run E ex inputs).
Proof. unfold Run. pres_tac. Qed.

#[local] Hint Resolve Run_evolves Init_evolves : pres.

Lemma Session_exec_run_evolves p entry inputs s :
  preserves evolves (Session_exec_run E p entry inputs s).
Proof. unfold Session_exec_run. pres_tac. Qed.

Lemma Session_rebuild_evolves p sym s : preserves evolves (Session_rebuild E p sym s).
Proof. unfold Session_rebuild. cbv zeta. pres_tac. Qed.

#[local] Hint Resolve Session_exec_run_evolves Session_rebuild_evolves : pres.

Lemma Session_miss_evolves p sym inputs s : preserves evolves (Session_miss E p sym inputs s).
Proof. unfold Session_miss. pres_tac. Qed.

#[local] Hint Resolve Session_miss_evolves : pres.

Lemma Session_Run_evolves p sym inputs s : preserves evolves (Session_Run E p sym inputs s).
Proof. unfold Session_Run. cbv zeta. pres_tac. Qed.

End Frames.

#[global] Hint Resolve pure_check_read_vars pure_check_placeholders pure_need_redo_infer
  pure_seed_var pure_seed_placeholder pure_pool_size_step pure_op_exec_step
  pure_entry_alias_step : pure.
#[global] Hint Resolve log_evolves NewTensorEmpty_evolves NewTensorShared_evolves
  NewStorage_evolves ResetStorage_evolves CopyFromTo_evolves ResetSpace_at_evolves
  state_of_evolves NewTensorEmpty_only_logs NewTensorShared_only_logs
  NewStorage_only_logs ResetStorage_only_logs ResetSpace_at_only_logs
  state_of_only_logs Init_visit_evolves Init_visit_only_logs
  reset_assigned_evolves reset_assigned_only_logs redo_infer_evolves redo_infer_only_logs
  SetupShapeDType_evolves SetupShapeDType_only_logs
  entry_alloc_step_evolves entry_alloc_step_only_logs
  pool_alloc_step_evolves pool_alloc_step_only_logs
  pool_assign_step_evolves pool_assign_step_only_logs
  output_alloc_step_evolves output_alloc_step_only_logs
  SetupStorage_evolves SetupStorage_only_logs SetupOpExecs_evolves
  copy_input_step_evolves copy_input_step_only_logs
  run_closure_step_evolves run_closure_step_only_logs
  copy_output_step_evolves copy_output_step_only_logs
  Setup_evolves Run_evolves Init_evolves : pres.
#[global] Hint Extern 1 (preserves (only_logs _) (log _)) =>
  apply log_only_logs; reflexivity : pres.
#[global] Hint Extern 1 (preserves (only_logs _) (CopyFromTo _ _)) =>
  apply CopyFromTo_only_logs; reflexivity : pres.

Ltac pres_tac :=
  repeat first
    [ solve [refine (preserves_pure _ _ _); pure_tac]
    | solve [eauto with pres]
    | refine (preserves_bind _ _ _ _ _); [| intros ?]
    | refine (preserves_foldM _ _ _ _ _); intros ? ?
    | case_head ].

(** ** Which members of the executor each phase writes *)

(** Decomposes the hypotheses that say a computation succeeded. *)
Ltac inv_ok :=
  repeat match goal with
  | H : bind _ _ _ = Ok _ |- _ => bind_inv H
  | H : ret _ _ = Ok _ |- _ => unfold ret in H
  | H : fail _ _ = Ok _ |- _ => discriminate H
  | H : Err _ = Ok _ |- _ => discriminate H
  | H : Ok _ = Ok _ |- _ => progress simplify_eq
  | H : (if ?b then _ else _) _ = Ok _ |- _ => destruct b eqn:?
  | H : match ?x with _ => _ end _ = Ok _ |- _ => destruct x eqn:?
  | H : match ?x with _ => _ end = Ok _ |- _ => destruct x eqn:?
  end.

#[global] Instance ex_frame_preorder : PreOrder ex_frame.
Proof.
  split.
  - intros ex. by split.
  - intros e1 e2 e3 [? ? ? ? ? ? ? He1 Hc1] [? ? ? ? ? ? ? He2 Hc2]. split; try congruence.
    + intros Hne. destruct (He1 Hne) as [Hd Hi].
      destruct He2 as [Hd' Hi']; [by rewrite Hd|]. split; congruence.
    + intros Hne. pose proof (Hc1 Hne) as Ho.
      rewrite <- Ho. apply Hc2. by rewrite Ho.
Qed.

Section Fields.

Context (E : Env).

Lemma SetupShapeDType_Ok ex inputs w ex' need w' :
  SetupShapeDType E ex inputs w = Ok ((ex', need), w') ->
  need_redo_infer ex inputs w = Ok (need, w)
  /\ (if need
      then exists out, ex' = with_infer ex (inf_shape out) (inf_dtype out)
                       /\ redo_infer E ex inputs w = Ok (ex', w')
      else ex' = ex /\ w' = w).
Proof.
  unfold SetupShapeDType. intros H. bind_inv H.
  pose proof (pure_need_redo_infer _ _ _ _ _ H0) as ->.
  destruct a; simpl in H.
  - bind_inv H. injection H as <- <- <-. split; [done|].
    pose proof H1 as Hr. unfold redo_infer in H1. cbv zeta in H1.
    inv_ok. exists i. done.
  - injection H as <- <- <-. done.
Qed.

Lemma SetupShapeDType_frame ex inputs w ex' need w' :
  SetupShapeDType E ex inputs w = Ok ((ex', need), w') ->
  ex_frame ex ex'
  /\ storage_pool_ ex' = storage_pool_ ex /\ data_entry_ ex' = data_entry_ ex
  /\ data_entry_is_var_ ex' = data_entry_is_var_ ex /\ op_execs_ ex' = op_execs_ ex
  /\ outputs_ ex' = outputs_ ex /\ graph_storage_id ex' = graph_storage_id ex.
Proof.
  intros H. apply SetupShapeDType_Ok in H as [_ H]. destruct need.
  - destruct H as (out & -> & _). by split_and!.
  - destruct H as [-> _]. by split_and!.
Qed.

Lemma SetupStorage_frame ex w ex' w' :
  SetupStorage E ex w = Ok (ex', w') ->
  ex_frame ex ex' /\ op_execs_ ex' = op_execs_ ex
  /\ node_shape_ ex' = node_shape_ ex /\ node_dtype_ ex' = node_dtype_ ex.
Proof.
  unfold SetupStorage. cbv zeta. intros H.
  inv_ok; (split_and!; [split; simpl; try done | done..]).
  all: intros Hne; exfalso; apply Hne, length_zero_iff_nil.
  all: match goal with H : bool_decide _ = true |- _ =>
         apply bool_decide_eq_true_1 in H; exact H end.
Qed.

Lemma SetupOpExecs_frame ex w ex' w' :
  op_execs_ ex = [] -> SetupOpExecs E ex w = Ok (ex', w') -> ex_frame ex ex'.
Proof.
  intros He H. apply SetupOpExecs_Ok in H as (oe & -> & _). by split.
Qed.

Lemma Setup_frame ex inputs w ex' w' :
  Setup E ex inputs w = Ok (ex', w') -> ex_frame ex ex'.
Proof.
  unfold Setup. intros H.
  apply bind_Ok in H as ([ex1 need] & w1 & H1 & H).
  apply bind_Ok in H as (ex2 & w2 & H2 & H).
  apply bind_Ok in H as (ex3 & w3 & H3 & H).
  apply bind_Ok in H as (u & w4 & H4 & H).
  injection H as <- _. simpl in *.
  apply SetupShapeDType_frame in H1 as (F1 & _ & _ & _ & Hoe & _).
  assert (ex_frame ex1 ex2 /\ op_execs_ ex2 = op_execs_ ex1) as [F2 Hoe2].
  { destruct need.
    - apply SetupStorage_frame in H2 as (? & ? & _). done.
    - injection H2 as <- _. done. }
  etrans; [exact F1|]. etrans; [exact F2|].
  case_bool_decide as Hl.
  - eapply SetupOpExecs_frame; [|exact H3]. by apply length_zero_iff_nil.
  - injection H3 as <- _. reflexivity.
Qed.

Lemma Run_frame ex inputs w outs ex' w' :
  Run E ex inputs w = Ok ((outs, ex'), w') -> ex_frame ex ex'.
Proof.
  unfold Run. intros H.
  apply bind_Ok in H as (ex1 & w1 & H1 & H).
  apply bind_Ok in H as (u & w2 & H2 & H).
  apply bind_Ok in H as (blobs & w3 & H3 & H).
  injection H as <- <- _.
  apply Setup_frame in H1 as []. by split.
Qed.

End Fields.

(** ** Storage setup leaves the variable states alone *)

#[global] Instance keeps_vstore_preorder : PreOrder keeps_vstore.
Proof. split; [done | intros w1 w2 w3 H1 H2; unfold keeps_vstore in *; congruence]. Qed.

Section KeepsVstore.

Context (E : Env).

Lemma log_keeps e : preserves keeps_vstore (log e).
Proof. by intros w a w' [= _ <-]. Qed.

Lemma NewTensorEmpty_keeps d t : preserves keeps_vstore (NewTensorEmpty d t).
Proof. by intros w a w' [= _ <-]. Qed.

Lemma NewTensorShared_keeps b : preserves keeps_vstore (NewTensorShared b).
Proof. by intros w a w' [= _ <-]. Qed.

Lemma NewStorage_keeps n d t : preserves keeps_vstore (NewStorage n d t).
Proof. by intros w a w' [= _ <-]. Qed.

Lemma ResetStorage_keeps t s shp : preserves keeps_vstore (ResetStorage t s shp).
Proof.
  intros w u w' H. by apply ResetStorage_Ok in H as (h & o & so & _ & _ & _ & ->).
Qed.

Lemma CopyFromTo_keeps a b : preserves keeps_vstore (CopyFromTo a b).
Proof.
  unfold CopyFromTo. destruct a, b; try (refine (preserves_pure _ _ _); apply pure_fail).
  apply log_keeps.
Qed.

#[local] Hint Resolve log_keeps NewTensorEmpty_keeps NewTensorShared_keeps NewStorage_keeps
  ResetStorage_keeps CopyFromTo_keeps : pres.

Lemma SetupStorage_keeps ex : preserves keeps_vstore (SetupStorage E ex).
Proof.
  unfold SetupStorage, entry_alloc_step, pool_alloc_step, pool_assign_step,
    output_alloc_step.
  cbv zeta. pres_tac.
Qed.

End KeepsVstore.

#[global] Hint Resolve log_keeps NewTensorEmpty_keeps NewTensorShared_keeps NewStorage_keeps
  ResetStorage_keeps CopyFromTo_keeps : pres.

Lemma preserves_elim (R : relation World) {A} (c : M A) w a w' :
  c w = Ok (a, w') -> preserves R c -> R w w'.
Proof. intros H Hc. eapply Hc, H. Qed.

(** ** The steps of the program on the world *)

Section WorldSteps.

Context (E : Env).

Lemma backend_steps w w' :
  keeps_vstore w w' -> evolves w w' -> rtc (world_step E) w w'.
Proof. intros Hk [_ Hs Ht]. apply rtc_once. by apply step_backend. Qed.

Lemma preserves_backend {A} (c : M A) :
  preserves keeps_vstore c -> preserves evolves c -> preserves (rtc (world_step E)) c.
Proof. intros Hk He w a w' H. apply backend_steps; [eapply Hk, H | eapply He, H]. Qed.

Lemma log_steps e : preserves (rtc (world_step E)) (log e).
Proof. apply preserves_backend; auto with pres. Qed.

Lemma CopyFromTo_steps a b : preserves (rtc (world_step E)) (CopyFromTo a b).
Proof. apply preserves_backend; auto with pres. Qed.

Lemma NewTensorShared_steps b : preserves (rtc (world_step E)) (NewTensorShared b).
Proof. apply preserves_backend; auto with pres. Qed.

Lemma ResetSpace_at_steps a shp dev dty :
  preserves (rtc (world_step E)) (ResetSpace_at a shp dev dty).
Proof. intros w [] w' H. apply rtc_once. by eapply step_reset. Qed.

Lemma state_of_steps key states : preserves (rtc (world_step E)) (state_of E key states).
Proof.
  intros w r w' H. unfold state_of in H. destruct (states !! key).
  - injection H as _ <-. reflexivity.
  - injection H as _ <-. apply rtc_once. by apply step_new_state.
Qed.

Lemma SetupStorage_steps ex : preserves (rtc (world_step E)) (SetupStorage E ex).
Proof. apply preserves_backend; [apply SetupStorage_keeps | apply SetupStorage_evolves]. Qed.

Lemma SetupOpExecs_steps ex : preserves (rtc (world_step E)) (SetupOpExecs E ex).
Proof.
  intros w ex' w' H. pose proof (SetupOpExecs_evolves E ex _ _ _ H) as He.
  apply SetupOpExecs_Ok in H as (oe & _ & _ & ->).
  by apply backend_steps.
Qed.

#[local] Hint Resolve log_steps CopyFromTo_steps NewTensorShared_steps ResetSpace_at_steps
  state_of_steps SetupStorage_steps SetupOpExecs_steps : pres.

Lemma Init_steps ex sym states : preserves (rtc (world_step E)) (Init E ex sym states).
Proof. unfold Init, Init_visit. cbv zeta. pres_tac. Qed.

Lemma SetupShapeDType_steps ex inputs :
  preserves (rtc (world_step E)) (SetupShapeDType E ex inputs).
Proof. unfold SetupShapeDType, redo_infer, reset_assigned. cbv zeta. pres_tac. Qed.

#[local] Hint Resolve Init_steps SetupShapeDType_steps : pres.

Lemma Run_steps ex inputs : preserves (rtc (world_step E)) (Run E ex inputs).
Proof.
  unfold Run, Setup, copy_input_step, run_closure_step, copy_output_step.
  cbv zeta. pres_tac.
Qed.

#[local] Hint Resolve Run_steps : pres.

Lemma Session_Run_steps p sym inputs s :
  preserves (rtc (world_step E)) (Session_Run E p sym inputs s).
Proof.
  unfold Session_Run, Session_miss, Session_rebuild, Session_exec_run.
  cbv zeta. pres_tac.
Qed.

End WorldSteps.

(** What a sequence of steps does to the store: no variable state is
    removed, no storage buffer is removed or changed, and a variable
    state that differs afterwards is as [ResetSpace] leaves it. *)
Lemma world_steps_store E w w' :
  rtc (world_step E) w w' ->
  storages w `prefix_of` storages w'
  /\ forall a v, vstore w !! a = Some v ->
       exists v', vstore w' !! a = Some v' /\ reset_result w w' v v'.
Proof.
  revert w'. apply rtc_ind_r.
  - split; [done|]. intros a v Ha. exists v. split; [done | by left].
  - intros w1 w' _ Hstep [Hpre Hst].
    assert (forall w2 v v1, reset_result w w1 v v1 -> storages w1 `prefix_of` storages w2 ->
              reset_result w w2 v v1) as Hmono.
    { intros w2 v v1 [->|(Hi & Hh & s & Hd & Hle & Hs)] Hp; [by left|].
      right. split_and!; [done..|]. exists s. split_and!; [done..|].
      by eapply prefix_lookup_Some. }
    destruct Hstep as [a shp dev dty Hr | -> | Hv Hs Ht].
    + apply ResetSpace_at_Ok in Hr as (v1 & v2 & w2 & Ha1 & Hr & ->). simpl.
      destruct (must_realloc v1 shp dev dty) eqn:Hc.
      * destruct (ResetSpace_alloc _ _ _ _ _ _ _ Hc Hr) as (Hv2 & Hs2 & _ & _ & _ & Hvs & _).
        simpl in Hv2. rewrite Hs2, Hvs.
        split; [by apply prefix_app_r|].
        intros b v Hb. destruct (Hst b v Hb) as (vb & Hb1 & Hres).
        destruct (decide (b = a)) as [->|Hne].
        -- exists v2. split; [apply list_lookup_insert_eq; by eapply lookup_lt_Some|].
           assert (vb = v1) as -> by congruence.
           right. rewrite Hv2. simpl. split_and!; [done | |].
           ++ intros t Ht. f_equal.
              assert (tensor v1 = Some t) as ->; [|done].
              destruct Hres as [->|(_ & Hh & _)]; auto.
           ++ exists (length (storages w1)). split_and!; [done | | ].
              ** by apply prefix_length.
              ** by apply list_lookup_middle.
        -- exists vb. rewrite list_lookup_insert_ne by congruence. split; [done|].
           eapply Hmono; [exact Hres|]. simpl. by apply prefix_app_r.
      * rewrite ResetSpace_keep in Hr by done. injection Hr as <- <-.
        split; [done|]. intros b v Hb. destruct (Hst b v Hb) as (vb & Hb1 & Hres).
        exists vb. split; [|done].
        destruct (decide (b = a)) as [->|Hne].
        -- assert (vb = v1) as -> by congruence.
           apply list_lookup_insert_eq. by eapply lookup_lt_Some.
        -- rewrite list_lookup_insert_ne by congruence. done.
    + simpl. split; [done|]. intros b v Hb. destruct (Hst b v Hb) as (vb & Hb1 & Hres).
      exists vb. split; [by apply lookup_app_l_Some | done].
    + split; [by etrans|]. intros b v Hb. destruct (Hst b v Hb) as (vb & Hb1 & Hres).
      exists vb. rewrite Hv. split; [done|]. by eapply Hmono.
Qed.

(** ** C7: ResetSpace *)

(** C7. For every variable state, [ResetSpace] on an initialized variable
    whose blob already has the requested shape, device and dtype is a
    no-op that leaves the variable state and the backend unchanged; a
    call changes something only if the variable has no tensor yet, which
    is its first allocation, or the requested triple differs from the
    blob; and [ResetSpace] is the sole mutator of the variable states:
    a whole session run takes the world through steps each of which is a
    call of [ResetSpace] on a state of the store, the creation of a new
    state, or a step of the backend that leaves the store as it is.  So
    every variable state that existed before is still there afterwards,
    and when it differs it is as [ResetSpace] leaves it: initialized,
    with the handle it had, and with a blob that describes a storage
    buffer allocated during the run. *)
Theorem ResetSpace_sole_mutator :
  forall (v : VarState) (shp : TShape) (dev dty : Z) (w : World),
    (initialized v = true ->
     shp = shape (blob v) -> dev = dev_mask (blob v) -> dty = dtype (blob v) ->
     ResetSpace v shp dev dty w = Ok (v, w))
    /\ (forall v' w',
          ResetSpace v shp dev dty w = Ok (v', w') ->
          (v', w') <> (v, w) ->
          initialized v = false
          \/ (shp, dev, dty) <> (shape (blob v), dev_mask (blob v), dtype (blob v)))
    /\ (forall v' w',
          ResetSpace v shp dev dty w = Ok (v', w') ->
          initialized v = false ->
          initialized v' = true
          /\ storages w' = storages w ++ [mkStorage (shape_size shp) dev dty])
    /\ (forall E p sym inputs s r w',
          Session_Run E p sym inputs s w = Ok (r, w') ->
          rtc (world_step E) w w'
          /\ forall a v0, vstore w !! a = Some v0 ->
               exists v1, vstore w' !! a = Some v1 /\ reset_result w w' v0 v1).
Proof.
  intros v shp dev dty w. split_and!.
  - intros Hi -> -> ->. apply ResetSpace_keep. by apply must_realloc_false.
  - intros v' w' H Hne.
    destruct (initialized v) eqn:Hi; [right | by left].
    intros Heq. injection Heq as -> -> ->.
    rewrite ResetSpace_keep in H by (by apply must_realloc_false).
    congruence.
  - intros v' w' H Hi.
    assert (Hc : must_realloc v shp dev dty = true).
    { unfold must_realloc. unfold initialized in Hi.
      by destruct (is_nil (tensor v)). }
    by destruct (ResetSpace_alloc _ _ _ _ _ _ _ Hc H) as (-> & -> & _).
  - intros E p sym inputs s r w' H.
    apply Session_Run_steps in H. split; [exact H|].
    by apply world_steps_store in H as [_ H].
Qed.

Lemma ResetSpace_sole_mutator_witness :
  ResetSpace var_3x4 [3; 4]%N 1 0 (result_world assigned_once)
    = Ok (var_3x4, result_world assigned_once)
  /\ (initialized var_3x4 = false \/ ([4; 3]%N, 1%Z, 0%Z) <> ([3; 4]%N, 1%Z, 0%Z))
  /\ rtc (world_step demo) (result_world assigned_once)
       (result_world
          (Session_Run demo 5 sym_assign (feed_x blob_4x3)
             (result_session assigned_once) (result_world assigned_once)))
  /\ (forall a v0, vstore (result_world assigned_once) !! a = Some v0 ->
      exists v1,
        vstore (result_world
                  (Session_Run demo 5 sym_assign (feed_x blob_4x3)
                     (result_session assigned_once) (result_world assigned_once)))
          !! a = Some v1
        /\ reset_result (result_world assigned_once)
             (result_world
                (Session_Run demo 5 sym_assign (feed_x blob_4x3)
                   (result_session assigned_once) (result_world assigned_once)))
             v0 v1).
Proof.
  assert (forall (P Q R S : Prop), P -> Q -> (R /\ S) -> P /\ Q /\ R /\ S) as Hs by tauto.
  apply Hs; clear Hs.
  - apply (ResetSpace_sole_mutator var_3x4 [3; 4]%N 1 0 (result_world assigned_once));
      reflexivity.
  - destruct (ResetSpace_sole_mutator var_3x4 [4; 3]%N 1 0 (result_world assigned_once))
      as (_ & H & _ & _).
    refine (H _ _ _ _).
    + vm_compute. reflexivity.
    + vm_compute. discriminate.
  - destruct (ResetSpace_sole_mutator var_3x4 [3; 4]%N 1 0 (result_world assigned_once))
      as (_ & _ & _ & H).
    refine (H demo 5%N sym_assign (feed_x blob_4x3) (result_session assigned_once) _ _ _).
    vm_compute. reflexivity.
Defined.

(** ** Entry ids of the input nodes *)

Lemma entry_id_S idx nid n :
  idx_nodes idx !! nid = Some n ->
  entry_id idx (S nid) 0 = entry_id idx nid 0 + node_num_outputs n.
Proof.
  intros Hn. unfold entry_id. rewrite (take_S_r _ _ _ Hn), map_app, list_sum_app.
  simpl. lia.
Qed.

Lemma entry_id_mono idx n1 n2 : n1 <= n2 -> entry_id idx n1 0 <= entry_id idx n2 0.
Proof.
  induction 1 as [|m Hle IH]; [done|].
  destruct (idx_nodes idx !! m) as [n|] eqn:Hm.
  - rewrite (entry_id_S _ _ _ Hm). lia.
  - apply lookup_ge_None in Hm. etrans; [exact IH|]. unfold entry_id.
    rewrite (take_ge _ (S m)), (take_ge _ m) by lia. done.
Qed.

Lemma entry_id_variable_lt idx n1 n2 :
  is_variable_at idx n1 = true -> n1 < n2 -> entry_id idx n1 0 < entry_id idx n2 0.
Proof.
  unfold is_variable_at. intros Hv Hlt.
  destruct (idx_nodes idx !! n1) as [n|] eqn:Hn; [|done].
  pose proof (entry_id_mono idx (S n1) n2 Hlt) as Hm.
  rewrite (entry_id_S _ _ _ Hn) in Hm. unfold node_num_outputs in Hm.
  rewrite Hv in Hm. lia.
Qed.

Lemma In_input_nodes idx nid :
  In nid (input_nodes idx) <-> nid < num_nodes idx /\ is_variable_at idx nid = true.
Proof.
  unfold input_nodes. rewrite List.filter_In, in_seq. intuition lia.
Qed.

Lemma entry_id_input_nodes_inj idx n1 n2 :
  In n1 (input_nodes idx) -> In n2 (input_nodes idx) ->
  entry_id idx n1 0 = entry_id idx n2 0 -> n1 = n2.
Proof.
  rewrite !In_input_nodes. intros [_ H1] [_ H2] He.
  destruct (Nat.lt_trichotomy n1 n2) as [Hlt|[->|Hlt]]; [|done|].
  - pose proof (entry_id_variable_lt idx n1 n2 H1 Hlt). lia.
  - pose proof (entry_id_variable_lt idx n2 n1 H2 Hlt). lia.
Qed.

Lemma NoDup_input_nodes idx : List.NoDup (input_nodes idx).
Proof. unfold input_nodes. apply List.NoDup_filter, List.seq_NoDup. Qed.

(** ** C10: the entries of the variables stay aliased *)

Lemma entry_alias_step_Ok ex nid de iv w di w' :
  entry_alias_step ex nid (de, iv) w = Ok (di, w') ->
  exists a v, node_states_ ex !! nid = Some (Some a) /\ vstore w !! a = Some v
    /\ entry_id (graph_ ex) nid 0 < length de
    /\ di = (<[entry_id (graph_ ex) nid 0 := tensor v]> de,
             <[entry_id (graph_ ex) nid 0 := true]> iv)
    /\ w' = w.
Proof.
  intros H. pose proof (pure_entry_alias_step _ _ _ _ _ _ H) as ->.
  unfold entry_alias_step, idx_, load, set_, bind, ret, fail in H. simpl in H.
  destruct (node_states_ ex !! nid) as [[a|]|] eqn:Hst; [|done..].
  destruct (vstore w !! a) as [v|] eqn:Hv; [|done].
  case_decide; [|done]. case_decide; [|done].
  injection H as <-. eauto 10.
Qed.

Lemma entry_alias_fold ex nids :
  forall de iv w di w',
    (forall n1 n2, In n1 nids -> In n2 nids ->
       entry_id (graph_ ex) n1 0 = entry_id (graph_ ex) n2 0 -> n1 = n2) ->
    List.NoDup nids ->
    foldM (entry_alias_step ex) nids (de, iv) w = Ok (di, w') ->
    (forall nid, In nid nids ->
       exists a v, node_states_ ex !! nid = Some (Some a) /\ vstore w !! a = Some v
                   /\ fst di !! entry_id (graph_ ex) nid 0 = Some (tensor v))
    /\ (forall j, (forall nid, In nid nids -> entry_id (graph_ ex) nid 0 <> j) ->
        fst di !! j = de !! j).
Proof.
  induction nids as [|nid rest IH]; intros de iv w di w' Hinj Hnd H; simpl in H.
  - injection H as <- _. split; [intros ? [] | done].
  - apply bind_Ok in H as ([de1 iv1] & w1 & H1 & H).
    apply entry_alias_step_Ok in H1 as (a & v & Hst & Hv & Hlt & [= -> ->] & ->).
    apply List.NoDup_cons_iff in Hnd as [Hnotin Hnd].
    destruct (IH _ _ _ _ _ (fun n1 n2 H1 H2 => Hinj n1 n2 (or_intror H1) (or_intror H2))
                Hnd H) as [IH1 IH2].
    split.
    + intros n [<-|Hin]; [|by apply IH1].
      exists a, v. split_and!; [done..|].
      rewrite IH2.
      * by apply list_lookup_insert_eq.
      * intros n Hin He. apply Hnotin.
        rewrite <- (Hinj n nid (or_intror Hin) (or_introl eq_refl) He). done.
    + intros j Hj. rewrite IH2.
      * apply list_lookup_insert_ne. apply Hj. by left.
      * intros n Hin. apply Hj. by right.
Qed.

Lemma aliased_preserved ex w ex' w' :
  ex_frame ex ex' -> data_entry_ ex <> [] -> evolves w w' ->
  aliased ex w -> aliased ex' w'.
Proof.
  intros [_ Hg _ _ _ _ Hn He _] Hne [Hv _ _] Hal nid t Hin Hl.
  destruct (He Hne) as [Hd _]. rewrite Hg in Hin, Hl. rewrite Hd in Hl.
  destruct (Hal nid t Hin Hl) as (a & v & Hst & Ha & Ht).
  destruct (Hv a v Ha) as (v' & Ha' & Hr).
  exists a, v'. rewrite Hn. split_and!; [done..|].
  eapply reset_steps_handle; eauto.
Qed.

Section Aliases.

Context (E : Env).

(** The first allocation of the entries copies the reference of every
    variable state into the entry of its node. *)
Lemma SetupStorage_handles ex w ex' w' :
  data_entry_ ex = [] -> SetupStorage E ex w = Ok (ex', w') -> entries_are_handles ex' w'.
Proof.
  intros Hde H.
  pose proof (SetupStorage_keeps E ex _ _ _ H) as Hvs. unfold keeps_vstore in Hvs.
  pose proof (SetupStorage_frame E _ _ _ _ H) as ([_ Hg' _ _ _ _ Hn' _ _] & _).
  unfold SetupStorage in H. cbv zeta in H.
  apply bind_Ok in H as (u & w1 & H1 & H).
  apply bind_Ok in H as (ex1 & w2 & H2 & H).
  assert (data_entry_ ex1 = [] /\ graph_ ex1 = graph_ ex
          /\ node_states_ ex1 = node_states_ ex) as (Hde1 & Hg1 & Hn1).
  { clear H. inv_ok; done. }
  apply bind_Ok in H as (vstorage & w3 & H3 & H).
  apply bind_Ok in H as (vshape & w4 & H4 & H).
  apply bind_Ok in H as (ex2 & w5 & H5 & H).
  rewrite Hde1 in H5. simpl in H5.
  apply bind_Ok in H5 as (de & w6 & H6 & H5).
  apply bind_Ok in H5 as (di & w7 & H7 & H5).
  injection H5 as <- <-.
  assert (data_entry_ ex' = di.1) as Hd'.
  { clear -H. inv_ok. done. }
  assert (keeps_vstore w w6) as Hk.
  { eapply (preserves_elim keeps_vstore) in H1; [|pres_tac].
    eapply (preserves_elim keeps_vstore) in H2; [|pres_tac].
    eapply (preserves_elim keeps_vstore) in H3; [|pres_tac].
    eapply (preserves_elim keeps_vstore) in H4; [|pres_tac].
    eapply (preserves_elim keeps_vstore) in H6; [|unfold entry_alloc_step; pres_tac].
    unfold keeps_vstore in *. congruence. }
  rewrite <- Hg1 in H7.
  apply entry_alias_fold in H7 as [Hal _];
    [| intros n1 n2; apply entry_id_input_nodes_inj | apply NoDup_input_nodes].
  intros nid Hin. rewrite Hg', <- Hg1 in Hin |- *.
  destruct (Hal nid Hin) as (a & v & Hst & Hv & Hd).
  exists a, v. rewrite Hn', <- Hn1, Hd'. split_and!; [done | | done].
  rewrite Hvs. unfold keeps_vstore in Hk. by rewrite <- Hk.
Qed.

Lemma entries_are_handles_aliased ex w : entries_are_handles ex w -> aliased ex w.
Proof.
  intros H nid t Hin Hl. destruct (H nid Hin) as (a & v & Hst & Hv & Hd).
  exists a, v. split_and!; [done..|]. by injection (eq_trans (eq_sym Hd) Hl).
Qed.

(** What follows the storage setup in a run leaves the variable states
    and the entries alone. *)
Lemma SetupOpExecs_keeps ex : preserves keeps_vstore (SetupOpExecs E ex).
Proof. intros w ex' w' H. by apply SetupOpExecs_Ok in H as (oe & _ & _ & ->). Qed.

Lemma copy_inputs_keeps ex inputs nids :
  preserves keeps_vstore (foldM (copy_input_step ex inputs) nids tt).
Proof. unfold copy_input_step. pres_tac. Qed.

Lemma run_closures_keeps ex ids :
  preserves keeps_vstore (foldM (run_closure_step E ex) ids tt).
Proof. unfold run_closure_step. pres_tac. Qed.

Lemma copy_outputs_keeps ex ids blobs :
  preserves keeps_vstore (foldM (copy_output_step ex) ids blobs).
Proof. unfold copy_output_step. cbv zeta. pres_tac. Qed.

(** The first run of an executor, which has no inference result and no
    entries yet, ends with every variable entry holding the reference of
    its variable state. *)
Lemma first_Run_handles ex inputs w outs ex' w' :
  node_shape_ ex = None -> data_entry_ ex = [] ->
  Run E ex inputs w = Ok ((outs, ex'), w') ->
  entries_are_handles ex' w'.
Proof.
  intros Hns Hde H. unfold Run in H.
  apply bind_Ok in H as (ex1 & w1 & H1 & H).
  apply bind_Ok in H as (u & w2 & H2 & H).
  apply bind_Ok in H as (blobs & w3 & H3 & H). injection H as <- <- <-.
  apply run_closures_keeps in H2. apply copy_outputs_keeps in H3.
  unfold Setup in H1.
  apply bind_Ok in H1 as ([exa need] & wa & Ha & H1).
  apply bind_Ok in H1 as (exb & wb & Hb & H1).
  apply bind_Ok in H1 as (exc & wc & Hc & H1).
  apply bind_Ok in H1 as (u' & wd & Hd & H1). injection H1 as <- <-. simpl in *.
  apply copy_inputs_keeps in Hd.
  pose proof (SetupShapeDType_frame _ _ _ _ _ _ _ Ha) as (_ & _ & Hdea & _).
  apply SetupShapeDType_Ok in Ha as [Hn _].
  unfold need_redo_infer in Hn. rewrite Hns in Hn. injection Hn as <-.
  apply SetupStorage_handles in Hb; [|congruence].
  assert (graph_ exc = graph_ exb /\ node_states_ exc = node_states_ exb
          /\ data_entry_ exc = data_entry_ exb /\ keeps_vstore wb wc) as (Hg & Hn & Hdc & Hk).
  { case_bool_decide.
    - pose proof (SetupOpExecs_keeps _ _ _ _ Hc).
      apply SetupOpExecs_Ok in Hc as (oe & -> & _). done.
    - injection Hc as <- <-. done. }
  unfold keeps_vstore in *.
  intros nid Hin. simpl in *. rewrite Hg in Hin |- *.
  destruct (Hb nid Hin) as (a & v & Hst & Hv & Hdv).
  exists a, v. rewrite Hn, Hdc. split_and!; [done | | done]. congruence.
Qed.

Lemma Init_fresh sym states w ex st w' :
  Init E (new_executor E) sym states w = Ok ((ex, st), w') ->
  graph_ ex = indexed_graph sym /\ node_shape_ ex = None /\ data_entry_ ex = [].
Proof.
  unfold Init. cbv zeta. intros H.
  apply bind_Ok in H as (u & w1 & _ & H).
  apply bind_Ok in H as (s & w2 & _ & H). by injection H as <- _ _.
Qed.

Lemma Run_all_frame runs :
  forall ex w ex' w',
    Run_all E ex runs w = Ok (ex', w') -> ex_frame ex ex' /\ evolves w w'.
Proof.
  induction runs as [|inputs runs IH]; intros ex w ex' w' H; simpl in H.
  - injection H as <- <-. split; reflexivity.
  - apply bind_Ok in H as ([outs ex1] & w1 & H1 & H). simpl in H.
    destruct (IH _ _ _ _ H) as [F Hev].
    split; (etrans; [|eassumption]).
    + by eapply Run_frame.
    + by eapply Run_evolves.
Qed.

End Aliases.

(** C10. Once the tensor handle of a variable state is set, [ResetSpace]
    keeps it: a reallocation binds a new storage buffer to the same tensor
    object, which the blob then describes.  The first allocation of
    [data_entry_] by [SetupStorage] makes the entry of every input node
    the very reference that its variable state holds, and so it is at
    the end of the first run of an executor.  Every later run leaves
    [data_entry_] as it is.  So, whatever runs follow the first and
    whatever reallocations of the variables they perform, the entry of
    every variable that had a tensor at the first allocation is never
    written again and still holds the tensor of its variable state. *)
Theorem variable_entries_stay_aliased :
  forall E : Env,
    (forall v shp dev dty w v' w' t,
       ResetSpace v shp dev dty w = Ok (v', w') ->
       tensor v = Some t ->
       tensor v' = Some t
       /\ (must_realloc v shp dev dty = true ->
           tensors w' !! t = Some (mkTensor (Some (length (storages w))) shp dev dty)
           /\ storages w' !! length (storages w) = Some (mkStorage (shape_size shp) dev dty)
           /\ blob v' = mkTBlob (Some (length (storages w))) shp dev dty))
    /\ (forall ex w ex' w',
          data_entry_ ex = [] ->
          SetupStorage E ex w = Ok (ex', w') ->
          entries_are_handles ex' w')
    /\ (forall ex inputs w outs ex' w',
          data_entry_ ex <> [] ->
          aliased ex w ->
          Run E ex inputs w = Ok ((outs, ex'), w') ->
          data_entry_ ex' = data_entry_ ex /\ aliased ex' w')
    /\ (forall sym states w0 ex0 states' w1 inputs outs ex1 w2 runs exn wn,
          Init E (new_executor E) sym states w0 = Ok ((ex0, states'), w1) ->
          Run E ex0 inputs w1 = Ok ((outs, ex1), w2) ->
          Run_all E ex1 runs w2 = Ok (exn, wn) ->
          entries_are_handles ex1 w2
          /\ forall nid a v t,
               In nid (input_nodes (indexed_graph sym)) ->
               node_states_ ex1 !! nid = Some (Some a) ->
               vstore w2 !! a = Some v ->
               tensor v = Some t ->
               data_entry_ exn = data_entry_ ex1
               /\ data_entry_ exn !! entry_id (indexed_graph sym) nid 0 = Some (Some t)
               /\ node_states_ exn !! nid = Some (Some a)
               /\ exists v', vstore wn !! a = Some v' /\ tensor v' = Some t).
Proof.
  intros E. split_and!.
  - intros v shp dev dty w v' w' t H Ht. split; [by eapply ResetSpace_handle|].
    intros Hc. destruct (ResetSpace_alloc _ _ _ _ _ _ _ Hc H) as (-> & Hs & Hh & _).
    rewrite Ht in Hh. simpl in *. split_and!; [done | | done].
    rewrite Hs. by apply list_lookup_middle.
  - intros ex w ex' w'. apply SetupStorage_handles.
  - intros ex inputs w outs ex' w' Hne Hal H.
    pose proof (Run_frame _ _ _ _ _ _ _ H) as F.
    split; [by apply F|].
    eapply aliased_preserved; eauto. eapply Run_evolves, H.
  - intros sym states w0 ex0 states' w1 inputs outs ex1 w2 runs exn wn HI HR HA.
    destruct (Init_fresh _ _ _ _ _ _ _ HI) as (Hg0 & Hns & Hde).
    pose proof (Run_frame _ _ _ _ _ _ _ HR) as [_ Hg1 _ _ _ _ _ _ _].
    pose proof (first_Run_handles _ _ _ _ _ _ _ Hns Hde HR) as Hh.
    split; [exact Hh|].
    intros nid a v t Hin Hst Hv Ht.
    rewrite <- Hg0, <- Hg1 in Hin |- *.
    destruct (Hh nid Hin) as (a' & v1 & Hst' & Hv' & Hd).
    assert (a' = a) as -> by congruence. assert (v1 = v) as -> by congruence.
    apply Run_all_frame in HA as [[_ _ _ _ _ _ Hn He _] [Hev _ _]].
    destruct He as [Hd' _]; [intros Hnil; by rewrite Hnil in Hd|].
    destruct (Hev a v Hv) as (v' & Hv2 & Hr).
    split_and!; [done | rewrite Hd', <- Ht; exact Hd | by rewrite Hn |].
    exists v'. split; [done|]. eapply reset_steps_handle; eauto.
Qed.

Lemma variable_entries_stay_aliased_witness :
  (exists v' w',
     ResetSpace var_3x4 [4; 3]%N 1 0 (result_world assigned_once) = Ok (v', w')
     /\ tensor v' = Some 0)
  /\ (exists ex' w',
        SetupStorage demo (result_exec assign_inferred) (result_world assign_inferred)
          = Ok (ex', w')
        /\ entries_are_handles ex' w')
  /\ (exists outs ex' w',
        Run demo (cached_exec (result_session assigned_once) 5) (feed_x blob_4x3)
            (result_world assigned_once) = Ok ((outs, ex'), w')
        /\ data_entry_ ex' = data_entry_ (cached_exec (result_session assigned_once) 5)
        /\ aliased ex' w')
  /\ (exists exn wn,
        Run_all demo (run_exec assign_first) [feed_x blob_4x3; feed_x blob_3x4]
          (result_world assign_first) = Ok (exn, wn)
        /\ entries_are_handles (run_exec assign_first) (result_world assign_first)
        /\ data_entry_ exn = data_entry_ (run_exec assign_first)
        /\ data_entry_ exn !! entry_id (indexed_graph sym_assign) 0 0 = Some (Some 0)
        /\ node_states_ exn !! 0 = Some (Some 0)
        /\ exists v', vstore wn !! 0 = Some v' /\ tensor v' = Some 0).
Proof.
  destruct (variable_entries_stay_aliased demo) as (H1 & H2 & H3 & H4).
  split_and!.
  - eexists _, _. split; [vm_compute; reflexivity|].
    refine (proj1 (H1 var_3x4 [4; 3]%N 1%Z 0%Z (result_world assigned_once) _ _ 0 _ _));
      [vm_compute; reflexivity | reflexivity].
  - eexists _, _. split; [vm_compute; reflexivity|].
    eapply (H2 (result_exec assign_inferred) (result_world assign_inferred));
      [reflexivity | vm_compute; reflexivity].
  - eexists _, _, _. split; [vm_compute; reflexivity|].
    eapply (H3 (cached_exec (result_session assigned_once) 5) (feed_x blob_4x3)
               (result_world assigned_once)); [| |vm_compute; reflexivity].
    + vm_compute. discriminate.
    + intros nid t Hin Hl. vm_compute in Hin. destruct Hin as [<-|[]].
      vm_compute in Hl. injection Hl as <-.
      exists 0, (mkVarState (Some 0) (mkTBlob (Some 0) [3; 4]%N 1 0)).
      vm_compute. done.
  - destruct (Run_all demo (run_exec assign_first) [feed_x blob_4x3; feed_x blob_3x4]
                (result_world assign_first)) as [[exn wn]|] eqn:HA;
      [|vm_compute in HA; discriminate HA].
    exists exn, wn. split; [reflexivity|].
    destruct (H4 sym_assign ∅ empty_world (result_exec assign_initial)
                {[ "v"%string := 0 ]}
                (result_world assign_initial) (feed_x blob_3x4) (run_blobs assign_first)
                (run_exec assign_first) (result_world assign_first)
                [feed_x blob_4x3; feed_x blob_3x4] exn wn) as [Hh Hn];
      [vm_compute; reflexivity | vm_compute; reflexivity | exact HA |].
    split; [exact Hh|].
    apply (Hn 0 0 var_3x4 0); vm_compute; auto.
Defined.

(** ** C6: sizes of the storage pool *)

Lemma foldM_app {A S} (body : A -> S -> M S) xs ys s w :
  foldM body (xs ++ ys) s w = bind (foldM body xs s) (fun s' => foldM body ys s') w.
Proof.
  revert s w. induction xs as [|x xs IH]; intros s w; simpl; [done|].
  unfold bind in *. destruct (body x s w) as [[s1 w1]|e]; [apply IH | done].
Qed.

Lemma max_size_snoc l x : max_size (l ++ [x]) = N.max (max_size l) x.
Proof. induction l as [|y l IH]; simpl; [lia|]. rewrite IH. lia. Qed.

Lemma pool_members_S iv vst vsh sid k :
  pool_members iv vst vsh sid (S k) =
  pool_members iv vst vsh sid k ++
    match member_size iv vst vsh sid k with Some x => [x] | None => [] end.
Proof. unfold pool_members. rewrite seq_S, omap_app. simpl. by destruct member_size. Qed.

Lemma pool_size_step_Ok iv vst vsh i pes w pes' w' :
  pool_size_step iv vst vsh i pes w = Ok (pes', w') ->
  w' = w /\
  ((iv !! i = Some true /\ pes' = pes)
   \/ exists sid shp cur,
        iv !! i = Some false /\ vst !! i = Some (Z.of_nat sid) /\ vsh !! i = Some shp
        /\ (if bool_decide (length pes <= sid) then resize pes (sid + 1) 0%N else pes)
             !! sid = Some cur
        /\ pes' = <[sid := N.max cur (shape_size shp)]>
                    (if bool_decide (length pes <= sid)
                     then resize pes (sid + 1) 0%N else pes)).
Proof.
  intros H. pose proof (pure_pool_size_step _ _ _ _ _ _ _ _ H) as ->. split; [done|].
  unfold pool_size_step, idx_, set_, check, bind, ret, fail in H.
  destruct (iv !! i) as [[|]|]; [left; by injection H as <- | | done].
  destruct (vst !! i) as [s|]; [|done].
  destruct (vsh !! i) as [shp|]; [|done].
  case_bool_decide as Hs; [|done]. simpl in H.
  set (pes1 := if bool_decide (length pes <= Z.to_nat s)
               then resize pes (Z.to_nat s + 1) 0%N else pes) in *.
  destruct (pes1 !! Z.to_nat s) as [cur|] eqn:Hc; [|done].
  case_decide; [|done]. injection H as <-.
  right. exists (Z.to_nat s), shp, cur. rewrite Z2Nat.id by done. done.
Qed.

Lemma length_resize {A} (v : list A) n d : length (resize v n d) = n.
Proof. unfold resize. rewrite length_app, length_take, length_replicate. lia. Qed.

Lemma lookup_resize {A} (v : list A) n d i :
  i < n -> resize v n d !! i = Some (default d (v !! i)).
Proof.
  intros Hi. unfold resize. destruct (decide (i < length v)) as [Hl|Hl].
  - rewrite lookup_app_l by (rewrite length_take; lia).
    rewrite lookup_take_lt by lia.
    destruct (lookup_lt_is_Some_2 v i Hl) as [x ->]. done.
  - rewrite lookup_app_r by (rewrite length_take; lia).
    rewrite length_take, (lookup_ge_None_2 v i) by lia.
    apply lookup_replicate_2. lia.
Qed.

Lemma pool_size_step_inv iv vst vsh k pes w pes' w' :
  pool_inv iv vst vsh k pes ->
  pool_size_step iv vst vsh k pes w = Ok (pes', w') ->
  pool_inv iv vst vsh (S k) pes'.
Proof.
  intros [I1 I2] H.
  apply pool_size_step_Ok in H
    as [_ [[Hiv ->]|(sid0 & shp & cur & Hiv & Hst & Hsh & Hc & ->)]].
  - assert (Hm : forall sid, member_size iv vst vsh sid k = None)
      by (intros sid; unfold member_size; by rewrite Hiv).
    split; intros sid Hs; rewrite pool_members_S, Hm, app_nil_r; auto.
  - set (pes1 := if bool_decide (length pes <= sid0)
                 then resize pes (sid0 + 1) 0%N else pes) in *.
    assert (Hm0 : member_size iv vst vsh sid0 k = Some (shape_size shp)).
    { unfold member_size. rewrite Hiv, Hst, Hsh. by rewrite bool_decide_eq_true_2. }
    assert (Hm : forall sid, sid <> sid0 -> member_size iv vst vsh sid k = None).
    { intros sid Hne. unfold member_size. rewrite Hiv, Hst, Hsh.
      rewrite bool_decide_eq_false_2; [done|]. lia. }
    assert (Hlen : length pes <= length pes1 /\ sid0 < length pes1).
    { split; [|by eapply lookup_lt_Some].
      subst pes1. case_bool_decide; [rewrite length_resize|]; lia. }
    assert (H1 : forall sid, sid < length pes1 ->
              pes1 !! sid = Some (max_size (pool_members iv vst vsh sid k))).
    { intros sid Hs. subst pes1. case_bool_decide as Hb; [|by apply I1].
      rewrite length_resize in Hs. rewrite lookup_resize by done.
      destruct (decide (sid < length pes)) as [Hl|Hl].
      - by rewrite (I1 sid Hl).
      - rewrite (lookup_ge_None_2 pes sid), I2 by lia. done. }
    split.
    + intros sid Hs. rewrite length_insert in Hs. rewrite pool_members_S.
      destruct (decide (sid = sid0)) as [->|Hne].
      * rewrite list_lookup_insert_eq by done. rewrite Hm0, max_size_snoc.
        rewrite (H1 sid0) in Hc by lia. by injection Hc as <-.
      * rewrite list_lookup_insert_ne by done. rewrite (Hm sid Hne), app_nil_r. auto.
    + intros sid Hs. rewrite length_insert in Hs. rewrite pool_members_S.
      rewrite (Hm sid), app_nil_r by lia. apply I2. lia.
Qed.

Lemma pool_size_fold iv vst vsh n :
  forall pes w w',
    foldM (pool_size_step iv vst vsh) (seq 0 n) [] w = Ok (pes, w') ->
    pool_inv iv vst vsh n pes.
Proof.
  induction n as [|n IH]; intros pes w w' H.
  - simpl in H. injection H as <- _. split; [simpl; lia | done].
  - rewrite seq_S, foldM_app in H. simpl in H.
    apply bind_Ok in H as (pes1 & w1 & H1 & H).
    apply bind_Ok in H as (pes2 & w2 & H2 & H). injection H as <- _.
    eapply pool_size_step_inv; [eapply IH, H1 | exact H2].
Qed.

Lemma pool_alloc_fold E dev pes :
  forall acc w pool w',
    foldM (pool_alloc_step E dev) pes acc w = Ok (pool, w') ->
    pool = acc ++ seq (length (storages w)) (length pes)
    /\ storages w' = storages w ++ map (fun sz => mkStorage sz dev (default_dtype E)) pes.
Proof.
  induction pes as [|sz pes IH]; intros acc w pool w' H; simpl in H.
  - injection H as <- <-. by rewrite !app_nil_r.
  - apply bind_Ok in H as (acc1 & w1 & H1 & H).
    unfold pool_alloc_step, NewStorage, bind, ret in H1. injection H1 as <- <-.
    apply IH in H as [-> ->]. simpl. rewrite length_app. simpl.
    rewrite <- !app_assoc. simpl. by rewrite Nat.add_1_r.
Qed.

Lemma pool_members_nonempty iv vst vsh sid n i x :
  i < n -> member_size iv vst vsh sid i = Some x -> pool_members iv vst vsh sid n <> [].
Proof.
  intros Hi Hm Hnil.
  assert (x ∈ pool_members iv vst vsh sid n) as Hin.
  { unfold pool_members. apply list_elem_of_omap. exists i. split; [|done].
    apply list_elem_of_In, in_seq. lia. }
  rewrite Hnil in Hin. by apply not_elem_of_nil in Hin.
Qed.

(** C6. When [SetupStorage] succeeds, [storage_pool_] holds one buffer
    per pool id, the buffers are pairwise distinct, every pool id that
    the planning pass assigned to an entry that is not variable-backed
    has its buffer, and the buffer of a pool id has the size of the
    largest entry among the entries that are not variable-backed and are
    assigned that pool id. *)
Theorem pool_buffer_size_is_max :
  forall (E : Env) (ex : TorchExecutor) (w : World) (ex' : TorchExecutor) (w' : World),
    SetupStorage E ex w = Ok (ex', w') ->
    exists vstorage vshape,
      graph_storage_id ex' = Some vstorage
      /\ node_shape_ ex' = Some vshape
      /\ (forall i sid,
            i < length vshape ->
            data_entry_is_var_ ex' !! i = Some false ->
            vstorage !! i = Some (Z.of_nat sid) ->
            sid < length (storage_pool_ ex'))
      /\ (forall sid s,
            storage_pool_ ex' !! sid = Some s ->
            exists so,
              storages w' !! s = Some so
              /\ s_size so =
                 max_size (pool_members (data_entry_is_var_ ex') vstorage vshape sid
                             (length vshape)))
      /\ List.NoDup (storage_pool_ ex').
Proof.
  intros E ex w ex' w' H. unfold SetupStorage in H. cbv zeta in H.
  apply bind_Ok in H as (u & w1 & H1 & H).
  apply bind_Ok in H as (ex1 & w2 & H2 & H).
  apply bind_Ok in H as (vstorage & w3 & H3 & H).
  apply bind_Ok in H as (vshape & w4 & H4 & H).
  apply bind_Ok in H as (ex2 & w5 & H5 & H).
  apply bind_Ok in H as (pes & w6 & H6 & H).
  apply bind_Ok in H as (pool & w7 & H7 & H).
  apply bind_Ok in H as (u' & w8 & H8 & H).
  apply bind_Ok in H as (outs & w9 & H9 & H).
  injection H as <- <-.
  assert (graph_storage_id ex2 = graph_storage_id ex1
          /\ node_shape_ ex2 = node_shape_ ex1) as [Hs2 Hn2].
  { clear -H5. inv_ok; done. }
  assert (graph_storage_id ex1 = Some vstorage) as Hs1.
  { clear -H3. unfold get_attr in H3. destruct (graph_storage_id ex1); [|done].
    by injection H3 as <- _. }
  assert (node_shape_ ex1 = Some vshape) as Hn1.
  { clear -H4. unfold get_attr in H4. destruct (node_shape_ ex1); [|done].
    by injection H4 as <- _. }
  apply pool_size_fold in H6 as [I1 I2].
  apply pool_alloc_fold in H7 as [-> Hst]. simpl in *.
  assert (storages w7 `prefix_of` storages w9) as Hpre.
  { eapply (preserves_elim evolves) in H8; [|pres_tac].
    eapply (preserves_elim evolves) in H9; [|pres_tac].
    etrans; [apply H8 | apply H9]. }
  exists vstorage, vshape. simpl. rewrite Hs2, Hn2. split_and!; [done | done | | |].
  - intros i sid Hi Hiv Hv. rewrite length_seq.
    destruct (decide (sid < length pes)) as [|Hge]; [done|].
    destruct (lookup_lt_is_Some_2 vshape i Hi) as [shp Hshp].
    exfalso. eapply (pool_members_nonempty _ _ _ sid (length vshape) i); [done| |].
    + unfold member_size. rewrite Hiv, Hv, Hshp. by rewrite bool_decide_eq_true_2.
    + apply I2. lia.
  - intros sid s Hl. apply lookup_seq in Hl as [-> Hlt].
    exists (mkStorage (max_size (pool_members (data_entry_is_var_ ex2) vstorage vshape sid
                                   (length vshape)))
                      (dev_mask_ ex2) (default_dtype E)).
    split; [|done].
    eapply prefix_lookup_Some; [|exact Hpre].
    rewrite Hst, lookup_app_r by lia.
    replace (length (storages w6) + sid - length (storages w6)) with sid by lia.
    rewrite list_lookup_fmap, (I1 sid Hlt). done.
  - apply List.seq_NoDup.
Qed.

Lemma pool_buffer_size_is_max_witness :
  exists ex' w' s so,
    SetupStorage demo (result_exec chain_inferred) (result_world chain_inferred)
      = Ok (ex', w')
    /\ storage_pool_ ex' !! 0 = Some s
    /\ storages w' !! s = Some so
    /\ s_size so = 6%N
    /\ pool_members (data_entry_is_var_ ex') [0; 1; 0]%Z [[5]; [7]; [6]]%N 0 3 = [5; 6]%N
    /\ sum_size [5; 6]%N = 11%N.
Proof.
  set (r := SetupStorage demo (result_exec chain_inferred) (result_world chain_inferred)).
  assert (Hr : r = Ok (result_value (new_executor demo) r, result_world r))
    by (vm_compute; reflexivity).
  destruct (pool_buffer_size_is_max demo (result_exec chain_inferred)
              (result_world chain_inferred) _ _ Hr)
    as (vst & vsh & Hs & Hn & _ & Hmax & _).
  vm_compute in Hs. injection Hs as <-. vm_compute in Hn. injection Hn as <-.
  destruct (Hmax 0 0) as (so & Hso & Hsz); [vm_compute; reflexivity|].
  exists (result_value (new_executor demo) r), (result_world r), 0, so.
  split; [exact Hr|].
  split; [vm_compute; reflexivity|].
  split; [exact Hso|].
  split; [rewrite Hsz; vm_compute; reflexivity|].
  split; vm_compute; reflexivity.
Defined.

(** ** C3: the classification of the variables by Init *)

Lemma int_wrap_small z : (- 2 ^ 31 <= z < 2 ^ 31)%Z -> int_wrap z = z.
Proof.
  intros Hz. unfold int_wrap.
  rewrite Z.mod_small by lia. lia.
Qed.

Lemma incr_Ok v i w v' w' :
  incr v i w = Ok (v', w') ->
  exists c, v !! i = Some c /\ v' = <[i := int_wrap (c + 1)]> v /\ w' = w.
Proof.
  unfold incr, idx_, set_, bind, ret, fail.
  destruct (v !! i) as [c|]; [|done]. case_decide; [|done].
  intros [= <- <-]. eauto.
Qed.

Lemma count_id_cons j e es :
  count_id j (e :: es) = (if bool_decide (node_id e = j) then 1 else 0) + count_id j es.
Proof. unfold count_id. simpl. by case_bool_decide. Qed.

Lemma count_id_le j es : count_id j es <= length es.
Proof. unfold count_id. apply List.filter_length_le. Qed.

Lemma count_id_pos j es : 0 < count_id j es <-> exists e, In e es /\ node_id e = j.
Proof.
  induction es as [|e es IH].
  - simpl. split; [unfold count_id; simpl; lia | intros (? & [] & _)].
  - rewrite count_id_cons. case_bool_decide as He.
    + split; [intros _; exists e; split; [by left | done] | lia].
    + simpl. rewrite IH. split.
      * intros (e' & Hin & Hj). exists e'. split; [by right | done].
      * intros (e' & [<-|Hin] & Hj); [done | eauto].
Qed.

(** The loop of an ordinary node over its inputs adds to every counter
    the number of inputs that come from its node. *)
Lemma incr_fold es :
  forall (f : nat -> nat) rc w rc' w',
    (forall j, j < length rc -> rc !! j = Some (Z.of_nat (f j))) ->
    (forall j, (Z.of_nat (f j + count_id j es) < 2 ^ 31)%Z) ->
    foldM (fun e rc => incr rc (node_id e)) es rc w = Ok (rc', w') ->
    length rc' = length rc
    /\ forall j, j < length rc -> rc' !! j = Some (Z.of_nat (f j + count_id j es)).
Proof.
  induction es as [|e es IH]; intros f rc w rc' w' Hrc Hb H; simpl in H.
  - injection H as <- _. split; [done|]. intros j Hj. rewrite Hrc by done.
    unfold count_id. simpl. by rewrite Nat.add_0_r.
  - apply bind_Ok in H as (rc1 & w1 & H1 & H).
    apply incr_Ok in H1 as (c & Hc & -> & ->).
    pose proof (lookup_lt_Some _ _ _ Hc) as Hlt.
    rewrite Hrc in Hc by done. injection Hc as <-.
    pose proof (Hb (node_id e)) as Hbe. rewrite count_id_cons in Hbe.
    rewrite bool_decide_eq_true_2 in Hbe by done.
    rewrite int_wrap_small in H by lia.
    apply (IH (fun j => f j + if bool_decide (node_id e = j) then 1 else 0)) in H.
    + destruct H as [Hl H]. rewrite length_insert in Hl, H. split; [done|].
      intros j Hj. rewrite (H j Hj), count_id_cons. f_equal. lia.
    + intros j Hj. rewrite length_insert in Hj.
      destruct (decide (node_id e = j)) as [<-|Hne].
      * rewrite list_lookup_insert_eq by done. rewrite bool_decide_eq_true_2 by done.
        f_equal. lia.
      * rewrite list_lookup_insert_ne by done. rewrite bool_decide_eq_false_2 by done.
        rewrite Hrc by done. f_equal. lia.
    + intros j. specialize (Hb j). rewrite count_id_cons in Hb. lia.
Qed.

Lemma total_from_step f n k j :
  k < n -> total_from f n k j = f k j + total_from f n (S k) j.
Proof.
  intros Hk. unfold total_from.
  replace (n - k) with (S (n - S k)) by lia. done.
Qed.

Lemma total_from_end f n k j : n <= k -> total_from f n k j = 0.
Proof. intros Hk. unfold total_from. by replace (n - k) with 0 by lia. Qed.

Lemma total_from_pos f n k j :
  0 < total_from f n k j <-> exists m, k <= m < n /\ 0 < f m j.
Proof.
  unfold total_from. split.
  - intros H. assert (exists x, In x (map (fun m => f m j) (seq k (n - k))) /\ 0 < x)
      as (x & Hin & Hx).
    { induction (map (fun m => f m j) (seq k (n - k))) as [|y l IH]; simpl in H; [lia|].
      destruct (decide (0 < y)).
      - exists y. split; [by left | done].
      - destruct IH as (x & ? & ?); [lia|]. exists x. split; [by right | done]. }
    apply in_map_iff in Hin as (m & <- & Hm). apply in_seq in Hm.
    exists m. split; [lia | done].
  - intros (m & Hm & Hf).
    assert (In (f m j) (map (fun m => f m j) (seq k (n - k)))) as Hin.
    { apply in_map_iff. exists m. split; [done|]. apply in_seq. lia. }
    induction (map (fun m => f m j) (seq k (n - k))) as [|y l IH]; [done|].
    destruct Hin as [->|Hin]; simpl; [lia|]. specialize (IH Hin). lia.
Qed.

Lemma sum_seq_lookup {A} (g : A -> nat) (l : list A) :
  list_sum (map (fun m => match l !! m with Some x => g x | None => 0 end)
                (seq 0 (length l)))
  = list_sum (map g l).
Proof.
  induction l as [|x l IH] using rev_ind; [done|].
  rewrite length_app, Nat.add_1_r, seq_S, !map_app, !list_sum_app. simpl.
  rewrite list_lookup_middle by done. f_equal.
  rewrite <- IH. f_equal. apply map_ext_in. intros m Hm. apply in_seq in Hm.
  rewrite lookup_app_l by lia. done.
Qed.

Lemma total_from_le (f g : nat -> nat -> nat) n j :
  (forall m, f m j <= g m j) -> forall k, total_from f n k j <= total_from g n k j.
Proof.
  intros Hfg k. unfold total_from.
  induction (seq k (n - k)) as [|m l IH]; simpl; [done|].
  specialize (Hfg m). lia.
Qed.

Lemma total_from_anti f n j k : total_from f n k j <= total_from f n 0 j.
Proof.
  induction k as [|k IH]; [done|].
  destruct (decide (k < n)).
  - rewrite (total_from_step f n k j) in IH by done. lia.
  - rewrite total_from_end by lia. lia.
Qed.

Lemma total_from_skip f n j k :
  (forall m, k <= m <= j -> f m j = 0) -> k <= S j ->
  total_from f n k j = total_from f n (S j) j.
Proof.
  intros Hz Hk. remember (S j - k) as d eqn:Hd. revert k Hz Hk Hd.
  induction d as [|d IH]; intros k Hz Hk Hd.
  - by replace k with (S j) by lia.
  - rewrite <- (IH (S k)); [| intros m Hm; apply Hz; lia | lia | lia].
    destruct (decide (k < n)).
    + rewrite (total_from_step f n k j) by done. rewrite Hz by lia. done.
    + by rewrite !total_from_end by lia.
Qed.

Section InitScan.

Context (E : Env) (idx : IndexedGraph).

Hypothesis Htopo : topological idx.
Hypothesis Hedges : (Z.of_nat (num_edges idx) < 2 ^ 31)%Z.

Let n := num_nodes idx.

Lemma assigns_le_reads m j : assigns_from idx m j <= reads_from idx m j.
Proof.
  unfold assigns_from, reads_from.
  destruct (idx_nodes idx !! m) as [nd|]; [|done].
  destruct (is_variable nd); [done|]. repeat case_bool_decide; lia.
Qed.

Lemma reads_le_edges m j :
  reads_from idx m j <= match idx_nodes idx !! m with
                        | Some nd => length (inputs nd)
                        | None => 0
                        end.
Proof.
  unfold reads_from. destruct (idx_nodes idx !! m) as [nd|]; [|done].
  destruct (is_variable nd); [lia|]. case_bool_decide; [lia|].
  case_bool_decide; [|apply count_id_le].
  destruct (inputs nd) as [|e es]; simpl; [lia|]. case_bool_decide; lia.
Qed.

Lemma reads_total_bound k j : (Z.of_nat (total_from (reads_from idx) n k j) < 2 ^ 31)%Z.
Proof.
  pose proof (total_from_anti (reads_from idx) n j k).
  pose proof (total_from_le (reads_from idx)
                (fun m _ => match idx_nodes idx !! m with
                            | Some nd => length (inputs nd)
                            | None => 0
                            end) n j (fun m => reads_le_edges m j) 0) as Hle.
  unfold total_from at 2 in Hle. rewrite Nat.sub_0_r in Hle.
  unfold n, num_nodes in *. rewrite sum_seq_lookup in Hle.
  fold (num_edges idx) in Hle. lia.
Qed.

Lemma assigns_total_bound k j : (Z.of_nat (total_from (assigns_from idx) n k j) < 2 ^ 31)%Z.
Proof.
  pose proof (reads_total_bound k j).
  pose proof (total_from_le (assigns_from idx) (reads_from idx) n j
                (fun m => assigns_le_reads m j) k).
  lia.
Qed.

Lemma reads_topo m j : 0 < reads_from idx m j -> j < m.
Proof.
  unfold reads_from. destruct (idx_nodes idx !! m) as [nd|] eqn:Hm; [|lia].
  destruct (is_variable nd); [lia|]. case_bool_decide; [lia|].
  case_bool_decide.
  - destruct (inputs nd !! 0) as [e|] eqn:He; [|lia].
    case_bool_decide as Hj; [|lia]. intros _. subst j.
    eapply Htopo; [exact Hm|]. apply list_elem_of_In. by eapply list_elem_of_lookup_2.
  - intros (e & Hin & <-)%count_id_pos. by eapply Htopo.
Qed.

Lemma total_reads_above k j :
  k <= S j -> total_from (reads_from idx) n k j = total_from (reads_from idx) n (S j) j.
Proof.
  intros Hk. apply total_from_skip; [|done].
  intros m Hm. destruct (decide (0 < reads_from idx m j)) as [Hp|]; [|lia].
  apply reads_topo in Hp. lia.
Qed.

Lemma total_assigns_above k j :
  k <= S j -> total_from (assigns_from idx) n k j = total_from (assigns_from idx) n (S j) j.
Proof.
  intros Hk. apply total_from_skip; [|done].
  intros m Hm. pose proof (assigns_le_reads m j).
  destruct (decide (0 < reads_from idx m j)) as [Hp|]; [|lia].
  apply reads_topo in Hp. lia.
Qed.

Lemma idx_Ok {A} (v : list A) i w x w' :
  idx_ v i w = Ok (x, w') -> v !! i = Some x /\ w' = w.
Proof. unfold idx_. destruct (v !! i); [by intros [= <- <-] | done]. Qed.

(** Membership in a list of variables that the visit of [k] extends
    when the counter of [k] is not zero. *)
Lemma classify_step (f : nat -> nat -> nat) k (l : list nat) (c : Z) nid :
  k < n ->
  (forall nid, In nid l <->
     S k <= nid < n /\ is_variable_at idx nid = true /\ 0 < total_from f n 0 nid) ->
  c = Z.of_nat (total_from f n 0 k) ->
  is_variable_at idx k = true ->
  In nid (if bool_decide (c = 0%Z) then l else l ++ [k]) <->
  k <= nid < n /\ is_variable_at idx nid = true /\ 0 < total_from f n 0 nid.
Proof.
  intros Hk Hl -> Hv. case_bool_decide as Hc.
  - rewrite Hl. split; intros (Hr & Hvar & Hp); (split; [|done]); [lia|].
    destruct (decide (nid = k)) as [->|]; lia.
  - rewrite in_app_iff, Hl. simpl. split.
    + intros [(? & ? & ?)|[<-|[]]]; (split; [lia|]); split; try done; lia.
    + intros (Hr & Hvar & Hp).
      destruct (decide (nid = k)) as [->|]; [right; by left|].
      left. split; [lia | done].
Qed.

(** The same membership when the visit of [k] leaves the list alone
    because [k] is not a variable. *)
Lemma classify_skip (f : nat -> nat -> nat) k (l : list nat) nid :
  (forall nid, In nid l <->
     S k <= nid < n /\ is_variable_at idx nid = true /\ 0 < total_from f n 0 nid) ->
  is_variable_at idx k = false ->
  In nid l <->
  k <= nid < n /\ is_variable_at idx nid = true /\ 0 < total_from f n 0 nid.
Proof.
  intros Hl Hv. rewrite Hl. split; intros (Hr & Hvar & Hp); (split; [|done]); [lia|].
  destruct (decide (nid = k)) as [->|]; [congruence | lia].
Qed.

Lemma Init_visit_inv k s w s' w' :
  k < n -> scan_inv idx n (S k) s ->
  Init_visit E idx k s w = Ok (s', w') ->
  scan_inv idx n k s'.
Proof.
  intros Hk [Hrl Hal Hrc Hac Hrd Has] H. unfold Init_visit in H.
  apply bind_Ok in H as (inode & w1 & [Hnode ->]%idx_Ok & H).
  assert (Hr0 : forall j, reads_from idx k j = 0 ->
            total_from (reads_from idx) n k j = total_from (reads_from idx) n (S k) j).
  { intros j Hj. rewrite (total_from_step _ n k) by done. lia. }
  assert (Ha0 : forall j, assigns_from idx k j = 0 ->
            total_from (assigns_from idx) n k j = total_from (assigns_from idx) n (S k) j).
  { intros j Hj. rewrite (total_from_step _ n k) by done. lia. }
  destruct (is_variable inode) eqn:Hvar.
  - (* a variable node *)
    assert (Hv : is_variable_at idx k = true) by (unfold is_variable_at; by rewrite Hnode).
    assert (Hr : forall j, reads_from idx k j = 0)
      by (intros j; unfold reads_from; by rewrite Hnode, Hvar).
    assert (Ha : forall j, assigns_from idx k j = 0)
      by (intros j; unfold assigns_from; by rewrite Hnode, Hvar).
    apply bind_Ok in H as ([states a] & w2 & _ & H).
    apply bind_Ok in H as (ns & w3 & _ & H).
    apply bind_Ok in H as (rcv & w4 & [Hrcv _]%idx_Ok & H).
    apply bind_Ok in H as (acv & w5 & [Hacv _]%idx_Ok & H).
    injection H as <- _. rewrite Hrc in Hrcv by done. rewrite Hac in Hacv by done.
    injection Hrcv as <-. injection Hacv as <-.
    split; simpl; try done.
    + intros j Hj. rewrite Hr0 by done. auto.
    + intros j Hj. rewrite Ha0 by done. auto.
    + intros nid. apply classify_step; try done.
      by rewrite (total_reads_above 0 k) by lia.
    + intros nid. apply classify_step; try done.
      by rewrite (total_assigns_above 0 k) by lia.
  - assert (Hv : is_variable_at idx k = false) by (unfold is_variable_at; by rewrite Hnode).
    case_bool_decide as Hph.
    + (* a placeholder *)
      assert (Hr : forall j, reads_from idx k j = 0).
      { intros j. unfold reads_from. rewrite Hnode, Hvar.
        by rewrite bool_decide_eq_true_2. }
      assert (Ha : forall j, assigns_from idx k j = 0).
      { intros j. unfold assigns_from. rewrite Hnode, Hvar.
        by rewrite bool_decide_eq_true_2. }
      injection H as <- _. split; simpl; try done.
      * intros j Hj. rewrite Hr0 by done. auto.
      * intros j Hj. rewrite Ha0 by done. auto.
      * intros nid. by apply classify_skip.
      * intros nid. by apply classify_skip.
    + case_bool_decide as Has'.
      * (* an assignment *)
        apply bind_Ok in H as (u & w2 & _ & H).
        apply bind_Ok in H as (e & w3 & [He _]%idx_Ok & H).
        apply bind_Ok in H as (rc' & w4 & (c & Hc & -> & _)%incr_Ok & H).
        apply bind_Ok in H as (ac' & w5 & (c' & Hc' & -> & _)%incr_Ok & H).
        injection H as <- _.
        pose proof (lookup_lt_Some _ _ _ Hc) as Hlt. rewrite Hrl in Hlt.
        rewrite Hrc in Hc by done. rewrite Hac in Hc' by done.
        injection Hc as <-. injection Hc' as <-.
        assert (Hr : forall j, reads_from idx k j
                               = if bool_decide (node_id e = j) then 1 else 0).
        { intros j. unfold reads_from. rewrite Hnode, Hvar, He.
          rewrite bool_decide_eq_false_2 by done. by rewrite bool_decide_eq_true_2. }
        assert (Ha : forall j, assigns_from idx k j
                               = if bool_decide (node_id e = j) then 1 else 0).
        { intros j. unfold assigns_from. rewrite Hnode, Hvar, He.
          rewrite bool_decide_eq_false_2 by done. by rewrite bool_decide_eq_true_2. }
        pose proof (reads_total_bound k (node_id e)) as Hb.
        pose proof (assigns_total_bound k (node_id e)) as Hb'.
        rewrite (total_from_step _ n k) in Hb by done.
        rewrite (total_from_step _ n k) in Hb' by done.
        rewrite Hr in Hb. rewrite Ha in Hb'.
        rewrite bool_decide_eq_true_2 in Hb, Hb' by done.
        rewrite !int_wrap_small by lia.
        split; simpl; rewrite ?length_insert; try done.
        -- intros j Hj. rewrite (total_from_step _ n k), Hr by done.
           destruct (decide (node_id e = j)) as [<-|Hne].
           ++ rewrite list_lookup_insert_eq by lia.
              rewrite bool_decide_eq_true_2 by done. f_equal. lia.
           ++ rewrite list_lookup_insert_ne by done.
              rewrite bool_decide_eq_false_2 by done. by rewrite Hrc.
        -- intros j Hj. rewrite (total_from_step _ n k), Ha by done.
           destruct (decide (node_id e = j)) as [<-|Hne].
           ++ rewrite list_lookup_insert_eq by lia.
              rewrite bool_decide_eq_true_2 by done. f_equal. lia.
           ++ rewrite list_lookup_insert_ne by done.
              rewrite bool_decide_eq_false_2 by done. by rewrite Hac.
        -- intros nid. by apply classify_skip.
        -- intros nid. by apply classify_skip.
      * (* an ordinary operator *)
        apply bind_Ok in H as (rc' & w2 & Hf & H). injection H as <- _.
        assert (Hr : forall j, reads_from idx k j = count_id j (inputs inode)).
        { intros j. unfold reads_from. rewrite Hnode, Hvar.
          by rewrite !bool_decide_eq_false_2. }
        assert (Ha : forall j, assigns_from idx k j = 0).
        { intros j. unfold assigns_from. rewrite Hnode, Hvar.
          by rewrite !bool_decide_eq_false_2. }
        apply (incr_fold _ (fun j => total_from (reads_from idx) n (S k) j)) in Hf
          as [Hl' Hrc'].
        -- split; simpl; try congruence.
           ++ intros j Hj. rewrite Hrc' by lia.
              rewrite (total_from_step _ n k), Hr by done. f_equal. lia.
           ++ intros j Hj. rewrite Ha0 by done. auto.
           ++ intros nid. by apply classify_skip.
           ++ intros nid. by apply classify_skip.
        -- intros j Hj. apply Hrc. lia.
        -- intros j. pose proof (reads_total_bound k j) as Hb.
           rewrite (total_from_step _ n k), Hr in Hb by done. lia.
Qed.

Lemma Init_scan_inv k :
  forall s w s' w',
    k <= n -> scan_inv idx n k s ->
    foldM (Init_visit E idx) (rev (seq 0 k)) s w = Ok (s', w') ->
    scan_inv idx n 0 s'.
Proof.
  induction k as [|k IH]; intros s w s' w' Hk Hinv H.
  - simpl in H. by injection H as <- _.
  - rewrite seq_S, rev_app_distr in H. simpl in H.
    apply bind_Ok in H as (s1 & w1 & H1 & H).
    eapply IH; [lia | | exact H].
    eapply Init_visit_inv; [lia | exact Hinv | exact H1].
Qed.

Lemma scan_inv_start states ph av rv ns :
  av = [] -> rv = [] ->
  scan_inv idx n n (mkInitScan states (replicate n 0%Z) (replicate n 0%Z) ph av rv ns).
Proof.
  intros -> ->. split; simpl.
  - apply length_replicate.
  - apply length_replicate.
  - intros j Hj. rewrite total_from_end by lia. by apply lookup_replicate_2.
  - intros j Hj. rewrite total_from_end by lia. by apply lookup_replicate_2.
  - intros nid. split; [done | lia].
  - intros nid. split; [done | lia].
Qed.

End InitScan.

Lemma assigns_from_pos idx m j : 0 < assigns_from idx m j <-> assigns_to idx m j.
Proof.
  unfold assigns_from, assigns_to, is_variable. split.
  - destruct (idx_nodes idx !! m) as [nd|]; [|lia].
    destruct (op nd) as [o|] eqn:Ho; [|lia].
    case_bool_decide; [lia|]. case_bool_decide as Ha; [|lia].
    destruct (inputs nd !! 0) as [e|] eqn:He; [|lia].
    case_bool_decide; [|lia]. intros _. exists nd, e. by rewrite Ho.
  - intros (nd & e & -> & Ho & -> & <-). rewrite Ho.
    rewrite bool_decide_eq_false_2 by done.
    rewrite !bool_decide_eq_true_2 by done. lia.
Qed.

Lemma reads_from_pos idx m j :
  0 < reads_from idx m j <-> assigns_to idx m j \/ consumes idx m j.
Proof.
  unfold reads_from, assigns_to, consumes, is_variable. split.
  - destruct (idx_nodes idx !! m) as [nd|]; [|lia].
    destruct (op nd) as [o|] eqn:Ho; [|lia].
    case_bool_decide as Hp; [lia|]. case_bool_decide as Ha.
    + destruct (inputs nd !! 0) as [e|] eqn:He; [|lia].
      case_bool_decide; [|lia]. intros _. left. exists nd, e. by rewrite Ho.
    + intros (e & Hin & <-)%count_id_pos. right. exists nd, o, e.
      split_and!; try done; congruence.
  - intros [(nd & e & -> & Ho & -> & <-)|(nd & o & e & -> & Ho & Hp & Ha & Hin & <-)];
      rewrite Ho.
    + rewrite bool_decide_eq_false_2 by done.
      rewrite !bool_decide_eq_true_2 by done. lia.
    + rewrite !bool_decide_eq_false_2 by congruence.
      apply count_id_pos. eauto.
Qed.


Lemma graph_assign_topological : topological graph_assign.
Proof.
  intros m inode e Hm Hin.
  destruct m as [|[|[|m]]]; simpl in Hm; [| | |done]; injection Hm as <-; simpl in Hin.
  - done.
  - done.
  - destruct Hin as [<-|[<-|[]]]; simpl; lia.
Qed.



(** ** Failures of the setup *)

Section ErrsIn.

Context (S : Error -> Prop).

Lemma errs_ret {A} (a : A) : errs_in S (ret a).
Proof. intros w e [=]. Qed.

Lemma errs_fail {A} e : S e -> errs_in S (@fail A e).
Proof. intros He w e' [= <-]. exact He. Qed.

Lemma errs_bind {A B} (c : M A) (k : A -> M B) :
  errs_in S c -> (forall a, errs_in S (k a)) -> errs_in S (bind c k).
Proof.
  intros Hc Hk w e H. apply bind_Err in H as [H|(a & w1 & _ & H)].
  - eapply Hc, H.
  - eapply Hk, H.
Qed.

Lemma errs_foldM {A T} (body : A -> T -> M T) xs s :
  (forall x s, errs_in S (body x s)) -> errs_in S (foldM body xs s).
Proof.
  intros Hb. revert s. induction xs as [|x xs IH]; intros s; simpl.
  - apply errs_ret.
  - apply errs_bind; [apply Hb | intros; apply IH].
Qed.

Lemma errs_check b c m : S (CheckFailed c m) -> errs_in S (check b c m).
Proof. intros. destruct b; [apply errs_ret | by apply errs_fail]. Qed.

Lemma errs_at {A} (v : list A) i : S OutOfRange -> errs_in S (at_ v i).
Proof. intros. unfold at_. destruct (v !! i); [apply errs_ret | by apply errs_fail]. Qed.

Lemma errs_idx {A} (v : list A) i : S Undef -> errs_in S (idx_ v i).
Proof. intros. unfold idx_. destruct (v !! i); [apply errs_ret | by apply errs_fail]. Qed.

Lemma errs_set {A} (v : list A) i x : S Undef -> errs_in S (set_ v i x).
Proof. intros. unfold set_. case_decide; [apply errs_ret | by apply errs_fail]. Qed.

Lemma errs_load a : S Undef -> errs_in S (load a).
Proof.
  intros HS w e H. unfold load in H. destruct (vstore w !! a); [done|].
  by injection H as <-.
Qed.

Lemma errs_map_at inputs key : S OutOfRange -> errs_in S (map_at inputs key).
Proof.
  intros. unfold map_at. destruct (inputs !! key); [apply errs_ret | by apply errs_fail].
Qed.

(** A loop fails when its body fails at one of the elements. *)
Lemma foldM_fails {A T} (body : A -> T -> M T) x xs :
  In x xs ->
  (forall s w, exists e, body x s w = Err e /\ S e) ->
  (forall y s, errs_in S (body y s)) ->
  forall s w, exists e, foldM body xs s w = Err e /\ S e.
Proof.
  intros Hin Hx Hb. induction xs as [|y xs IH]; [done|]. intros s w. simpl.
  unfold bind. destruct (body y s w) as [[s1 w1]|e] eqn:Hy.
  - destruct Hin as [->|Hin].
    + destruct (Hx s w) as (e & He & _). congruence.
    + by apply IH.
  - exists e. split; [done|]. eapply Hb, Hy.
Qed.

End ErrsIn.

Ltac scan_error_tac := unfold scan_error; tauto.

Ltac errs_tac :=
  repeat first
    [ apply errs_ret
    | apply errs_fail; scan_error_tac
    | apply errs_check; scan_error_tac
    | apply errs_at; scan_error_tac
    | apply errs_idx; scan_error_tac
    | apply errs_set; scan_error_tac
    | apply errs_load; scan_error_tac
    | apply errs_map_at; scan_error_tac
    | apply errs_bind; [| intros ?]
    | apply errs_foldM; intros ? ?
    | match goal with
      | |- errs_in _ (match ?x with _ => _ end) => destruct x
      end
    | assumption ].

Section MissingPlaceholder.

Context (E : Env) (ex : TorchExecutor) (inputs : gmap string TBlob).
Context (nid : nat) (inode : INode).
Hypothesis Hin : In nid (placeholder_nids_ ex).
Hypothesis Hnode : idx_nodes (graph_ ex) !! nid = Some inode.
Hypothesis Hmiss : inputs !! name inode = None.

Lemma errs_check_read_vars ns nd nids : errs_in scan_error (check_read_vars ex ns nd nids).
Proof. induction nids as [|n rest IH]; simpl; errs_tac. Qed.

Lemma errs_check_placeholders ns nd nids :
  errs_in scan_error (check_placeholders ex inputs ns nd nids).
Proof. induction nids as [|n rest IH]; simpl; errs_tac. Qed.

Lemma errs_seed_var n sd : errs_in scan_error (seed_var ex n sd).
Proof. unfold seed_var. errs_tac. Qed.

Lemma errs_seed_placeholder n sd : errs_in scan_error (seed_placeholder ex inputs n sd).
Proof. unfold seed_placeholder. errs_tac. Qed.

Lemma seed_placeholder_missing sd w :
  exists e, seed_placeholder ex inputs nid sd w = Err e /\ scan_error e.
Proof.
  exists OutOfRange. split; [|scan_error_tac].
  unfold seed_placeholder, bind, idx_. rewrite Hnode. unfold ret, map_at. simpl.
  by rewrite Hmiss.
Qed.

Lemma check_placeholders_missing ns nd nids w :
  In nid nids ->
  (exists e, check_placeholders ex inputs ns nd nids w = Err e /\ scan_error e)
  \/ check_placeholders ex inputs ns nd nids w = Ok (true, w).
Proof.
  induction nids as [|n rest IH]; [done|]. intros Hn.
  destruct (check_placeholders ex inputs ns nd (n :: rest) w) as [[b w1]|e] eqn:Hc.
  - pose proof (pure_check_placeholders _ _ _ _ _ _ _ _ Hc) as ->.
    destruct b; [by right|]. exfalso.
    simpl in Hc. unfold bind, idx_, check, map_at, at_, ret, fail in Hc.
    destruct (idx_nodes (graph_ ex) !! n) as [nd'|] eqn:Hnd; [|done].
    destruct (inputs !! name nd') as [value|] eqn:Hval; simpl in Hc; [|done].
    destruct (ns !! entry_id (graph_ ex) n 0); [|done].
    case_bool_decide; simpl in Hc; [|done].
    destruct (nd !! entry_id (graph_ ex) n 0); [|done].
    case_bool_decide; simpl in Hc; [|done].
    destruct Hn as [->|Hn]; [congruence|].
    destruct (IH Hn) as [(e & He & _)|He]; congruence.
  - left. exists e. split; [done|]. eapply errs_check_placeholders, Hc.
Qed.

Lemma need_redo_infer_missing w :
  (exists e, need_redo_infer ex inputs w = Err e /\ scan_error e)
  \/ need_redo_infer ex inputs w = Ok (true, w).
Proof.
  unfold need_redo_infer.
  destruct (node_shape_ ex) as [ns|]; [|by right].
  destruct (node_dtype_ ex) as [nd|]; [|left; eexists; split; [done | scan_error_tac]].
  unfold bind.
  destruct (check_read_vars ex ns nd (read_var_nids_ ex) w) as [[b w1]|e] eqn:Hc.
  - pose proof (pure_check_read_vars _ _ _ _ _ _ _ Hc) as ->.
    destruct b; [by right|]. by apply check_placeholders_missing.
  - left. exists e. split; [done|]. eapply errs_check_read_vars, Hc.
Qed.

End MissingPlaceholder.

(** ** C4: a missing placeholder value *)

Lemma check_placeholders_app ex inputs ns nd pre rest w :
  check_placeholders ex inputs ns nd pre w = Ok (false, w) ->
  check_placeholders ex inputs ns nd (pre ++ rest) w
  = check_placeholders ex inputs ns nd rest w.
Proof.
  induction pre as [|nid pre IH]; [done|]. simpl. intros H.
  unfold bind, idx_, check, map_at, at_, ret, fail in *.
  destruct (idx_nodes (graph_ ex) !! nid) as [inode|]; [|done].
  destruct (inputs !! name inode) as [value|]; simpl in *; [|done].
  destruct (ns !! entry_id (graph_ ex) nid 0) as [s|]; [|done].
  destruct (negb (bool_decide (s = shape value))); [done|].
  destruct (nd !! entry_id (graph_ ex) nid 0) as [d|]; [|done].
  destruct (negb (bool_decide (d = dtype value))); [done|].
  by apply IH.
Qed.

(** The seeding is the first thing that a re-inference does: when it
    fails, the re-inference fails with its error, before the passes. *)
Lemma redo_infer_seeds_Err E ex inputs w e :
  infer_seeds ex inputs w = Err e -> redo_infer E ex inputs w = Err e.
Proof.
  unfold infer_seeds, redo_infer. cbv zeta. intros H.
  apply bind_Err in H as [H|(sd & w1 & H1 & H)].
  - unfold bind at 1. by rewrite H.
  - unfold bind at 1. rewrite H1. unfold bind at 1. by rewrite H.
Qed.

Lemma Run_scan_Err E ex inputs w e :
  need_redo_infer ex inputs w = Err e -> Run E ex inputs w = Err e.
Proof. intros H. unfold Run, Setup, SetupShapeDType, bind. by rewrite H. Qed.

Lemma Run_seeds_Err E ex inputs w e :
  need_redo_infer ex inputs w = Ok (true, w) -> infer_seeds ex inputs w = Err e ->
  Run E ex inputs w = Err e.
Proof.
  intros Hn Hs. unfold Run, Setup, SetupShapeDType, bind. rewrite Hn. simpl.
  by rewrite (redo_infer_seeds_Err E _ _ _ _ Hs).
Qed.

Section MissingValue.

Context (ex : TorchExecutor) (inputs : gmap string TBlob).
Context (pre post : list nat) (nid : nat) (inode : INode).
Hypothesis Hlist : placeholder_nids_ ex = pre ++ nid :: post.
Hypothesis Hnode : idx_nodes (graph_ ex) !! nid = Some inode.
Hypothesis Hmiss : inputs !! name inode = None.

Lemma placeholder_listed : In nid (placeholder_nids_ ex).
Proof. rewrite Hlist. apply in_elt. Qed.

Lemma infer_seeds_missing w : exists e, infer_seeds ex inputs w = Err e /\ scan_error e.
Proof.
  unfold infer_seeds. cbv zeta. unfold bind.
  destruct (foldM (seed_var ex) _ _ w) as [[sd w1]|e] eqn:Hv.
  - apply (foldM_fails scan_error (seed_placeholder ex inputs) nid).
    + apply placeholder_listed.
    + by apply (seed_placeholder_missing ex inputs nid inode).
    + apply errs_seed_placeholder.
  - exists e. split; [done|].
    eapply (errs_foldM scan_error); [|exact Hv]. apply errs_seed_var.
Qed.

(** The scan that reaches the placeholder fails at the check of
    [inputs.count(key)]. *)
Lemma scan_reaches_missing ns nd w :
  node_shape_ ex = Some ns -> node_dtype_ ex = Some nd ->
  check_read_vars ex ns nd (read_var_nids_ ex) w = Ok (false, w) ->
  check_placeholders ex inputs ns nd pre w = Ok (false, w) ->
  need_redo_infer ex inputs w = Err (CheckFailed "inputs.count(key)" msg_feed).
Proof.
  intros Hns Hnd Hr Hp. unfold need_redo_infer. rewrite Hns, Hnd. unfold bind at 1.
  rewrite Hr, Hlist, (check_placeholders_app _ _ _ _ _ _ _ Hp). simpl.
  unfold bind, idx_. rewrite Hnode. unfold ret. simpl. by rewrite Hmiss.
Qed.

(** The seeding that reaches the placeholder fails at [inputs.at(key)]. *)
Lemma seeding_reaches_missing sd sd' w :
  foldM (seed_var ex) (read_var_nids_ ex)
        (replicate (num_node_entries (graph_ ex)) ([] : TShape),
         replicate (num_node_entries (graph_ ex)) (-1)%Z) w = Ok (sd, w) ->
  foldM (seed_placeholder ex inputs) pre sd w = Ok (sd', w) ->
  infer_seeds ex inputs w = Err OutOfRange.
Proof.
  intros Hv Hp. unfold infer_seeds. cbv zeta. unfold bind at 1. rewrite Hv.
  rewrite Hlist, foldM_app. unfold bind at 1. rewrite Hp. simpl.
  unfold seed_placeholder, bind, idx_. rewrite Hnode. unfold ret, map_at. simpl.
  by rewrite Hmiss.
Qed.

End MissingValue.

(** C4, as the code has it.  When the input map lacks the value of a
    placeholder of the executor, [Run] fails inside [SetupShapeDType]: in
    the staleness scan, or, when the scan asks for re-inference, in the
    seeding loops that follow it.  Both leave the world as it is and come
    before the inference passes, the storage setup, the closures and the
    copies, so the call fails with the same error whatever those would
    do.  The error is one of six constants of the source, none of which
    carries the name of the placeholder.  When the executor holds an
    inference result and the scan reaches the placeholder (the read
    variables and the placeholders listed before it being unchanged), it
    is the check of [inputs.count(key)] with its fixed text.  When
    re-inference is decided and the seeding reaches the placeholder, it
    is the [std::out_of_range] of [inputs.at(key)]. *)
Theorem missing_placeholder_fails :
  forall (ex : TorchExecutor) (inputs : gmap string TBlob) (w : World)
         (pre post : list nat) (nid : nat) (inode : INode),
    placeholder_nids_ ex = pre ++ nid :: post ->
    idx_nodes (graph_ ex) !! nid = Some inode ->
    inputs !! name inode = None ->
    (exists e,
       (need_redo_infer ex inputs w = Err e
        \/ (need_redo_infer ex inputs w = Ok (true, w)
            /\ infer_seeds ex inputs w = Err e))
       /\ scan_error e
       /\ forall E, Run E ex inputs w = Err e)
    /\ (forall ns nd,
          node_shape_ ex = Some ns -> node_dtype_ ex = Some nd ->
          check_read_vars ex ns nd (read_var_nids_ ex) w = Ok (false, w) ->
          check_placeholders ex inputs ns nd pre w = Ok (false, w) ->
          forall E, Run E ex inputs w = Err (CheckFailed "inputs.count(key)" msg_feed))
    /\ (forall sd sd',
          need_redo_infer ex inputs w = Ok (true, w) ->
          foldM (seed_var ex) (read_var_nids_ ex)
                (replicate (num_node_entries (graph_ ex)) ([] : TShape),
                 replicate (num_node_entries (graph_ ex)) (-1)%Z) w = Ok (sd, w) ->
          foldM (seed_placeholder ex inputs) pre sd w = Ok (sd', w) ->
          forall E, Run E ex inputs w = Err OutOfRange).
Proof.
  intros ex inputs w pre post nid inode Hlist Hnode Hmiss. split_and!.
  - pose proof (placeholder_listed ex pre post nid Hlist) as Hin.
    destruct (need_redo_infer_missing ex inputs nid inode Hin Hnode Hmiss w)
      as [(e & He & Hs)|He].
    + exists e. split_and!; [by left | done |]. intros E. by apply Run_scan_Err.
    + destruct (infer_seeds_missing ex inputs pre post nid inode Hlist Hnode Hmiss w)
        as (e & Hr & Hs).
      exists e. split_and!; [by right | done |]. intros E. by apply Run_seeds_Err.
  - intros ns nd Hns Hnd Hr Hp E. apply Run_scan_Err.
    by eapply scan_reaches_missing.
  - intros sd sd' Hn Hv Hp E. apply Run_seeds_Err; [done|].
    by eapply seeding_reaches_missing.
Qed.

Lemma missing_placeholder_fails_witness :
  Run demo (cached_exec (result_session assigned_once) 5) ∅ (result_world assigned_once)
    = Err (CheckFailed "inputs.count(key)" msg_feed)
  /\ Run demo (result_exec assign_initial) ∅ (result_world assign_initial)
     = Err OutOfRange.
Proof.
  split.
  - refine (proj1 (proj2 (missing_placeholder_fails
                     (cached_exec (result_session assigned_once) 5) ∅
                     (result_world assigned_once) [] [] 1
                     (mkINode (Some placeholder_op) "x" [] 1) _ _ _))
              [[3; 4]; [3; 4]; [3; 4]]%N [0; 0; 0]%Z _ _ _ _ demo);
      vm_compute; reflexivity.
  - refine (proj2 (proj2 (missing_placeholder_fails
                     (result_exec assign_initial) ∅
                     (result_world assign_initial) [] [] 1
                     (mkINode (Some placeholder_op) "x" [] 1) _ _ _))
              _ _ _ _ _ demo);
      vm_compute; reflexivity.
Defined.

(** The graph [y = assign(v, x)] run without a value for [x]: on the
    cached executor the call fails with the fixed text of the check,
    which does not contain the name [x]; on a new executor it fails with
    the out-of-range error of the map lookup, which carries no text. *)
Lemma missing_placeholder_not_named :
  Session_Run demo 5 sym_assign ∅ (result_session assigned_once)
      (result_world assigned_once)
    = Err (CheckFailed "inputs.count(key)" msg_feed)
  /\ mentions (CheckFailed "inputs.count(key)" msg_feed) "x" = false
  /\ Session_Run demo 5 sym_assign ∅ empty_session empty_world = Err OutOfRange
  /\ mentions OutOfRange "x" = false.
Proof. split_and!; vm_compute; reflexivity. Qed.

(** ** C5: reading an uninitialized variable *)

Lemma check_read_vars_app ex ns nd pre rest w :
  check_read_vars ex ns nd pre w = Ok (false, w) ->
  check_read_vars ex ns nd (pre ++ rest) w = check_read_vars ex ns nd rest w.
Proof.
  induction pre as [|nid pre IH]; [done|]. simpl. intros H.
  unfold bind, idx_, load, check, at_, ret, fail in *.
  destruct (node_states_ ex !! nid) as [[a|]|]; [|done..].
  destruct (vstore w !! a) as [v|]; [|done].
  destruct (initialized v); [|done].
  destruct (ns !! nid) as [s|]; [|done].
  destruct (negb (bool_decide (s = shape (blob v)))); [done|].
  destruct (nd !! nid) as [d|]; [|done].
  destruct (negb (bool_decide (d = dtype (blob v)))); [done|].
  by apply IH.
Qed.

(** C5, as the code has it.  The check for uninitialized variables is
    part of the staleness scan, which runs only when the executor holds
    the result of an earlier inference.  In that case, when the scan of
    the read variables reaches a variable whose state is uninitialized
    (every read variable scanned before it having passed the check), [Run]
    fails with the error of executing an uninitialized variable and
    returns no outputs.  On an executor without an inference result the
    scan is skipped: re-inference is decided without looking at any
    variable state. *)
Theorem uninitialized_read_variable :
  forall (E : Env) (ex : TorchExecutor) (inputs : gmap string TBlob) (w : World),
    (forall ns nd pre nid post a v,
       node_shape_ ex = Some ns ->
       node_dtype_ ex = Some nd ->
       read_var_nids_ ex = pre ++ nid :: post ->
       check_read_vars ex ns nd pre w = Ok (false, w) ->
       node_states_ ex !! nid = Some (Some a) ->
       vstore w !! a = Some v ->
       initialized v = false ->
       Run E ex inputs w = Err (CheckFailed "state->initialized()" msg_uninit))
    /\ (node_shape_ ex = None -> need_redo_infer ex inputs w = Ok (true, w)).
Proof.
  intros E ex inputs w. split.
  - intros ns nd pre nid post a v Hns Hnd Hrv Hpre Hst Hv Hi.
    assert (Hn : need_redo_infer ex inputs w
                 = Err (CheckFailed "state->initialized()" msg_uninit)).
    { unfold need_redo_infer. rewrite Hns, Hnd, Hrv. unfold bind at 1.
      rewrite (check_read_vars_app _ _ _ _ _ _ Hpre). simpl.
      unfold bind, idx_. rewrite Hst. unfold ret, load. rewrite Hv.
      unfold check. by rewrite Hi. }
    unfold Run, Setup, SetupShapeDType, bind. by rewrite Hn.
  - unfold need_redo_infer. by intros ->.
Qed.

Lemma uninitialized_read_variable_witness :
  Run demo_lenient (cached_exec (result_session added_once) 7) (feed_p blob_3x4)
      (result_world added_once)
    = Err (CheckFailed "state->initialized()" msg_uninit)
  /\ need_redo_infer (new_executor demo) (feed_p blob_3x4) empty_world
     = Ok (true, empty_world).
Proof.
  split.
  - refine (proj1 (uninitialized_read_variable demo_lenient
                     (cached_exec (result_session added_once) 7) (feed_p blob_3x4)
                     (result_world added_once))
              [[3; 4]; [3; 4]; [3; 4]]%N [0; 0; 0]%Z [] 0 [] 0
              (mkVarState None (mkTBlob None [] 1 0)) _ _ _ _ _ _ _);
      vm_compute; reflexivity.
  - apply (proj2 (uninitialized_read_variable demo (new_executor demo)
                    (feed_p blob_3x4) empty_world)).
    reflexivity.
Defined.

(** The first run of [s = add(v, p)] with [v] read and uninitialized:
    no check of the variable is made.  With closures that accept a nil
    tensor the run returns outputs; with closures that reject it the run
    fails inside the closure.  In neither case is the error that of
    executing an uninitialized variable. *)
Lemma first_run_skips_uninitialized_check :
  (exists ex st w,
     Init demo (new_executor demo) sym_add ∅ empty_world = Ok ((ex, st), w)
     /\ In 0 (read_var_nids_ ex)
     /\ consumed_off_target graph_add 0
     /\ node_states_ ex !! 0 = Some (Some 0)
     /\ (initialized <$> vstore w !! 0) = Some false)
  /\ (exists outs s w,
        Session_Run demo_lenient 7 sym_add (feed_p blob_3x4) empty_session empty_world
          = Ok ((outs, s), w)
        /\ outs <> [])
  /\ Session_Run demo 7 sym_add (feed_p blob_3x4) empty_session empty_world
     = Err LuaError.
Proof.
  split_and!.
  - eexists _, _, _. split; [vm_compute; reflexivity|].
    split; [vm_compute; by left|]. split; [|split; vm_compute; reflexivity].
    exists 2, (mkINode (Some "add"%string) "s" [mkNodeEntry 0 0 0; mkNodeEntry 1 0 0] 1),
           0, (mkNodeEntry 0 0 0).
    split_and!; [reflexivity | reflexivity | reflexivity |].
    intros [H _]. discriminate H.
  - eexists _, _, _. split; [vm_compute; reflexivity|]. discriminate.
  - vm_compute. reflexivity.
Qed.

(** ** C2: when inference is redone *)

Lemma check_read_vars_spec ex ns nd nids w r w' :
  node_shape_ ex = Some ns -> node_dtype_ ex = Some nd ->
  (forall nid, In nid nids -> entry_id (graph_ ex) nid 0 = nid) ->
  check_read_vars ex ns nd nids w = Ok (r, w') ->
  r = existsb (var_differs ex w) nids.
Proof.
  intros Hns Hnd. induction nids as [|nid rest IH]; intros Hid H; simpl in *.
  - by injection H as <- _.
  - unfold bind, idx_, load, check, at_, ret, fail in H.
    unfold var_differs at 1, cached_entry. rewrite Hns, Hnd, (Hid nid) by auto.
    destruct (node_states_ ex !! nid) as [[a|]|]; [|done..].
    destruct (vstore w !! a) as [v|]; [|done].
    destruct (initialized v); [|done].
    destruct (ns !! nid) as [s|]; [|done].
    case_bool_decide as Hs; simpl in H.
    + destruct (nd !! nid) as [d|]; [|done].
      case_bool_decide as Hd; simpl in H.
      * subst. rewrite bool_decide_eq_true_2 by done. simpl. apply IH; auto.
      * injection H as <- _. rewrite bool_decide_eq_false_2; [done|]. congruence.
    + injection H as <- _.
      destruct (nd !! nid); [|done].
      rewrite bool_decide_eq_false_2; [done|]. congruence.
Qed.

Lemma check_placeholders_spec ex inputs ns nd nids w r w' :
  node_shape_ ex = Some ns -> node_dtype_ ex = Some nd ->
  check_placeholders ex inputs ns nd nids w = Ok (r, w') ->
  r = existsb (placeholder_differs ex inputs) nids.
Proof.
  intros Hns Hnd. induction nids as [|nid rest IH]; intros H; simpl in *.
  - by injection H as <- _.
  - unfold bind, idx_, check, map_at, at_, ret, fail in H.
    unfold placeholder_differs at 1, cached_entry. rewrite Hns, Hnd.
    destruct (idx_nodes (graph_ ex) !! nid) as [inode|]; [|done].
    destruct (inputs !! name inode) as [value|]; simpl in H; [|done].
    destruct (ns !! entry_id (graph_ ex) nid 0) as [s|]; [|done].
    case_bool_decide as Hs; simpl in H.
    + destruct (nd !! entry_id (graph_ ex) nid 0) as [d|]; [|done].
      case_bool_decide as Hd; simpl in H.
      * subst. rewrite bool_decide_eq_true_2 by done. simpl. by apply IH.
      * injection H as <- _. rewrite bool_decide_eq_false_2; [done|]. congruence.
    + injection H as <- _.
      destruct (nd !! entry_id (graph_ ex) nid 0); [|done].
      rewrite bool_decide_eq_false_2; [done|]. congruence.
Qed.

(** When the entry id of every read variable is its node id (no node
    before it has several outputs), the staleness scan, if it raises no
    error, decides re-inference as the spec says. *)
Lemma need_redo_infer_spec ex inputs w r w' :
  (forall nid, In nid (read_var_nids_ ex) -> entry_id (graph_ ex) nid 0 = nid) ->
  need_redo_infer ex inputs w = Ok (r, w') ->
  r = spec_need_redo ex inputs w.
Proof.
  intros Hid H. unfold need_redo_infer in H. unfold spec_need_redo.
  destruct (node_shape_ ex) as [ns|] eqn:Hns; [|by injection H as <- _].
  destruct (node_dtype_ ex) as [nd|] eqn:Hnd; [|done].
  rewrite bool_decide_eq_false_2 by done. simpl.
  apply bind_Ok in H as (r1 & w1 & H1 & H).
  pose proof (pure_check_read_vars _ _ _ _ _ _ _ H1) as ->.
  apply (check_read_vars_spec _ _ _ _ _ _ _ Hns Hnd Hid) in H1. rewrite <- H1.
  destruct r1; simpl; [by injection H as <- _|].
  by apply (check_placeholders_spec _ _ _ _ _ _ _ _ Hns Hnd) in H.
Qed.

(** C2 at a failing input.  The executor of [mm = matmul(split(p).1, v)]
    has run once; the variable [v] (node 2, entry 3) still has the shape
    and dtype that the inference cached for entry 3, and the placeholder
    [p] is fed the same 4x3 blob again, so none of the conditions (a),
    (b), (c) holds.  The scan compares the shape of [v] with the cached
    shape at index 2, the node id, which is the second output of [split]:
    it reports a change, and the second run invokes the inference passes
    again. *)
Theorem reinference_reads_wrong_entry :
  spec_need_redo (cached_exec split_session 6) (feed_p blob_4x3) split_world = false
  /\ need_redo_infer (cached_exec split_session 6) (feed_p blob_4x3) split_world
     = Ok (true, split_world)
  /\ entry_id (graph_ (cached_exec split_session 6)) 2 0 = 3
  /\ exists r w',
       Session_Run demo 6 sym_split (feed_p blob_4x3) split_session split_world
         = Ok (r, w')
       /\ count_event EvInferPasses w' = S (count_event EvInferPasses split_world).
Proof.
  split_and!; [vm_compute; reflexivity..|].
  eexists _, _. split; vm_compute; reflexivity.
Qed.

(** ** Which events a run logs *)

Section RunEvents.

Context (E : Env).

Lemma copy_inputs_only_logs ex inputs nids :
  preserves (only_logs run_event) (foldM (copy_input_step ex inputs) nids tt).
Proof. pres_tac. Qed.

Lemma run_closures_only_logs ex ids :
  preserves (only_logs run_event) (foldM (run_closure_step E ex) ids tt).
Proof. pres_tac. Qed.

Lemma copy_outputs_only_logs ex ids :
  preserves (only_logs run_event) (foldM (copy_output_step ex) ids []).
Proof. pres_tac. Qed.

Lemma SetupOpExecs_only_logs ex : preserves (only_logs late_event) (SetupOpExecs E ex).
Proof.
  intros w ex' w' H. apply SetupOpExecs_Ok in H as (oe & _ & _ & ->).
  exists [EvSetupOpExecs]. done.
Qed.

(** The shape of a successful [Setup]. *)
Lemma Setup_Ok ex inputs w ex' w' :
  Setup E ex inputs w = Ok (ex', w') ->
  exists need ex1 w1 ex2 w2 w3,
    SetupShapeDType E ex inputs w = Ok ((ex1, need), w1)
    /\ (if need then SetupStorage E ex1 w1 = Ok (ex2, w2) else ex2 = ex1 /\ w2 = w1)
    /\ op_execs_ ex2 = op_execs_ ex
    /\ graph_ ex2 = graph_ ex
    /\ (if bool_decide (length (op_execs_ ex) = 0)
        then SetupOpExecs E ex2 w2 = Ok (ex', w3)
        else ex' = ex2 /\ w3 = w2)
    /\ only_logs run_event w3 w'.
Proof.
  unfold Setup. intros H.
  apply bind_Ok in H as ([ex1 need] & w1 & H1 & H).
  apply bind_Ok in H as (ex2 & w2 & H2 & H).
  apply bind_Ok in H as (ex3 & w3 & H3 & H).
  apply bind_Ok in H as (u & w4 & H4 & H). injection H as <- <-. simpl in *.
  pose proof (SetupShapeDType_frame _ _ _ _ _ _ _ H1) as ([] & _ & _ & _ & Hoe & _).
  assert (op_execs_ ex2 = op_execs_ ex /\ graph_ ex2 = graph_ ex) as [Hoe2 Hg2].
  { destruct need.
    - apply SetupStorage_frame in H2 as ([] & ? & _). split; congruence.
    - injection H2 as <- _. done. }
  exists need, ex1, w1, ex2, w2, w3. split_and!; try done.
  - destruct need; [done|]. by injection H2 as <- <-.
  - rewrite <- Hoe2. case_bool_decide; [done|]. by injection H3 as <- <-.
  - by apply copy_inputs_only_logs in H4.
Qed.

(** One run compiles the closures exactly when there are none, and then
    leaves one closure slot per node. *)
Lemma Run_compiles ex inputs w outs ex' w' :
  Run E ex inputs w = Ok ((outs, ex'), w') ->
  graph_ ex' = graph_ ex
  /\ (op_execs_ ex = [] ->
      count_event EvSetupOpExecs w' = S (count_event EvSetupOpExecs w)
      /\ length (op_execs_ ex') = num_nodes (graph_ ex))
  /\ (op_execs_ ex <> [] ->
      count_event EvSetupOpExecs w' = count_event EvSetupOpExecs w
      /\ op_execs_ ex' = op_execs_ ex).
Proof.
  unfold Run. intros H.
  apply bind_Ok in H as (ex1 & w1 & H1 & H).
  apply bind_Ok in H as (u & w2 & H2 & H).
  apply bind_Ok in H as (blobs & w3 & H3 & H). injection H as <- <- <-. simpl.
  apply run_closures_only_logs in H2. apply copy_outputs_only_logs in H3.
  apply Setup_Ok in H1
    as (need & e1 & v1 & e2 & v2 & v3 & Hs & Hst & Hoe & Hg & Hc & Hl).
  assert (count_event EvSetupOpExecs v2 = count_event EvSetupOpExecs w) as Hc2.
  { apply SetupShapeDType_only_logs in Hs.
    rewrite <- (only_logs_count _ EvSetupOpExecs _ _ eq_refl Hs).
    destruct need; [|by destruct Hst as [_ ->]].
    apply SetupStorage_only_logs in Hst.
    by rewrite (only_logs_count _ EvSetupOpExecs _ _ eq_refl Hst). }
  assert (count_event EvSetupOpExecs w3 = count_event EvSetupOpExecs v3) as Hc3.
  { rewrite (only_logs_count _ EvSetupOpExecs _ _ eq_refl H3).
    rewrite (only_logs_count _ EvSetupOpExecs _ _ eq_refl H2).
    by rewrite (only_logs_count _ EvSetupOpExecs _ _ eq_refl Hl). }
  rewrite Hc3, <- Hc2. clear Hc2 Hc3.
  case_bool_decide as Hlen.
  - apply SetupOpExecs_Ok in Hc as (oe & -> & Hoel & ->). simpl.
    split_and!; [done | | ].
    + intros _. split; [|by rewrite Hoel, Hg].
      unfold count_event. simpl. done.
    + intros Hne. exfalso. apply Hne. by apply length_zero_iff_nil.
  - destruct Hc as [-> ->]. split_and!; [done | | done].
    intros He. rewrite He in Hlen. done.
Qed.

End RunEvents.

(** ** C8: the closures are compiled once *)

(** C8, as the code has it.  For an executor whose graph has at least
    one node, over any sequence of successful runs [SetupOpExecs] is
    entered exactly once, in the first run, when the executor starts
    without closures, and never when it starts with closures. *)
Theorem closures_compiled_once :
  forall (E : Env) (runs : list (gmap string TBlob)) (ex : TorchExecutor) (w : World)
         (ex' : TorchExecutor) (w' : World),
    0 < num_nodes (graph_ ex) ->
    Run_all E ex runs w = Ok (ex', w') ->
    (op_execs_ ex = [] -> runs <> [] ->
     count_event EvSetupOpExecs w' = S (count_event EvSetupOpExecs w)
     /\ (forall inputs rest outs ex1 w1,
           runs = inputs :: rest ->
           Run E ex inputs w = Ok ((outs, ex1), w1) ->
           count_event EvSetupOpExecs w1 = S (count_event EvSetupOpExecs w)))
    /\ (op_execs_ ex <> [] ->
        count_event EvSetupOpExecs w' = count_event EvSetupOpExecs w).
Proof.
  intros E runs.
  assert (Hkeep : forall runs ex w ex' w',
            0 < num_nodes (graph_ ex) -> op_execs_ ex <> [] ->
            Run_all E ex runs w = Ok (ex', w') ->
            count_event EvSetupOpExecs w' = count_event EvSetupOpExecs w).
  { clear runs. induction runs as [|inputs rest IH]; intros ex w ex' w' Hn Hne H; simpl in H.
    - by injection H as _ <-.
    - apply bind_Ok in H as ([outs ex1] & w1 & H1 & H). simpl in H.
      apply Run_compiles in H1 as (Hg & _ & Hk). destruct (Hk Hne) as [Hc Hoe].
      rewrite <- Hc. eapply IH; [by rewrite Hg | by rewrite Hoe | exact H]. }
  intros ex w ex' w' Hn H. split; [|intros Hne; by eapply Hkeep].
  intros He Hruns. destruct runs as [|inputs rest]; [done|]. simpl in H.
  apply bind_Ok in H as ([outs ex1] & w1 & H1 & H). simpl in H.
  pose proof (Run_compiles _ _ _ _ _ _ _ H1) as (Hg & Hfirst & _).
  destruct (Hfirst He) as [Hc Hlen].
  split.
  - rewrite <- Hc. eapply Hkeep; [by rewrite Hg | | exact H].
    intros Hnil. rewrite Hnil in Hlen. simpl in Hlen. lia.
  - intros inputs' rest' outs' ex1' w1' [= <- <-] H1'.
    rewrite H1 in H1'. by injection H1' as _ _ <-.
Qed.

Lemma closures_compiled_once_witness :
  exists ex' w',
    Run_all demo (result_exec assign_initial) [feed_x blob_3x4; feed_x blob_4x3]
            (result_world assign_initial) = Ok (ex', w')
    /\ count_event EvSetupOpExecs w'
       = S (count_event EvSetupOpExecs (result_world assign_initial)).
Proof.
  eexists _, _. split; [vm_compute; reflexivity|].
  refine (proj1 (proj1 (closures_compiled_once demo [feed_x blob_3x4; feed_x blob_4x3]
                          (result_exec assign_initial) (result_world assign_initial)
                          _ _ _ _) _ _)).
  - vm_compute. lia.
  - vm_compute. reflexivity.
  - reflexivity.
  - discriminate.
Defined.

(** On the graph without nodes [op_execs_] stays empty, and each of two
    runs of the same executor enters [SetupOpExecs]. *)
Lemma empty_graph_compiles_every_run :
  exists ex0 st w0 ex' w',
    Init demo (new_executor demo) sym_empty ∅ empty_world = Ok ((ex0, st), w0)
    /\ Run_all demo ex0 [∅; ∅] w0 = Ok (ex', w')
    /\ count_event EvSetupOpExecs w0 = 0
    /\ count_event EvSetupOpExecs w' = 2.
Proof.
  eexists _, _, _, _, _. split; [vm_compute; reflexivity|].
  split; [vm_compute; reflexivity|]. split; vm_compute; reflexivity.
Qed.

(** ** C1: the executor cache of the session *)

Lemma outputs_differ_false (a b : list SymEntry) :
  length a = length b -> outputs_differ a b = false <-> a = b.
Proof.
  revert b. induction a as [|x a IH]; intros [|y b] Hl; simpl in *; try done.
  destruct x as [n1 i1 v1], y as [n2 i2 v2]. simpl.
  repeat case_bool_decide; simpl; subst;
    try (split; [done | intros [=]; done]).
  rewrite IH by lia. split; [by intros -> | by intros [= ->]].
Qed.

Lemma stale_exec_false s sym : stale_exec s sym = false <-> outputs s = outputs sym.
Proof.
  unfold stale_exec. case_bool_decide as Hl; simpl.
  - by apply outputs_differ_false.
  - split; [done | intros He; by rewrite He in Hl].
Qed.

Section SessionCache.

Context (E : Env).

Lemma only_logs_nothing w w' : only_logs (fun _ => false) w w' -> trace w' = trace w.
Proof. intros (l & -> & Hf). by destruct l. Qed.

Lemma Init_Ok ex sym st w ex' st' w' :
  Init E ex sym st w = Ok ((ex', st'), w') ->
  symbol_ ex' = sym /\ graph_ ex' = indexed_graph sym
  /\ op_execs_ ex' = op_execs_ ex /\ node_shape_ ex' = node_shape_ ex
  /\ trace w' = EvInit :: trace w.
Proof.
  unfold Init. cbv zeta. intros H.
  apply bind_Ok in H as (u & w1 & H1 & H).
  apply bind_Ok in H as (s & w2 & H2 & H). injection H as <- <- <-. simpl.
  split_and!; try done.
  injection H1 as _ <-.
  eapply (preserves_elim (only_logs (fun _ => false))) in H2; [|pres_tac].
  by apply only_logs_nothing in H2.
Qed.

Lemma Run_not_init ex inputs : preserves (only_logs not_init) (Run E ex inputs).
Proof.
  assert (forall ex inputs, preserves (only_logs not_init) (SetupShapeDType E ex inputs)).
  { intros. eapply preserves_mono; [|apply SetupShapeDType_only_logs]. by intros []. }
  assert (forall ex, preserves (only_logs not_init) (SetupStorage E ex)).
  { intros. eapply preserves_mono; [|apply SetupStorage_only_logs]. by intros []. }
  assert (forall ex, preserves (only_logs not_init) (SetupOpExecs E ex)).
  { intros. eapply preserves_mono; [|apply SetupOpExecs_only_logs]. by intros []. }
  assert (forall ex inputs nids,
            preserves (only_logs not_init) (foldM (copy_input_step ex inputs) nids tt)).
  { intros. eapply preserves_mono; [|apply copy_inputs_only_logs]. by intros []. }
  assert (forall ex ids,
            preserves (only_logs not_init) (foldM (run_closure_step E ex) ids tt)).
  { intros. eapply preserves_mono; [|apply run_closures_only_logs]. by intros []. }
  assert (forall ex ids,
            preserves (only_logs not_init) (foldM (copy_output_step ex) ids [])).
  { intros. eapply preserves_mono; [|apply copy_outputs_only_logs]. by intros []. }
  unfold Run, Setup.
  repeat first
    [ solve [eauto]
    | solve [refine (preserves_pure _ _ _); pure_tac]
    | refine (preserves_bind _ _ _ _ _); [| intros ?]
    | case_head ].
Qed.

(** A run whose staleness scan reports no change logs no event of
    inference, planning or storage setup. *)
Lemma Run_fresh_only_logs ex inputs w r w' :
  need_redo_infer ex inputs w = Ok (false, w) ->
  Run E ex inputs w = Ok (r, w') ->
  only_logs late_event w w'.
Proof.
  intros Hn H. unfold Run in H.
  apply bind_Ok in H as (ex1 & w1 & H1 & H).
  apply bind_Ok in H as (u & w2 & H2 & H).
  apply bind_Ok in H as (blobs & w3 & H3 & H). injection H as _ <-.
  apply run_closures_only_logs in H2. apply copy_outputs_only_logs in H3.
  apply Setup_Ok in H1
    as (need & e1 & v1 & e2 & v2 & v3 & Hs & Hst & Hoe & Hg & Hc & Hl).
  apply SetupShapeDType_Ok in Hs as [Hn' Hs]. rewrite Hn in Hn'.
  injection Hn' as <-. destruct Hs as [-> ->]. destruct Hst as [-> ->].
  assert (forall a b, only_logs run_event a b -> only_logs late_event a b) as Hm.
  { intros a b. apply only_logs_mono. by intros []. }
  etrans; [|apply Hm, H3]. etrans; [|apply Hm, H2]. etrans; [|apply Hm, Hl].
  case_bool_decide.
  - by apply SetupOpExecs_only_logs in Hc.
  - destruct Hc as [_ ->]. reflexivity.
Qed.

Lemma Session_exec_run_Ok p entry inputs s w r w' :
  Session_exec_run E p entry inputs s w = Ok (r, w') ->
  exists outs ex',
    Run E (exec entry) inputs w = Ok ((outs, ex'), w')
    /\ r = (outs, mkSession (states_ s)
                    (<[p := mkExecEntry ex' (use_count entry)]> (cached_execs_ s))).
Proof.
  unfold Session_exec_run. intros H.
  apply bind_Ok in H as ([outs ex'] & w1 & H1 & H). injection H as <- <-. eauto.
Qed.

Lemma Session_miss_Ok p sym inputs s w r w' :
  Session_miss E p sym inputs s w = Ok (r, w') ->
  count_event EvInit w' = S (count_event EvInit w)
  /\ exists e, cached_execs_ (snd r) = {[p := e]} /\ symbol_ (exec e) = sym.
Proof.
  unfold Session_miss, Session_rebuild. cbv zeta. intros H.
  apply bind_Ok in H as ([e s1] & w1 & H1 & H).
  apply bind_Ok in H1 as ([ex st] & w2 & H2 & H1). injection H1 as <- <- <-.
  apply Init_Ok in H2 as (Hsym & _ & _ & _ & Htr).
  apply Session_exec_run_Ok in H as (outs & ex' & HR & ->). simpl in *.
  split.
  - pose proof (Run_not_init _ _ _ _ _ HR) as Hl.
    rewrite (only_logs_count _ EvInit _ _ eq_refl Hl).
    unfold count_event. by rewrite Htr.
  - eexists. split; [apply insert_singleton_eq|]. simpl.
    apply Run_frame in HR as [Hs _ _ _ _ _ _ _ _]. congruence.
Qed.

End SessionCache.

Section RedoEvents.

Context (E : Env).

Lemma count_event_cons e0 e w w' :
  trace w' = e :: trace w ->
  count_event e0 w' = (if bool_decide (e = e0) then S (count_event e0 w) else count_event e0 w).
Proof.
  intros Ht. unfold count_event. rewrite Ht. simpl. unfold is_event at 1.
  by case_bool_decide.
Qed.

Lemma count_event_same e0 w w' : trace w' = trace w -> count_event e0 w' = count_event e0 w.
Proof. intros Ht. unfold count_event. by rewrite Ht. Qed.

(** A re-inference logs the call of the inference passes and nothing else. *)
Lemma redo_infer_trace ex inputs w ex' w' :
  redo_infer E ex inputs w = Ok (ex', w') -> trace w' = EvInferPasses :: trace w.
Proof.
  unfold redo_infer. cbv zeta. intros H.
  apply bind_Ok in H as (sd1 & w1 & H1 & H).
  apply bind_Ok in H as (sd2 & w2 & H2 & H).
  apply bind_Ok in H as (u & w3 & H3 & H).
  eapply (preserves_elim (only_logs (fun _ => false))) in H1; [|pres_tac].
  eapply (preserves_elim (only_logs (fun _ => false))) in H2; [|pres_tac].
  apply only_logs_nothing in H1, H2.
  injection H3 as _ <-.
  eapply (preserves_elim (only_logs (fun _ => false))) in H;
    [|unfold reset_assigned; pres_tac].
  apply only_logs_nothing in H. simpl in H. congruence.
Qed.

(** A storage setup logs its entry, and the call of the planning pass
    when the storage pool is empty, and nothing else. *)
Lemma SetupStorage_trace ex w ex' w' :
  SetupStorage E ex w = Ok (ex', w') ->
  trace w' = (if bool_decide (length (storage_pool_ ex) = 0) then [EvPlanMemory] else [])
             ++ EvSetupStorage :: trace w.
Proof.
  unfold SetupStorage. cbv zeta. intros H.
  apply bind_Ok in H as (u & w1 & H1 & H). injection H1 as _ <-.
  apply bind_Ok in H as (ex1 & w2 & H2 & H).
  eapply (preserves_elim (only_logs (fun _ => false))) in H;
    [|unfold entry_alloc_step, pool_alloc_step, pool_assign_step, output_alloc_step;
      pres_tac].
  apply only_logs_nothing in H. rewrite H. clear H.
  case_bool_decide.
  - apply bind_Ok in H2 as (u' & w3 & H3 & H2). injection H3 as _ <-.
    eapply (preserves_elim (only_logs (fun _ => false))) in H2; [|pres_tac].
    apply only_logs_nothing in H2. by rewrite H2.
  - by injection H2 as _ <-.
Qed.

(** A run whose staleness scan asks for re-inference calls the inference
    passes once and enters the storage setup once; the planning pass is
    called once when the storage pool is empty, and not otherwise. *)
Lemma Run_redo_counts ex inputs w r w' :
  need_redo_infer ex inputs w = Ok (true, w) ->
  Run E ex inputs w = Ok (r, w') ->
  count_event EvInferPasses w' = S (count_event EvInferPasses w)
  /\ count_event EvSetupStorage w' = S (count_event EvSetupStorage w)
  /\ count_event EvPlanMemory w'
     = (if bool_decide (length (storage_pool_ ex) = 0)
        then S (count_event EvPlanMemory w) else count_event EvPlanMemory w).
Proof.
  intros Hn H. unfold Run in H.
  apply bind_Ok in H as (ex1 & w1 & H1 & H).
  apply bind_Ok in H as (u & w2 & H2 & H).
  apply bind_Ok in H as (blobs & w3 & H3 & H). injection H as _ <-.
  apply run_closures_only_logs in H2. apply copy_outputs_only_logs in H3.
  apply Setup_Ok in H1
    as (need & e1 & v1 & e2 & v2 & v3 & Hs & Hst & Hoe & Hg & Hc & Hl).
  pose proof (SetupShapeDType_frame _ _ _ _ _ _ _ Hs) as (_ & Hpool & _).
  apply SetupShapeDType_Ok in Hs as [Hn' Hs]. rewrite Hn in Hn'.
  injection Hn' as <-. destruct Hs as (out & _ & Hr).
  apply redo_infer_trace in Hr. apply SetupStorage_trace in Hst.
  rewrite Hpool in Hst.
  assert (only_logs late_event v2 w3) as Hlate.
  { assert (forall a b, only_logs run_event a b -> only_logs late_event a b) as Hm.
    { intros a b. apply only_logs_mono. by intros []. }
    etrans; [|apply Hm, H3]. etrans; [|apply Hm, H2]. etrans; [|apply Hm, Hl].
    case_bool_decide.
    - by apply SetupOpExecs_only_logs in Hc.
    - destruct Hc as [_ ->]. reflexivity. }
  assert (forall e0, late_event e0 = false ->
            count_event e0 w3
            = length (List.filter (is_event e0)
                        ((if bool_decide (length (storage_pool_ ex) = 0)
                          then [EvPlanMemory] else [])
                         ++ [EvSetupStorage; EvInferPasses]))
              + count_event e0 w) as Hcount.
  { intros e0 He0. rewrite (only_logs_count _ e0 _ _ He0 Hlate).
    unfold count_event. rewrite Hst, Hr.
    rewrite !List.filter_app, !length_app. simpl.
    destruct (is_event e0 EvSetupStorage), (is_event e0 EvInferPasses); simpl; lia. }
  split_and!; rewrite Hcount by done; case_bool_decide; reflexivity.
Qed.

Lemma Run_scan_decided ex inputs w r w' :
  Run E ex inputs w = Ok (r, w') -> exists need, need_redo_infer ex inputs w = Ok (need, w).
Proof.
  intros H. unfold Run in H. apply bind_Ok in H as (ex1 & w1 & H1 & _).
  apply Setup_Ok in H1 as (need & e1 & v1 & _ & _ & _ & Hs & _).
  apply SetupShapeDType_Ok in Hs as [Hn _]. eauto.
Qed.

End RedoEvents.

(** C1, as the code has it.  The cache is keyed by the graph object.
    When the requested graph object is the cached key and its outputs
    equal those of the cached executor's symbol (same length, and the
    same node, output index and version at every position), the call is
    the run of the cached executor with its use count incremented: no
    executor is initialised.  What that run redoes is decided by the
    guards of the executor.  Its staleness scan answers yes or no: on no,
    inference, memory planning and storage setup are not redone; on yes,
    the inference passes are called once and the storage setup is entered
    once, and the planning pass is called once when the storage pool is
    empty.  The closures are compiled once when the executor has none,
    and not at all when it has some.  When the graph object is not the
    cached key, or some output differs, the cache is cleared and a new
    executor is initialised and cached under the requested graph
    object. *)
Theorem cache_hit_reuses_executor :
  forall (E : Env) (p : N) (sym : Symbol) (inputs : gmap string TBlob)
         (s : TorchSession) (w : World),
    (forall entry,
       cached_execs_ s !! p = Some entry ->
       outputs (symbol_ (exec entry)) = outputs sym ->
       Session_Run E p sym inputs s w
         = Session_exec_run E p
             (mkExecEntry (exec entry) (size_t_wrap (use_count entry + 1))) inputs s w
       /\ forall r w',
            Session_Run E p sym inputs s w = Ok (r, w') ->
            count_event EvInit w' = count_event EvInit w
            /\ (need_redo_infer (exec entry) inputs w = Ok (false, w) ->
                count_event EvInferPasses w' = count_event EvInferPasses w
                /\ count_event EvPlanMemory w' = count_event EvPlanMemory w
                /\ count_event EvSetupStorage w' = count_event EvSetupStorage w)
            /\ (op_execs_ (exec entry) <> [] ->
                count_event EvSetupOpExecs w' = count_event EvSetupOpExecs w)
            /\ (exists need, need_redo_infer (exec entry) inputs w = Ok (need, w))
            /\ (need_redo_infer (exec entry) inputs w = Ok (true, w) ->
                count_event EvInferPasses w' = S (count_event EvInferPasses w)
                /\ count_event EvSetupStorage w' = S (count_event EvSetupStorage w)
                /\ count_event EvPlanMemory w'
                   = (if bool_decide (length (storage_pool_ (exec entry)) = 0)
                      then S (count_event EvPlanMemory w)
                      else count_event EvPlanMemory w))
            /\ (op_execs_ (exec entry) = [] ->
                count_event EvSetupOpExecs w' = S (count_event EvSetupOpExecs w)))
    /\ ((cached_execs_ s !! p = None
         \/ exists entry, cached_execs_ s !! p = Some entry
                          /\ outputs (symbol_ (exec entry)) <> outputs sym) ->
        Session_Run E p sym inputs s w = Session_miss E p sym inputs s w
        /\ forall r w',
             Session_Run E p sym inputs s w = Ok (r, w') ->
             count_event EvInit w' = S (count_event EvInit w)
             /\ exists e, cached_execs_ (snd r) = {[p := e]} /\ symbol_ (exec e) = sym).
Proof.
  intros E p sym inputs s w. split.
  - intros entry Hc Ho.
    assert (Session_Run E p sym inputs s w
            = Session_exec_run E p
                (mkExecEntry (exec entry) (size_t_wrap (use_count entry + 1))) inputs s w)
      as Heq.
    { unfold Session_Run. rewrite Hc.
      by rewrite (proj2 (stale_exec_false _ _) Ho). }
    split; [exact Heq|]. intros r w' H. rewrite Heq in H.
    apply Session_exec_run_Ok in H as (outs & ex' & HR & _). simpl in HR.
    split_and!.
    + by rewrite (only_logs_count _ EvInit _ _ eq_refl (Run_not_init _ _ _ _ _ _ HR)).
    + intros Hn. pose proof (Run_fresh_only_logs _ _ _ _ _ _ Hn HR) as Hl.
      split_and!.
      * by rewrite (only_logs_count _ EvInferPasses _ _ eq_refl Hl).
      * by rewrite (only_logs_count _ EvPlanMemory _ _ eq_refl Hl).
      * by rewrite (only_logs_count _ EvSetupStorage _ _ eq_refl Hl).
    + intros Hne. by apply Run_compiles in HR as (_ & _ & [? _]%(fun H => H Hne)).
    + by eapply Run_scan_decided.
    + intros Hn. by eapply Run_redo_counts.
    + intros He. by apply Run_compiles in HR as (_ & [? _]%(fun H => H He) & _).
  - intros Hmiss.
    assert (Session_Run E p sym inputs s w = Session_miss E p sym inputs s w) as Heq.
    { unfold Session_Run. destruct Hmiss as [->|(entry & -> & Hne)]; [done|].
      destruct (stale_exec (symbol_ (exec entry)) sym) eqn:Hst; [done|].
      by apply stale_exec_false in Hst. }
    split; [exact Heq|]. intros r w' H. rewrite Heq in H.
    by apply Session_miss_Ok in H.
Qed.

Lemma cache_hit_reuses_executor_witness :
  (exists r w',
     Session_Run demo 5 sym_assign (feed_x blob_3x4) (result_session assigned_once)
                 (result_world assigned_once) = Ok (r, w')
     /\ count_event EvInit w' = count_event EvInit (result_world assigned_once)
     /\ count_event EvInferPasses w'
        = count_event EvInferPasses (result_world assigned_once)
     /\ count_event EvSetupOpExecs w'
        = count_event EvSetupOpExecs (result_world assigned_once))
  /\ (exists r w',
        Session_Run demo 5 sym_assign (feed_x blob_4x3) (result_session assigned_once)
                    (result_world assigned_once) = Ok (r, w')
        /\ count_event EvInit w' = count_event EvInit (result_world assigned_once)
        /\ count_event EvInferPasses w'
           = S (count_event EvInferPasses (result_world assigned_once))
        /\ count_event EvSetupStorage w'
           = S (count_event EvSetupStorage (result_world assigned_once)))
  /\ (exists r w',
        Session_Run demo 9 sym_assign (feed_x blob_3x4) (result_session assigned_once)
                    (result_world assigned_once) = Ok (r, w')
        /\ count_event EvInit w' = S (count_event EvInit (result_world assigned_once))).
Proof.
  split_and!.
  - destruct (cache_hit_reuses_executor demo 5 sym_assign (feed_x blob_3x4)
                (result_session assigned_once) (result_world assigned_once))
      as [Hhit _].
    destruct (Hhit (cached_entry_at (result_session assigned_once) 5))
      as [_ Hcount]; [vm_compute; reflexivity | reflexivity |].
    eexists _, _. split; [vm_compute; reflexivity|].
    edestruct Hcount as (Hi & Hf & Hc & _); [vm_compute; reflexivity|].
    split; [exact Hi|]. split.
    + apply Hf. vm_compute. reflexivity.
    + apply Hc. vm_compute. discriminate.
  - destruct (cache_hit_reuses_executor demo 5 sym_assign (feed_x blob_4x3)
                (result_session assigned_once) (result_world assigned_once))
      as [Hhit _].
    destruct (Hhit (cached_entry_at (result_session assigned_once) 5))
      as [_ Hcount]; [vm_compute; reflexivity | reflexivity |].
    eexists _, _. split; [vm_compute; reflexivity|].
    edestruct Hcount as (Hi & _ & _ & _ & Hr & _); [vm_compute; reflexivity|].
    split; [exact Hi|].
    destruct Hr as (Hr1 & Hr2 & _); [vm_compute; reflexivity|]. by split.
  - destruct (cache_hit_reuses_executor demo 9 sym_assign (feed_x blob_3x4)
                (result_session assigned_once) (result_world assigned_once))
      as [_ Hmiss].
    destruct Hmiss as [_ Hcount]; [left; vm_compute; reflexivity|].
    eexists _, _. split; [vm_compute; reflexivity|].
    edestruct Hcount as (Hi & _); [vm_compute; reflexivity|]. exact Hi.
Defined.

(** Two calls after a first run of [y = assign(v, x)] with a 3x4 input,
    both with that same symbol.  Through the cached graph object but
    with a 4x3 input the executor is reused and yet inference and storage
    setup run again.  Through another graph object with the same outputs
    the cache misses: a new executor is initialised and all three phases
    run again. *)
Lemma identical_outputs_rerun_phases :
  (exists r w',
     Session_Run demo 5 sym_assign (feed_x blob_4x3) (result_session assigned_once)
                 (result_world assigned_once) = Ok (r, w')
     /\ count_event EvInit w' = count_event EvInit (result_world assigned_once)
     /\ count_event EvInferPasses w'
        = S (count_event EvInferPasses (result_world assigned_once))
     /\ count_event EvSetupStorage w'
        = S (count_event EvSetupStorage (result_world assigned_once)))
  /\ (exists r w',
        Session_Run demo 9 sym_assign (feed_x blob_3x4) (result_session assigned_once)
                    (result_world assigned_once) = Ok (r, w')
        /\ count_event EvInit w' = S (count_event EvInit (result_world assigned_once))
        /\ count_event EvInferPasses w'
           = S (count_event EvInferPasses (result_world assigned_once))
        /\ count_event EvSetupStorage w'
           = S (count_event EvSetupStorage (result_world assigned_once))
        /\ count_event EvSetupOpExecs w'
           = S (count_event EvSetupOpExecs (result_world assigned_once))).
Proof.
  split; eexists _, _; (split; [vm_compute; reflexivity|]);
    split_and!; vm_compute; reflexivity.
Qed.

(** ** C9: the variable states survive the rebuild of the executor *)

#[global] Instance only_new_states_preorder : PreOrder only_new_states.
Proof.
  split.
  - intros w. by split_and!.
  - intros w1 w2 w3 (? & ? & ?) (? & ? & ?). split_and!; [congruence.. | by etrans].
Qed.

Lemma foldM_state_rel {A T} (R : relation T) `{!PreOrder R} (body : A -> T -> M T) xs :
  (forall x s w s' w', body x s w = Ok (s', w') -> R s s') ->
  forall s w s' w', foldM body xs s w = Ok (s', w') -> R s s'.
Proof.
  intros Hb. induction xs as [|x xs IH]; intros s w s' w' H; simpl in H.
  - injection H as <- _. reflexivity.
  - apply bind_Ok in H as (s1 & w1 & H1 & H).
    etrans; [eapply Hb, H1 | eapply IH, H].
Qed.

#[global] Instance states_grow_preorder : PreOrder states_grow.
Proof.
  split.
  - intros s. unfold states_grow. reflexivity.
  - intros s1 s2 s3 H1 H2. unfold states_grow in *. by etrans.
Qed.

Section Rebuild.

Context (E : Env).

Lemma log_only_new e : preserves only_new_states (log e).
Proof. intros w a w' [= _ <-]. by split_and!. Qed.

Lemma state_of_only_new key st : preserves only_new_states (state_of E key st).
Proof.
  intros w r w' H. apply state_of_Ok in H as [(a & _ & _ & ->)|(_ & _ & ->)]; [reflexivity|].
  split_and!; [done | done |]. simpl. by apply prefix_app_r.
Qed.

Lemma Init_only_new ex sym st : preserves only_new_states (Init E ex sym st).
Proof.
  pose proof log_only_new. pose proof state_of_only_new.
  unfold Init, Init_visit. cbv zeta.
  repeat first
    [ solve [eauto]
    | solve [refine (preserves_pure _ _ _); pure_tac]
    | refine (preserves_bind _ _ _ _ _); [| intros ?]
    | refine (preserves_foldM _ _ _ _ _); intros ? ?
    | case_head ].
Qed.

Lemma state_of_lookup key st w st' a w' :
  state_of E key st w = Ok ((st', a), w') -> st ⊆ st' /\ st' !! key = Some a.
Proof.
  intros H. apply state_of_Ok in H as [(a' & Ha & [= -> ->] & _)|(Hn & [= -> ->] & _)].
  - done.
  - split; [by apply insert_subseteq | apply lookup_insert_eq].
Qed.

(** What the visit of a node does to the state map and to [node_states_]. *)
Lemma Init_visit_states idx k s w s' w' :
  Init_visit E idx k s w = Ok (s', w') ->
  exists inode,
    idx_nodes idx !! k = Some inode
    /\ sc_states s ⊆ sc_states s'
    /\ if is_variable inode
       then exists a, sc_states s' !! name inode = Some a
                      /\ k < length (sc_node_states s)
                      /\ sc_node_states s' = <[k := Some a]> (sc_node_states s)
       else sc_node_states s' = sc_node_states s.
Proof.
  unfold Init_visit. intros H.
  apply bind_Ok in H as (inode & w1 & [Hnode ->]%idx_Ok & H).
  exists inode. split; [done|].
  destruct (is_variable inode).
  - apply bind_Ok in H as ([states a] & w2 & [Hsub Hl]%state_of_lookup & H).
    apply bind_Ok in H as (ns & w3 & Hset & H).
    apply bind_Ok in H as (rcv & w4 & _ & H).
    apply bind_Ok in H as (acv & w5 & _ & H).
    injection H as <- _. simpl. split; [done|]. exists a.
    unfold set_ in Hset. case_decide; [|done]. injection Hset as <- _. done.
  - repeat case_bool_decide; inv_ok; simpl; done.
Qed.

Lemma Init_visit_states_inv idx k s w s' w' :
  states_inv idx (S k) s ->
  Init_visit E idx k s w = Ok (s', w') ->
  states_inv idx k s'.
Proof.
  intros Hinv H nid nd Hk Hnid Hv.
  apply Init_visit_states in H as (inode & Hnode & Hsub & Hns).
  destruct (decide (nid = k)) as [->|Hne].
  - assert (nd = inode) as -> by congruence. rewrite Hv in Hns.
    destruct Hns as (a & Ha & Hlt & ->). exists a. split; [done|].
    by apply list_lookup_insert_eq.
  - destruct (Hinv nid nd) as (a & Ha & Hn); [lia | done | done |].
    exists a. split; [by eapply lookup_weaken|].
    destruct (is_variable inode).
    + destruct Hns as (a' & _ & _ & ->). by rewrite list_lookup_insert_ne.
    + by rewrite Hns.
Qed.

Lemma Init_scan_states idx k :
  forall s w s' w',
    states_inv idx k s ->
    foldM (Init_visit E idx) (rev (seq 0 k)) s w = Ok (s', w') ->
    states_inv idx 0 s'.
Proof.
  induction k as [|k IH]; intros s w s' w' Hinv H.
  - simpl in H. by injection H as <- _.
  - rewrite seq_S, rev_app_distr in H. simpl in H.
    apply bind_Ok in H as (s1 & w1 & H1 & H).
    eapply IH; [|exact H]. eapply Init_visit_states_inv; eauto.
Qed.

Lemma Init_states ex sym st w ex' st' w' :
  Init E ex sym st w = Ok ((ex', st'), w') ->
  st ⊆ st'
  /\ forall nid nd,
       idx_nodes (indexed_graph sym) !! nid = Some nd -> is_variable nd = true ->
       exists a, st' !! name nd = Some a /\ node_states_ ex' !! nid = Some (Some a).
Proof.
  unfold Init. cbv zeta. intros H.
  apply bind_Ok in H as (u & w1 & _ & H).
  apply bind_Ok in H as (s & w2 & Hf & H). injection H as <- <- _. simpl. split.
  - apply (foldM_state_rel states_grow) in Hf; [done|].
    intros x s1 v1 s2 v2 Hx. by apply Init_visit_states in Hx as (? & _ & ? & _).
  - intros nid nd Hn Hv.
    eapply Init_scan_states in Hf; [eapply Hf; eauto; lia|].
    intros nid' nd' Hk Hn'. apply lookup_lt_Some in Hn'. unfold num_nodes in Hk. lia.
Qed.

End Rebuild.

(** C9.  The path of [TorchSession::Run] that misses the cache replaces
    the cache by the one new executor and leaves the variable states
    alone: every entry of the state map is kept, the states that existed
    are unchanged, states are only added, and the backend heap is
    untouched; each variable node of the new executor points to the state
    that the map holds for its name.  Over the whole call, whichever path
    it takes, every entry of the state map is kept and every variable
    state that had a tensor still has that tensor. *)
Theorem variable_states_survive_rebuild :
  forall (E : Env) (p : N) (sym : Symbol) (inputs : gmap string TBlob)
         (s : TorchSession) (w : World),
    (forall e s1 w1,
       Session_rebuild E p sym s w = Ok ((e, s1), w1) ->
       states_ s ⊆ states_ s1
       /\ vstore w `prefix_of` vstore w1
       /\ tensors w1 = tensors w
       /\ storages w1 = storages w
       /\ cached_execs_ s1 = {[ p := e ]}
       /\ forall nid nd,
            idx_nodes (indexed_graph sym) !! nid = Some nd -> is_variable nd = true ->
            exists a, states_ s1 !! name nd = Some a
                      /\ node_states_ (exec e) !! nid = Some (Some a))
    /\ (forall r w',
          Session_Run E p sym inputs s w = Ok (r, w') ->
          states_ s ⊆ states_ (snd r)
          /\ forall a v t,
               vstore w !! a = Some v -> tensor v = Some t ->
               exists v', vstore w' !! a = Some v' /\ tensor v' = Some t).
Proof.
  intros E p sym inputs s w. split.
  - intros e s1 w1 H. unfold Session_rebuild in H. cbv zeta in H.
    apply bind_Ok in H as ([ex st] & w2 & H1 & H). injection H as <- <- <-. simpl.
    pose proof (Init_only_new _ _ _ _ _ _ _ H1) as (Ht & Hs & Hv).
    pose proof (Init_states _ _ _ _ _ _ _ _ H1) as [Hsub Hn].
    by split_and!.
  - intros r w' H. split.
    + assert (Hhit : forall entry r w',
                Session_exec_run E p entry inputs s w = Ok (r, w') ->
                states_ s ⊆ states_ (snd r)).
      { intros entry r0 w0 H0.
        by apply Session_exec_run_Ok in H0 as (outs & ex' & _ & ->). }
      assert (Hmiss : forall r w',
                Session_miss E p sym inputs s w = Ok (r, w') ->
                states_ s ⊆ states_ (snd r)).
      { intros r0 w0 H0. unfold Session_miss, Session_rebuild in H0. cbv zeta in H0.
        apply bind_Ok in H0 as ([e s1] & w1 & H1 & H0).
        apply bind_Ok in H1 as ([ex st] & w2 & H1 & H2). injection H2 as <- <- <-.
        apply Init_states in H1 as [Hsub _].
        by apply Session_exec_run_Ok in H0 as (outs & ex' & _ & ->). }
      unfold Session_Run in H.
      destruct (cached_execs_ s !! p) as [entry|]; [|by eapply Hmiss].
      destruct (negb _); [by eapply Hhit | by eapply Hmiss].
    + intros a v t Ha Ht.
      apply Session_Run_evolves in H as [Hv _ _].
      destruct (Hv a v Ha) as (v' & Ha' & Hr).
      exists v'. split; [done|]. by eapply reset_steps_handle.
Qed.

Lemma variable_states_survive_rebuild_witness :
  (exists e s1 w1,
     Session_rebuild demo 6 sym_split (result_session assigned_once)
                     (result_world assigned_once) = Ok ((e, s1), w1)
     /\ states_ (result_session assigned_once) ⊆ states_ s1
     /\ vstore (result_world assigned_once) `prefix_of` vstore w1
     /\ exists a, states_ s1 !! "v"%string = Some a
                  /\ node_states_ (exec e) !! 2 = Some (Some a))
  /\ (exists r w',
        Session_Run demo 6 sym_split (feed_p blob_4x3) (result_session assigned_once)
                    (result_world assigned_once) = Ok (r, w')
        /\ exists v', vstore w' !! 0 = Some v' /\ tensor v' = Some 0).
Proof.
  destruct (variable_states_survive_rebuild demo 6 sym_split (feed_p blob_4x3)
              (result_session assigned_once) (result_world assigned_once))
    as [Hr Hrun].
  split.
  - eexists _, _, _. split; [vm_compute; reflexivity|].
    edestruct Hr as (H1 & H2 & _ & _ & _ & H6); [vm_compute; reflexivity|].
    split; [exact H1|]. split; [exact H2|].
    apply (H6 2 (mkINode None "v" [] 1)); reflexivity.
  - eexists _, _. split; [vm_compute; reflexivity|].
    edestruct Hrun as (_ & Hh); [vm_compute; reflexivity|].
    apply (Hh 0 (mkVarState (Some 0) (mkTBlob (Some 0) [3; 4]%N 1 0)) 0);
      vm_compute; reflexivity.
Defined.

(** * Further verification *)

(** ** What Init leaves in the executor *)
Section InitLayout.

Context (E : Env).

Lemma Init_scan_ind (P : nat -> InitScan -> World -> Prop) idx k :
  (forall j s w s' w',
     j < k -> P (S j) s w -> Init_visit E idx j s w = Ok (s', w') -> P j s' w') ->
  forall s w s' w',
    P k s w -> foldM (Init_visit E idx) (rev (seq 0 k)) s w = Ok (s', w') -> P 0 s' w'.
Proof.
  induction k as [|k IH]; intros Hstep s w s' w' HP H.
  - simpl in H. by injection H as <- <-.
  - rewrite seq_S, rev_app_distr in H. simpl in H.
    apply bind_Ok in H as (s1 & w1 & H1 & H).
    eapply IH; [| |exact H].
    + intros j s0 w0 s0' w0' Hj. apply Hstep. lia.
    + eapply Hstep; [|exact HP|exact H1]. lia.
Qed.

(** What the visit of a node does to the three lists of node ids. *)
Lemma Init_visit_lists idx k s w s' w' :
  Init_visit E idx k s w = Ok (s', w') ->
  sc_placeholder s'
    = sc_placeholder s ++ (if is_placeholder_at idx k then [k] else [])
  /\ (sc_read_var s' = sc_read_var s
      \/ (is_variable_at idx k = true /\ sc_read_var s' = sc_read_var s ++ [k]))
  /\ (sc_assign_var s' = sc_assign_var s
      \/ (is_variable_at idx k = true /\ sc_assign_var s' = sc_assign_var s ++ [k])).
Proof.
  unfold Init_visit, is_placeholder_at, is_variable_at. intros H.
  apply bind_Ok in H as (inode & w1 & [Hnode ->]%idx_Ok & H).
  rewrite Hnode.
  destruct (is_variable inode) eqn:Hv.
  - assert (op inode = None) as Hop.
    { unfold is_variable in Hv. by destruct (op inode). }
    rewrite Hop. rewrite bool_decide_eq_false_2 by done.
    apply bind_Ok in H as ([states a] & w2 & _ & H).
    apply bind_Ok in H as (ns & w3 & _ & H).
    apply bind_Ok in H as (rcv & w4 & _ & H).
    apply bind_Ok in H as (acv & w5 & _ & H).
    injection H as <- _. simpl. rewrite app_nil_r.
    split_and!; [done | |]; case_bool_decide; auto.
  - case_bool_decide.
    + injection H as <- _. simpl. auto.
    + case_bool_decide.
      * inv_ok. simpl. rewrite app_nil_r. auto.
      * inv_ok. simpl. rewrite app_nil_r. auto.
Qed.

Lemma filter_seq_S (f : nat -> bool) j n :
  j < n ->
  rev (List.filter f (seq j (n - j)))
  = rev (List.filter f (seq (S j) (n - S j))) ++ (if f j then [j] else []).
Proof.
  intros Hj. replace (n - j) with (S (n - S j)) by lia. simpl.
  destruct (f j); simpl; [done | by rewrite app_nil_r].
Qed.

Lemma decreasing_nil : decreasing [].
Proof. intros i j a b _ H. by rewrite lookup_nil in H. Qed.

Lemma decreasing_snoc l x :
  decreasing l -> Forall (fun y => x < y) l -> decreasing (l ++ [x]).
Proof.
  intros Hd Hall i j a b Hij Ha Hb.
  apply lookup_app_Some in Hb as [Hb|[Hlen Hb]].
  - rewrite lookup_app_l in Ha by (apply lookup_lt_Some in Hb; lia). eauto.
  - apply list_lookup_singleton_Some in Hb as [Hz <-].
    rewrite lookup_app_l in Ha by lia.
    rewrite Forall_forall in Hall. apply Hall. by eapply list_elem_of_lookup_2.
Qed.

Lemma decreasing_NoDup l : decreasing l -> List.NoDup l.
Proof.
  intros Hd. apply NoDup_ListNoDup, NoDup_alt. intros i j x Hi Hj.
  destruct (Nat.lt_trichotomy i j) as [Hlt|[->|Hlt]]; [|done|].
  - pose proof (Hd _ _ _ _ Hlt Hi Hj). lia.
  - pose proof (Hd _ _ _ _ Hlt Hj Hi). lia.
Qed.

(** What the visit of a node does to the state map, to the table of
    variable states and to [node_states_]. *)
Lemma Init_visit_world idx k s w s' w' :
  Init_visit E idx k s w = Ok (s', w') ->
  exists inode,
    idx_nodes idx !! k = Some inode
    /\ tensors w' = tensors w /\ storages w' = storages w
    /\ length (sc_node_states s') = length (sc_node_states s)
    /\ if is_variable inode
       then k < length (sc_node_states s)
            /\ ((exists a, sc_states s !! name inode = Some a
                          /\ sc_states s' = sc_states s /\ vstore w' = vstore w
                          /\ sc_node_states s' = <[k := Some a]> (sc_node_states s))
                \/ (sc_states s !! name inode = None
                    /\ sc_states s' = <[name inode := length (vstore w)]> (sc_states s)
                    /\ vstore w' = vstore w ++ [mkVarState None (default_blob E)]
                    /\ sc_node_states s'
                       = <[k := Some (length (vstore w))]> (sc_node_states s)))
       else sc_states s' = sc_states s /\ vstore w' = vstore w
            /\ sc_node_states s' = sc_node_states s.
Proof.
  unfold Init_visit. intros H.
  apply bind_Ok in H as (inode & w1 & [Hnode ->]%idx_Ok & H).
  exists inode. split; [done|].
  destruct (is_variable inode).
  - apply bind_Ok in H as ([states a] & w2 & Hst & H).
    apply bind_Ok in H as (ns & w3 & Hset & H).
    apply bind_Ok in H as (rcv & w4 & [_ ->]%idx_Ok & H).
    apply bind_Ok in H as (acv & w5 & [_ ->]%idx_Ok & H).
    injection H as <- <-. simpl.
    unfold set_ in Hset. case_decide; [|done]. injection Hset as <- <-.
    rewrite length_insert.
    apply state_of_Ok in Hst as [(a' & Ha & [= -> ->] & ->)|(Hn & [= -> ->] & ->)];
      simpl; split_and!; try done.
    + left. by exists a'.
    + by right.
  - assert (w' = w /\ sc_states s' = sc_states s
            /\ sc_node_states s' = sc_node_states s) as (-> & -> & ->).
    { destruct (bool_decide (op inode = Some placeholder_op)).
      { unfold ret in H. by injection H as <- <-. }
      destruct (bool_decide (op inode = Some assign_op)).
      - apply bind_Ok in H as (u & w1 & Hc & H).
        apply pure_check in Hc as ->.
        apply bind_Ok in H as (e & w1 & [_ ->]%idx_Ok & H).
        apply bind_Ok in H as (rc & w1 & (? & _ & _ & ->)%incr_Ok & H).
        apply bind_Ok in H as (ac & w1 & (? & _ & _ & ->)%incr_Ok & H).
        unfold ret in H. by injection H as <- <-.
      - apply bind_Ok in H as (rc & w1 & Hf & H).
        unfold ret in H. injection H as <- <-.
        eapply pure_foldM in Hf as ->; [done|]. intros. apply pure_incr. }
    done.
Qed.

Lemma Init_visit_live idx k s w s' w' :
  Init_visit E idx k s w = Ok (s', w') ->
  states_live (sc_states s) w -> states_inj (sc_states s) ->
  pointers_live (sc_node_states s) w ->
  states_live (sc_states s') w' /\ states_inj (sc_states s')
  /\ pointers_live (sc_node_states s') w'.
Proof.
  intros H Hl Hi Hp.
  apply Init_visit_world in H as (inode & Hnode & _ & _ & _ & H).
  destruct (is_variable inode).
  - destruct H as [Hk [(a & Ha & -> & Hv & ->)|(Hn & -> & Hv & ->)]].
    + split_and!; [intros key b Hb; rewrite Hv; eauto | done |].
      intros nid b Hb. rewrite Hv.
      destruct (decide (nid = k)) as [->|Hne].
      * rewrite list_lookup_insert_eq in Hb by done. injection Hb as <-. eauto.
      * rewrite list_lookup_insert_ne in Hb by done. eauto.
    + split_and!.
      * intros key b Hb. rewrite Hv, length_app. simpl.
        apply lookup_insert_Some in Hb as [[_ <-]|[_ Hb]]; [lia|].
        apply Hl in Hb. lia.
      * intros k1 k2 b H1 H2.
        apply lookup_insert_Some in H1 as [[<- <-]|[Hne1 H1]];
          apply lookup_insert_Some in H2 as [[<- Heq]|[Hne2 H2]]; try done.
        -- apply Hl in H2. lia.
        -- apply Hl in H1. lia.
        -- eauto.
      * intros nid b Hb. rewrite Hv, length_app. simpl.
        destruct (decide (nid = k)) as [->|Hne].
        -- rewrite list_lookup_insert_eq in Hb by done. injection Hb as <-. lia.
        -- rewrite list_lookup_insert_ne in Hb by done. apply Hp in Hb. lia.
  - destruct H as (-> & Hv & ->). split_and!; [|done|].
    + intros key b Hb. rewrite Hv. eauto.
    + intros nid b Hb. rewrite Hv. eauto.
Qed.

Lemma Init_live sym st w ex' st' w' :
  Init E (new_executor E) sym st w = Ok ((ex', st'), w') ->
  states_live st w -> states_inj st ->
  states_live st' w' /\ states_inj st' /\ pointers_live (node_states_ ex') w'.
Proof.
  unfold Init. cbv zeta. intros H Hl Hi.
  apply bind_Ok in H as (u & w1 & Hlog & H).
  apply bind_Ok in H as (s & w2 & Hf & H). injection H as <- <- <-. simpl.
  assert (vstore w1 = vstore w) as Hv1 by (unfold log in Hlog; by simplify_eq).
  eapply (Init_scan_ind
            (fun _ s w => states_live (sc_states s) w /\ states_inj (sc_states s)
                          /\ pointers_live (sc_node_states s) w)) in Hf; [done | |].
  - intros j s0 w0 s0' w0' _ (? & ? & ?) Hs. by eapply Init_visit_live.
  - simpl. split_and!; [| done |].
    + intros key a Ha. rewrite Hv1. eauto.
    + intros nid a Ha. apply lookup_lt_Some in Ha as Hlt.
      rewrite length_resize in Hlt. rewrite lookup_resize in Ha by done.
      by rewrite lookup_nil in Ha.
Qed.

Lemma incr_succeeds v i w :
  i < length v -> exists v', incr v i w = Ok (v', w) /\ length v' = length v.
Proof.
  intros Hi. destruct (lookup_lt_is_Some_2 v i Hi) as [c Hc].
  exists (<[i := int_wrap (c + 1)]> v). split; [|apply length_insert].
  unfold incr, bind, idx_, set_, ret. rewrite Hc. by rewrite decide_True.
Qed.

Lemma incr_fold_succeeds (es : list NodeEntry) rc w :
  Forall (fun e => node_id e < length rc) es ->
  exists rc', foldM (fun e rc => incr rc (node_id e)) es rc w = Ok (rc', w)
              /\ length rc' = length rc.
Proof.
  revert rc. induction es as [|e es IH]; intros rc Hall; simpl.
  - by exists rc.
  - apply Forall_cons in Hall as [He Hall].
    destruct (incr_succeeds rc (node_id e) w He) as (rc1 & H1 & Hl1).
    destruct (IH rc1) as (rc2 & H2 & Hl2); [by rewrite Hl1|].
    exists rc2. split; [|congruence]. unfold bind. by rewrite H1.
Qed.

Lemma Init_visit_arity idx k s w :
  arity_ok_at idx k = false -> Init_visit E idx k s w = Err msg_arity.
Proof.
  unfold arity_ok_at. destruct (idx_nodes idx !! k) as [nd|] eqn:Hn; [|done].
  case_bool_decide as Hop; [|done]. intros Hlen.
  unfold Init_visit, bind, idx_. rewrite Hn. simpl.
  unfold is_variable. rewrite Hop.
  rewrite bool_decide_eq_false_2 by done.
  rewrite bool_decide_eq_true_2 by done.
  by rewrite Hlen.
Qed.

Lemma Init_visit_succeeds idx k s w :
  inputs_in_range idx -> k < num_nodes idx ->
  length (sc_read_count s) = num_nodes idx ->
  length (sc_assign_count s) = num_nodes idx ->
  length (sc_node_states s) = num_nodes idx ->
  arity_ok_at idx k = true ->
  exists s' w',
    Init_visit E idx k s w = Ok (s', w')
    /\ length (sc_read_count s') = num_nodes idx
    /\ length (sc_assign_count s') = num_nodes idx
    /\ length (sc_node_states s') = num_nodes idx.
Proof.
  intros Hr Hk Hrc Hac Hns. unfold arity_ok_at.
  destruct (lookup_lt_is_Some_2 (idx_nodes idx) k Hk) as [nd Hn]. rewrite Hn.
  intros Hok. unfold Init_visit, bind at 1, idx_ at 1. rewrite Hn. simpl.
  destruct (is_variable nd) eqn:Hv.
  - destruct (lookup_lt_is_Some_2 (sc_read_count s) k) as [rc Hrck]; [lia|].
    destruct (lookup_lt_is_Some_2 (sc_assign_count s) k) as [ac Hack]; [lia|].
    unfold bind, state_of, set_, idx_, ret.
    destruct (sc_states s !! name nd) as [a|]; simpl;
      rewrite decide_True by lia; rewrite Hrck, Hack;
      eexists _, _; (split; [reflexivity|]); simpl; by rewrite length_insert.
  - destruct (decide (op nd = Some placeholder_op)) as [Hph|Hph].
    { rewrite (bool_decide_eq_true_2 _ Hph). eexists _, _. split; [reflexivity|]. done. }
    rewrite (bool_decide_eq_false_2 _ Hph).
    destruct (decide (op nd = Some assign_op)) as [Has|Has].
    + rewrite (bool_decide_eq_true_2 _ Has) in *.
      apply bool_decide_eq_true in Hok.
      destruct (inputs nd) as [|e [|e2 [|? ?]]] eqn:Hin; try done.
      assert (node_id e < num_nodes idx) as He.
      { eapply Hr; [exact Hn|]. rewrite Hin. by left. }
      destruct (incr_succeeds (sc_read_count s) (node_id e) w) as (rc1 & H1 & Hl1);
        [lia|].
      destruct (incr_succeeds (sc_assign_count s) (node_id e) w) as (ac1 & H2 & Hl2);
        [lia|].
      unfold bind, check, idx_, ret. simpl. rewrite H1, H2.
      eexists _, _. split; [reflexivity|]. simpl. split_and!; congruence.
    + rewrite (bool_decide_eq_false_2 _ Has).
      destruct (incr_fold_succeeds (inputs nd) (sc_read_count s) w) as (rc1 & H1 & Hl1).
      { apply Forall_forall. intros e He. rewrite Hrc. eapply Hr; [exact Hn|].
        by apply list_elem_of_In. }
      unfold bind. rewrite H1. eexists _, _. split; [reflexivity|].
      simpl. split_and!; congruence.
Qed.

Lemma Init_scan_total idx k :
  inputs_in_range idx -> k <= num_nodes idx ->
  forall s w,
    length (sc_read_count s) = num_nodes idx ->
    length (sc_assign_count s) = num_nodes idx ->
    length (sc_node_states s) = num_nodes idx ->
    (forallb (arity_ok_at idx) (seq 0 k) = true
     /\ exists s' w', foldM (Init_visit E idx) (rev (seq 0 k)) s w = Ok (s', w'))
    \/ (forallb (arity_ok_at idx) (seq 0 k) = false
        /\ foldM (Init_visit E idx) (rev (seq 0 k)) s w = Err msg_arity).
Proof.
  intros Hr. induction k as [|k IH]; intros Hk s w Hrc Hac Hns.
  - left. split; [done|]. by exists s, w.
  - rewrite seq_S, rev_app_distr, forallb_app. simpl.
    destruct (arity_ok_at idx k) eqn:Hok.
    + destruct (Init_visit_succeeds idx k s w) as (s1 & w1 & H1 & ? & ? & ?);
        [done | lia | done..|].
      unfold bind. rewrite H1.
      destruct (IH ltac:(lia) s1 w1) as [[-> Hex]|[-> Herr]]; [done.. | |].
      * by left.
      * by right.
    + right. split; [by rewrite andb_false_r|].
      unfold bind. by rewrite Init_visit_arity.
Qed.

Lemma assign_arity_ok_forallb idx :
  assign_arity_ok idx <-> forallb (arity_ok_at idx) (seq 0 (num_nodes idx)) = true.
Proof.
  rewrite forallb_forall. split.
  - intros Hok k _. unfold arity_ok_at.
    destruct (idx_nodes idx !! k) as [nd|] eqn:Hn; [|done].
    case_bool_decide; [|done]. apply bool_decide_eq_true. eauto.
  - intros Hall nid nd Hn Hop.
    specialize (Hall nid). unfold arity_ok_at in Hall. rewrite Hn in Hall.
    rewrite bool_decide_eq_true_2 in Hall by done.
    eapply bool_decide_eq_true_1, Hall, in_seq.
    apply lookup_lt_Some in Hn. unfold num_nodes. lia.
Qed.

End InitLayout.

(** X1. [Init] on a new executor lists in [placeholder_nids_] the
    placeholder nodes of the graph, each once, in decreasing order of
    node id. *)
Theorem Init_lists_placeholders :
  forall (E : Env) (sym : Symbol) (states : VarStateMap) (w : World)
         (ex : TorchExecutor) (states' : VarStateMap) (w' : World),
    Init E (new_executor E) sym states w = Ok ((ex, states'), w') ->
    placeholder_nids_ ex
    = rev (List.filter (is_placeholder_at (indexed_graph sym))
             (seq 0 (num_nodes (indexed_graph sym)))).
Proof.
  intros E sym states w ex states' w' H. unfold Init in H. cbv zeta in H.
  apply bind_Ok in H as (u & w1 & _ & H).
  apply bind_Ok in H as (s & w2 & Hf & H). injection H as <- _ _. simpl.
  set (idx := indexed_graph sym) in *. set (n := num_nodes idx) in *.
  eapply (Init_scan_ind E
            (fun j s _ => sc_placeholder s
               = rev (List.filter (is_placeholder_at idx) (seq j (n - j))))) in Hf.
  - by rewrite Nat.sub_0_r in Hf.
  - intros j s0 w0 s0' w0' Hj HP Hs.
    apply Init_visit_lists in Hs as (-> & _). rewrite HP.
    by rewrite (filter_seq_S _ j n).
  - simpl. by rewrite Nat.sub_diag.
Qed.

Lemma Init_lists_placeholders_witness :
  placeholder_nids_ (result_exec assign_initial) = [1].
Proof.
  assert (assign_initial
          = Ok ((result_exec assign_initial,
                 match assign_initial with Ok (_, st, _) => st | Err _ => ∅ end),
                result_world assign_initial)) as H by (vm_compute; reflexivity).
  rewrite (Init_lists_placeholders _ _ _ _ _ _ _ H). vm_compute. reflexivity.
Defined.

(** X2. [Init] on a new executor leaves [read_var_nids_] and
    [assign_var_nids_] strictly decreasing, and lists variable nodes
    only: no node id occurs twice in either list, so the loops over them
    visit each variable once. *)
Theorem Init_var_lists_strictly_decreasing :
  forall (E : Env) (sym : Symbol) (states : VarStateMap) (w : World)
         (ex : TorchExecutor) (states' : VarStateMap) (w' : World),
    Init E (new_executor E) sym states w = Ok ((ex, states'), w') ->
    (decreasing (read_var_nids_ ex) /\ List.NoDup (read_var_nids_ ex)
     /\ Forall (fun nid => is_variable_at (indexed_graph sym) nid = true)
               (read_var_nids_ ex))
    /\ (decreasing (assign_var_nids_ ex) /\ List.NoDup (assign_var_nids_ ex)
        /\ Forall (fun nid => is_variable_at (indexed_graph sym) nid = true)
                  (assign_var_nids_ ex)).
Proof.
  intros E sym states w ex states' w' H. unfold Init in H. cbv zeta in H.
  apply bind_Ok in H as (u & w1 & _ & H).
  apply bind_Ok in H as (s & w2 & Hf & H). injection H as <- _ _. simpl.
  set (idx := indexed_graph sym) in *. set (n := num_nodes idx) in *.
  set (good := fun (j : nat) (l : list nat) =>
                 decreasing l /\ Forall (fun y => j <= y) l
                 /\ Forall (fun nid => is_variable_at idx nid = true) l).
  assert (Hgrow : forall j k l, j < k -> good (S j) l ->
            is_variable_at idx j = true -> good j (l ++ [j])).
  { intros j k l _ Hg Hvj. unfold good in *. destruct Hg as (Hd & Hge & Hv).
    split_and!.
    - apply decreasing_snoc; [done|].
      eapply Forall_impl; [exact Hge|]. simpl. lia.
    - apply Forall_app. split; [|by repeat constructor].
      eapply Forall_impl; [exact Hge|]. simpl. lia.
    - apply Forall_app. split; [done | by repeat constructor]. }
  assert (Hkeep : forall j l, good (S j) l -> good j l).
  { intros j l Hg. unfold good in *. destruct Hg as (Hd & Hge & Hv).
    split_and!; [done | | done].
    eapply Forall_impl; [exact Hge|]. simpl. lia. }
  eapply (Init_scan_ind E
            (fun j s _ => good j (sc_read_var s) /\ good j (sc_assign_var s))) in Hf.
  - unfold good in Hf. destruct Hf as [(Hd1 & _ & Hv1) (Hd2 & _ & Hv2)].
    split; (split_and!; [done | by apply decreasing_NoDup | done]).
  - intros j s0 w0 s0' w0' Hj [H1 H2] Hs.
    apply Init_visit_lists in Hs as (_ & Hrd & Has). split.
    + destruct Hrd as [-> | [Hv ->]]; [by apply Hkeep | by eapply Hgrow].
    + destruct Has as [-> | [Hv ->]]; [by apply Hkeep | by eapply Hgrow].
  - simpl. unfold good. split; (split_and!; [apply decreasing_nil | constructor..]).
Qed.

Lemma Init_var_lists_strictly_decreasing_witness :
  decreasing (read_var_nids_ (result_exec assign_initial))
  /\ List.NoDup (assign_var_nids_ (result_exec assign_initial)).
Proof.
  assert (assign_initial
          = Ok ((result_exec assign_initial,
                 match assign_initial with Ok (_, st, _) => st | Err _ => ∅ end),
                result_world assign_initial)) as H by (vm_compute; reflexivity).
  destruct (Init_var_lists_strictly_decreasing _ _ _ _ _ _ _ H)
    as ((H1 & _ & _) & (_ & H4 & _)).
  split; [exact H1 | exact H4].
Defined.

(** X3. [Init] on a new executor leaves [node_states_] with one slot per
    node of the graph, and with the null pointer in the slot of every
    node that is not a variable. *)
Theorem Init_node_states_layout :
  forall (E : Env) (sym : Symbol) (states : VarStateMap) (w : World)
         (ex : TorchExecutor) (states' : VarStateMap) (w' : World),
    Init E (new_executor E) sym states w = Ok ((ex, states'), w') ->
    length (node_states_ ex) = num_nodes (indexed_graph sym)
    /\ forall nid nd,
         idx_nodes (indexed_graph sym) !! nid = Some nd ->
         is_variable nd = false -> node_states_ ex !! nid = Some None.
Proof.
  intros E sym states w ex states' w' H. unfold Init in H. cbv zeta in H.
  apply bind_Ok in H as (u & w1 & _ & H).
  apply bind_Ok in H as (s & w2 & Hf & H). injection H as <- _ _. simpl.
  set (idx := indexed_graph sym) in *. set (n := num_nodes idx) in *.
  eapply (Init_scan_ind E
            (fun j s _ =>
               length (sc_node_states s) = n
               /\ forall nid nd, idx_nodes idx !! nid = Some nd ->
                    is_variable nd = false -> sc_node_states s !! nid = Some None))
    in Hf; [done | |].
  - intros j s0 w0 s0' w0' _ [Hlen Hnone] Hs.
    apply Init_visit_world in Hs as (inode & Hnode & _ & _ & Hl & Hs).
    split; [congruence|]. intros nid nd Hn Hv.
    destruct (is_variable inode) eqn:Hvi.
    + assert (nid <> j) by (intros ->; congruence).
      destruct Hs as [_ [(a & _ & _ & _ & ->)|(_ & _ & _ & ->)]];
        rewrite list_lookup_insert_ne by done; eauto.
    + destruct Hs as (_ & _ & ->). eauto.
  - simpl. split; [apply length_resize|]. intros nid nd Hn _.
    apply lookup_lt_Some in Hn. rewrite lookup_resize by done.
    by rewrite lookup_nil.
Qed.

Lemma Init_node_states_layout_witness :
  length (node_states_ (result_exec assign_initial)) = 3
  /\ node_states_ (result_exec assign_initial) !! 2 = Some None.
Proof.
  assert (assign_initial
          = Ok ((result_exec assign_initial,
                 match assign_initial with Ok (_, st, _) => st | Err _ => ∅ end),
                result_world assign_initial)) as H by (vm_compute; reflexivity).
  destruct (Init_node_states_layout _ _ _ _ _ _ _ H) as [H1 H2].
  split; [exact H1|].
  exact (H2 2 (mkINode (Some assign_op) "y" [mkNodeEntry 0 0 0; mkNodeEntry 1 0 0] 1)
            eq_refl eq_refl).
Defined.

(** X4. On a graph whose inputs are all nodes of the index, [Init] on a
    new executor succeeds if every assignment node has exactly two
    inputs, and fails with the [CHECK_EQ] on the number of inputs of an
    assignment otherwise; it has no other failure. *)
Theorem Init_succeeds_iff_assign_arity :
  forall (E : Env) (sym : Symbol) (states : VarStateMap) (w : World),
    inputs_in_range (indexed_graph sym) ->
    (assign_arity_ok (indexed_graph sym) ->
     exists r w', Init E (new_executor E) sym states w = Ok (r, w'))
    /\ (~ assign_arity_ok (indexed_graph sym) ->
        Init E (new_executor E) sym states w
        = Err (CheckFailed "inode.inputs.size() == 2" "")).
Proof.
  intros E sym states w Hr. unfold Init. cbv zeta.
  set (idx := indexed_graph sym) in *. set (n := num_nodes idx).
  set (s0 := mkInitScan _ _ _ _ _ _ _).
  destruct (Init_scan_total E idx n Hr (Nat.le_refl _) s0
              (mkWorld (tensors w) (storages w) (vstore w) (EvInit :: trace w)))
    as [[Hall (s' & w' & H)]|[Hall H]].
  - apply length_replicate.
  - apply length_replicate.
  - apply length_resize.
  - split.
    + intros _. eexists _, _. unfold bind, log. rewrite H. reflexivity.
    + intros Hno. exfalso. by apply Hno, assign_arity_ok_forallb.
  - split.
    + intros Hok%assign_arity_ok_forallb. unfold n in Hall. congruence.
    + intros _. unfold bind, log. by rewrite H.
Qed.

Lemma topological_in_range idx : topological idx -> inputs_in_range idx.
Proof.
  intros Ht nid nd e Hn He. pose proof (Ht _ _ _ Hn He).
  apply lookup_lt_Some in Hn. unfold num_nodes. lia.
Qed.

Lemma Init_succeeds_iff_assign_arity_witness :
  (exists r w', Init demo (new_executor demo) sym_assign ∅ empty_world = Ok (r, w'))
  /\ Init demo (new_executor demo) sym_bad_assign ∅ empty_world
     = Err (CheckFailed "inode.inputs.size() == 2" "").
Proof.
  split.
  - refine (proj1 (Init_succeeds_iff_assign_arity demo sym_assign
                     ∅ empty_world _) _).
    + apply topological_in_range, graph_assign_topological.
    + intros nid nd Hn Hop.
      destruct nid as [|[|[|nid]]]; simpl in Hn; [injection Hn as <-; done.. | done].
  - refine (proj2 (Init_succeeds_iff_assign_arity demo sym_bad_assign
                     ∅ empty_world _) _).
    + intros nid nd e Hn He.
      destruct nid as [|[|nid]]; simpl in Hn; [injection Hn as <-.. | done].
      * destruct He.
      * destruct He as [<-|[]]. simpl. unfold num_nodes. simpl. lia.
    + intros Hok. specialize (Hok 1 _ eq_refl eq_refl). simpl in Hok. lia.
Defined.

(** ** The cache and the pointers of the session *)
Lemma map_size_le_1 (m : gmap N ExecEntry) p e :
  size m <= 1 -> m !! p = Some e -> m = {[ p := e ]}.
Proof.
  intros Hs Hp. rewrite <- (insert_delete_id m p e Hp).
  assert (delete p m = ∅) as ->; [|done].
  apply map_size_empty_inv. rewrite map_size_delete, Hp. simpl. lia.
Qed.

Section SessionInvariant.

Context (E : Env).

Lemma Session_Run_hit p sym inputs s w entry :
  cached_execs_ s !! p = Some entry ->
  stale_exec (symbol_ (exec entry)) sym = false ->
  Session_Run E p sym inputs s w
  = Session_exec_run E p
      (mkExecEntry (exec entry) (size_t_wrap (use_count entry + 1))) inputs s w.
Proof. intros Hc Hs. unfold Session_Run. by rewrite Hc, Hs. Qed.

Lemma Session_Run_miss p sym inputs s w :
  cache_hit s p sym = false ->
  Session_Run E p sym inputs s w = Session_miss E p sym inputs s w.
Proof.
  unfold cache_hit, Session_Run. destruct (cached_execs_ s !! p); [|done].
  by intros ->.
Qed.

(** The cache after a call that succeeded. *)
Lemma Session_Run_cache p sym inputs s w r w' :
  Session_Run E p sym inputs s w = Ok (r, w') ->
  exists e,
    cached_execs_ (snd r)
    = (if cache_hit s p sym then <[p := e]> (cached_execs_ s) else {[ p := e ]})
    /\ outputs (symbol_ (exec e)) = outputs sym
    /\ use_count e
       = match cached_execs_ s !! p with
         | Some e0 =>
           if stale_exec (symbol_ (exec e0)) sym then 0%N
           else size_t_wrap (use_count e0 + 1)
         | None => 0%N
         end.
Proof.
  intros H. destruct (cache_hit s p sym) eqn:Hh.
  - unfold cache_hit in Hh. destruct (cached_execs_ s !! p) as [e0|] eqn:Hc; [|done].
    apply negb_true_iff in Hh. rewrite Hh.
    rewrite (Session_Run_hit _ _ _ _ _ _ Hc Hh) in H.
    apply Session_exec_run_Ok in H as (outs & ex' & HR & ->). simpl in *.
    eexists. split; [reflexivity|]. simpl. split; [|done].
    apply Run_frame in HR as [Hsym _ _ _ _ _ _ _ _]. rewrite Hsym.
    by apply stale_exec_false.
  - rewrite Session_Run_miss in H by done.
    unfold Session_miss, Session_rebuild in H. cbv zeta in H.
    apply bind_Ok in H as ([e s1] & w1 & H1 & H).
    apply bind_Ok in H1 as ([ex st] & w2 & H1 & H2).
    unfold ret in H2. injection H2 as <- <- <-.
    apply Session_exec_run_Ok in H as (outs & ex' & HR & ->). simpl in *.
    eexists. split; [by rewrite insert_singleton_eq|]. simpl.
    apply Run_frame in HR as [Hsym _ _ _ _ _ _ _ _]. rewrite Hsym.
    apply Init_Ok in H1 as (-> & _). split; [done|].
    unfold cache_hit in Hh. destruct (cached_execs_ s !! p); [|done].
    apply negb_false_iff in Hh. by rewrite Hh.
Qed.

Lemma Session_Run_one_executor p sym inputs s w r w' :
  size (cached_execs_ s) <= 1 ->
  Session_Run E p sym inputs s w = Ok (r, w') ->
  exists e, cached_execs_ (snd r) = {[ p := e ]}
            /\ outputs (symbol_ (exec e)) = outputs sym.
Proof.
  intros Hs H. apply Session_Run_cache in H as (e & Hc & Ho & _).
  exists e. split; [|done]. rewrite Hc.
  destruct (cache_hit s p sym) eqn:Hh; [|done].
  unfold cache_hit in Hh. destruct (cached_execs_ s !! p) as [e0|] eqn:Hp; [|done].
  rewrite (map_size_le_1 _ _ _ Hs Hp). apply insert_singleton_eq.
Qed.

Lemma session_runs_one_executor calls :
  forall s w s' w',
    size (cached_execs_ s) <= 1 ->
    session_runs E calls s w = Ok (s', w') ->
    size (cached_execs_ s') <= 1
    /\ forall p sym inputs,
         last calls = Some (p, sym, inputs) ->
         exists e, cached_execs_ s' = {[ p := e ]}
                   /\ outputs (symbol_ (exec e)) = outputs sym.
Proof.
  induction calls as [|[[p sym] inputs] calls IH]; intros s w s' w' Hs H; simpl in H.
  - unfold ret in H. injection H as <- <-. split; [done|]. by intros.
  - apply bind_Ok in H as (r & w1 & H1 & H).
    destruct (Session_Run_one_executor _ _ _ _ _ _ _ Hs H1) as (e & Hc & Ho).
    assert (size (cached_execs_ (snd r)) <= 1) as Hs1.
    { rewrite Hc, map_size_singleton. lia. }
    destruct (IH _ _ _ _ Hs1 H) as [Hs' Hlast]. split; [done|].
    intros p' sym' inputs' Hl. destruct calls as [|c calls].
    + simpl in Hl. injection Hl as <- <- <-. simpl in H.
      unfold ret in H. injection H as <- <-. eauto.
    + rewrite last_cons_cons in Hl. eauto.
Qed.

Lemma evolves_states_live st w w' : evolves w w' -> states_live st w -> states_live st w'.
Proof.
  intros [Hv _ _] Hl key a Ha. apply Hl in Ha.
  destruct (lookup_lt_is_Some_2 _ _ Ha) as [v Hv0].
  destruct (Hv _ _ Hv0) as (v' & Hv' & _). by eapply lookup_lt_Some.
Qed.

Lemma evolves_pointers_live ns w w' :
  evolves w w' -> pointers_live ns w -> pointers_live ns w'.
Proof.
  intros [Hv _ _] Hl nid a Ha. apply Hl in Ha.
  destruct (lookup_lt_is_Some_2 _ _ Ha) as [v Hv0].
  destruct (Hv _ _ Hv0) as (v' & Hv' & _). by eapply lookup_lt_Some.
Qed.

Lemma Session_exec_run_ok p entry inputs s w r w' :
  Session_exec_run E p entry inputs s w = Ok (r, w') ->
  session_ok s w -> pointers_live (node_states_ (exec entry)) w ->
  session_ok (snd r) w'.
Proof.
  intros H [Hl Hi He] Hp.
  pose proof (Session_exec_run_evolves _ _ _ _ _ _ _ _ H) as Hev.
  apply Session_exec_run_Ok in H as (outs & ex' & HR & ->). simpl.
  split; simpl.
  - by eapply evolves_states_live.
  - done.
  - intros q e Hq. apply lookup_insert_Some in Hq as [[<- <-]|[_ Hq]]; simpl.
    + apply Run_frame in HR as [_ _ _ _ _ _ Hns _ _]. rewrite Hns.
      by eapply evolves_pointers_live.
    + eapply evolves_pointers_live; eauto.
Qed.

End SessionInvariant.

(** X5. The staleness test of [TorchSession::Run] reports a stale
    executor exactly when the output list of the cached symbol differs
    from the output list of the requested symbol: in its length, or at
    some position in the node, the output index or the version. *)
Theorem stale_exec_compares_outputs :
  forall s sym : Symbol,
    stale_exec s sym = negb (bool_decide (outputs s = outputs sym)).
Proof.
  intros s sym. destruct (stale_exec s sym) eqn:Hs.
  - case_bool_decide as Ho; [|done].
    apply stale_exec_false in Ho. congruence.
  - apply stale_exec_false in Hs. by rewrite bool_decide_eq_true_2.
Qed.

(** X6. A session caches one executor at most.  After any sequence of
    calls of [TorchSession::Run] on a session made by [Session::Create],
    the cache holds no entry but the one for the graph object of the last
    call, and the symbol of that executor has the outputs that the last
    call asked for. *)
Theorem session_caches_one_executor :
  forall (E : Env) (type : string) (calls : list (N * Symbol * gmap string TBlob))
         (w : World) (s' : TorchSession) (w' : World),
    session_runs E calls (Session_Create type) w = Ok (s', w') ->
    size (cached_execs_ s') <= 1
    /\ forall p sym inputs,
         last calls = Some (p, sym, inputs) ->
         exists e, cached_execs_ s' = {[ p := e ]}
                   /\ outputs (symbol_ (exec e)) = outputs sym.
Proof.
  intros E type calls w s' w' H.
  eapply (session_runs_one_executor E); [|exact H]. simpl. rewrite map_size_empty. lia.
Qed.

Lemma session_caches_one_executor_witness :
  size (cached_execs_ split_session) <= 1
  /\ exists e, cached_execs_ split_session = {[ 6%N := e ]}
               /\ outputs (symbol_ (exec e)) = outputs sym_split.
Proof.
  assert (session_runs demo [(5%N, sym_assign, feed_x blob_3x4);
                             (6%N, sym_split, feed_p blob_4x3)]
            (Session_Create "torch") empty_world = Ok (split_session, split_world)) as H
    by (vm_compute; reflexivity).
  destruct (session_caches_one_executor demo "torch" _ _ _ _ H) as [H1 H2].
  split; [exact H1|]. exact (H2 6%N sym_split (feed_p blob_4x3) eq_refl).
Defined.

(** X7. The use count of the cached entry counts the calls that reused
    the executor since it was built: after a call that succeeded, the
    entry cached for the graph object has the count 0 when the call built
    a new executor, and the count of the entry it found plus one (in
    [size_t]) when the call reused that entry. *)
Theorem use_count_counts_hits :
  forall (E : Env) (p : N) (sym : Symbol) (inputs : gmap string TBlob)
         (s : TorchSession) (w : World) (r : list TBlob * TorchSession) (w' : World),
    Session_Run E p sym inputs s w = Ok (r, w') ->
    exists e,
      cached_execs_ (snd r) !! p = Some e
      /\ use_count e
         = match cached_execs_ s !! p with
           | Some e0 =>
             if stale_exec (symbol_ (exec e0)) sym then 0%N
             else size_t_wrap (use_count e0 + 1)
           | None => 0%N
           end.
Proof.
  intros E p sym inputs s w r w' H.
  apply Session_Run_cache in H as (e & Hc & _ & Hu).
  exists e. split; [|done]. rewrite Hc.
  destruct (cache_hit s p sym); [apply lookup_insert_eq | apply lookup_singleton_eq].
Qed.

Lemma use_count_counts_hits_witness :
  exists e,
    cached_execs_
      (result_session (Session_Run demo 5 sym_assign (feed_x blob_3x4)
                         (result_session assigned_once) (result_world assigned_once)))
      !! 5%N = Some e
    /\ use_count e = 1%N.
Proof.
  set (r := Session_Run demo 5 sym_assign (feed_x blob_3x4)
              (result_session assigned_once) (result_world assigned_once)).
  assert (r = Ok ((run_blobs r, result_session r), result_world r)) as H
    by (vm_compute; reflexivity).
  destruct (use_count_counts_hits _ _ _ _ _ _ _ _ H) as (e & He & Hu).
  exists e. split; [exact He|]. rewrite Hu. vm_compute. reflexivity.
Defined.

(** X8. Whatever call a session serves, every pointer to a variable
    state that it holds stays valid and every variable name keeps a state
    of its own: the addresses in the state map and in the [node_states_]
    of a cached executor are addresses of variable states of the table,
    and two names never have the same address. *)
Theorem session_pointers_stay_valid :
  forall (E : Env) (p : N) (sym : Symbol) (inputs : gmap string TBlob)
         (s : TorchSession) (w : World) (r : list TBlob * TorchSession) (w' : World),
    session_ok s w ->
    Session_Run E p sym inputs s w = Ok (r, w') ->
    session_ok (snd r) w'.
Proof.
  intros E p sym inputs s w r w' Hok H.
  assert (Hmiss : Session_miss E p sym inputs s w = Ok (r, w') -> session_ok (snd r) w').
  { clear H. intros H. unfold Session_miss, Session_rebuild in H. cbv zeta in H.
    apply bind_Ok in H as ([e s1] & w1 & H1 & H).
    apply bind_Ok in H1 as ([ex st] & w2 & H1 & H2).
    unfold ret in H2. injection H2 as <- <- <-. simpl in H.
    destruct Hok as [Hl Hi He].
    destruct (Init_live E _ _ _ _ _ _ H1 Hl Hi) as (Hl' & Hi' & Hp').
    eapply Session_exec_run_ok; [exact H | | done].
    split; simpl; [done | done |].
    intros q e Hq. apply lookup_singleton_Some in Hq as [_ <-]. done. }
  unfold Session_Run in H.
  destruct (cached_execs_ s !! p) as [entry|] eqn:Hc; [|by apply Hmiss].
  destruct (negb _); [|by apply Hmiss].
  eapply Session_exec_run_ok; [exact H | done |]. simpl.
  destruct Hok as [_ _ He]. by eapply He.
Qed.

Lemma session_pointers_stay_valid_witness :
  session_ok (result_session assigned_once) (result_world assigned_once).
Proof.
  assert (assigned_once
          = Ok ((run_blobs assigned_once, result_session assigned_once),
                result_world assigned_once)) as H by (vm_compute; reflexivity).
  refine (session_pointers_stay_valid demo 5%N sym_assign (feed_x blob_3x4)
            (Session_Create "torch") empty_world _ _ _ H).
  split; simpl.
  - intros key a Ha. by rewrite lookup_empty in Ha.
  - intros k1 k2 a Ha. by rewrite lookup_empty in Ha.
  - intros q e Hq. by rewrite lookup_empty in Hq.
Defined.

(** ** The stages of the storage setup *)

Lemma foldM_seq_ind {S} (P : nat -> S -> World -> Prop) (body : nat -> S -> M S) n :
  (forall k s w s' w', k < n -> P k s w -> body k s w = Ok (s', w') -> P (Datatypes.S k) s' w') ->
  forall s w s' w', P 0 s w -> foldM body (seq 0 n) s w = Ok (s', w') -> P n s' w'.
Proof.
  induction n as [|n IH]; intros Hstep s w s' w' HP H.
  - simpl in H. unfold ret in H. by injection H as <- <-.
  - rewrite seq_S, foldM_app in H. simpl in H.
    apply bind_Ok in H as (s1 & w1 & H1 & H).
    apply bind_Ok in H as (s2 & w2 & H2 & H).
    unfold ret in H. injection H as <- <-.
    eapply Hstep; [lia | | exact H2].
    eapply IH; [| exact HP | exact H1].
    intros k s0 w0 s0' w0' Hk. apply Hstep. lia.
Qed.

Lemma get_attr_Ok {A} (a : option A) w x w' :
  get_attr a w = Ok (x, w') -> a = Some x /\ w' = w.
Proof. unfold get_attr. destruct a; [by intros [= <- <-] | done]. Qed.

Section StorageStages.

Context (E : Env).

Lemma SetupStorage_stages ex w ex' w' :
  SetupStorage E ex w = Ok (ex', w') ->
  exists vstorage vshape w4 w5 pes w6 w7 w8,
    graph_storage_id ex' = Some vstorage /\ node_shape_ ex' = Some vshape
    /\ dev_mask_ ex' = dev_mask_ ex /\ graph_ ex' = graph_ ex
    /\ tensors w4 = tensors w /\ storages w4 = storages w /\ vstore w4 = vstore w
    /\ (if bool_decide (length (data_entry_ ex) = 0)
        then alloc_entries E ex w4 = Ok ((data_entry_ ex', data_entry_is_var_ ex'), w5)
        else data_entry_ ex' = data_entry_ ex
             /\ data_entry_is_var_ ex' = data_entry_is_var_ ex /\ w5 = w4)
    /\ foldM (pool_size_step (data_entry_is_var_ ex') vstorage vshape)
             (seq 0 (length vshape)) [] w5 = Ok (pes, w6)
    /\ foldM (pool_alloc_step E (dev_mask_ ex)) pes [] w6 = Ok (storage_pool_ ex', w7)
    /\ foldM (pool_assign_step (data_entry_ ex') (data_entry_is_var_ ex')
                vstorage vshape (storage_pool_ ex'))
             (seq 0 (length (data_entry_ ex'))) tt w7 = Ok (tt, w8)
    /\ foldM (output_alloc_step E (graph_ ex) vshape)
             (seq 0 (length (idx_outputs (graph_ ex))))
             (resize (outputs_ ex) (length (idx_outputs (graph_ ex))) None) w8
       = Ok (outputs_ ex', w').
Proof.
  intros H. unfold SetupStorage in H. cbv zeta in H.
  apply bind_Ok in H as (u & w1 & H1 & H).
  apply bind_Ok in H as (ex1 & w2 & H2 & H).
  apply bind_Ok in H as (vstorage & w3 & [Hs1 ->]%get_attr_Ok & H).
  apply bind_Ok in H as (vshape & w4 & [Hn1 ->]%get_attr_Ok & H).
  apply bind_Ok in H as (ex2 & w5 & H5 & H).
  apply bind_Ok in H as (pes & w6 & H6 & H).
  apply bind_Ok in H as (pool & w7 & H7 & H).
  apply bind_Ok in H as ([] & w8 & H8 & H).
  apply bind_Ok in H as (outs & w9 & H9 & H).
  unfold ret in H. injection H as <- <-.
  assert (exists sid, ex1 = with_storage_id ex sid \/ ex1 = ex) as [sid Hex1].
  { clear -H2. destruct (bool_decide _).
    - apply bind_Ok in H2 as (? & ? & _ & H2).
      apply bind_Ok in H2 as (? & ? & _ & H2).
      apply bind_Ok in H2 as (? & ? & _ & H2).
      apply bind_Ok in H2 as (sid & ? & _ & H2).
      unfold ret in H2. injection H2 as <- _. eauto.
    - unfold ret in H2. injection H2 as <- _. exists []. by right. }
  assert (tensors w2 = tensors w /\ storages w2 = storages w /\ vstore w2 = vstore w)
    as (Ht & Hs & Hv).
  { unfold log in H1. injection H1 as _ <-. clear -H2.
    destruct (bool_decide _).
    - apply bind_Ok in H2 as (? & ? & Hl & H2).
      unfold log in Hl. injection Hl as _ <-.
      apply bind_Ok in H2 as (? & ? & [_ ->]%get_attr_Ok & H2).
      apply bind_Ok in H2 as (? & ? & [_ ->]%get_attr_Ok & H2).
      apply bind_Ok in H2 as (? & ? & [_ ->]%get_attr_Ok & H2).
      unfold ret in H2. by injection H2 as _ <-.
    - unfold ret in H2. by injection H2 as _ <-. }
  assert (data_entry_ ex1 = data_entry_ ex
          /\ data_entry_is_var_ ex1 = data_entry_is_var_ ex
          /\ dev_mask_ ex1 = dev_mask_ ex /\ graph_ ex1 = graph_ ex
          /\ outputs_ ex1 = outputs_ ex
          /\ entry_alias_step ex1 = entry_alias_step ex) as (Hd1 & Hi1 & Hm1 & Hg1 & Ho1 & Ha1).
  { destruct Hex1 as [-> | ->]; done. }
  exists vstorage, vshape, w2, w5, pes, w6, w7, w8.
  assert (graph_storage_id ex2 = graph_storage_id ex1 /\ node_shape_ ex2 = node_shape_ ex1
          /\ dev_mask_ ex2 = dev_mask_ ex1 /\ graph_ ex2 = graph_ ex1
          /\ outputs_ ex2 = outputs_ ex1) as (Hs2 & Hn2 & Hm2 & Hg2 & Ho2).
  { clear -H5. destruct (bool_decide _).
    - apply bind_Ok in H5 as (? & ? & _ & H5).
      apply bind_Ok in H5 as (? & ? & _ & H5).
      unfold ret in H5. by injection H5 as <- _.
    - unfold ret in H5. by injection H5 as <- _. }
  simpl in *. rewrite Hs2, Hn2, Hm2, Hm1, Hg2, Hg1.
  rewrite Hm2, Hm1 in H7. rewrite Ho2, Ho1 in H9.
  split_and!; try done.
  rewrite Hd1 in H5. destruct (bool_decide (length (data_entry_ ex) = 0)).
  - apply bind_Ok in H5 as (de & w10 & Hde & H5).
    apply bind_Ok in H5 as (di & w11 & Hdi & H5).
    unfold ret in H5. injection H5 as <- <-. simpl.
    unfold alloc_entries. cbv zeta.
    rewrite Hm1 in Hde. rewrite Ha1, Hi1 in Hdi.
    unfold bind. rewrite Hde, Hdi. by destruct di.
  - unfold ret in H5. injection H5 as <- <-. done.
Qed.

(** *** The first allocation of the entries *)

Lemma entry_alloc_step_Ok dev i de w de' w' :
  entry_alloc_step E dev i de w = Ok (de', w') ->
  i < length de
  /\ de' = <[i := Some (length (tensors w))]> de
  /\ w' = mkWorld (tensors w ++ [mkTensor None [] dev (default_dtype E)])
                  (storages w) (vstore w) (trace w).
Proof.
  unfold entry_alloc_step, NewTensorEmpty, set_, bind, ret, fail.
  case_decide; [|done]. by intros [= <- <-].
Qed.

Lemma entry_alloc_fold dev n de w de' w' :
  length de = n ->
  foldM (entry_alloc_step E dev) (seq 0 n) de w = Ok (de', w') ->
  length de' = n
  /\ (forall i, i < n -> de' !! i = Some (Some (length (tensors w) + i)))
  /\ tensors w' = tensors w ++ replicate n (mkTensor None [] dev (default_dtype E))
  /\ storages w' = storages w /\ vstore w' = vstore w /\ trace w' = trace w.
Proof.
  intros Hlen H.
  eapply (foldM_seq_ind
            (fun k d v =>
               length d = n
               /\ (forall i, i < k -> d !! i = Some (Some (length (tensors w) + i)))
               /\ tensors v = tensors w ++ replicate k (mkTensor None [] dev (default_dtype E))
               /\ storages v = storages w /\ vstore v = vstore w /\ trace v = trace w))
    in H; [exact H | |].
  - intros k d v d' v' Hk (Hl & Hd & Ht & Hs & Hv & Htr) Hstep.
    apply entry_alloc_step_Ok in Hstep as (Hkl & -> & ->). simpl.
    split_and!; try done.
    + by rewrite length_insert.
    + intros i Hi. destruct (decide (i = k)) as [->|Hne].
      * rewrite list_lookup_insert_eq by done.
        rewrite Ht, length_app, length_replicate. done.
      * rewrite list_lookup_insert_ne by done. apply Hd. lia.
    + rewrite Ht, <- app_assoc. f_equal. by rewrite replicate_cons_app.
  - simpl. rewrite app_nil_r. split_and!; try done. lia.
Qed.

Lemma entry_alias_fold_flags ex nids :
  forall de iv w di w',
    length iv = length de ->
    foldM (entry_alias_step ex) nids (de, iv) w = Ok (di, w') ->
    length (fst di) = length de /\ length (snd di) = length iv /\ w' = w
    /\ (forall nid, In nid nids -> snd di !! entry_id (graph_ ex) nid 0 = Some true)
    /\ (forall j, (forall nid, In nid nids -> entry_id (graph_ ex) nid 0 <> j) ->
          snd di !! j = iv !! j /\ fst di !! j = de !! j).
Proof.
  induction nids as [|nid rest IH]; intros de iv w di w' Hlen H; simpl in H.
  - unfold ret in H. injection H as <- <-. simpl. split_and!; try done.
  - apply bind_Ok in H as ([de1 iv1] & w1 & H1 & H).
    apply entry_alias_step_Ok in H1 as (a & v & Hst & Hv & Hlt & [= -> ->] & ->).
    apply IH in H as (Hl1 & Hl2 & -> & Htrue & Hother);
      [|by rewrite !length_insert].
    rewrite length_insert in Hl1. rewrite length_insert in Hl2. split_and!; try done.
    + intros n [<-|Hin]; [|by apply Htrue].
      destruct (decide (Exists (fun n' => entry_id (graph_ ex) n' 0
                                          = entry_id (graph_ ex) nid 0) rest))
        as [Hex|Hno].
      * apply Exists_exists in Hex as (n' & Hin'%list_elem_of_In & He).
        rewrite <- He. by apply Htrue.
      * destruct (Hother (entry_id (graph_ ex) nid 0)) as [-> _].
        { intros n' Hin' He. apply Hno, Exists_exists. exists n'.
          split; [by apply list_elem_of_In | done]. }
        apply list_lookup_insert_eq. lia.
    + intros j Hj. destruct (Hother j) as [-> ->].
      { intros n Hin. apply Hj. by right. }
      rewrite !list_lookup_insert_ne; [done|..]; apply Hj; by left.
Qed.

Lemma alloc_entries_Ok ex w de iv w' :
  data_entry_ ex = [] -> data_entry_is_var_ ex = [] ->
  alloc_entries E ex w = Ok ((de, iv), w') ->
  let n := num_node_entries (graph_ ex) in
  length de = n /\ length iv = n
  /\ (forall i, is_input_entry (graph_ ex) i -> iv !! i = Some true)
  /\ (forall i, i < n -> ~ is_input_entry (graph_ ex) i ->
        iv !! i = Some false /\ de !! i = Some (Some (length (tensors w) + i)))
  /\ tensors w'
     = tensors w ++ replicate n (mkTensor None [] (dev_mask_ ex) (default_dtype E))
  /\ storages w' = storages w /\ vstore w' = vstore w /\ trace w' = trace w.
Proof.
  intros Hde Hiv H n. unfold alloc_entries in H. cbv zeta in H. fold n in H.
  rewrite Hde, Hiv in H.
  apply bind_Ok in H as (de0 & w1 & H1 & H).
  apply entry_alloc_fold in H1 as (Hl0 & Hd0 & Ht & Hs & Hv & Htr);
    [|apply length_resize].
  apply entry_alias_fold_flags in H as (Hl1 & Hl2 & -> & Htrue & Hother);
    [|by rewrite length_resize].
  simpl in *. rewrite length_resize in Hl2.
  split_and!; try done; [congruence | |].
  - intros i (nid & Hin & ->). by apply Htrue.
  - intros i Hi Hno. destruct (Hother i) as [Hiv' Hde'].
    { intros nid Hin He. apply Hno. by exists nid. }
    split; [|exact (eq_trans Hde' (Hd0 i Hi))].
    rewrite Hiv', lookup_resize by done. by rewrite lookup_nil.
Qed.

(** *** Every tensor that the setup binds has room for its shape *)

Lemma max_size_ge l x : x ∈ l -> (x <= max_size l)%N.
Proof.
  induction l as [|y l IH]; intros Hin; [by apply not_elem_of_nil in Hin|].
  simpl. apply elem_of_cons in Hin as [->|Hin]; [lia|]. apply IH in Hin. lia.
Qed.

Lemma pool_member_le iv vst vsh sid n i x :
  i < n -> member_size iv vst vsh sid i = Some x ->
  (x <= max_size (pool_members iv vst vsh sid n))%N.
Proof.
  intros Hi Hm. apply max_size_ge. unfold pool_members.
  apply list_elem_of_omap. exists i. split; [|done].
  apply list_elem_of_In, in_seq. lia.
Qed.

Lemma pool_assign_step_Ok de iv vst vsh pool i u w u' w' :
  pool_assign_step de iv vst vsh pool i u w = Ok (u', w') ->
  (iv !! i = Some true /\ w' = w)
  \/ exists sid t s shp,
       iv !! i = Some false /\ vst !! i = Some (Z.of_nat sid) /\ de !! i = Some t
       /\ pool !! sid = Some s /\ vsh !! i = Some shp
       /\ ResetStorage t s shp w = Ok (tt, w').
Proof.
  unfold pool_assign_step, at_int, at_, idx_, bind, ret, fail.
  destruct (iv !! i) as [[|]|]; [intros [= _ <-]; by left | | done].
  destruct (vst !! i) as [sid|]; [|done].
  destruct (de !! i) as [t|]; [|done].
  case_bool_decide as Hs; [|done].
  destruct (pool !! Z.to_nat sid) as [s|] eqn:Hp; [|done].
  destruct (vsh !! i) as [shp|]; [|done].
  intros H. right. exists (Z.to_nat sid), t, s, shp.
  rewrite Z2Nat.id by done. destruct u'. done.
Qed.

Lemma fits_ResetStorage h s shp w u w' so :
  ResetStorage (Some h) s shp w = Ok (u, w') ->
  storages w !! s = Some so -> (shape_size shp <= s_size so)%N ->
  fits w' h /\ forall h', fits w h' -> fits w' h'.
Proof.
  intros H Hso Hle.
  apply ResetStorage_Ok in H as (h0 & o & so' & [= <-] & Ho & Hso' & ->).
  assert (fits (mkWorld (<[h := mkTensor (Some s) shp (s_dev so') (s_dtype so')]> (tensors w))
                        (storages w) (vstore w) (trace w)) h) as Hfit.
  { exists (mkTensor (Some s) shp (s_dev so') (s_dtype so')), s, so. simpl.
    split_and!; try done. apply list_lookup_insert_eq. by eapply lookup_lt_Some. }
  split; [done|]. intros h' (t & s1 & so1 & Ht & Hs1 & Hso1 & Hle1).
  destruct (decide (h' = h)) as [->|Hne]; [done|].
  exists t, s1, so1. simpl. split_and!; try done.
  by rewrite list_lookup_insert_ne.
Qed.

Lemma pool_assign_fold_fits de iv vst vsh pool n w w' :
  (forall i sid s shp,
     iv !! i = Some false -> vst !! i = Some (Z.of_nat sid) -> pool !! sid = Some s ->
     vsh !! i = Some shp ->
     exists so, storages w !! s = Some so /\ (shape_size shp <= s_size so)%N) ->
  foldM (pool_assign_step de iv vst vsh pool) (seq 0 n) tt w = Ok (tt, w') ->
  storages w' = storages w /\ vstore w' = vstore w /\ trace w' = trace w
  /\ length (tensors w') = length (tensors w)
  /\ (forall h, fits w h -> fits w' h)
  /\ (forall i h, i < n -> iv !! i = Some false -> de !! i = Some (Some h) -> fits w' h).
Proof.
  intros Hpool H.
  eapply (foldM_seq_ind
            (fun k _ v =>
               storages v = storages w /\ vstore v = vstore w /\ trace v = trace w
               /\ length (tensors v) = length (tensors w)
               /\ (forall h, fits w h -> fits v h)
               /\ (forall i h, i < k -> iv !! i = Some false -> de !! i = Some (Some h) ->
                     fits v h))) in H; [exact H | |].
  - intros k [] v [] v' Hk (Hs & Hv & Htr & Hl & Hold & Hnew) Hstep.
    apply pool_assign_step_Ok in Hstep
      as [[Hiv ->]|(sid & t & s & shp & Hiv & Hvst & Hde & Hp & Hsh & HR)].
    + split_and!; try done. intros i h Hi Hf Hd.
      destruct (decide (i = k)) as [->|Hne]; [congruence|]. eapply Hnew; eauto. lia.
    + destruct (Hpool _ _ _ _ Hiv Hvst Hp Hsh) as (so & Hso & Hle).
      pose proof HR as HR'.
      apply ResetStorage_Ok in HR' as (h0 & o & so' & -> & Ho & Hso' & ->).
      rewrite <- Hs in Hso.
      destruct (fits_ResetStorage _ _ _ _ _ _ _ HR Hso Hle) as [Hfit Hkeep].
      simpl. split_and!; try done.
      * by rewrite length_insert.
      * intros h Hh. by apply Hkeep, Hold.
      * intros i h Hi Hf Hd. destruct (decide (i = k)) as [->|Hne].
        -- injection (eq_trans (eq_sym Hd) Hde) as ->. done.
        -- apply Hkeep. eapply Hnew; eauto. lia.
  - split_and!; try done. intros i h Hi. lia.
Qed.

Lemma output_alloc_step_Ok idx vsh i outs w outs' w' :
  output_alloc_step E idx vsh i outs w = Ok (outs', w') ->
  exists e shp,
    idx_outputs idx !! i = Some e
    /\ vsh !! entry_id idx (node_id e) (index e) = Some shp
    /\ i < length outs
    /\ outs' = <[i := Some (length (tensors w))]> outs
    /\ w' = mkWorld
              (tensors w
               ++ [mkTensor (Some (length (storages w))) shp (kCPU E) (default_dtype E)])
              (storages w ++ [mkStorage (shape_size shp) (kCPU E) (default_dtype E)])
              (vstore w) (trace w).
Proof.
  unfold output_alloc_step. intros H.
  apply bind_Ok in H as (e & w1 & [He ->]%idx_Ok & H).
  apply bind_Ok in H as (t & w1 & Ht & H).
  unfold NewTensorEmpty in Ht. injection Ht as <- <-.
  apply bind_Ok in H as (shp & w1 & [Hshp ->]%idx_Ok & H).
  apply bind_Ok in H as (s & w1 & Hs & H).
  unfold NewStorage in Hs. injection Hs as <- <-. simpl in H.
  apply bind_Ok in H as (u & w1 & HR & H).
  apply ResetStorage_Ok in HR as (h & o & so & [= <-] & Ho & Hso & ->).
  simpl in *. rewrite list_lookup_middle in Hso by done. injection Hso as <-.
  unfold set_ in H. case_decide; [|done].
  unfold ret in H. injection H as <- <-.
  exists e, shp. split_and!; try done. simpl. f_equal.
  rewrite insert_app_r_alt by done. by rewrite Nat.sub_diag.
Qed.

Lemma output_alloc_fold idx vsh n outs w outs' w' :
  length outs = n ->
  foldM (output_alloc_step E idx vsh) (seq 0 n) outs w = Ok (outs', w') ->
  length outs' = n
  /\ (forall i, i < n ->
        exists e shp,
          idx_outputs idx !! i = Some e
          /\ vsh !! entry_id idx (node_id e) (index e) = Some shp
          /\ outs' !! i = Some (Some (length (tensors w) + i))
          /\ tensors w' !! (length (tensors w) + i)
             = Some (mkTensor (Some (length (storages w) + i)) shp
                       (kCPU E) (default_dtype E))
          /\ storages w' !! (length (storages w) + i)
             = Some (mkStorage (shape_size shp) (kCPU E) (default_dtype E)))
  /\ tensors w `prefix_of` tensors w' /\ storages w `prefix_of` storages w'
  /\ length (tensors w') = length (tensors w) + n
  /\ length (storages w') = length (storages w) + n
  /\ vstore w' = vstore w /\ trace w' = trace w.
Proof.
  intros Hlen H.
  eapply (foldM_seq_ind
            (fun k o v =>
               length o = n
               /\ (forall i, i < k ->
                     exists e shp,
                       idx_outputs idx !! i = Some e
                       /\ vsh !! entry_id idx (node_id e) (index e) = Some shp
                       /\ o !! i = Some (Some (length (tensors w) + i))
                       /\ tensors v !! (length (tensors w) + i)
                          = Some (mkTensor (Some (length (storages w) + i)) shp
                                    (kCPU E) (default_dtype E))
                       /\ storages v !! (length (storages w) + i)
                          = Some (mkStorage (shape_size shp) (kCPU E) (default_dtype E)))
               /\ tensors w `prefix_of` tensors v /\ storages w `prefix_of` storages v
               /\ length (tensors v) = length (tensors w) + k
               /\ length (storages v) = length (storages w) + k
               /\ vstore v = vstore w /\ trace v = trace w)) in H; [exact H | |].
  - intros k o v o' v' Hk (Hl & Hdone & Hpt & Hps & Hlt & Hls & Hv & Htr) Hstep.
    apply output_alloc_step_Ok in Hstep as (e & shp & He & Hshp & Hko & -> & ->).
    simpl. rewrite !length_app, length_insert. simpl.
    split_and!; try done; try lia.
    + intros i Hi. destruct (decide (i = k)) as [->|Hne].
      * exists e, shp. split_and!; try done.
        -- rewrite list_lookup_insert_eq by done. by rewrite Hlt.
        -- rewrite <- Hlt, <- Hls. by apply list_lookup_middle.
        -- rewrite <- Hls. by apply list_lookup_middle.
      * destruct (Hdone i) as (e' & shp' & ? & ? & ? & ? & ?); [lia|].
        exists e', shp'. split_and!; try done.
        -- by rewrite list_lookup_insert_ne.
        -- by apply lookup_app_l_Some.
        -- by apply lookup_app_l_Some.
    + by apply prefix_app_r.
    + by apply prefix_app_r.
  - split_and!; try done; lia.
Qed.

Lemma fits_prefix w w' h :
  tensors w `prefix_of` tensors w' -> storages w `prefix_of` storages w' ->
  fits w h -> fits w' h.
Proof.
  intros Ht Hs (t & s & so & H1 & H2 & H3 & H4). exists t, s, so.
  split_and!; try done; by eapply prefix_lookup_Some.
Qed.

Lemma alloc_entries_evolves ex : preserves evolves (alloc_entries E ex).
Proof. unfold alloc_entries. cbv zeta. pres_tac. Qed.

End StorageStages.

(** X9. The first storage setup of an executor gives [data_entry_] and
    [data_entry_is_var_] one slot per entry of the graph, flags exactly
    the entries of the input nodes as variable-backed, and gives every
    other entry a tensor of its own, made by this call. *)
Theorem first_storage_setup_allocates_entries :
  forall (E : Env) (ex : TorchExecutor) (w : World) (ex' : TorchExecutor) (w' : World),
    data_entry_ ex = [] -> data_entry_is_var_ ex = [] ->
    SetupStorage E ex w = Ok (ex', w') ->
    length (data_entry_ ex') = num_node_entries (graph_ ex)
    /\ length (data_entry_is_var_ ex') = num_node_entries (graph_ ex)
    /\ (forall i, is_input_entry (graph_ ex) i -> data_entry_is_var_ ex' !! i = Some true)
    /\ (forall i, i < num_node_entries (graph_ ex) -> ~ is_input_entry (graph_ ex) i ->
          data_entry_is_var_ ex' !! i = Some false
          /\ data_entry_ ex' !! i = Some (Some (length (tensors w) + i))).
Proof.
  intros E ex w ex' w' Hde Hiv H.
  apply SetupStorage_stages in H
    as (vst & vsh & w4 & w5 & pes & w6 & w7 & w8 & _ & _ & _ & _
        & Ht4 & _ & _ & H5 & _).
  rewrite Hde in H5. simpl in H5.
  apply alloc_entries_Ok in H5 as (Hl1 & Hl2 & Htrue & Hfalse & _); [|done..].
  rewrite Ht4 in Hfalse. done.
Qed.

Lemma first_storage_setup_allocates_entries_witness :
  exists ex' w',
    SetupStorage demo (result_exec assign_inferred) (result_world assign_inferred)
      = Ok (ex', w')
    /\ data_entry_is_var_ ex' !! 0 = Some true
    /\ length (data_entry_ ex') = 3.
Proof.
  set (r := SetupStorage demo (result_exec assign_inferred) (result_world assign_inferred)).
  assert (r = Ok (result_value (new_executor demo) r, result_world r)) as H
    by (vm_compute; reflexivity).
  destruct (first_storage_setup_allocates_entries demo (result_exec assign_inferred)
              (result_world assign_inferred) _ _ eq_refl eq_refl H)
    as (Hl & _ & Htrue & _).
  exists (result_value (new_executor demo) r), (result_world r).
  split; [exact H|]. split; [|exact Hl].
  apply Htrue. exists 0. split; [vm_compute; auto | reflexivity].
Defined.

(** X10. When [SetupStorage] succeeds, every tensor that it bound has
    room for its shape: the tensor of every entry that is not
    variable-backed, and every output tensor, is bound to a storage
    buffer that holds at least as many elements as the shape of the
    tensor has. *)
Theorem storage_setup_tensors_fit :
  forall (E : Env) (ex : TorchExecutor) (w : World) (ex' : TorchExecutor) (w' : World),
    SetupStorage E ex w = Ok (ex', w') ->
    (forall i h,
       data_entry_is_var_ ex' !! i = Some false ->
       data_entry_ ex' !! i = Some (Some h) ->
       fits w' h)
    /\ (forall i h, outputs_ ex' !! i = Some (Some h) -> fits w' h).
Proof.
  intros E ex w ex' w' H.
  apply SetupStorage_stages in H
    as (vst & vsh & w4 & w5 & pes & w6 & w7 & w8 & Hvst & Hvsh & Hdev & Hg
        & _ & _ & _ & _ & H6 & H7 & H8 & H9).
  apply pool_size_fold in H6 as [I1 I2].
  apply pool_alloc_fold in H7 as [Hpool Hst]. simpl in Hpool.
  apply pool_assign_fold_fits in H8 as (Hs8 & _ & _ & _ & _ & Hfit).
  2:{ intros i sid s shp Hiv Hv Hp Hsh. rewrite Hpool in Hp.
      apply lookup_seq in Hp as [-> Hlt].
      exists (mkStorage (max_size (pool_members (data_entry_is_var_ ex') vst vsh sid
                                     (length vsh)))
                        (dev_mask_ ex) (default_dtype E)).
      split.
      - rewrite Hst, lookup_app_r by lia.
        replace (length (storages w6) + sid - length (storages w6)) with sid by lia.
        by rewrite list_lookup_fmap, (I1 sid Hlt).
      - simpl. eapply pool_member_le; [by eapply lookup_lt_Some|].
        unfold member_size. rewrite Hiv, Hv, Hsh. by rewrite bool_decide_eq_true_2. }
  apply output_alloc_fold in H9
    as (Hlo & Hout & Hpt & Hps & _); [|apply length_resize].
  split.
  - intros i h Hiv Hde. eapply fits_prefix; [done..|].
    eapply Hfit; [|done..]. by eapply lookup_lt_Some.
  - intros i h Ho. assert (i < length (idx_outputs (graph_ ex))) as Hi.
    { rewrite <- Hlo. by eapply lookup_lt_Some. }
    destruct (Hout i Hi) as (e & shp & He & Hshp & Ho' & Ht & Hs).
    assert (h = length (tensors w8) + i) as -> by congruence.
    eexists _, _, _. split_and!; [exact Ht | done | exact Hs | done].
Qed.

Lemma storage_setup_tensors_fit_witness :
  fits (result_world chain_stored) 2 /\ fits (result_world chain_stored) 3.
Proof.
  assert (chain_stored
          = Ok (result_value (new_executor demo) chain_stored, result_world chain_stored))
    as H by (vm_compute; reflexivity).
  destruct (storage_setup_tensors_fit demo (result_exec chain_inferred)
              (result_world chain_inferred) _ _ H) as [H1 H2].
  split.
  - apply (H1 2 2); vm_compute; reflexivity.
  - apply (H2 0 3); vm_compute; reflexivity.
Defined.

(** X11. When [SetupStorage] succeeds, [outputs_] holds one tensor per
    output of the graph.  These tensors are made by this call, one after
    the other, so they are pairwise distinct and distinct from every
    tensor that existed before; each lives on the CPU with the default
    element type, has the shape that inference gave to the entry of its
    output, and is bound to a storage buffer of its own, made by this
    call, with exactly as many elements as that shape has. *)
Theorem storage_setup_allocates_outputs :
  forall (E : Env) (ex : TorchExecutor) (w : World) (ex' : TorchExecutor) (w' : World),
    SetupStorage E ex w = Ok (ex', w') ->
    exists vshape t0 s0,
      node_shape_ ex' = Some vshape
      /\ length (tensors w) <= t0 /\ length (storages w) <= s0
      /\ length (outputs_ ex') = length (idx_outputs (graph_ ex))
      /\ forall i e,
           idx_outputs (graph_ ex) !! i = Some e ->
           exists shp,
             vshape !! entry_id (graph_ ex) (node_id e) (index e) = Some shp
             /\ outputs_ ex' !! i = Some (Some (t0 + i))
             /\ tensors w' !! (t0 + i)
                = Some (mkTensor (Some (s0 + i)) shp (kCPU E) (default_dtype E))
             /\ storages w' !! (s0 + i)
                = Some (mkStorage (shape_size shp) (kCPU E) (default_dtype E)).
Proof.
  intros E ex w ex' w' H.
  apply SetupStorage_stages in H
    as (vst & vsh & w4 & w5 & pes & w6 & w7 & w8 & Hvst & Hvsh & Hdev & Hg
        & Ht4 & Hs4 & _ & H5 & H6 & H7 & H8 & H9).
  assert (evolves w4 w5) as E5.
  { case_bool_decide.
    - by eapply alloc_entries_evolves.
    - destruct H5 as (_ & _ & ->). reflexivity. }
  assert (evolves w5 w8) as E8.
  { eapply (preserves_elim evolves) in H6; [|pres_tac].
    eapply (preserves_elim evolves) in H7; [|pres_tac].
    eapply (preserves_elim evolves) in H8; [|pres_tac].
    etrans; [exact H6|]. etrans; [exact H7 | exact H8]. }
  assert (evolves w4 w8) as [_ Hst Hte] by (by etrans).
  apply prefix_length in Hst.
  apply output_alloc_fold in H9 as (Hlo & Hout & _); [|apply length_resize].
  exists vsh, (length (tensors w8)), (length (storages w8)).
  rewrite <- Ht4, <- Hs4. split_and!; try done.
  intros i e He. destruct (Hout i) as (e' & shp & He' & Hshp & Ho & Ht & Hs).
  { by eapply lookup_lt_Some. }
  assert (e' = e) as -> by congruence. by exists shp.
Qed.

Lemma storage_setup_allocates_outputs_witness :
  exists t0 s0,
    outputs_ (result_value (new_executor demo) chain_stored) !! 0 = Some (Some (t0 + 0))
    /\ tensors (result_world chain_stored) !! (t0 + 0)
       = Some (mkTensor (Some (s0 + 0)) [6]%N 1 0)
    /\ storages (result_world chain_stored) !! (s0 + 0) = Some (mkStorage 6 1 0).
Proof.
  assert (chain_stored
          = Ok (result_value (new_executor demo) chain_stored, result_world chain_stored))
    as H by (vm_compute; reflexivity).
  destruct (storage_setup_allocates_outputs demo (result_exec chain_inferred)
              (result_world chain_inferred) _ _ H)
    as (vsh & t0 & s0 & Hv & _ & _ & _ & Hall).
  vm_compute in Hv. injection Hv as <-.
  destruct (Hall 0 (mkNodeEntry 2 0 0) eq_refl) as (shp & Hshp & Ho & Ht & Hs).
  vm_compute in Hshp. injection Hshp as <-.
  exists t0, s0. split; [exact Ho|]. split; [exact Ht | exact Hs].
Defined.

(** ** The closures that SetupOpExecs compiles *)

Lemma foldM_Err {A S} (body : A -> S -> M S) xs :
  forall s w e,
    foldM body xs s w = Err e ->
    exists x s1 w1, In x xs /\ body x s1 w1 = Err e.
Proof.
  induction xs as [|x xs IH]; intros s w e H; simpl in H; [done|].
  apply bind_Err in H as [H|(s1 & w1 & _ & H)].
  - exists x, s, w. split; [by left | done].
  - apply IH in H as (y & s2 & w2 & Hin & H). exists y, s2, w2. split; [by right | done].
Qed.

Lemma mapM_idx_Ok {A B} (v : list B) (g : A -> nat) xs w ys w' :
  mapM (fun x => idx_ v (g x)) xs w = Ok (ys, w') ->
  w' = w /\ Forall2 (fun x y => v !! g x = Some y) xs ys.
Proof.
  unfold mapM.
  assert (forall acc w ys w',
            foldM (fun x acc => let* y := idx_ v (g x) in ret (acc ++ [y])) xs acc w
            = Ok (ys, w') ->
            w' = w /\ exists zs, ys = acc ++ zs /\ Forall2 (fun x y => v !! g x = Some y) xs zs)
    as Hgen.
  { clear. induction xs as [|x xs IH]; intros acc w ys w' H; simpl in H.
    - unfold ret in H. injection H as <- <-. split; [done|]. exists [].
      by rewrite app_nil_r.
    - apply bind_Ok in H as (acc1 & w1 & H1 & H).
      apply bind_Ok in H1 as (y & w2 & [Hy ->]%idx_Ok & H1).
      unfold ret in H1. injection H1 as <- <-.
      apply IH in H as (-> & zs & -> & Hall). split; [done|].
      exists (y :: zs). rewrite <- app_assoc. split; [done|]. by constructor. }
  intros H. apply Hgen in H as (-> & zs & -> & Hall). done.
Qed.

Lemma mapM_idx_Err {A B} (v : list B) (g : A -> nat) xs w e :
  mapM (fun x => idx_ v (g x)) xs w = Err e -> e = Undef.
Proof.
  unfold mapM. intros H. apply foldM_Err in H as (x & s1 & w1 & _ & H).
  apply bind_Err in H as [H|(? & ? & _ & H)]; [|done].
  unfold idx_ in H. destruct (v !! g x); [done|]. by injection H as <-.
Qed.

Section Closures.

Context (E : Env).

Lemma op_exec_step_Ok ex nid oe w oe' w' :
  op_exec_step E ex nid oe w = Ok (oe', w') ->
  w' = w
  /\ exists inode,
       idx_nodes (graph_ ex) !! nid = Some inode
       /\ ((is_variable inode = true /\ oe' = oe)
           \/ (is_variable inode = false /\ nid < length oe
               /\ exists c, wired E ex nid inode c /\ oe' = <[nid := c]> oe)).
Proof.
  intros H. pose proof (pure_op_exec_step _ _ _ _ _ _ _ H) as ->. split; [done|].
  unfold op_exec_step in H. cbv zeta in H.
  apply bind_Ok in H as (inode & w1 & [Hn ->]%idx_Ok & H).
  exists inode. split; [done|]. unfold wired, is_variable.
  destruct (op inode) as [o|] eqn:Hop.
  - apply bind_Ok in H as (ins & w1 & [-> Hins]%mapM_idx_Ok & H).
    apply bind_Ok in H as (outs & w1 & [-> Houts]%mapM_idx_Ok & H).
    destruct (lua_compute_code E o) as [code|] eqn:Hc; [|done].
    destruct (lua_eval E _) eqn:He; [done|].
    unfold set_ in H. case_decide; [|done]. unfold ret in H. injection H as <-.
    right. split_and!; [done..|]. eexists. split; [|done].
    exists code, ins, outs. done.
  - unfold ret in H. injection H as <-. by left.
Qed.

Lemma op_exec_step_Err ex nid oe w e :
  op_exec_step E ex nid oe w = Err e ->
  e = Undef
  \/ exists inode o,
       idx_nodes (graph_ ex) !! nid = Some inode /\ op inode = Some o
       /\ fatal_for E o e.
Proof.
  unfold op_exec_step. cbv zeta. intros H.
  apply bind_Err in H as [H|(inode & w1 & [Hn ->]%idx_Ok & H)].
  { left. unfold idx_ in H. destruct (_ !! _); [done|]. by injection H as <-. }
  destruct (op inode) as [o|] eqn:Hop; [|done].
  apply bind_Err in H as [H|(ins & w1 & _ & H)]; [apply mapM_idx_Err in H; by left|].
  apply bind_Err in H as [H|(outs & w2 & _ & H)]; [apply mapM_idx_Err in H; by left|].
  destruct (lua_compute_code E o) as [code|] eqn:Hc.
  - destruct (lua_eval E _) as [what|] eqn:He.
    + right. exists inode, o. split_and!; [done..|]. right.
      exists code, what. unfold fail in H. injection H as <-. done.
    + left. unfold set_ in H. case_decide; [done|]. unfold fail in H. by injection H as <-.
  - right. exists inode, o. split_and!; [done..|]. left.
    unfold fail in H. injection H as <-. done.
Qed.

Lemma SetupOpExecs_wired ex w ex' w' :
  op_execs_ ex = [] ->
  SetupOpExecs E ex w = Ok (ex', w') ->
  ex' = with_op_execs ex (op_execs_ ex')
  /\ length (op_execs_ ex') = num_nodes (graph_ ex)
  /\ forall nid inode,
       idx_nodes (graph_ ex) !! nid = Some inode ->
       exists c, op_execs_ ex' !! nid = Some c /\ wired E ex nid inode c.
Proof.
  intros Hoe H. unfold SetupOpExecs in H. cbv zeta in H.
  apply bind_Ok in H as (u & w1 & _ & H).
  apply bind_Ok in H as (oe & w2 & Hf & H). unfold ret in H. injection H as <- _.
  simpl. split; [done|]. rewrite Hoe in Hf.
  set (n := num_nodes (graph_ ex)) in *.
  eapply (foldM_seq_ind
            (fun k o _ =>
               length o = n
               /\ (forall nid inode, nid < k -> idx_nodes (graph_ ex) !! nid = Some inode ->
                     exists c, o !! nid = Some c /\ wired E ex nid inode c)
               /\ (forall nid, k <= nid -> nid < n -> o !! nid = Some None))) in Hf.
  - destruct Hf as (Hl & Hw & _). split; [done|].
    intros nid inode Hn. apply Hw; [|done]. by eapply lookup_lt_Some.
  - intros k o v o' v' Hk (Hl & Hw & Hrest) Hstep.
    apply op_exec_step_Ok in Hstep
      as (_ & inode & Hn & [[Hv ->]|(Hv & Hlt & c & Hc & ->)]).
    + split_and!; [done | | intros; apply Hrest; lia].
      intros nid inode' Hnid Hn'. destruct (decide (nid = k)) as [->|Hne].
      * assert (inode' = inode) as -> by congruence.
        exists None. split; [by apply Hrest|].
        unfold wired. unfold is_variable in Hv. by destruct (op inode).
      * apply Hw; [lia | done].
    + rewrite length_insert. split_and!; [done | |].
      * intros nid inode' Hnid Hn'. destruct (decide (nid = k)) as [->|Hne].
        -- assert (inode' = inode) as -> by congruence.
           exists c. split; [by apply list_lookup_insert_eq | done].
        -- rewrite list_lookup_insert_ne by done. apply Hw; [lia | done].
      * intros nid Hge Hlt'. rewrite list_lookup_insert_ne by lia. apply Hrest; lia.
  - split_and!; [apply length_resize | intros; lia |].
    intros nid _ Hlt. rewrite lookup_resize by done. by rewrite lookup_nil.
Qed.

End Closures.

(** X12. When [SetupOpExecs] succeeds on an executor without closures,
    [op_execs_] has one slot per node; the slot of a variable is nil, and
    the slot of an operator holds the closure made from the registered
    compute code of that operator (prefixed by "return "), the entries of
    the inputs of the node in order, and the entries of its outputs in
    order.  The entries themselves are left as they were. *)
Theorem closures_wired_to_entries :
  forall (E : Env) (ex : TorchExecutor) (w : World) (ex' : TorchExecutor) (w' : World),
    op_execs_ ex = [] ->
    SetupOpExecs E ex w = Ok (ex', w') ->
    length (op_execs_ ex') = num_nodes (graph_ ex)
    /\ data_entry_ ex' = data_entry_ ex
    /\ forall nid inode,
         idx_nodes (graph_ ex) !! nid = Some inode ->
         exists c, op_execs_ ex' !! nid = Some c /\ wired E ex nid inode c.
Proof.
  intros E ex w ex' w' Hoe H.
  apply SetupOpExecs_wired in H as (Hex & Hl & Hw); [|done].
  split_and!; [done | by rewrite Hex | done].
Qed.

Lemma closures_wired_to_entries_witness :
  exists ex' w' c,
    SetupOpExecs demo (result_value (new_executor demo) chain_stored)
      (result_world chain_stored) = Ok (ex', w')
    /\ op_execs_ ex' !! 1 = Some c
    /\ wired demo (result_value (new_executor demo) chain_stored) 1
         (mkINode (Some "relu"%string) "b" [mkNodeEntry 0 0 0] 1) c.
Proof.
  set (r := SetupOpExecs demo (result_value (new_executor demo) chain_stored)
              (result_world chain_stored)).
  assert (r = Ok (result_value (new_executor demo) r, result_world r)) as H
    by (vm_compute; reflexivity).
  destruct (closures_wired_to_entries demo (result_value (new_executor demo) chain_stored)
              (result_world chain_stored) _ _ eq_refl H) as (_ & _ & Hw).
  destruct (Hw 1 (mkINode (Some "relu"%string) "b" [mkNodeEntry 0 0 0] 1) eq_refl)
    as (c & Hc & Hwc).
  exists (result_value (new_executor demo) r), (result_world r), c.
  split; [exact H|]. split; [exact Hc | exact Hwc].
Defined.

(** X13. A fatal error of [SetupOpExecs] names an operator of the graph
    that has no compute code registered, or whose compute code does not
    evaluate; the only other failure is an access outside a vector.
    Conversely, on an executor without closures whose graph has an
    operator without registered compute code, [SetupOpExecs] fails. *)
Theorem closure_setup_fatal_names_operator :
  forall (E : Env) (ex : TorchExecutor) (w : World),
    (forall e,
       SetupOpExecs E ex w = Err e ->
       e = Undef
       \/ exists nid inode o,
            idx_nodes (graph_ ex) !! nid = Some inode /\ op inode = Some o
            /\ fatal_for E o e)
    /\ (forall nid inode o,
          op_execs_ ex = [] ->
          idx_nodes (graph_ ex) !! nid = Some inode -> op inode = Some o ->
          lua_compute_code E o = None ->
          exists e, SetupOpExecs E ex w = Err e).
Proof.
  intros E ex w. split.
  - intros e H. unfold SetupOpExecs in H. cbv zeta in H.
    apply bind_Err in H as [H|(u & w1 & _ & H)]; [done|].
    apply bind_Err in H as [H|(? & ? & _ & H)]; [|done].
    apply foldM_Err in H as (nid & s1 & w2 & _ & H).
    apply op_exec_step_Err in H as [->|(inode & o & ? & ? & ?)]; [by left|].
    right. by exists nid, inode, o.
  - intros nid inode o Hoe Hn Hop Hc.
    destruct (SetupOpExecs E ex w) as [[ex' w']|e] eqn:H; [|by exists e].
    apply SetupOpExecs_wired in H as (_ & _ & Hw); [|done].
    destruct (Hw nid inode Hn) as (c & _ & Hwc). unfold wired in Hwc.
    rewrite Hop in Hwc. destruct Hwc as (code & ? & ? & Hc' & _). congruence.
Qed.

Lemma closure_setup_fatal_names_operator_witness :
  exists e,
    SetupOpExecs demo_unregistered (result_value (new_executor demo) chain_stored)
      (result_world chain_stored) = Err e
    /\ (e = Undef
        \/ exists nid inode o,
             idx_nodes graph_chain !! nid = Some inode /\ op inode = Some o
             /\ fatal_for demo_unregistered o e).
Proof.
  destruct (closure_setup_fatal_names_operator demo_unregistered
              (result_value (new_executor demo) chain_stored) (result_world chain_stored))
    as [Ha Hb].
  destruct (Hb 1 (mkINode (Some "relu"%string) "b" [mkNodeEntry 0 0 0] 1) "relu"%string
              eq_refl eq_refl eq_refl eq_refl) as [e He].
  exists e. split; [exact He | exact (Ha e He)].
Defined.

(** ** The stages of a run *)

Section RunStages.

Context (E : Env).

Lemma Setup_stages ex inputs w ex' w' :
  Setup E ex inputs w = Ok (ex', w') ->
  exists need exa wa exb wb wc,
    SetupShapeDType E ex inputs w = Ok ((exa, need), wa)
    /\ (if need then SetupStorage E exa wa = Ok (exb, wb) else exb = exa /\ wb = wa)
    /\ op_execs_ exb = op_execs_ ex
    /\ (if bool_decide (length (op_execs_ ex) = 0)
        then SetupOpExecs E exb wb = Ok (ex', wc)
        else ex' = exb /\ wc = wb)
    /\ foldM (copy_input_step ex' inputs) (placeholder_nids_ ex') tt wc = Ok (tt, w').
Proof.
  unfold Setup. intros H.
  apply bind_Ok in H as ([exa need] & wa & H1 & H).
  apply bind_Ok in H as (exb & wb & H2 & H).
  apply bind_Ok in H as (exc & wc & H3 & H).
  apply bind_Ok in H as ([] & wd & H4 & H).
  unfold ret in H. injection H as <- <-. simpl in *.
  pose proof (SetupShapeDType_frame _ _ _ _ _ _ _ H1) as (_ & _ & _ & _ & Hoe & _).
  assert (op_execs_ exb = op_execs_ ex) as Hoe2.
  { destruct need.
    - apply SetupStorage_frame in H2 as (_ & ? & _). congruence.
    - unfold ret in H2. injection H2 as <- _. done. }
  exists need, exa, wa, exb, wb, wc. split_and!; try done.
  - destruct need; [done|]. unfold ret in H2. by injection H2 as <- <-.
  - rewrite <- Hoe2. case_bool_decide; [done|]. unfold ret in H3. by injection H3 as <- <-.
Qed.

Lemma Run_stages ex inputs w outs ex' w' :
  Run E ex inputs w = Ok ((outs, ex'), w') ->
  exists ex1 w1 w2,
    Setup E ex inputs w = Ok (ex1, w1)
    /\ foldM (run_closure_step E ex1) (seq 0 (length (op_execs_ ex1))) tt w1 = Ok (tt, w2)
    /\ foldM (copy_output_step ex1) (seq 0 (length (outputs_ ex1))) [] w2 = Ok (outs, w')
    /\ ex' = with_output_blobs ex1 outs.
Proof.
  unfold Run. intros H.
  apply bind_Ok in H as (ex1 & w1 & H1 & H).
  apply bind_Ok in H as ([] & w2 & H2 & H).
  apply bind_Ok in H as (blobs & w3 & H3 & H).
  unfold ret in H. injection H as <- <- <-. by exists ex1, w1, w2.
Qed.

(** *** The copies of the inputs *)

Lemma copy_input_step_Ok ex inputs nid u w u' w' :
  copy_input_step ex inputs nid u w = Ok (u', w') ->
  exists inode value dst,
    idx_nodes (graph_ ex) !! nid = Some inode
    /\ inputs !! name inode = Some value
    /\ data_entry_ ex !! entry_id (graph_ ex) nid 0 = Some (Some dst)
    /\ w' = mkWorld (tensors w ++ [mkTensor (data value) (shape value)
                                     (dev_mask value) (dtype value)])
                    (storages w) (vstore w)
                    (EvCopy (length (tensors w)) dst :: trace w).
Proof.
  unfold copy_input_step. intros H.
  apply bind_Ok in H as (inode & w1 & [Hn ->]%idx_Ok & H).
  apply bind_Ok in H as (value & w1 & Hv & H).
  unfold map_at in Hv. destruct (inputs !! name inode) as [b|] eqn:Hb; [|done].
  unfold ret in Hv. injection Hv as -> <-.
  apply bind_Ok in H as (src & w1 & Hs & H).
  unfold NewTensorShared in Hs. injection Hs as <- <-.
  apply bind_Ok in H as (dst & w1 & [Hd ->]%idx_Ok & H).
  unfold CopyFromTo in H. destruct dst as [dst|]; [|done].
  unfold log in H. injection H as _ <-. simpl.
  by exists inode, value, dst.
Qed.

Lemma copy_inputs_Ok ex inputs nids :
  forall w w',
    foldM (copy_input_step ex inputs) nids tt w = Ok (tt, w') ->
    exists copies,
      trace w' = rev copies ++ trace w
      /\ Forall2 (input_copy ex inputs w') nids copies
      /\ tensors w `prefix_of` tensors w'
      /\ length (tensors w') = length (tensors w) + length nids
      /\ storages w' = storages w /\ vstore w' = vstore w.
Proof.
  induction nids as [|nid nids IH]; intros w w' H; simpl in H.
  - unfold ret in H. injection H as <-. exists []. split_and!; try done; lia.
  - apply bind_Ok in H as ([] & w1 & H1 & H).
    apply copy_input_step_Ok in H1 as (inode & value & dst & Hn & Hv & Hd & ->).
    apply IH in H as (copies & Htr & Hall & Hpre & Hlen & Hs & Hvs). simpl in *.
    exists (EvCopy (length (tensors w)) dst :: copies). split_and!.
    + rewrite Htr. simpl. by rewrite <- app_assoc.
    + constructor; [|done]. exists inode, value, (length (tensors w)), dst.
      split_and!; try done. eapply prefix_lookup_Some; [|exact Hpre].
      by apply list_lookup_middle.
    + etrans; [|exact Hpre]. by apply prefix_app_r.
    + rewrite Hlen, length_app. simpl. lia.
    + done.
    + done.
Qed.

(** *** The calls of the closures *)

Lemma run_closure_step_Ok ex i u w u' w' :
  run_closure_step E ex i u w = Ok (u', w') ->
  i < length (op_execs_ ex)
  /\ tensors w' = tensors w /\ storages w' = storages w /\ vstore w' = vstore w
  /\ trace w' = (if has_closure (op_execs_ ex) i then [EvClosure i] else []) ++ trace w.
Proof.
  unfold run_closure_step, has_closure. intros H.
  apply bind_Ok in H as (c & w1 & [Hc ->]%idx_Ok & H). rewrite Hc.
  split; [by eapply lookup_lt_Some|].
  destruct c as [cl|].
  - apply bind_Ok in H as (? & w1 & Hl & H). unfold log in Hl. injection Hl as _ <-.
    destruct (closure_run E cl); [|done]. unfold ret in H. by injection H as _ <-.
  - unfold ret in H. by injection H as _ <-.
Qed.

Lemma run_closures_Ok ex n w w' :
  foldM (run_closure_step E ex) (seq 0 n) tt w = Ok (tt, w') ->
  tensors w' = tensors w /\ storages w' = storages w /\ vstore w' = vstore w
  /\ trace w'
     = rev (map EvClosure (List.filter (has_closure (op_execs_ ex)) (seq 0 n))) ++ trace w.
Proof.
  intros H.
  eapply (foldM_seq_ind
            (fun k _ v =>
               tensors v = tensors w /\ storages v = storages w /\ vstore v = vstore w
               /\ trace v
                  = rev (map EvClosure (List.filter (has_closure (op_execs_ ex)) (seq 0 k)))
                    ++ trace w)) in H; [exact H | |].
  - intros k [] v [] v' Hk (Ht & Hs & Hv & Htr) Hstep.
    apply run_closure_step_Ok in Hstep as (_ & Ht' & Hs' & Hv' & Htr').
    split_and!; [congruence.. |].
    rewrite Htr', Htr, seq_S, List.filter_app, map_app, rev_app_distr. simpl.
    destruct (has_closure (op_execs_ ex) k); simpl; done.
  - done.
Qed.

(** *** The copies of the outputs *)

Lemma copy_output_step_Ok ex i blobs w blobs' w' :
  copy_output_step ex i blobs w = Ok (blobs', w') ->
  exists ev b,
    output_copy ex w i ev b
    /\ blobs' = blobs ++ [b]
    /\ w' = mkWorld (tensors w) (storages w) (vstore w) (ev :: trace w).
Proof.
  unfold copy_output_step. cbv zeta. intros H.
  apply bind_Ok in H as (e & w1 & [He ->]%idx_Ok & H).
  apply bind_Ok in H as (src & w1 & [Hs ->]%idx_Ok & H).
  apply bind_Ok in H as (dst & w1 & [Hd ->]%idx_Ok & H).
  apply bind_Ok in H as (u & w1 & Hc & H).
  unfold CopyFromTo in Hc. destruct src as [src|]; [|done]. destruct dst as [dst|]; [|done].
  unfold log in Hc. injection Hc as _ <-.
  apply bind_Ok in H as (b & w1 & Hb & H).
  unfold GetTBlob in Hb. simpl in Hb.
  destruct (tensors w !! dst) as [t|] eqn:Ht; [|done]. injection Hb as <- <-.
  unfold ret in H. injection H as <- <-.
  eexists _, _. split; [|done]. exists e, src, dst, t. done.
Qed.

Lemma copy_outputs_Ok ex n w outs w' :
  foldM (copy_output_step ex) (seq 0 n) [] w = Ok (outs, w') ->
  tensors w' = tensors w /\ storages w' = storages w /\ vstore w' = vstore w
  /\ exists copies,
       trace w' = rev copies ++ trace w
       /\ length copies = n /\ length outs = n
       /\ forall i, i < n ->
            exists ev b, copies !! i = Some ev /\ outs !! i = Some b
                         /\ output_copy ex w i ev b.
Proof.
  intros H.
  eapply (foldM_seq_ind
            (fun k o v =>
               tensors v = tensors w /\ storages v = storages w /\ vstore v = vstore w
               /\ exists copies,
                    trace v = rev copies ++ trace w
                    /\ length copies = k /\ length o = k
                    /\ forall i, i < k ->
                         exists ev b, copies !! i = Some ev /\ o !! i = Some b
                                      /\ output_copy ex w i ev b)) in H; [exact H | |].
  - intros k o v o' v' Hk (Ht & Hs & Hv & copies & Htr & Hlc & Hlo & Hall) Hstep.
    apply copy_output_step_Ok in Hstep as (ev & b & Hcopy & -> & ->). simpl.
    split_and!; try done. exists (copies ++ [ev]). split_and!.
    + rewrite rev_app_distr. simpl. by rewrite Htr.
    + rewrite length_app. simpl. lia.
    + rewrite length_app. simpl. lia.
    + intros i Hi. destruct (decide (i = k)) as [->|Hne].
      * exists ev, b. split_and!.
        -- rewrite <- Hlc. by apply list_lookup_middle.
        -- rewrite <- Hlo. by apply list_lookup_middle.
        -- destruct Hcopy as (e & src & dst & t & ? & ? & ? & Htd & ? & ?).
           exists e, src, dst, t. split_and!; try done. by rewrite <- Ht.
      * destruct (Hall i) as (ev' & b' & ? & ? & ?); [lia|].
        exists ev', b'. split_and!; [by apply lookup_app_l_Some.. | done].
  - split_and!; try done. exists []. split_and!; try done. intros i Hi. lia.
Qed.

(** *** Which events the setup logs *)

Lemma SetupShapeDType_logs Q ex inputs :
  Q EvInferPasses = true ->
  preserves (only_logs Q) (SetupShapeDType E ex inputs).
Proof.
  intros HQ. pose proof (log_only_logs Q _ HQ).
  unfold SetupShapeDType, redo_infer. cbv zeta. pres_tac.
Qed.

Lemma SetupStorage_logs Q ex :
  Q EvSetupStorage = true -> Q EvPlanMemory = true ->
  preserves (only_logs Q) (SetupStorage E ex).
Proof.
  intros HQ1 HQ2.
  pose proof (log_only_logs Q _ HQ1). pose proof (log_only_logs Q _ HQ2).
  unfold SetupStorage. cbv zeta. pres_tac.
Qed.

Lemma SetupOpExecs_logs Q ex :
  Q EvSetupOpExecs = true -> preserves (only_logs Q) (SetupOpExecs E ex).
Proof.
  intros HQ w ex' w' H. apply SetupOpExecs_Ok in H as (oe & _ & _ & ->).
  exists [EvSetupOpExecs]. simpl. by rewrite HQ.
Qed.

Lemma Setup_phases_log Q ex inputs w ex' w' :
  Q EvInferPasses = true -> Q EvSetupStorage = true -> Q EvPlanMemory = true ->
  Q EvSetupOpExecs = true ->
  Setup E ex inputs w = Ok (ex', w') ->
  exists wc,
    only_logs Q w wc
    /\ foldM (copy_input_step ex' inputs) (placeholder_nids_ ex') tt wc = Ok (tt, w').
Proof.
  intros Q1 Q2 Q3 Q4 H.
  apply Setup_stages in H as (need & exa & wa & exb & wb & wc & H1 & H2 & _ & H3 & H4).
  exists wc. split; [|done].
  apply (SetupShapeDType_logs Q) in H1; [|done].
  assert (only_logs Q wa wb) as H2'.
  { destruct need; [by eapply SetupStorage_logs | destruct H2 as [_ ->]; reflexivity]. }
  assert (only_logs Q wb wc) as H3'.
  { case_bool_decide; [by eapply SetupOpExecs_logs | destruct H3 as [_ ->]; reflexivity]. }
  etrans; [exact H1|]. etrans; [exact H2' | exact H3'].
Qed.

Lemma copy_inputs_logs Q ex inputs nids :
  (forall x y, Q (EvCopy x y) = true) ->
  preserves (only_logs Q) (foldM (copy_input_step ex inputs) nids tt).
Proof.
  intros HQ. pose proof (fun a b => CopyFromTo_only_logs Q a b HQ).
  unfold copy_input_step. pres_tac.
Qed.

(** *** The closures *)

Lemma wired_has_closure ex nid inode c oe :
  wired E ex nid inode c -> oe !! nid = Some c ->
  has_closure oe nid = negb (is_variable inode).
Proof.
  unfold wired, has_closure, is_variable. intros Hw ->.
  destruct (op inode); [by destruct Hw as (? & ? & ? & _ & _ & -> & _) | by subst].
Qed.

Lemma SetupOpExecs_closures_ok ex w ex' w' :
  op_execs_ ex = [] -> SetupOpExecs E ex w = Ok (ex', w') -> closures_ok ex'.
Proof.
  intros Hoe H. apply SetupOpExecs_wired in H as (Hex & Hl & Hw); [|done].
  assert (graph_ ex' = graph_ ex) as Hg by (by rewrite Hex).
  unfold closures_ok. rewrite Hg. split; [done|].
  intros nid Hlt. destruct (lookup_lt_is_Some_2 _ _ Hlt) as [inode Hn].
  destruct (Hw nid inode Hn) as (c & Hc & Hwc).
  unfold is_variable_at. rewrite Hn. by eapply wired_has_closure.
Qed.

Lemma Setup_closures_ok ex inputs w ex' w' :
  (op_execs_ ex <> [] -> closures_ok ex) ->
  Setup E ex inputs w = Ok (ex', w') -> closures_ok ex'.
Proof.
  intros Hok H. pose proof (Setup_frame _ _ _ _ _ _ H) as [_ Hg _ _ _ _ _ _ Hfc].
  apply Setup_stages in H as (need & exa & wa & exb & wb & wc & _ & _ & Hoe & H3 & _).
  case_bool_decide as Hlen.
  - eapply SetupOpExecs_closures_ok; [|exact H3].
    rewrite Hoe. by apply length_zero_iff_nil.
  - assert (op_execs_ ex <> []) as Hne.
    { intros Hnil. by rewrite Hnil in Hlen. }
    destruct (Hok Hne) as [Hl Hc]. unfold closures_ok.
    rewrite Hg, (Hfc Hne). done.
Qed.

Lemma closures_ok_filter ex :
  closures_ok ex ->
  List.filter (has_closure (op_execs_ ex)) (seq 0 (length (op_execs_ ex)))
  = operator_nodes (graph_ ex).
Proof.
  intros [Hl Hc]. unfold operator_nodes. rewrite Hl.
  apply List.filter_ext_in. intros nid Hin%in_seq. apply Hc. lia.
Qed.

(** *** The tensors of the outputs *)

Lemma outputs_ok_mono ex ex' w w' :
  node_shape_ ex' = node_shape_ ex -> outputs_ ex' = outputs_ ex ->
  graph_ ex' = graph_ ex -> tensors w `prefix_of` tensors w' ->
  outputs_ok E ex w -> outputs_ok E ex' w'.
Proof.
  intros Hn Ho Hg Hp (vsh & Hvsh & Hl & Hall). exists vsh.
  rewrite Hn, Ho, Hg. split_and!; [done..|].
  intros i e He. destruct (Hall i e He) as (h & t & ? & ? & ? & ? & ?).
  exists h, t. split_and!; try done. by eapply prefix_lookup_Some.
Qed.

Lemma SetupStorage_outputs_ok ex w ex' w' :
  SetupStorage E ex w = Ok (ex', w') -> outputs_ok E ex' w'.
Proof.
  intros H.
  apply SetupStorage_stages in H
    as (vst & vsh & w4 & w5 & pes & w6 & w7 & w8 & Hvst & Hvsh & Hdev & Hg
        & _ & _ & _ & _ & _ & _ & _ & H9).
  apply output_alloc_fold in H9 as (Hlo & Hout & _); [|apply length_resize].
  exists vsh. rewrite Hg. split_and!; [done..|].
  intros i e He. destruct (Hout i) as (e' & shp & He' & Hshp & Ho & Ht & _).
  { by eapply lookup_lt_Some. }
  assert (e' = e) as -> by congruence.
  eexists _, _. split_and!; [exact Ho | exact Ht | done..].
Qed.

Lemma Setup_outputs_ok ex inputs w ex' w' :
  (need_redo_infer ex inputs w = Ok (false, w) -> outputs_ok E ex w) ->
  Setup E ex inputs w = Ok (ex', w') -> outputs_ok E ex' w'.
Proof.
  intros Hok H.
  apply Setup_stages in H as (need & exa & wa & exb & wb & wc & H1 & H2 & _ & H3 & H4).
  assert (outputs_ok E exb wb) as Hb.
  { destruct need; [by eapply SetupStorage_outputs_ok|].
    destruct H2 as [-> ->].
    apply SetupShapeDType_Ok in H1 as (Hn & -> & ->). by apply Hok. }
  assert (outputs_ok E ex' wc) as Hc.
  { case_bool_decide.
    - apply SetupOpExecs_Ok in H3 as (oe & -> & _ & ->).
      by eapply outputs_ok_mono; [..|exact Hb].
    - by destruct H3 as [-> ->]. }
  apply copy_inputs_Ok in H4 as (_ & _ & _ & Hp & _).
  by eapply outputs_ok_mono; [..|exact Hc].
Qed.

Lemma Run_closures_ok ex inputs w outs ex' w' :
  (op_execs_ ex <> [] -> closures_ok ex) ->
  Run E ex inputs w = Ok ((outs, ex'), w') -> closures_ok ex'.
Proof.
  intros Hok H. apply Run_stages in H as (ex1 & w1 & w2 & H1 & _ & _ & ->).
  exact (Setup_closures_ok _ _ _ _ _ Hok H1).
Qed.

Lemma Run_outputs_ok ex inputs w outs ex' w' :
  (need_redo_infer ex inputs w = Ok (false, w) -> outputs_ok E ex w) ->
  Run E ex inputs w = Ok ((outs, ex'), w') -> outputs_ok E ex' w'.
Proof.
  intros Hok H. apply Run_stages in H as (ex1 & w1 & w2 & H1 & H2 & H3 & ->).
  pose proof (Setup_outputs_ok _ _ _ _ _ Hok H1) as Hok1.
  apply run_closures_Ok in H2 as (Ht2 & _).
  apply copy_outputs_Ok in H3 as (Ht3 & _).
  eapply outputs_ok_mono; [done.. | | exact Hok1]. by rewrite Ht3, Ht2.
Qed.

Lemma need_redo_infer_cached ex inputs w :
  need_redo_infer ex inputs w = Ok (false, w) -> node_shape_ ex <> None.
Proof. unfold need_redo_infer. by destruct (node_shape_ ex). Qed.

(** The two invariants are kept by every run of a sequence. *)
Lemma Run_all_invariants runs :
  forall ex w ex' w',
    (op_execs_ ex <> [] -> closures_ok ex) ->
    (node_shape_ ex <> None -> outputs_ok E ex w) ->
    Run_all E ex runs w = Ok (ex', w') ->
    ((op_execs_ ex' <> [] -> closures_ok ex')
     /\ (node_shape_ ex' <> None -> outputs_ok E ex' w'))
    /\ (runs <> [] -> closures_ok ex' /\ outputs_ok E ex' w').
Proof.
  induction runs as [|inputs runs IH]; intros ex w ex' w' Hc Ho H; simpl in H.
  - unfold ret in H. injection H as <- <-. done.
  - apply bind_Ok in H as ([outs ex1] & w1 & H1 & H). simpl in H.
    pose proof (Run_closures_ok _ _ _ _ _ _ Hc H1) as Hc1.
    assert (outputs_ok E ex1 w1) as Ho1.
    { eapply Run_outputs_ok; [|exact H1].
      intros Hn. by apply Ho, (need_redo_infer_cached _ inputs w). }
    destruct (IH ex1 w1 ex' w' (fun _ => Hc1) (fun _ => Ho1) H) as [Hinv Hne].
    split; [done|]. intros _. destruct runs as [|i2 runs].
    + simpl in H. unfold ret in H. injection H as <- <-. done.
    + by apply Hne.
Qed.

End RunStages.

(** X14. [Setup] ends with the copies of the inputs: for each
    placeholder of [placeholder_nids_], in the order of that list, the
    value fed under the name of the placeholder is wrapped in a tensor
    that shares it and copied into the entry of the placeholder.  These
    are the last events of the setup, and the phases before them copy
    nothing. *)
Theorem inputs_copied_into_placeholders :
  forall (E : Env) (ex : TorchExecutor) (inputs : gmap string TBlob) (w : World)
         (ex' : TorchExecutor) (w' : World),
    Setup E ex inputs w = Ok (ex', w') ->
    exists copies l,
      trace w' = rev copies ++ l ++ trace w
      /\ forallb not_copy l = true
      /\ Forall2 (input_copy ex' inputs w') (placeholder_nids_ ex) copies.
Proof.
  intros E ex inputs w ex' w' H.
  pose proof (Setup_frame E _ _ _ _ _ H) as [_ _ _ Hph _ _ _ _ _].
  apply (Setup_phases_log E not_copy) in H as (wc & (l & Hl & Hq) & H); [|done..].
  apply copy_inputs_Ok in H as (copies & Htr & Hall & _).
  exists copies, l. rewrite <- Hph, Htr, Hl. done.
Qed.

Lemma inputs_copied_into_placeholders_witness :
  exists ex' w' copies l,
    Setup demo (result_exec chain_initial) feed_a (result_world chain_initial)
      = Ok (ex', w')
    /\ trace w' = rev copies ++ l ++ [EvInit]
    /\ Forall2 (input_copy ex' feed_a w') [0] copies.
Proof.
  set (r := Setup demo (result_exec chain_initial) feed_a (result_world chain_initial)).
  assert (r = Ok (result_value (new_executor demo) r, result_world r)) as H
    by (vm_compute; reflexivity).
  destruct (inputs_copied_into_placeholders _ _ _ _ _ _ H) as (copies & l & Htr & _ & Hall).
  exists (result_value (new_executor demo) r), (result_world r), copies, l.
  split; [exact H|]. split; [exact Htr | exact Hall].
Defined.

(** X15. A run calls the closure of every node of the graph that is not
    a variable, placeholders included, once and in increasing order of
    node id, and calls nothing for the variables.  The calls come after
    the whole setup, the copies of the inputs included, and before the
    copies of the outputs, which are the last events of the run.  The
    executor may have no closures yet, or closures as [SetupOpExecs]
    leaves them, and has them so afterwards. *)
Theorem closures_run_in_node_order :
  forall (E : Env) (ex : TorchExecutor) (inputs : gmap string TBlob) (w : World)
         (outs : list TBlob) (ex' : TorchExecutor) (w' : World),
    (op_execs_ ex <> [] -> closures_ok ex) ->
    Run E ex inputs w = Ok ((outs, ex'), w') ->
    closures_ok ex'
    /\ exists l_setup l_out,
         trace w'
         = l_out ++ rev (map EvClosure (operator_nodes (graph_ ex))) ++ l_setup ++ trace w
         /\ forallb not_closure l_setup = true
         /\ forallb is_copy l_out = true.
Proof.
  intros E ex inputs w outs ex' w' Hok H.
  split; [by eapply Run_closures_ok|].
  apply Run_stages in H as (ex1 & w1 & w2 & H1 & H2 & H3 & ->).
  pose proof (Setup_closures_ok E _ _ _ _ _ Hok H1) as Hok1.
  pose proof (Setup_frame E _ _ _ _ _ H1) as [_ Hg _ _ _ _ _ _ _].
  apply (Setup_phases_log E not_closure) in H1 as (wc & (l1 & Hl1 & Hq1) & H1); [|done..].
  apply (copy_inputs_logs not_closure) in H1 as (l2 & Hl2 & Hq2); [|done].
  apply run_closures_Ok in H2 as (_ & _ & _ & Htr2).
  apply copy_outputs_Ok in H3 as (_ & _ & _ & copies & Htr3 & Hlc & Hlo & Hall).
  rewrite closures_ok_filter, Hg in Htr2 by done.
  exists (l2 ++ l1), (rev copies). split_and!.
  - by rewrite Htr3, Htr2, Hl2, Hl1, <- !app_assoc.
  - by rewrite forallb_app, Hq1, Hq2.
  - apply forallb_forall. intros ev Hin%in_rev.
    apply list_elem_of_In, list_elem_of_lookup in Hin as [i Hi].
    destruct (Hall i) as (ev' & b & Hev & _ & (? & ? & ? & ? & _ & _ & _ & _ & -> & _)).
    { apply lookup_lt_Some in Hi. lia. }
    assert (ev = EvCopy x0 x1) as -> by congruence. done.
Qed.

Lemma closures_run_in_node_order_witness :
  closures_ok (run_exec chain_first)
  /\ exists l_setup l_out,
       trace (result_world chain_first)
       = l_out ++ [EvClosure 2; EvClosure 1; EvClosure 0] ++ l_setup ++ [EvInit]
       /\ forallb not_closure l_setup = true
       /\ forallb is_copy l_out = true.
Proof.
  assert (chain_first
          = Ok ((run_blobs chain_first, run_exec chain_first), result_world chain_first))
    as H by (vm_compute; reflexivity).
  refine (closures_run_in_node_order demo (result_exec chain_initial) feed_a
            (result_world chain_initial) _ _ _ _ H).
  intros Hne. exfalso. apply Hne. reflexivity.
Defined.

(** X16. A run returns one blob per output of the graph: each lives on
    the CPU with the default element type and has the shape that the
    cached inference result gives to the entry of its output.  This holds
    for every run that redoes inference, the first run of an executor
    among them, and for a run that does not when the output tensors are
    as such a run leaves them, as they are again afterwards. *)
Theorem run_returns_inferred_shapes :
  forall (E : Env) (ex : TorchExecutor) (inputs : gmap string TBlob) (w : World)
         (outs : list TBlob) (ex' : TorchExecutor) (w' : World),
    (need_redo_infer ex inputs w = Ok (false, w) -> outputs_ok E ex w) ->
    Run E ex inputs w = Ok ((outs, ex'), w') ->
    outputs_ok E ex' w'
    /\ output_blobs_ ex' = outs
    /\ length outs = length (idx_outputs (graph_ ex))
    /\ exists vshape,
         node_shape_ ex' = Some vshape
         /\ forall i e,
              idx_outputs (graph_ ex) !! i = Some e ->
              exists b,
                outs !! i = Some b
                /\ vshape !! entry_id (graph_ ex) (node_id e) (index e) = Some (shape b)
                /\ dev_mask b = kCPU E /\ dtype b = default_dtype E.
Proof.
  intros E ex inputs w outs ex' w' Hok H.
  split; [by eapply Run_outputs_ok|].
  apply Run_stages in H as (ex1 & w1 & w2 & H1 & H2 & H3 & ->).
  pose proof (Setup_frame E _ _ _ _ _ H1) as [_ Hg _ _ _ _ _ _ _].
  pose proof (Setup_outputs_ok E _ _ _ _ _ Hok H1) as Hok1.
  apply run_closures_Ok in H2 as (Ht2 & _).
  apply copy_outputs_Ok in H3 as (Ht3 & _ & _ & copies & _ & _ & Hlo & Hall).
  split; [done|].
  destruct Hok1 as (vsh & Hvsh & Hl & Hout). rewrite Hg in *.
  split; [congruence|]. exists vsh. split; [done|].
  intros i e He.
  destruct (Hout i e He) as (h & t & Ho & Ht & Hshp & Hdev & Hdt).
  destruct (Hall i) as (ev & b & _ & Hb & (e' & src & dst & t' & _ & _ & Ho' & Ht' & _ & ->)).
  { rewrite Hl. by eapply lookup_lt_Some. }
  assert (dst = h) as -> by congruence.
  assert (t' = t) as -> by (rewrite Ht2 in Ht'; congruence).
  exists (blob_of t). done.
Qed.

Lemma run_returns_inferred_shapes_witness :
  outputs_ok demo (run_exec chain_first) (result_world chain_first)
  /\ length (run_blobs chain_first) = 1
  /\ exists b, run_blobs chain_first !! 0 = Some b /\ shape b = [6]%N.
Proof.
  assert (chain_first
          = Ok ((run_blobs chain_first, run_exec chain_first), result_world chain_first))
    as H by (vm_compute; reflexivity).
  destruct (run_returns_inferred_shapes demo (result_exec chain_initial) feed_a
              (result_world chain_initial) _ _ _
              ltac:(intros Hn; vm_compute in Hn; discriminate Hn) H)
    as (Hok & _ & Hlen & vsh & Hv & Hall).
  split; [exact Hok|]. split; [exact Hlen|].
  vm_compute in Hv. injection Hv as <-.
  destruct (Hall 0 (mkNodeEntry 2 0 0) eq_refl) as (b & Hb & Hs & _).
  exists b. split; [exact Hb|]. vm_compute in Hs. injection Hs as Hs. exact (eq_sym Hs).
Defined.

(** X17. A run that finds nothing stale allocates no storage and changes
    no variable state: it makes one tensor per placeholder, to share the
    fed value, and nothing else; when the executor has its closures, the
    run changes no member of the executor but [output_blobs_]. *)
Theorem steady_run_allocates_no_storage :
  forall (E : Env) (ex : TorchExecutor) (inputs : gmap string TBlob) (w : World)
         (outs : list TBlob) (ex' : TorchExecutor) (w' : World),
    need_redo_infer ex inputs w = Ok (false, w) ->
    Run E ex inputs w = Ok ((outs, ex'), w') ->
    storages w' = storages w /\ vstore w' = vstore w
    /\ tensors w `prefix_of` tensors w'
    /\ length (tensors w') = length (tensors w) + length (placeholder_nids_ ex)
    /\ (op_execs_ ex <> [] -> ex' = with_output_blobs ex outs).
Proof.
  intros E ex inputs w outs ex' w' Hn H.
  apply Run_stages in H as (ex1 & w1 & w2 & H1 & H2 & H3 & ->).
  pose proof (Setup_frame E _ _ _ _ _ H1) as [_ _ _ Hph _ _ _ _ _].
  apply Setup_stages in H1 as (need & exa & wa & exb & wb & wc & H1 & H1b & _ & H1c & H1d).
  apply SetupShapeDType_Ok in H1 as (Hn' & H1).
  assert (need = false) as -> by congruence.
  destruct H1 as [-> ->]. destruct H1b as [-> ->].
  assert (tensors wc = tensors w /\ storages wc = storages w /\ vstore wc = vstore w
          /\ (op_execs_ ex <> [] -> ex1 = ex)) as (Htc & Hsc & Hvc & Hex).
  { case_bool_decide as Hlen.
    - apply SetupOpExecs_Ok in H1c as (oe & -> & _ & ->). simpl. split_and!; try done.
      intros Hne. exfalso. apply Hne. by apply length_zero_iff_nil.
    - by destruct H1c as [-> ->]. }
  apply copy_inputs_Ok in H1d as (_ & _ & _ & Hp & Hl & Hs1 & Hv1).
  apply run_closures_Ok in H2 as (Ht2 & Hs2 & Hv2 & _).
  apply copy_outputs_Ok in H3 as (Ht3 & Hs3 & Hv3 & _).
  split_and!.
  - congruence.
  - congruence.
  - rewrite Ht3, Ht2, <- Htc. done.
  - rewrite Ht3, Ht2, Hl, Htc, Hph. done.
  - intros Hne. by rewrite (Hex Hne).
Qed.

Lemma steady_run_allocates_no_storage_witness :
  storages (result_world chain_second) = storages (result_world chain_first)
  /\ length (tensors (result_world chain_second))
     = length (tensors (result_world chain_first)) + 1.
Proof.
  assert (chain_second
          = Ok ((run_blobs chain_second, run_exec chain_second), result_world chain_second))
    as H by (vm_compute; reflexivity).
  destruct (steady_run_allocates_no_storage demo (run_exec chain_first) feed_a
              (result_world chain_first) _ _ _
              ltac:(vm_compute; reflexivity) H)
    as (Hs & _ & _ & Hl & _).
  split; [exact Hs | exact Hl].
Defined.

(** X18. Every executor that [Init] and a sequence of one or more runs
    reach has its closures as [SetupOpExecs] leaves them (one slot per
    node, a closure at the nodes that are not variables and only there)
    and its output tensors as the storage setup leaves them (one per
    output of the graph, on the CPU, with the inferred shape of the
    entry of that output). *)
Theorem reachable_executor_invariants :
  forall (E : Env) (sym : Symbol) (states : VarStateMap) (w0 : World)
         (ex0 : TorchExecutor) (states' : VarStateMap) (w1 : World)
         (runs : list (gmap string TBlob)) (ex' : TorchExecutor) (w' : World),
    Init E (new_executor E) sym states w0 = Ok ((ex0, states'), w1) ->
    runs <> [] ->
    Run_all E ex0 runs w1 = Ok (ex', w') ->
    closures_ok ex' /\ outputs_ok E ex' w'.
Proof.
  intros E sym states w0 ex0 states' w1 runs ex' w' HI Hne H.
  apply Init_Ok in HI as (_ & _ & Hoe & Hns & _). simpl in Hoe, Hns.
  eapply (Run_all_invariants E) in H as [_ Hinv]; [by apply Hinv | |].
  - intros Hx. by rewrite Hoe in Hx.
  - intros Hx. by rewrite Hns in Hx.
Qed.

Lemma reachable_executor_invariants_witness :
  exists ex' w',
    Run_all demo (result_exec assign_initial) [feed_x blob_3x4; feed_x blob_4x3]
            (result_world assign_initial) = Ok (ex', w')
    /\ closures_ok ex' /\ outputs_ok demo ex' w'.
Proof.
  set (r := Run_all demo (result_exec assign_initial) [feed_x blob_3x4; feed_x blob_4x3]
              (result_world assign_initial)).
  assert (r = Ok (result_value (new_executor demo) r, result_world r)) as H
    by (vm_compute; reflexivity).
  assert (assign_initial
          = Ok ((result_exec assign_initial,
                 match assign_initial with Ok (_, st, _) => st | Err _ => ∅ end),
                result_world assign_initial)) as HI by (vm_compute; reflexivity).
  exists (result_value (new_executor demo) r), (result_world r).
  split; [exact H|].
  refine (reachable_executor_invariants demo sym_assign ∅ empty_world _ _ _ _ _ _ HI _ H).
  discriminate.
Defined.

(** ** The space of the assigned variables *)

Lemma ResetSpace_post v shp dev dty w v' w' :
  ResetSpace v shp dev dty w = Ok (v', w') ->
  initialized v' = true /\ shape (blob v') = shp /\ dev_mask (blob v') = dev
  /\ dtype (blob v') = dty /\ vstore w' = vstore w.
Proof.
  intros H. destruct (must_realloc v shp dev dty) eqn:Hc.
  - by destruct (ResetSpace_alloc _ _ _ _ _ _ _ Hc H) as (-> & _ & _ & _ & _ & -> & _).
  - rewrite ResetSpace_keep in H by done. injection H as <- <-.
    apply must_realloc_false in Hc as (? & -> & -> & ->). done.
Qed.

Section AssignedSpace.

Context (E : Env).

Lemma redo_infer_Ok ex inputs w ex' w' :
  redo_infer E ex inputs w = Ok (ex', w') ->
  exists sd out,
    infer_seeds ex inputs w = Ok (sd, w)
    /\ infer_passes E (graph_ ex) (fst sd) (snd sd) = Some out
    /\ shape_num_unknown_nodes out = 0 /\ dtype_num_unknown_nodes out = 0
    /\ ex' = with_infer ex (inf_shape out) (inf_dtype out)
    /\ foldM (reset_assigned ex' (inf_shape out) (inf_dtype out)) (assign_var_nids_ ex) tt
             (mkWorld (tensors w) (storages w) (vstore w) (EvInferPasses :: trace w))
       = Ok (tt, w').
Proof.
  unfold redo_infer, infer_seeds. cbv zeta. intros H.
  apply bind_Ok in H as (sd1 & w1 & H1 & H).
  assert (w1 = w) as ->.
  { eapply pure_foldM in H1; [done|]. intros. apply pure_seed_var. }
  apply bind_Ok in H as (sd & w1 & H2 & H).
  assert (w1 = w) as ->.
  { eapply pure_foldM in H2; [done|]. intros. apply pure_seed_placeholder. }
  apply bind_Ok in H as (u & w1 & Hl & H). unfold log in Hl. injection Hl as _ <-.
  destruct (infer_passes E (graph_ ex) sd.1 sd.2) as [out|] eqn:Hp; [|done].
  apply bind_Ok in H as (? & w1 & Hc1 & H).
  pose proof (pure_check _ _ _ _ _ _ Hc1) as ->.
  apply bind_Ok in H as (? & w1 & Hc2 & H).
  pose proof (pure_check _ _ _ _ _ _ Hc2) as ->.
  apply bind_Ok in H as ([] & w1 & Hf & H). unfold ret in H. injection H as <- <-.
  exists sd, out. unfold bind. rewrite H1, H2. split_and!; try done.
  - unfold check in Hc1.
    destruct (decide (shape_num_unknown_nodes out = 0)) as [|Hne]; [done|].
    by rewrite (bool_decide_eq_false_2 _ Hne) in Hc1.
  - unfold check in Hc2.
    destruct (decide (dtype_num_unknown_nodes out = 0)) as [|Hne]; [done|].
    by rewrite (bool_decide_eq_false_2 _ Hne) in Hc2.
Qed.

Lemma reset_assigned_Ok ex sh dt nid u w u' w' :
  reset_assigned ex sh dt nid u w = Ok (u', w') ->
  exists a v',
    node_states_ ex !! nid = Some (Some a)
    /\ a < length (vstore w)
    /\ initialized v' = true
    /\ sh !! entry_id (graph_ ex) nid 0 = Some (shape (blob v'))
    /\ dt !! entry_id (graph_ ex) nid 0 = Some (dtype (blob v'))
    /\ dev_mask (blob v') = dev_mask_ ex
    /\ vstore w' = <[a := v']> (vstore w).
Proof.
  unfold reset_assigned. intros H.
  apply bind_Ok in H as (st & w1 & [Hst ->]%idx_Ok & H).
  destruct st as [a|]; [|done].
  apply bind_Ok in H as (s & w1 & Hs & H).
  unfold at_ in Hs. destruct (sh !! _) as [s0|] eqn:Hsh; [|done].
  unfold ret in Hs. injection Hs as -> <-.
  apply bind_Ok in H as (d & w1 & Hd & H).
  unfold at_ in Hd. destruct (dt !! _) as [d0|] eqn:Hdt; [|done].
  unfold ret in Hd. injection Hd as -> <-.
  apply ResetSpace_at_Ok in H as (v & v' & w1 & Hv & HR & ->).
  apply ResetSpace_post in HR as (Hi & <- & Hdev & <- & Hvs).
  exists a, v'. simpl. rewrite Hvs. split_and!; try done.
  by eapply lookup_lt_Some.
Qed.

Lemma reset_assigned_fold ex sh dt nids :
  forall w w',
    foldM (reset_assigned ex sh dt) nids tt w = Ok (tt, w') ->
    length (vstore w') = length (vstore w)
    /\ forall nid, In nid nids -> assigned_ready ex sh dt w' nids nid.
Proof.
  induction nids as [|x nids IH] using rev_ind; intros w w' H.
  - simpl in H. unfold ret in H. injection H as <-. split; [done | intros ? []].
  - rewrite foldM_app in H. simpl in H.
    apply bind_Ok in H as ([] & w1 & H1 & H).
    apply bind_Ok in H as ([] & w2 & H2 & H). unfold ret in H. injection H as <-.
    apply IH in H1 as [Hlen Hready].
    apply reset_assigned_Ok in H2 as (a & v' & Hst & Hlt & Hi & Hsh & Hdt & Hdev & Hvs).
    split; [by rewrite Hvs, length_insert|].
    assert (assigned_ready ex sh dt w2 (nids ++ [x]) x) as Hx.
    { exists a, v', x. split_and!; try done.
      - rewrite Hvs. by apply list_lookup_insert_eq.
      - apply in_app_iff. right. by left. }
    intros nid [Hin|[<-|[]]]%in_app_iff; [|done].
    destruct (Hready nid Hin) as (a0 & v0 & nid' & Hst0 & Hv0 & Hi0 & Hin' & Hst' & ? & ? & ?).
    destruct (decide (a0 = a)) as [->|Hne].
    + exists a, v', x. split_and!; try done.
      * rewrite Hvs. by apply list_lookup_insert_eq.
      * apply in_app_iff. right. by left.
    + exists a0, v0, nid'. split_and!; try done.
      * rewrite Hvs. by rewrite list_lookup_insert_ne.
      * apply in_app_iff. by left.
Qed.

Lemma SetupStorage_vstore ex w ex' w' :
  SetupStorage E ex w = Ok (ex', w') -> vstore w' = vstore w.
Proof. intros H. by apply SetupStorage_keeps in H. Qed.

End AssignedSpace.

(** X19. A call of [ResetSpace] that succeeds leaves the variable with a
    tensor and with a blob of the requested shape, device and element
    type, whether it had to allocate or not; a second call with the same
    arguments therefore changes neither the variable nor the backend. *)
Theorem ResetSpace_idempotent :
  forall (v : VarState) (shp : TShape) (dev dty : Z) (w : World) (v' : VarState) (w' : World),
    ResetSpace v shp dev dty w = Ok (v', w') ->
    initialized v' = true
    /\ shape (blob v') = shp /\ dev_mask (blob v') = dev /\ dtype (blob v') = dty
    /\ forall w2, ResetSpace v' shp dev dty w2 = Ok (v', w2).
Proof.
  intros v shp dev dty w v' w' H.
  pose proof (ResetSpace_post _ _ _ _ _ _ _ H) as (Hi & Hs & Hd & Ht & _).
  split_and!; try done.
  intros w2. apply ResetSpace_keep, must_realloc_false. done.
Qed.

Lemma ResetSpace_idempotent_witness :
  exists v' w',
    ResetSpace var_3x4 [4; 3]%N 1 0 (result_world assigned_once) = Ok (v', w')
    /\ shape (blob v') = [4; 3]%N
    /\ ResetSpace v' [4; 3]%N 1 0 w' = Ok (v', w').
Proof.
  set (r := ResetSpace var_3x4 [4; 3]%N 1 0 (result_world assigned_once)).
  assert (r = Ok (result_value var_3x4 r, result_world r)) as H
    by (vm_compute; reflexivity).
  destruct (ResetSpace_idempotent _ _ _ _ _ _ _ H) as (_ & Hs & _ & _ & Htwice).
  exists (result_value var_3x4 r), (result_world r).
  split; [exact H|]. split; [exact Hs | apply Htwice].
Defined.

(** X20. After a run that redoes inference, the first run of an executor
    among them, every variable that the graph assigns has a tensor; its
    blob lives on the device of the executor and has the shape and the
    element type that inference gave to the entry of an assigned node
    that points to its state (to this very node, when no other assigned
    node shares the state). *)
Theorem assigned_variables_get_space :
  forall (E : Env) (ex : TorchExecutor) (inputs : gmap string TBlob) (w : World)
         (outs : list TBlob) (ex' : TorchExecutor) (w' : World),
    need_redo_infer ex inputs w = Ok (true, w) ->
    Run E ex inputs w = Ok ((outs, ex'), w') ->
    exists sh dt,
      node_shape_ ex' = Some sh /\ node_dtype_ ex' = Some dt
      /\ forall nid, In nid (assign_var_nids_ ex) ->
           assigned_ready ex' sh dt w' (assign_var_nids_ ex) nid.
Proof.
  intros E ex inputs w outs ex' w' Hn H.
  apply Run_stages in H as (ex1 & w1 & w2 & H1 & H2 & H3 & ->).
  pose proof (Setup_frame E _ _ _ _ _ H1) as [_ Hg Hdev _ _ _ Hns _ _].
  apply Setup_stages in H1 as (need & exa & wa & exb & wb & wc & H1 & H1b & _ & H1c & H1d).
  apply SetupShapeDType_Ok in H1 as (Hn' & H1).
  assert (need = true) as -> by congruence.
  destruct H1 as (out0 & _ & H1).
  apply redo_infer_Ok in H1 as (sd & out & _ & _ & _ & _ & -> & Hf).
  apply reset_assigned_fold in Hf as [_ Hready].
  pose proof (SetupStorage_frame E _ _ _ _ H1b) as (_ & _ & Hsh & Hdt).
  apply SetupStorage_vstore in H1b as Hvb.
  assert (vstore wc = vstore wb /\ node_shape_ ex1 = node_shape_ exb
          /\ node_dtype_ ex1 = node_dtype_ exb) as (Hvc & Hsh1 & Hdt1).
  { case_bool_decide.
    - by apply SetupOpExecs_Ok in H1c as (oe & -> & _ & ->).
    - by destruct H1c as [-> ->]. }
  apply copy_inputs_Ok in H1d as (_ & _ & _ & _ & _ & _ & Hv1).
  apply run_closures_Ok in H2 as (_ & _ & Hv2 & _).
  apply copy_outputs_Ok in H3 as (_ & _ & Hv3 & _).
  exists (inf_shape out), (inf_dtype out). simpl.
  rewrite Hsh1, Hsh, Hdt1, Hdt. split_and!; [done..|].
  intros nid Hin. destruct (Hready nid Hin) as (a & v & nid' & ? & Hv & ? & ? & ? & ? & ? & ?).
  exists a, v, nid'. simpl in *. rewrite Hns, Hg, Hdev. split_and!; try done.
  rewrite Hv3, Hv2, Hv1, Hvc, Hvb. done.
Qed.

Lemma assigned_variables_get_space_witness :
  assigned_ready (run_exec assign_first) [[3; 4]; [3; 4]; [3; 4]]%N [0; 0; 0]%Z
    (result_world assign_first) [0] 0.
Proof.
  assert (assign_first
          = Ok ((run_blobs assign_first, run_exec assign_first), result_world assign_first))
    as H by (vm_compute; reflexivity).
  destruct (assigned_variables_get_space demo (result_exec assign_initial) (feed_x blob_3x4)
              (result_world assign_initial) _ _ _
              ltac:(vm_compute; reflexivity) H)
    as (sh & dt & Hsh & Hdt & Hall).
  vm_compute in Hsh. injection Hsh as <-. vm_compute in Hdt. injection Hdt as <-.
  apply (Hall 0). vm_compute. auto.
Defined.

(** ** The seeds of inference *)

Lemma set_Ok {A} (v : list A) i x w v' w' :
  set_ v i x w = Ok (v', w') -> i < length v /\ v' = <[i := x]> v /\ w' = w.
Proof. unfold set_. case_decide; [by intros [= <- <-] | done]. Qed.

Lemma seed_var_Ok ex nid sh dt w sd w' :
  seed_var ex nid (sh, dt) w = Ok (sd, w') ->
  w' = w
  /\ exists a v,
       node_states_ ex !! nid = Some (Some a) /\ vstore w !! a = Some v
       /\ sd = (<[entry_id (graph_ ex) nid 0 := shape (blob v)]> sh,
                <[entry_id (graph_ ex) nid 0 := dtype (blob v)]> dt).
Proof.
  unfold seed_var. intros H.
  apply bind_Ok in H as (st & w1 & [Hst ->]%idx_Ok & H).
  destruct st as [a|]; [|done].
  apply bind_Ok in H as (v & w1 & Hv & H).
  unfold load in Hv. destruct (vstore w !! a) as [v0|] eqn:Hv0; [|done].
  injection Hv as -> <-.
  apply bind_Ok in H as (sh1 & w1 & (_ & -> & ->)%set_Ok & H).
  apply bind_Ok in H as (dt1 & w1 & (_ & -> & ->)%set_Ok & H).
  unfold ret in H. injection H as <- <-. split; [done|]. by exists a, v.
Qed.

Lemma seed_placeholder_Ok ex inputs nid sh dt w sd w' :
  seed_placeholder ex inputs nid (sh, dt) w = Ok (sd, w') ->
  w' = w
  /\ exists inode value,
       idx_nodes (graph_ ex) !! nid = Some inode /\ inputs !! name inode = Some value
       /\ sd = (<[entry_id (graph_ ex) nid 0 := shape value]> sh,
                <[entry_id (graph_ ex) nid 0 := dtype value]> dt).
Proof.
  unfold seed_placeholder. intros H.
  apply bind_Ok in H as (inode & w1 & [Hn ->]%idx_Ok & H).
  apply bind_Ok in H as (value & w1 & Hv & H).
  unfold map_at in Hv. destruct (inputs !! name inode) as [b|] eqn:Hb; [|done].
  unfold ret in Hv. injection Hv as -> <-.
  apply bind_Ok in H as (sh1 & w1 & (_ & -> & ->)%set_Ok & H).
  apply bind_Ok in H as (dt1 & w1 & (_ & -> & ->)%set_Ok & H).
  unfold ret in H. injection H as <- <-. split; [done|]. by exists inode, value.
Qed.

Lemma seed_var_fold ex nids :
  forall sh dt w sd w',
    length dt = length sh ->
    foldM (seed_var ex) nids (sh, dt) w = Ok (sd, w') ->
    w' = w /\ length (fst sd) = length sh /\ length (snd sd) = length sh
    /\ forall j,
         j < length sh ->
         (exists s d, fst sd !! j = Some s /\ snd sd !! j = Some d
                      /\ seeded_by_variable ex w nids j s d)
         \/ (no_entry_of ex nids j /\ fst sd !! j = sh !! j /\ snd sd !! j = dt !! j).
Proof.
  induction nids as [|x nids IH]; intros sh dt w sd w' Hlen H; simpl in H.
  - unfold ret in H. injection H as <- <-. simpl. split_and!; try done.
    intros j _. right. split_and!; try done. intros ? [].
  - apply bind_Ok in H as ([sh1 dt1] & w1 & H1 & H).
    apply seed_var_Ok in H1 as (-> & a & v & Hst & Hv & [= -> ->]).
    apply IH in H as (-> & Hl1 & Hl2 & Hall); [|by rewrite !length_insert].
    rewrite length_insert in Hl1, Hl2, Hall.
    split_and!; try done. intros j Hj.
    destruct (Hall j Hj) as [(s & d & Hs & Hd & (nid & a' & v' & Hin & ?))|(Hno & Hs & Hd)].
    + left. exists s, d. split_and!; try done. exists nid, a', v'.
      split; [by right | done].
    + destruct (decide (entry_id (graph_ ex) x 0 = j)) as [He|Hne].
      * left. exists (shape (blob v)), (dtype (blob v)). rewrite Hs, Hd, He.
        rewrite !list_lookup_insert_eq by lia. split_and!; try done.
        exists x, a, v. split_and!; try done. by left.
      * right. rewrite Hs, Hd, !list_lookup_insert_ne by done.
        split_and!; try done. intros nid [<-|Hin]; [done | by apply Hno].
Qed.

Lemma seed_placeholder_fold ex inputs nids :
  forall sh dt w sd w',
    length dt = length sh ->
    foldM (seed_placeholder ex inputs) nids (sh, dt) w = Ok (sd, w') ->
    w' = w /\ length (fst sd) = length sh /\ length (snd sd) = length sh
    /\ forall j,
         j < length sh ->
         (exists s d, fst sd !! j = Some s /\ snd sd !! j = Some d
                      /\ seeded_by_placeholder ex inputs nids j s d)
         \/ (no_entry_of ex nids j /\ fst sd !! j = sh !! j /\ snd sd !! j = dt !! j).
Proof.
  induction nids as [|x nids IH]; intros sh dt w sd w' Hlen H; simpl in H.
  - unfold ret in H. injection H as <- <-. simpl. split_and!; try done.
    intros j _. right. split_and!; try done. intros ? [].
  - apply bind_Ok in H as ([sh1 dt1] & w1 & H1 & H).
    apply seed_placeholder_Ok in H1 as (-> & inode & value & Hn & Hv & [= -> ->]).
    apply IH in H as (-> & Hl1 & Hl2 & Hall); [|by rewrite !length_insert].
    rewrite length_insert in Hl1, Hl2, Hall.
    split_and!; try done. intros j Hj.
    destruct (Hall j Hj)
      as [(s & d & Hs & Hd & (nid & inode' & value' & Hin & ?))|(Hno & Hs & Hd)].
    + left. exists s, d. split_and!; try done. exists nid, inode', value'.
      split; [by right | done].
    + destruct (decide (entry_id (graph_ ex) x 0 = j)) as [He|Hne].
      * left. exists (shape value), (dtype value). rewrite Hs, Hd, He.
        rewrite !list_lookup_insert_eq by lia. split_and!; try done.
        exists x, inode, value. split_and!; try done. by left.
      * right. rewrite Hs, Hd, !list_lookup_insert_ne by done.
        split_and!; try done. intros nid [<-|Hin]; [done | by apply Hno].
Qed.

Lemma infer_seeds_Ok ex inputs w sh dt w' :
  infer_seeds ex inputs w = Ok ((sh, dt), w') ->
  w' = w
  /\ length sh = num_node_entries (graph_ ex)
  /\ length dt = num_node_entries (graph_ ex)
  /\ forall j, j < num_node_entries (graph_ ex) ->
       exists s d, sh !! j = Some s /\ dt !! j = Some d /\ seed_at ex inputs w j s d.
Proof.
  unfold infer_seeds. cbv zeta. intros H.
  apply bind_Ok in H as ([sh1 dt1] & w1 & H1 & H).
  apply seed_var_fold in H1 as (-> & Hl1 & Hl2 & Hv); [|by rewrite !length_replicate].
  rewrite length_replicate in Hl1, Hl2, Hv. simpl in *.
  apply seed_placeholder_fold in H as (-> & Hl3 & Hl4 & Hp); [|congruence].
  rewrite Hl1 in Hl3, Hl4, Hp. simpl in *.
  split_and!; try done. intros j Hj.
  destruct (Hp j Hj) as [(s & d & Hs & Hd & Hseed)|(Hno & Hs & Hd)].
  { exists s, d. split_and!; try done. by left. }
  destruct (Hv j Hj) as [(s & d & Hs1 & Hd1 & Hseed)|(Hno1 & Hs1 & Hd1)].
  { exists s, d. split_and!; [congruence.. |]. right. left. done. }
  exists [], (-1)%Z. rewrite Hs, Hd, Hs1, Hd1.
  rewrite !lookup_replicate_2 by done. split_and!; try done. right. right. done.
Qed.

(** ** Failures of inference *)

Section Failures.

Context (E : Env).

Lemma redo_infer_fails ex inputs w sd :
  infer_seeds ex inputs w = Ok (sd, w) ->
  match infer_passes E (graph_ ex) (fst sd) (snd sd) with
  | None => redo_infer E ex inputs w = Err PassError
  | Some out =>
    (shape_num_unknown_nodes out <> 0 ->
     redo_infer E ex inputs w
     = Err (CheckFailed "shape_num_unknown_nodes == 0" msg_shape))
    /\ (shape_num_unknown_nodes out = 0 -> dtype_num_unknown_nodes out <> 0 ->
        redo_infer E ex inputs w
        = Err (CheckFailed "dtype_num_unknown_nodes == 0" msg_type))
  end.
Proof.
  unfold infer_seeds. cbv zeta. intros H.
  apply bind_Ok in H as (sd1 & w1 & H1 & H2).
  assert (w1 = w) as ->.
  { eapply pure_foldM in H1; [done|]. intros. apply pure_seed_var. }
  assert (forall A (k : list TShape * list Z -> M A),
            bind (foldM (seed_var ex) (read_var_nids_ ex)
                    (replicate (num_node_entries (graph_ ex)) ([] : TShape),
                     replicate (num_node_entries (graph_ ex)) (-1)%Z))
                 (fun sd0 => bind (foldM (seed_placeholder ex inputs)
                                     (placeholder_nids_ ex) sd0) k) w
            = k sd w) as Hseed.
  { intros A k. unfold bind. by rewrite H1, H2. }
  unfold redo_infer. cbv zeta.
  destruct (infer_passes E (graph_ ex) sd.1 sd.2) as [out|] eqn:Hp.
  - split.
    + intros Hne. rewrite Hseed. unfold bind, log, check. rewrite Hp.
      by rewrite (bool_decide_eq_false_2 _ Hne).
    + intros Heq Hne. rewrite Hseed. unfold bind, log, check. rewrite Hp.
      rewrite (bool_decide_eq_true_2 _ Heq). simpl.
      by rewrite (bool_decide_eq_false_2 _ Hne).
  - rewrite Hseed. unfold bind, log. by rewrite Hp.
Qed.

Lemma Run_redo_fails ex inputs w e :
  need_redo_infer ex inputs w = Ok (true, w) ->
  redo_infer E ex inputs w = Err e ->
  Run E ex inputs w = Err e.
Proof.
  intros Hn Hr. unfold Run, Setup, SetupShapeDType, bind. rewrite Hn. simpl.
  by rewrite Hr.
Qed.

End Failures.

(** X21. When [SetupShapeDType] redoes inference, the passes run on the
    seeds that the two seeding loops leave and their result is what the
    executor caches, with no unknown shape or type left.  The seeds have
    one slot per entry of the graph; the slot of the entry of a
    placeholder holds the shape and the element type of the value fed
    for it; failing that, the slot of the entry of a read variable holds
    those of the blob of its state; every other slot holds the empty
    shape and the element type -1. *)
Theorem inference_runs_on_seeds :
  forall (E : Env) (ex : TorchExecutor) (inputs : gmap string TBlob) (w : World)
         (ex' : TorchExecutor) (w' : World),
    SetupShapeDType E ex inputs w = Ok ((ex', true), w') ->
    exists sh dt out,
      infer_seeds ex inputs w = Ok ((sh, dt), w)
      /\ infer_passes E (graph_ ex) sh dt = Some out
      /\ shape_num_unknown_nodes out = 0 /\ dtype_num_unknown_nodes out = 0
      /\ node_shape_ ex' = Some (inf_shape out) /\ node_dtype_ ex' = Some (inf_dtype out)
      /\ length sh = num_node_entries (graph_ ex)
      /\ length dt = num_node_entries (graph_ ex)
      /\ forall j, j < num_node_entries (graph_ ex) ->
           exists s d, sh !! j = Some s /\ dt !! j = Some d /\ seed_at ex inputs w j s d.
Proof.
  intros E ex inputs w ex' w' H.
  apply SetupShapeDType_Ok in H as (_ & out0 & _ & H).
  apply redo_infer_Ok in H as ([sh dt] & out & Hs & Hp & Hu1 & Hu2 & -> & _).
  pose proof (infer_seeds_Ok _ _ _ _ _ _ Hs) as (_ & Hl1 & Hl2 & Hall).
  exists sh, dt, out. split_and!; done.
Qed.

Lemma inference_runs_on_seeds_witness :
  exists sh dt,
    infer_seeds (result_exec assign_initial) (feed_x blob_3x4) (result_world assign_initial)
    = Ok ((sh, dt), result_world assign_initial)
    /\ exists s d, sh !! 1 = Some s /\ dt !! 1 = Some d
         /\ seed_at (result_exec assign_initial) (feed_x blob_3x4)
              (result_world assign_initial) 1 s d.
Proof.
  assert (SetupShapeDType demo (result_exec assign_initial) (feed_x blob_3x4)
            (result_world assign_initial)
          = Ok ((result_exec assign_inferred, true), result_world assign_inferred)) as H
    by (vm_compute; reflexivity).
  destruct (inference_runs_on_seeds _ _ _ _ _ _ H)
    as (sh & dt & out & Hs & _ & _ & _ & _ & _ & _ & _ & Hall).
  exists sh, dt. split; [exact Hs|]. apply Hall. vm_compute. lia.
Defined.

(** X22. When a run has to redo inference and the seeding succeeds, an
    inference that raises ends the run with that error; an inference
    that leaves a shape unknown ends it with the check on
    [shape_num_unknown_nodes] and its message; and one that leaves only
    an element type unknown ends it with the check on
    [dtype_num_unknown_nodes] and its message. *)
Theorem incomplete_inference_fails :
  forall (E : Env) (ex : TorchExecutor) (inputs : gmap string TBlob) (w : World)
         (sd : list TShape * list Z),
    need_redo_infer ex inputs w = Ok (true, w) ->
    infer_seeds ex inputs w = Ok (sd, w) ->
    match infer_passes E (graph_ ex) (fst sd) (snd sd) with
    | None => Run E ex inputs w = Err PassError
    | Some out =>
      (shape_num_unknown_nodes out <> 0 ->
       Run E ex inputs w = Err (CheckFailed "shape_num_unknown_nodes == 0" msg_shape))
      /\ (shape_num_unknown_nodes out = 0 -> dtype_num_unknown_nodes out <> 0 ->
          Run E ex inputs w = Err (CheckFailed "dtype_num_unknown_nodes == 0" msg_type))
    end.
Proof.
  intros E ex inputs w sd Hn Hs.
  pose proof (redo_infer_fails E _ _ _ _ Hs) as H.
  destruct (infer_passes E (graph_ ex) sd.1 sd.2) as [out|].
  - destruct H as [H1 H2]. split.
    + intros Hne. by apply Run_redo_fails, H1.
    + intros Heq Hne. by apply Run_redo_fails, H2.
  - by apply Run_redo_fails.
Qed.

Lemma incomplete_inference_fails_witness :
  Run demo (result_exec unknown_initial) feed_a (result_world unknown_initial)
  = Err (CheckFailed "shape_num_unknown_nodes == 0" msg_shape).
Proof.
  pose proof (incomplete_inference_fails demo (result_exec unknown_initial) feed_a
                (result_world unknown_initial)
                (result_value ([], []) (infer_seeds (result_exec unknown_initial) feed_a
                                          (result_world unknown_initial)))
                ltac:(vm_compute; reflexivity) ltac:(vm_compute; reflexivity)) as H.
  destruct (infer_passes demo _ _ _) as [out|] eqn:Hp; [|vm_compute in Hp; discriminate Hp].
  apply (proj1 H). vm_compute in Hp. injection Hp as <-. simpl. lia.
Defined.

(** ** What the staleness scan decides *)

Lemma check_read_vars_at_node ex ns nd nids w r w' :
  node_shape_ ex = Some ns -> node_dtype_ ex = Some nd ->
  check_read_vars ex ns nd nids w = Ok (r, w') ->
  r = existsb (var_differs_at_node ex w) nids.
Proof.
  intros Hns Hnd. induction nids as [|nid rest IH]; intros H; simpl in *.
  - by injection H as <- _.
  - unfold bind, idx_, load, check, at_, ret, fail in H.
    unfold var_differs_at_node at 1, cached_entry. rewrite Hns, Hnd.
    destruct (node_states_ ex !! nid) as [[a|]|]; [|done..].
    destruct (vstore w !! a) as [v|]; [|done].
    destruct (initialized v); [|done].
    destruct (ns !! nid) as [s|]; [|done].
    case_bool_decide as Hs; simpl in H.
    + destruct (nd !! nid) as [d|]; [|done].
      case_bool_decide as Hd; simpl in H.
      * subst. rewrite bool_decide_eq_true_2 by done. simpl. by apply IH.
      * injection H as <- _. rewrite bool_decide_eq_false_2; [done|]. congruence.
    + injection H as <- _.
      destruct (nd !! nid); [|done].
      rewrite bool_decide_eq_false_2; [done|]. congruence.
Qed.

(** X23. A staleness scan that completes changes nothing and asks for
    re-inference exactly when no inference result is cached, or the blob
    of some read variable differs in shape or element type from the
    cached vectors at the node id of the variable, or the value fed for
    some placeholder differs in shape or element type from the cached
    vectors at the entry id of the placeholder. *)
Theorem staleness_scan_decides :
  forall (ex : TorchExecutor) (inputs : gmap string TBlob) (w : World) (r : bool) (w' : World),
    need_redo_infer ex inputs w = Ok (r, w') ->
    w' = w
    /\ r = bool_decide (node_shape_ ex = None)
           || existsb (var_differs_at_node ex w) (read_var_nids_ ex)
           || existsb (placeholder_differs ex inputs) (placeholder_nids_ ex).
Proof.
  intros ex inputs w r w' H.
  split; [exact (pure_need_redo_infer _ _ _ _ _ H)|].
  unfold need_redo_infer in H.
  destruct (node_shape_ ex) as [ns|] eqn:Hns; [|by injection H as <- _].
  destruct (node_dtype_ ex) as [nd|] eqn:Hnd; [|done].
  rewrite bool_decide_eq_false_2 by done. simpl.
  apply bind_Ok in H as (r1 & w1 & H1 & H).
  pose proof (pure_check_read_vars _ _ _ _ _ _ _ H1) as ->.
  apply (check_read_vars_at_node _ _ _ _ _ _ _ Hns Hnd) in H1. rewrite <- H1.
  destruct r1; simpl; [by injection H as <- _|].
  by apply (check_placeholders_spec _ _ _ _ _ _ _ _ Hns Hnd) in H.
Qed.

Lemma staleness_scan_decides_witness :
  split_world = split_world
  /\ true = bool_decide (node_shape_ (cached_exec split_session 6) = None)
            || existsb (var_differs_at_node (cached_exec split_session 6) split_world)
                 (read_var_nids_ (cached_exec split_session 6))
            || existsb (placeholder_differs (cached_exec split_session 6) (feed_p blob_4x3))
                 (placeholder_nids_ (cached_exec split_session 6)).
Proof.
  apply (staleness_scan_decides (cached_exec split_session 6) (feed_p blob_4x3)
           split_world true split_world).
  vm_compute. reflexivity.
Defined.
